(** * Convective-source reconstruction (STC-back/convsrc2Back.py)

    A shallow embedding of the grid rasterizer [line], the time-slice
    generator [get_slice_part], the termination handlers [exiter] and
    [radada], the detrainment engine [detrainer] and the hourly sweeps of
    [main], together with the properties the specification states about
    them.

    Conventions of the embedding:
    - numba [int64] values are integers in [Z] with the two's-complement
      wrap-around written out ([wrap64]);
    - float64 values are idealised as real numbers ([R]); rounding,
      overflow, underflow and NaN are outside the model;
    - numpy arrays are lists; an index is resolved by [resolve], which
      wraps a negative index once (as numpy does) and fails outside the
      array; a failing access makes the whole call fail ([None]). *)

From Stdlib Require Import ZArith List Reals Zfloor Lra Lia Bool.
From stdpp Require Import base list relations.
Import ListNotations.

Open Scope Z_scope.

(** ** Machine integers *)

Definition wrap64 (z : Z) : Z := (z + 2 ^ 63) mod 2 ^ 64 - 2 ^ 63.

Definition in_int64 (z : Z) : Prop := - 2 ^ 63 <= z < 2 ^ 63.

(** ** The grid rasterizer: [line] *)

Module Rasterizer.

(** [points = np.empty(shape=(40,2))]: the number of rows of the buffer. *)
Definition buffer_rows : nat := 40.

(** The loop [while x != x1] of the branch [dx > dy].  [rows] is the number
    of rows of [points] at or after the write index [i].  Each turn writes
    row [i]; leaving the loop writes row [i] with [(x1, y1)].  A write with
    no row left falls outside the buffer and the call fails.  The result is
    the slice [points[:i+1]]. *)
Fixpoint walk_x (rows : nat) (x1 y1 dx2 dy2 sx sy x y err : Z)
  : option (list (Z * Z)) :=
  match rows with
  | O => None
  | S rows' =>
      if x =? x1 then Some [(x1, y1)]
      else
        let err1 := wrap64 (err - dy2) in
        let y' := if err1 <? 0 then wrap64 (y + sy) else y in
        let err2 := if err1 <? 0 then wrap64 (err1 + dx2) else err1 in
        cons (x, y) <$> walk_x rows' x1 y1 dx2 dy2 sx sy (wrap64 (x + sx)) y' err2
  end.

(** The loop [while y != y1] of the branch [dx <= dy]. *)
Fixpoint walk_y (rows : nat) (x1 y1 dx2 dy2 sx sy x y err : Z)
  : option (list (Z * Z)) :=
  match rows with
  | O => None
  | S rows' =>
      if y =? y1 then Some [(x1, y1)]
      else
        let err1 := wrap64 (err - dx2) in
        let x' := if err1 <? 0 then wrap64 (x + sx) else x in
        let err2 := if err1 <? 0 then wrap64 (err1 + dy2) else err1 in
        cons (x, y) <$> walk_y rows' x1 y1 dx2 dy2 sx sy x' (wrap64 (y + sy)) err2
  end.

Definition line (x0 y0 x1 y1 : Z) : option (list (Z * Z)) :=
  if (x0 =? x1) && (y0 =? y1) then Some [(x0, y0)]
  else
    let dx := wrap64 (Z.abs (wrap64 (x1 - x0))) in
    let dy := wrap64 (Z.abs (wrap64 (y1 - y0))) in
    let dx2 := wrap64 (2 * dx) in
    let dy2 := wrap64 (2 * dy) in
    let sx := if x0 <? x1 then 1 else -1 in
    let sy := if y0 <? y1 then 1 else -1 in
    if dy <? dx
    then walk_x buffer_rows x1 y1 dx2 dy2 sx sy x0 y0 dx
    else walk_y buffer_rows x1 y1 dx2 dy2 sx sy x0 y0 dy.

(** Chebyshev distance between the end points. *)
Definition separation (x0 y0 x1 y1 : Z) : Z :=
  Z.max (Z.abs (x1 - x0)) (Z.abs (y1 - y0)).

(** Two cells are neighbours in the 8-connected sense (or equal). *)
Definition adjacent (p q : Z * Z) : Prop :=
  Z.abs (q.1 - p.1) <= 1 /\ Z.abs (q.2 - p.2) <= 1.

Fixpoint connected8 (l : list (Z * Z)) : Prop :=
  match l with
  | p :: t => match t with
              | q :: _ => adjacent p q /\ connected8 t
              | [] => True
              end
  | [] => True
  end.

Definition swap (p : Z * Z) : Z * Z := (p.2, p.1).

End Rasterizer.

(** ** numpy arrays *)

(** An index into an array of length [n]: a negative index counts from the
    end, anything outside [[-n, n)] is out of bounds. *)
Definition resolve (n : nat) (i : Z) : option nat :=
  if (0 <=? i) && (i <? Z.of_nat n) then Some (Z.to_nat i)
  else if (- Z.of_nat n <=? i) && (i <? 0) then Some (Z.to_nat (i + Z.of_nat n))
  else None.

(** [a[i]] *)
Definition aget {A} (a : list A) (i : Z) : option A :=
  k ← resolve (length a) i; a !! k.

(** [a[i] = v] *)
Definition aset {A} (a : list A) (i : Z) (v : A) : option (list A) :=
  k ← resolve (length a) i; Some (<[k := v]> a).

(** [a[r, i]] and [a[r, i] = v] for a row [r] given as a literal. *)
Definition aget2 {A} (a : list (list A)) (r : nat) (i : Z) : option A :=
  row ← a !! r; aget row i.

Definition aset2 {A} (a : list (list A)) (r : nat) (i : Z) (v : A)
  : option (list (list A)) :=
  row ← a !! r; row' ← aset row i v; Some (<[r := row']> a).

(** [for i in range(...)] over a state, stopping at the first failure. *)
Fixpoint for_each {S} (body : nat -> S -> option S) (l : list nat) (s : S)
  : option S :=
  match l with
  | [] => Some s
  | i :: l' => body i s ≫= for_each body l'
  end.

Definition for_range {S} (n : nat) (body : nat -> S -> option S) (s : S)
  : option S :=
  for_each body (seq 0 n) s.

Definition rsum (l : list R) : R := fold_right Rplus 0%R l.

Definition rsum2 (a : list (list R)) : R := rsum (rsum <$> a).

(** ** The parcel table and the handlers that mutate it *)

Module Parcels.

Definition I_DEAD : Z := 0x200000.
Definition I_HIT : Z := 0x400000.
Definition I_OLD : Z := 0x800000.
Definition I_CROSSED : Z := 0x2000000.
Definition I_DBORNE : Z := 0x1000000.
Definition I_STOP : Z := I_HIT + I_DEAD.

Definition lowpcut : Z := 3000.
Definition highpcut : Z := 50000.

(** [prod0['src']]: five arrays of shape [(6, numpart)]. *)
Record milestones := Milestones {
  src_x : list (list R);
  src_y : list (list R);
  src_p : list (list R);
  src_t : list (list R);
  src_age : list (list R) }.

(** [prod0]. *)
Record prod := Prod {
  flag_source : list Z;
  chi : list R;
  passed : list Z;
  src : milestones;
  source : list (list R);
  pl : list R }.

(** A trajectory snapshot [partStep[hour]]. *)
Record snapshot := Snapshot {
  snap_x : list R;
  snap_y : list R;
  snap_p : list R;
  snap_t : list R;
  snap_idx_back : list Z;
  snap_itime : Z }.

(** The launch table [part0], as far as the handlers read it. *)
Record launch := Launch {
  launch_x : list R;
  launch_y : list R;
  launch_p : list R;
  launch_t : list R;
  ir_start : list Z }.

Definition set_flag (st : prod) (f : list Z) : prod :=
  Prod f (chi st) (passed st) (src st) (source st) (pl st).
Definition set_chi (st : prod) (c : list R) : prod :=
  Prod (flag_source st) c (passed st) (src st) (source st) (pl st).
Definition set_passed (st : prod) (ps : list Z) : prod :=
  Prod (flag_source st) (chi st) ps (src st) (source st) (pl st).
Definition set_src (st : prod) (m : milestones) : prod :=
  Prod (flag_source st) (chi st) (passed st) m (source st) (pl st).
Definition set_source (st : prod) (a : list (list R)) : prod :=
  Prod (flag_source st) (chi st) (passed st) (src st) a (pl st).
Definition set_pl (st : prod) (a : list R) : prod :=
  Prod (flag_source st) (chi st) (passed st) (src st) (source st) a.

(** The five assignments [xc[k,i0] = ..; yc[k,i0] = ..; pc[k,i0] = ..;
    tc[k,i0] = ..; age[k,i0] = ..] that archive one milestone. *)
Definition archive (k : nat) (i0 : Z) (vx vy vp vt vage : R) (m : milestones)
  : option milestones :=
  ax ← aset2 (src_x m) k i0 vx;
  ay ← aset2 (src_y m) k i0 vy;
  ap ← aset2 (src_p m) k i0 vp;
  at_ ← aset2 (src_t m) k i0 vt;
  aa ← aset2 (src_age m) k i0 vage;
  Some (Milestones ax ay ap at_ aa).

(** [flag[i0] |= bits] *)
Definition or_flag (i0 : Z) (bits : Z) (flag : list Z) : option (list Z) :=
  f ← aget flag i0; aset flag i0 (Z.lor f bits).

Section Handlers.
(** The origin of the parcel identifiers (module global [IDX_ORGN]). *)
Variable IDX_ORGN : Z.

(** *** [exiter] *)

(** The domain box [rr = [[x_min, x_max], [y_min, y_max]]]. *)
Record box := Box { rr00 : R; rr01 : R; rr10 : R; rr11 : R }.

Definition excode (rr : box) (x y p : R) : Z :=
  if Rlt_dec y (rr10 rr + 4) then 6
  else if Rlt_dec x (rr00 rr + 4) then 3
  else if Rgt_dec y (rr11 rr - 4) then 4
  else if Rgt_dec x (rr01 rr - 4) then 5
  else if Rgt_dec p (IZR (highpcut - 150)) then 1
  else if Rlt_dec p (IZR (lowpcut + 15)) then 2
  else 7.

(** The loop body the two termination handlers share: [exiter] computes
    the reason code from the position, [radada] uses the code 8. *)
Definition terminate_body (code : R -> R -> R -> Z) (itime : Z)
    (x y p t : list R) (idx_back : list Z) (irs : list Z)
    (i : nat) (acc : prod * Z) : option (prod * Z) :=
  let '(st, nexits) := acc in
  ib ← idx_back !! i;
  let i0 := ib - IDX_ORGN in
  f ← aget (flag_source st) i0;
  if Z.land f I_DEAD =? 0 then
    xi ← x !! i; yi ← y !! i; ti ← t !! i; pi ← p !! i;
    start ← aget irs i0;
    m ← archive 0 i0 xi yi pi ti (IZR (start - itime)) (src st);
    fl ← or_flag i0 (Z.shiftl (code xi yi pi) 13 + I_DEAD + I_CROSSED)
           (flag_source st);
    Some (set_flag (set_src st m) fl, nexits + 1)
  else Some (st, nexits).

Definition exiter_body (itime : Z) (x y p t : list R) (idx_back : list Z)
    (irs : list Z) (rr : box) : nat -> prod * Z -> option (prod * Z) :=
  terminate_body (excode rr) itime x y p t idx_back irs.

Definition exiter (itime : Z) (x y p t : list R) (idx_back : list Z)
    (st : prod) (irs : list Z) (rr : box) : option (prod * Z) :=
  for_range (length x) (exiter_body itime x y p t idx_back irs rr) (st, 0).

(** *** [radada] *)

Definition radada_body (itime : Z) (x y p t : list R) (idx_back : list Z)
    (irs : list Z) : nat -> prod * Z -> option (prod * Z) :=
  terminate_body (fun _ _ _ => 8) itime x y p t idx_back irs.

Definition radada (itime : Z) (x y p t : list R) (idx_back : list Z)
    (st : prod) (irs : list Z) : option (prod * Z) :=
  for_range (length x) (radada_body itime x y p t idx_back irs) (st, 0).

(** *** [detrainer] *)

(** [int(math.floor((v - origin)/d + 0.5))]: the nearest grid cell. *)
Definition nearest (v origin d : R) : Z :=
  Zfloor ((v - origin) / d + 1 / 2)%R.

(** The mean of [udr[hyb, ll[j][1], ll[j][0]]] over the cells of the path.
    The field is read without bounds check: a total function of the
    three indices. *)
Definition path_mean (udr : Z -> Z -> Z -> R) (h : Z) (ll : list (Z * Z)) : R :=
  (fold_left (fun acc c => acc + udr h c.2 c.1) ll 0 / INR (length ll))%R.

(** [a[ym, xm] += v] and [a[k] += v]. *)
Definition add2 (a : list (list R)) (ym xm : Z) (v : R) : option (list (list R)) :=
  r ← resolve (length a) ym;
  row ← a !! r;
  old ← aget row xm;
  row' ← aset row xm (old + v)%R;
  Some (<[r := row']> a).

Definition add1 (a : list R) (k : Z) (v : R) : option (list R) :=
  old ← aget a k; aset a k (old + v)%R.

(** The parts of the detrainer's arguments that it only reads. *)
Record slice := Slice {
  sl_itime : Z;
  sl_xi : list R; sl_yi : list R; sl_pi : list R; sl_ti : list R;
  sl_hyb : list Z;
  sl_xf : list R; sl_yf : list R;
  sl_idx_back : list Z }.

Record grid := Grid {
  udr : Z -> Z -> Z -> R;
  Lo1 : R; La1 : R; dlo : R; dla : R;
  xshift : Z; yshift : Z;
  (** [int(mask[ym, xm])] *)
  mask : Z -> Z -> Z }.

(** One rung of the ratchet:
    [if passed[i0] == from: if chi[i0] < thr: ...archive into slot k...;
     passed[i0] = to; nhits[k] += 1], the first rung also doing
    [flag[i0] |= I_HIT]. *)
Definition rung (k : nat) (from to : Z) (thr : R) (hit : bool)
    (sl : slice) (irs : list Z) (i : nat) (i0 : Z)
    (acc : prod * list Z) : option (prod * list Z) :=
  let '(st, nhits) := acc in
  ps ← aget (passed st) i0;
  if ps =? from then
    c ← aget (chi st) i0;
    if Rlt_dec c thr then
      vx ← sl_xi sl !! i; vy ← sl_yi sl !! i;
      vp ← sl_pi sl !! i; vt ← sl_ti sl !! i;
      start ← aget irs i0;
      m ← archive k i0 vx vy vp vt (IZR (start - sl_itime sl)) (src st);
      fl ← (if hit then or_flag i0 I_HIT (flag_source st)
            else Some (flag_source st));
      pa ← aset (passed st) i0 to;
      h ← nhits !! k;
      Some (set_passed (set_flag (set_src st m) fl) pa, <[k := h + 1]> nhits)
    else Some acc
  else Some acc.

Definition ratchet (sl : slice) (irs : list Z) (i : nat) (i0 : Z)
    (acc : prod * list Z) : option (prod * list Z) :=
  acc1 ← rung 1 10 9 (9 / 10) true sl irs i i0 acc;
  acc2 ← rung 2 9 7 (7 / 10) false sl irs i i0 acc1;
  acc3 ← rung 3 7 5 (5 / 10) false sl irs i i0 acc2;
  acc4 ← rung 4 5 3 (3 / 10) false sl irs i i0 acc3;
  rung 5 3 1 (1 / 10) false sl irs i i0 acc4.

(** [min(n-1, max(0, int(0.5*(ig+fg)) + shift))] *)
Definition mid_cell (n ig fg shift : Z) : Z :=
  Z.min (n - 1) (Z.max 0 (wrap64 (Z.quot (wrap64 (ig + fg)) 2 + shift))).

(** The grid cells [(xig, yig, xfg, yfg)] nearest to the start and the end
    of the parcel at position [i]. *)
Definition grid_cells (sl : slice) (g : grid) (i : nat) : option (Z * Z * Z * Z) :=
  xi ← sl_xi sl !! i; yi ← sl_yi sl !! i;
  xf ← sl_xf sl !! i; yf ← sl_yf sl !! i;
  Some (nearest xi (Lo1 g) (dlo g), nearest yi (La1 g) (dla g),
        nearest xf (Lo1 g) (dlo g), nearest yf (La1 g) (dla g)).

Definition detrainer_body (sl : slice) (g : grid) (irs : list Z)
    (detr_offset : R) (nlat nlon : Z) (i : nat)
    (acc : prod * list Z) : option (prod * list Z) :=
  let '(st, nhits) := acc in
  ib ← sl_idx_back sl !! i;
  let i0 := ib - IDX_ORGN in
  f ← aget (flag_source st) i0;
  if Z.land f I_DEAD =? 0 then
    '(xig, yig, xfg, yfg) ← grid_cells sl g i;
    ll ← Rasterizer.line xig yig xfg yfg;
    h ← sl_hyb sl !! i;
    let detr := path_mean (udr g) h ll in
    if Rge_dec detr detr_offset then
      c ← aget (chi st) i0;
      let newchi := (c * exp (- 3600 * detr))%R in
      let xm := mid_cell nlon xig xfg (xshift g) in
      let ym := mid_cell nlat yig yfg (yshift g) in
      so ← add2 (source st) ym xm (c - newchi);
      pl' ← add1 (pl st) (mask g ym xm) (c - newchi);
      ch ← aset (chi st) i0 newchi;
      let st1 := set_chi (set_pl (set_source st so) pl') ch in
      ps ← aget (passed st1) i0;
      if 1 <? ps then ratchet sl irs i i0 (st1, nhits)
      else Some (st1, nhits)
    else Some acc
  else Some acc.

Definition detrainer (sl : slice) (g : grid) (irs : list Z)
    (detr_offset : R) (st : prod) : option (prod * list Z) :=
  row0 ← source st !! 0%nat;
  for_range (length (sl_xi sl))
    (detrainer_body sl g irs detr_offset
       (Z.of_nat (length (source st))) (Z.of_nat (length row0)))
    (st, [0; 0; 0; 0; 0; 0]).

(** *** The hourly sweeps of [main] *)

(** Positions of the true entries: [np.where(m)]. *)
Definition np_where (m : list bool) : list nat :=
  filter (fun j => m !! j = Some true) (seq 0 (length m)).

(** [IIold_o] at one position of [partante]. *)
Definition old_test (age_bound : R) (pa : snapshot) (irs : list Z)
    (st : prod) (ib : Z) : option bool :=
  start ← aget irs (ib - IDX_ORGN);
  f ← aget (flag_source st) (ib - IDX_ORGN);
  Some ((if Rgt_dec (IZR (start - snap_itime pa))
                    ((age_bound - 25 / 100) * 86400)
         then true else false)
        && (Z.land f I_STOP =? 0)).

(** The assignments of the age sweep at one selected position [j]; the
    right-hand sides read the table [st0] as it was before the sweep. *)
Definition age_sweep_body (pa : snapshot) (irs : list Z) (st0 : prod)
    (j : nat) (st : prod) : option prod :=
  ib ← snap_idx_back pa !! j;
  let i0 := ib - IDX_ORGN in
  f0 ← aget (flag_source st0) i0;
  fl ← aset (flag_source st) i0 (Z.lor f0 (I_DEAD + I_OLD));
  vx ← snap_x pa !! j; vy ← snap_y pa !! j;
  vp ← snap_p pa !! j; vt ← snap_t pa !! j;
  start ← aget irs i0;
  m ← archive 0 i0 vx vy vp vt (IZR (start - snap_itime pa) / 86400)%R (src st);
  Some (set_flag (set_src st m) fl).

Definition age_sweep (age_bound : R) (pa : snapshot) (irs : list Z)
    (st : prod) : option (prod * nat) :=
  IIold_o ← mapM (old_test age_bound pa irs st) (snap_idx_back pa);
  let j_IIold_o := np_where IIold_o in
  st' ← for_each (age_sweep_body pa irs st) j_IIold_o st;
  Some (st', length j_IIold_o).

(** [np.arange(a, b)] and [np.in1d(a, b)]. *)
Definition arange (a b : Z) : list Z :=
  (fun k => a + Z.of_nat k) <$> seq 0 (Z.to_nat (b - a)).

Definition in1d (a b : list Z) : list bool :=
  (fun v => bool_decide (v ∈ b)) <$> a.

Definition deadborne_body (p0 : launch) (st0 : prod) (idx_deadborne : list Z)
    (j : nat) (st : prod) : option prod :=
  ib ← idx_deadborne !! j;
  let i0 := ib - IDX_ORGN in
  f0 ← aget (flag_source st0) i0;
  fl ← aset (flag_source st) i0 (Z.lor f0 (I_DEAD + I_DBORNE));
  vx ← aget (launch_x p0) i0; vy ← aget (launch_y p0) i0;
  vp ← aget (launch_p p0) i0; vt ← aget (launch_t p0) i0;
  m ← archive 0 i0 vx vy vp vt 0 (src st);
  Some (set_flag (set_src st m) fl).

Definition deadborne (p0 : launch) (idx1 numpart_s : Z) (idx_act : list Z)
    (st : prod) : option (prod * nat) :=
  let idx_theor := arange idx1 (numpart_s + IDX_ORGN) in
  let idx_deadborne :=
    filter (fun v => ¬ (v ∈ idx_act)) idx_theor in
  st' ← for_range (length idx_deadborne)
          (deadborne_body p0 st idx_deadborne) st;
  Some (st', length idx_deadborne).

End Handlers.

(** *** The table at the start of the run *)

Section Init.
(** [np.nan], the fill value of the milestone arrays. *)
Variable nan : R.

Definition nsrc : nat := 6.

Definition init (flag0 : list Z) (nlat nlon nreg : nat) : prod :=
  let numpart := length flag0 in
  let blank := replicate nsrc (replicate numpart nan) in
  Prod flag0
       (replicate numpart 1%R)
       (replicate numpart 10)
       (Milestones blank blank blank blank blank)
       (replicate nlat (replicate nlon 0%R))
       (replicate (nreg + 1) 0%R).
End Init.

(** [detr_offset = 1/(100*3600.)] and [age_bound = 44.] in [main]. *)
Definition main_detr_offset : R := (1 / (100 * 3600))%R.
Definition main_age_bound : R := 44%R.

(** *** Observing one parcel of the table *)

(** Column [k] of an array of shape [(6, numpart)]. *)
Definition column {A} (a : list (list A)) (k : nat) : list (option A) :=
  (fun row => row !! k) <$> a.

(** The milestone slots of parcel [k]: for each of the five arrays, the
    six entries of its column. *)
Definition slots (m : milestones) (k : nat) : list (list (option R)) :=
  [column (src_x m) k; column (src_y m) k; column (src_p m) k;
   column (src_t m) k; column (src_age m) k].

Record parcel := Parcel {
  p_flag : option Z;
  p_chi : option R;
  p_passed : option Z;
  p_slots : list (list (option R)) }.

Definition parcel_at (st : prod) (k : nat) : parcel :=
  Parcel (flag_source st !! k) (chi st !! k) (passed st !! k) (slots (src st) k).

(** [f] is a bitwise subset of [f']. *)
Definition flag_le (f f' : Z) : Prop := Z.land f f' = f.

Definition dead (f : Z) : Prop := Z.land f I_DEAD <> 0.

(** The values the ratchet can take. *)
Definition ratchet_value (ps : Z) : Prop :=
  ps = 10 \/ ps = 9 \/ ps = 7 \/ ps = 5 \/ ps = 3 \/ ps = 1.

(** Entry [a[r, k]] and the milestone archived in slot [r] of parcel [k]. *)
Definition entry (a : list (list R)) (r k : nat) : option R :=
  a !! r ≫= fun row => row !! k.

Definition milestone (m : milestones) (r k : nat) : option (R * R * R * R * R) :=
  vx ← entry (src_x m) r k; vy ← entry (src_y m) r k;
  vp ← entry (src_p m) r k; vt ← entry (src_t m) r k;
  va ← entry (src_age m) r k;
  Some (vx, vy, vp, vt, va).

(** Shapes: [numpart] parcels, six milestone slots. *)
Definition array_ok (n : nat) (a : list (list R)) : Prop :=
  length a = 6%nat /\ Forall (fun row => length row = n) a.

Definition src_ok (n : nat) (m : milestones) : Prop :=
  array_ok n (src_x m) /\ array_ok n (src_y m) /\ array_ok n (src_p m)
  /\ array_ok n (src_t m) /\ array_ok n (src_age m).

Record table_ok (n : nat) (st : prod) : Prop := Table_ok {
  ok_flag : length (flag_source st) = n;
  ok_chi : length (chi st) = n;
  ok_passed : length (passed st) = n;
  ok_src : src_ok n (src st) }.

(** How one parcel may change between two points of the run: flag bits
    are only added, the survival fraction does not grow and stays
    positive, the ratchet does not grow and stays among its values. *)
Definition flag_evolves (f f' : option Z) : Prop :=
  option_Forall2 flag_le f f'.

Definition chi_evolves (c c' : option R) : Prop :=
  option_Forall2 (fun v v' => (0 < v)%R -> (0 < v')%R /\ (v' <= v)%R) c c'.

Definition passed_evolves (a a' : option Z) : Prop :=
  option_Forall2 (fun v v' => ratchet_value v -> ratchet_value v' /\ v' <= v) a a'.

Definition evolves (q q' : parcel) : Prop :=
  flag_evolves (p_flag q) (p_flag q') /\ chi_evolves (p_chi q) (p_chi q')
  /\ passed_evolves (p_passed q) (p_passed q').

(** A parcel whose DEAD bit is set is the same before and after. *)
Definition frozen (st st' : prod) : Prop :=
  forall k f, flag_source st !! k = Some f -> dead f ->
              parcel_at st' k = parcel_at st k.

(** The table changed at most at parcel [k]. *)
Definition only_at (k : nat) (st st' : prod) : Prop :=
  forall k', k' <> k -> parcel_at st' k' = parcel_at st k'.

(** The accumulators and the survival fractions balance: what the grid and
    the regional vector hold, plus what the parcels still hold, is the
    same before and after. *)
Definition conserves (st st' : prod) : Prop :=
  (rsum2 (source st') + rsum (chi st') = rsum2 (source st) + rsum (chi st))%R
  /\ (rsum (pl st') + rsum (chi st') = rsum (pl st) + rsum (chi st))%R.

(** What every call of a handler does to a table of [n] parcels. *)
Definition tame (n : nat) (st st' : prod) : Prop :=
  table_ok n st ->
  table_ok n st' /\ (forall k, evolves (parcel_at st k) (parcel_at st' k))
  /\ conserves st st'.

(** What the exit handler, the ground-contact handler and the detrainment
    engine do in addition. *)
Definition spares_dead (n : nat) (st st' : prod) : Prop :=
  table_ok n st -> table_ok n st' /\ frozen st st'.

(** In the middle of a sweep that adds [bits] to the flags it selects:
    the table [st] against the table [st0] the sweep started from. *)
Definition sweeping (n : nat) (bits : Z) (st0 st : prod) : Prop :=
  table_ok n st /\ chi st = chi st0 /\ passed st = passed st0
  /\ source st = source st0 /\ pl st = pl st0
  /\ forall k f0, flag_source st0 !! k = Some f0 ->
       flag_source st !! k = Some f0 \/ flag_source st !! k = Some (Z.lor f0 bits).

(** Whether a rung of the ratchet fires on a parcel with ratchet state [ps]
    and survival fraction [c]. *)
Definition fires (from : Z) (thr : R) (ps : Z) (c : R) : bool :=
  (ps =? from) && (if Rlt_dec c thr then true else false).

(** The five rungs: milestone slot, ratchet state before and after,
    threshold. *)
Definition rungs : list (nat * Z * Z * R) :=
  [(1%nat, 10, 9, (9 / 10)%R); (2%nat, 9, 7, (7 / 10)%R);
   (3%nat, 7, 5, (5 / 10)%R); (4%nat, 5, 3, (3 / 10)%R);
   (5%nat, 3, 1, (1 / 10)%R)].

(** The ratchet state after a rung. *)
Definition stage (from to : Z) (thr : R) (c : R) (ps : Z) : Z :=
  if fires from thr ps c then to else ps.

(** What a rung leaves behind for parcel [k], whether it fired ([b]) or
    not: the milestone in its slot and its hit counter, between the table
    and counters before ([st], [nh]) and after ([st'], [nh']) the ratchet. *)
Definition rung_outcome (sl : slice) (irs : list Z) (i : nat) (i0 : Z)
    (st : prod) (nh : list Z) (st' : prod) (nh' : list Z) (k : nat)
    (r : nat) (b : bool) : Prop :=
  if b then
    exists vx vy vp vt start h,
      sl_xi sl !! i = Some vx /\ sl_yi sl !! i = Some vy
      /\ sl_pi sl !! i = Some vp /\ sl_ti sl !! i = Some vt
      /\ aget irs i0 = Some start
      /\ milestone (src st') r k = Some (vx, vy, vp, vt, IZR (start - sl_itime sl))
      /\ nh !! r = Some h /\ nh' !! r = Some (h + 1)
  else milestone (src st') r k = milestone (src st) r k /\ nh' !! r = nh !! r.

(** The survival fractions and the two accumulators are the same in both
    tables. *)
Definition keeps_accounts (st st' : prod) : Prop :=
  chi st' = chi st /\ source st' = source st /\ pl st' = pl st.

(** A snapshot fit for a table of [n] parcels: its arrays have one entry
    per active parcel, each identifier designates a parcel of the table,
    and no two entries designate the same one. *)
Definition snapshot_ok (IDX_ORGN : Z) (n : nat) (pa : snapshot) : Prop :=
  length (snap_x pa) = length (snap_idx_back pa)
  /\ length (snap_y pa) = length (snap_idx_back pa)
  /\ length (snap_p pa) = length (snap_idx_back pa)
  /\ length (snap_t pa) = length (snap_idx_back pa)
  /\ (forall ib, ib ∈ snap_idx_back pa -> is_Some (resolve n (ib - IDX_ORGN)))
  /\ (forall j1 j2 ib1 ib2,
        snap_idx_back pa !! j1 = Some ib1 -> snap_idx_back pa !! j2 = Some ib2 ->
        resolve n (ib1 - IDX_ORGN) = resolve n (ib2 - IDX_ORGN) -> j1 = j2).

(** Shapes of the accumulators: [nlat] rows of [nlon] cells, [nreg]
    regional entries. *)
Record accum_ok (nlat nlon nreg : nat) (st : prod) : Prop := Accum_ok {
  ok_source_rows : length (source st) = nlat;
  ok_source_cols : Forall (fun row => length row = nlon) (source st);
  ok_pl : length (pl st) = nreg }.

(** The accumulators can take a deposit from any cell: the grid is not
    empty and the region mask gives a valid regional entry for each of its
    cells. *)
Definition deposit_ok (nlat nlon nreg : nat) (g : grid) (st : prod) : Prop :=
  accum_ok nlat nlon nreg st /\ (0 < nlat)%nat /\ (0 < nlon)%nat
  /\ forall y x, 0 <= y < Z.of_nat nlat -> 0 <= x < Z.of_nat nlon ->
       0 <= mask g y x < Z.of_nat nreg.

(** *** The run: any sequence of calls of the handlers on the table *)

Section Run.
Variable IDX_ORGN : Z.
Variable p0 : launch.

Inductive step : prod -> prod -> Prop :=
| step_deadborne idx1 numpart_s idx_act st st' n :
    deadborne IDX_ORGN p0 idx1 numpart_s idx_act st = Some (st', n) ->
    step st st'
| step_exiter itime x y p t idx_back rr st st' n :
    exiter IDX_ORGN itime x y p t idx_back st (ir_start p0) rr = Some (st', n) ->
    step st st'
| step_radada itime x y p t idx_back st st' n :
    radada IDX_ORGN itime x y p t idx_back st (ir_start p0) = Some (st', n) ->
    step st st'
| step_detrainer sl g st st' nhits :
    detrainer IDX_ORGN sl g (ir_start p0) main_detr_offset st = Some (st', nhits) ->
    step st st'
| step_age_sweep pa st st' n :
    age_sweep IDX_ORGN main_age_bound pa (ir_start p0) st = Some (st', n) ->
    step st st'.

Definition run : prod -> prod -> Prop := rtc step.
End Run.

(** *** One parcel through the run *)

(** The flag, the survival fraction and the ratchet of parcel [k]. *)
Definition account (st : prod) (k : nat) : option (Z * R * Z) :=
  f ← p_flag (parcel_at st k); c ← p_chi (parcel_at st k);
  ps ← p_passed (parcel_at st k); Some (f, c, ps).

(** The ratchet state after the five rungs. *)
Definition cascade (c : R) (ps : Z) : Z :=
  stage 3 1 (1 / 10) c
    (stage 5 3 (3 / 10) c
       (stage 7 5 (5 / 10) c
          (stage 9 7 (7 / 10) c (stage 10 9 (9 / 10) c ps)))).

(** What one turn of a handler can do to the account of a parcel: the
    exit and ground-contact handlers mark a parcel that is not DEAD with a
    reason code, the age sweep marks a parcel that has neither DEAD nor
    HIT, the deadborne sweep marks any parcel, the detrainer erodes a
    parcel that is not DEAD and lets the ratchet follow. *)
Inductive move : Z * R * Z -> Z * R * Z -> Prop :=
| move_exit f c ps code :
    ~ dead f -> 1 <= code <= 8 ->
    move (f, c, ps) (Z.lor f (Z.shiftl code 13 + I_DEAD + I_CROSSED), c, ps)
| move_old f c ps :
    Z.land f I_STOP = 0 ->
    move (f, c, ps) (Z.lor f (I_DEAD + I_OLD), c, ps)
| move_dborne f c ps :
    move (f, c, ps) (Z.lor f (I_DEAD + I_DBORNE), c, ps)
| move_erode f c ps e :
    ~ dead f -> (0 < e < 1)%R ->
    move (f, c, ps)
      (if (1 <? ps) && fires 10 (9 / 10) ps (c * e) then Z.lor f I_HIT else f,
       (c * e)%R,
       if 1 <? ps then cascade (c * e) ps else ps).

(** The band of survival fractions that goes with a ratchet state. *)
Definition chi_band (ps : Z) (c : R) : Prop :=
  (ps = 10 /\ (9 / 10 <= c)%R) \/ (ps = 9 /\ (7 / 10 <= c < 9 / 10)%R)
  \/ (ps = 7 /\ (5 / 10 <= c < 7 / 10)%R) \/ (ps = 5 /\ (3 / 10 <= c < 5 / 10)%R)
  \/ (ps = 3 /\ (1 / 10 <= c < 3 / 10)%R) \/ (ps = 1 /\ (c < 1 / 10)%R).

(** [(flag & bit) != 0] *)
Definition marked (bit f : Z) : Prop := Z.land f bit <> 0.

(** The number of parcels whose DEAD bit is set,
    [((flag & I_DEAD) != 0).sum()]. *)
Definition ndead (flag : list Z) : nat :=
  length (filter (fun f => Z.land f I_DEAD <> 0) flag).

(** The reason code of a termination, [(flag >> 13) & 15]. *)
Definition exit_code (f : Z) : Z := Z.land (Z.shiftr f 13) 15.

(** How the marks of a flag go together: a CROSSED, OLD or DBORNE parcel
    is DEAD, CROSSED and OLD exclude each other, an OLD parcel has no HIT,
    and the reason code is between 1 and 8 on a CROSSED parcel and 0 on the
    others. *)
Definition well_marked (f : Z) : Prop :=
  (marked I_CROSSED f \/ marked I_OLD f \/ marked I_DBORNE f -> dead f)
  /\ ~ (marked I_CROSSED f /\ marked I_OLD f)
  /\ (marked I_OLD f -> ~ marked I_HIT f)
  /\ (marked I_CROSSED f -> 1 <= exit_code f <= 8)
  /\ (~ marked I_CROSSED f -> exit_code f = 0).

(** The bits of the marks CROSSED, OLD and DBORNE and of the reason
    code. *)
Definition mark_bits : Z := I_OLD + I_CROSSED + I_DBORNE + Z.shiftl 15 13.

(** Between two tables of [n] parcels: the account of every parcel of the
    second is reached from its account in the first by such turns. *)
Definition follows (n : nat) (st st' : prod) : Prop :=
  table_ok n st ->
  table_ok n st'
  /\ forall k q, account st k = Some q ->
       exists q', account st' k = Some q' /\ rtc move q q'.

End Parcels.

(** ** The time-slice generator: [get_slice_part] *)

Module TimeSlices.
Import Parcels.

(** Dates and durations are counted in microseconds, the resolution of
    [datetime] and [timedelta]. *)

(** [a / b] on two durations: a float, [ZeroDivisionError] when [b] is 0. *)
Definition tdiv (a b : Z) : option R :=
  if b =? 0 then None else Some (IZR a / IZR b)%R.

(** [int(r)]: truncation towards zero. *)
Definition trunc (r : R) : Z :=
  if Rle_dec 0 r then Zfloor r else - Zfloor (- r).

(** [d.seconds]: the seconds field of a normalised [timedelta]. *)
Definition seconds (d : Z) : Z := (d / 1000000) mod 86400.

(** [a[m]] for a boolean mask [m]; the lengths must agree. *)
Fixpoint pick {A} (m : list bool) (a : list A) : list A :=
  match m, a with
  | b :: m', v :: a' => if b then v :: pick m' a' else pick m' a'
  | _, _ => []
  end.

Definition np_select {A} (m : list bool) (a : list A) : option (list A) :=
  if decide (length m = length a) then Some (pick m a) else None.

(** An element-wise binary operation with numpy's broadcasting of
    one-dimensional arrays. *)
Definition broadcast2 (f : R -> R -> R) (a b : list R) : option (list R) :=
  if decide (length a = length b) then Some (zip_with f a b)
  else match a, b with
       | [u], _ => Some (f u <$> b)
       | _, [v] => Some ((fun u => f u v) <$> a)
       | _, _ => None
       end.

(** [ca * a + cp * p] *)
Definition lincomb (ca cp : R) (a p : list R) : option (list R) :=
  broadcast2 (fun u v => ca * u + cp * v)%R a p.

Definition clip (lo hi v : R) : R := Rmin (Rmax v lo) hi.

(** [np.clip(a, lo, hi)] *)
Definition np_clip (a : list R) (lo hi : R) : list R := clip lo hi <$> a.

(** [m.sum()] *)
Definition np_count (m : list bool) : nat := length (filter (fun b => b = true) m).

(** The dictionary [dat].  For the arrays [None] is an absent key; for
    [ti] and [tf] it is Python's [None] (the keys are set in every turn
    before the dictionary is handed out). *)
Record window := Window {
  w_ti : option Z;
  w_tf : option Z;
  w_itime : option Z;
  w_idx_back : option (list Z);
  w_xi : option (list R);
  w_yi : option (list R);
  w_pi : option (list R);
  w_tempi : option (list R);
  w_xf : option (list R);
  w_yf : option (list R);
  w_pf : option (list R);
  w_tempf : option (list R) }.

(** [dat = {}] *)
Definition empty_dat : window :=
  Window None None None None None None None None None None None None.

(** The local variables of the suspended generator. *)
Record generator := Generator {
  g_i : nat;
  g_tf : Z;
  g_itime : Z;
  g_dat : window }.

(** The arguments, with [ta], [tp], [nb_slices] and [empty_live] as the
    prologue computes them. *)
Record config := Config {
  part_a : snapshot; part_p : snapshot;
  live_a : list bool; live_p : list bool;
  current_date : Z; dstep : Z; slice_width : Z }.

Definition ta (c : config) : Z := current_date c + dstep c.
Definition tp (c : config) : Z := current_date c.
Definition empty_live (c : config) : bool := (np_count (live_a c) =? 0)%nat.

(** [nb_slices = int(dstep/slice_width+0.0001)] *)
Definition nb_slices (c : config) : option nat :=
  q ← tdiv (dstep c) (slice_width c);
  Some (Z.to_nat (trunc (q + 1 / 10000)%R)).

(** The interpolated start point of a slice. *)
Definition interpolate (c : config) (coefai coefpi : R)
  : option (list R * list R * list R * list R) :=
  xa ← np_select (live_a c) (snap_x (part_a c));
  xp ← np_select (live_p c) (snap_x (part_p c));
  xi ← lincomb coefai coefpi xa xp;
  ya ← np_select (live_a c) (snap_y (part_a c));
  yp ← np_select (live_p c) (snap_y (part_p c));
  yi ← lincomb coefai coefpi ya yp;
  pa ← np_select (live_a c) (snap_p (part_a c));
  pp ← np_select (live_p c) (snap_p (part_p c));
  pi ← lincomb coefai coefpi pa pp;
  tma ← np_select (live_a c) (snap_t (part_a c));
  tmp ← np_select (live_p c) (snap_t (part_p c));
  tempi ← lincomb coefai coefpi tma tmp;
  Some (np_clip xi (-10) 160, np_clip yi 0 50, pi, tempi).

(** One turn of the loop, up to the [yield]. *)
Definition slice_body (c : config) (nb : nat) (g : generator) : option generator :=
  let i := g_i g in
  let ti := g_tf g - slice_width c in
  let itime := g_itime g - seconds (slice_width c) in
  coefai ← tdiv (ti - tp c) (dstep c);
  coefpi ← tdiv (ta c - ti) (dstep c);
  let dat := g_dat g in
  dat' ←
    (if empty_live c then
       Some (Window None None (Some itime) (Some []) (Some []) (Some []) (Some [])
               (w_tempi dat) (Some []) (Some []) (Some []) (w_tempf dat))
     else if (i =? 0)%nat then
       idx ← np_select (live_a c) (snap_idx_back (part_a c));
       xf ← np_select (live_a c) (snap_x (part_a c));
       yf ← np_select (live_a c) (snap_y (part_a c));
       pf ← np_select (live_a c) (snap_p (part_a c));
       tempf ← np_select (live_a c) (snap_t (part_a c));
       '(xi, yi, pi, tempi) ← interpolate c coefai coefpi;
       Some (Window (Some ti) (Some (g_tf g)) (Some itime) (Some idx)
               (Some xi) (Some yi) (Some pi) (Some tempi)
               (Some (np_clip xf (-10) 160)) (Some (np_clip yf 0 50))
               (Some pf) (Some tempf))
     else if (Z.of_nat i =? Z.of_nat nb - 1) then
       xf ← w_xi dat; yf ← w_yi dat; pf ← w_pi dat; tempf ← w_tempi dat;
       xi ← np_select (live_p c) (snap_x (part_p c));
       yi ← np_select (live_p c) (snap_y (part_p c));
       pi ← np_select (live_p c) (snap_p (part_p c));
       tempi ← np_select (live_p c) (snap_t (part_p c));
       Some (Window (Some ti) (Some (g_tf g)) (Some itime) (w_idx_back dat)
               (Some (np_clip xi (-10) 160)) (Some (np_clip yi 0 50))
               (Some pi) (Some tempi)
               (Some xf) (Some yf) (Some pf) (Some tempf))
     else
       xf ← w_xi dat; yf ← w_yi dat; pf ← w_pi dat; tempf ← w_tempi dat;
       '(xi, yi, pi, tempi) ← interpolate c coefai coefpi;
       Some (Window (Some ti) (Some (g_tf g)) (Some itime) (w_idx_back dat)
               (Some xi) (Some yi) (Some pi) (Some tempi)
               (Some xf) (Some yf) (Some pf) (Some tempf)));
  Some (Generator (S i) (g_tf g - slice_width c) itime dat').

(** What a call of [next] on the generator gives. *)
Inductive outcome :=
| Yield (w : window) (g : generator)
| StopIteration
| Raise.

Definition next (c : config) (nb : nat) (g : generator) : outcome :=
  if (g_i g <? nb)%nat then
    match slice_body c nb g with
    | Some g' => Yield (g_dat g') g'
    | None => Raise
    end
  else StopIteration.

(** The generator when it is created: nothing has run yet. *)
Definition start (c : config) : generator :=
  Generator 0 (ta c) (snap_itime (part_p c)) empty_dat.

(** The windows handed out by successive calls of [next], each as the
    caller sees it before the following call, until [StopIteration]. *)
Fixpoint drain (c : config) (nb : nat) (fuel : nat) (g : generator)
  : option (list window) :=
  match fuel with
  | O => None
  | S fuel' =>
      match next c nb g with
      | Yield w g' => cons w <$> drain c nb fuel' g'
      | StopIteration => Some []
      | Raise => None
      end
  end.

Definition get_slice_part (c : config) : option (list window) :=
  nb ← nb_slices c; drain c nb (S nb) (start c).

(** *** The masks [main] hands to the generator *)

(** [(flag[idx_back - IDX_ORGN] & I_DEAD) == 0], the flags being read
    through the array of indices. *)
Definition alive (IDX_ORGN : Z) (flag idx_back : list Z) : option (list bool) :=
  mapM (fun ib => f ← aget flag (ib - IDX_ORGN); Some (Z.land f I_DEAD =? 0))
       idx_back.

(** [kept_a] and [kept_p], then [live_a] and [live_p].  The identifiers of a
    snapshot are taken without repetitions ([assume_unique=True]); the two
    operands of each [np.logical_and] have the length of the same
    snapshot. *)
Definition live_masks (IDX_ORGN : Z) (flag : list Z) (pa pp : snapshot)
  : option (list bool * list bool) :=
  let kept_a := in1d (snap_idx_back pa) (snap_idx_back pp) in
  let kept_p := in1d (snap_idx_back pp) (snap_idx_back pa) in
  if (np_count kept_p =? 0)%nat then Some (kept_p, kept_p)
  else
    la ← alive IDX_ORGN flag (snap_idx_back pa);
    lp ← alive IDX_ORGN flag (snap_idx_back pp);
    Some (zip_with andb kept_a la, zip_with andb kept_p lp).

(** The windows of one output step of [main]. *)
Definition step_windows (IDX_ORGN : Z) (flag : list Z) (pa pp : snapshot)
    (current_date dstep slice_width : Z) : option (list window) :=
  '(la, lp) ← live_masks IDX_ORGN flag pa pp;
  get_slice_part (Config pa pp la lp current_date dstep slice_width).

(** The entries grow with the position. *)
Definition ascending (l : list Z) : Prop :=
  forall (i j : nat) a b, (i < j)%nat -> l !! i = Some a -> l !! j = Some b -> a < b.

(** Window [j] when no parcel is live. *)
Definition sentinel (c : config) (j : nat) : window :=
  Window None None
    (Some (snap_itime (part_p c) - (Z.of_nat j + 1) * seconds (slice_width c)))
    (Some []) (Some []) (Some []) (Some []) None
    (Some []) (Some []) (Some []) None.

(** *** The windows as the specification describes them *)

(** The entries of an array of the newer ([part_a], time [ta]) and of the
    older ([part_p], time [tp]) snapshot that belong to the live parcels. *)
Definition sel_a {A} (c : config) (f : snapshot -> list A) : list A :=
  pick (live_a c) (f (part_a c)).

Definition sel_p {A} (c : config) (f : snapshot -> list A) : list A :=
  pick (live_p c) (f (part_p c)).

(** The weights of the two snapshots at time [t]. *)
Definition coef_a (c : config) (t : Z) : R := (IZR (t - tp c) / IZR (dstep c))%R.
Definition coef_p (c : config) (t : Z) : R := (IZR (ta c - t) / IZR (dstep c))%R.

(** Linear interpolation in time between the two snapshots. *)
Definition interp_at (c : config) (t : Z) (f : snapshot -> list R) : list R :=
  zip_with (fun a p => coef_a c t * a + coef_p c t * p)%R (sel_a c f) (sel_p c f).

Definition slice_tf (c : config) (j : nat) : Z :=
  ta c - Z.of_nat j * slice_width c.

Definition slice_ti (c : config) (j : nat) : Z :=
  ta c - (Z.of_nat j + 1) * slice_width c.

(** Window [j], counted from 0 at the end [ta] of the interval: both
    bounds interpolated, positions clamped to the domain box. *)
Definition spec_window (c : config) (j : nat) : window :=
  Window (Some (slice_ti c j)) (Some (slice_tf c j))
    (Some (snap_itime (part_p c) - (Z.of_nat j + 1) * seconds (slice_width c)))
    (Some (sel_a c snap_idx_back))
    (Some (np_clip (interp_at c (slice_ti c j) snap_x) (-10) 160))
    (Some (np_clip (interp_at c (slice_ti c j) snap_y) 0 50))
    (Some (interp_at c (slice_ti c j) snap_p))
    (Some (interp_at c (slice_ti c j) snap_t))
    (Some (np_clip (interp_at c (slice_tf c j) snap_x) (-10) 160))
    (Some (np_clip (interp_at c (slice_tf c j) snap_y) 0 50))
    (Some (interp_at c (slice_tf c j) snap_p))
    (Some (interp_at c (slice_tf c j) snap_t)).

(** The arguments are well shaped: the interval is [n] slices wide, the
    masks fit their snapshots and select the same number of parcels. *)
Record config_ok (c : config) (n : nat) : Prop := Config_ok {
  ok_width : 0 < slice_width c;
  ok_dstep : dstep c = Z.of_nat n * slice_width c;
  ok_slices : (0 < n)%nat;
  ok_a_idx : length (snap_idx_back (part_a c)) = length (live_a c);
  ok_a_x : length (snap_x (part_a c)) = length (live_a c);
  ok_a_y : length (snap_y (part_a c)) = length (live_a c);
  ok_a_p : length (snap_p (part_a c)) = length (live_a c);
  ok_a_t : length (snap_t (part_a c)) = length (live_a c);
  ok_p_x : length (snap_x (part_p c)) = length (live_p c);
  ok_p_y : length (snap_y (part_p c)) = length (live_p c);
  ok_p_p : length (snap_p (part_p c)) = length (live_p c);
  ok_p_t : length (snap_t (part_p c)) = length (live_p c);
  ok_live : np_count (live_a c) = np_count (live_p c) }.

(** The suspended generator after it has handed out [j] windows. *)
Definition gen_at (c : config) (j : nat) : generator :=
  Generator j (slice_tf c j)
    (snap_itime (part_p c) - Z.of_nat j * seconds (slice_width c))
    (match j with O => empty_dat | S j' => spec_window c j' end).

End TimeSlices.

(** ** Meteorological fields: ECMWF_N.py and [read_ECMWF]

    The parts that compute: the ordering test of the levels, the split of
    the vertical coordinate into half and full levels and the pressure
    fields made from it, the nearest-node look-up and the extraction of a
    sub-grid, the weights of the interpolation in time, the scan of the
    potential temperature profile, and the grid spacing [read_ECMWF]
    passes to the detrainer.  Reading the GRIB files is not modelled: the
    arrays are arguments. *)

Module Fields.

(** [strictly_increasing(L)]: [all(x<y for x, y in zip(L, L[1:]))] *)
Definition strictly_increasing (L : list Z) : bool :=
  forallb (fun xy => xy.1 <? xy.2) (zip L (drop 1 L)).

(** *** The vertical coordinate *)

(** [int(pv.size/2)] *)
Definition half (pv : list R) : nat := (length pv / 2)%nat.

(** [ai = pv[0:int(pv.size/2)]] and [bi = pv[int(pv.size/2):]] *)
Definition ai (pv : list R) : list R := take (half pv) pv.
Definition bi (pv : list R) : list R := drop (half pv) pv.

(** [(a[1:] + a[0:-1])/2] *)
Definition mid (a : list R) : list R :=
  zip_with (fun u v => (u + v) / 2)%R (drop 1 a) (take (length a - 1) a).

Definition am (pv : list R) : list R := mid (ai pv).
Definition bm (pv : list R) : list R := mid (bi pv).

(** The value assigned to an axis of length [n]: taken as it is when its
    length is [n], repeated when its length is 1, otherwise the
    assignment fails. *)
Definition broadcast_axis {A} (n : nat) (l : list A) : option (list A) :=
  if decide (length l = n) then Some l
  else match l with
       | [v] => Some (replicate n v)
       | _ => None
       end.

(** The row [a[lev-1] + b[lev-1]*SP] assigned to [P[i,:,:]], a slab of
    [nlat] by [nlon] entries. *)
Definition level_pressure (a b : list R) (levs : list Z) (nlat nlon : nat)
    (SP : list (list R)) (i : nat) : option (list (list R)) :=
  lev ← levs !! i;
  ca ← aget a (lev - 1);
  cb ← aget b (lev - 1);
  rows ← broadcast_axis nlat
           ((fun row : list R => (fun sp => ca + cb * sp)%R <$> row) <$> SP);
  mapM (broadcast_axis nlon) rows.

(** [_mkp] and [_mkpz]: the loop over the levels, with the coefficients of
    the full levels and of the half levels. *)
Definition mkp (pv : list R) (levs : list Z) (nlev nlat nlon : nat)
    (SP : list (list R)) : option (list (list (list R))) :=
  mapM (level_pressure (am pv) (bm pv) levs nlat nlon SP) (seq 0 nlev).

Definition mkpz (pv : list R) (levs : list Z) (nlev nlat nlon : nat)
    (SP : list (list R)) : option (list (list (list R))) :=
  mapM (level_pressure (ai pv) (bi pv) levs nlat nlon SP) (seq 0 nlev).

(** *** The nearest node and the sub-grid *)

(** [np.argmin]: the first position of the least entry; [ValueError] on
    an empty array. *)
Fixpoint argmin_from (best : nat) (vbest : R) (pos : nat) (l : list R) : nat :=
  match l with
  | [] => best
  | v :: t => if Rlt_dec v vbest then argmin_from pos v (S pos) t
              else argmin_from best vbest (S pos) t
  end.

Definition argmin (l : list R) : option nat :=
  match l with
  | [] => None
  | v :: t => Some (argmin_from 0 v 1 t)
  end.

(** [np.abs(coords - v).argmin()] *)
Definition nearest_node (coords : list R) (v : R) : option nat :=
  argmin ((fun c => Rabs (c - v)) <$> coords).

(** [a[i:j]] for two positions inside the array or at its end. *)
Definition slice {A} (i j : nat) (a : list A) : list A := take (j - i) (drop i a).

(** A field on the grid: two-dimensional (the surface pressure) or
    three-dimensional, the levels first. *)
Inductive field :=
| F2 (a : list (list R))
| F3 (a : list (list (list R))).

Section Pure.
(** The names of the variables. *)
Context {K : Type} `{EqDecision K}.

(** An [ECMWF_pure] object, as far as [extract] and [getxy] use it. *)
Record ecmwf := Ecmwf {
  lats : list R; lons : list R;
  nlat : nat; nlon : nat; nlev : nat;
  var : list (K * field) }.

(** [self.var[name]] *)
Definition lookup_var (self : ecmwf) (name : K) : option field :=
  snd <$> head (filter (fun kv => kv.1 = name) (var self)).

(** The positions kept along an axis: all of them without a range,
    otherwise from the node nearest to the first bound up to the node
    nearest to the second.  A range is [None] (or the empty list) or a
    pair of bounds. *)
Definition axis_range (coords : list R) (range : option (R * R))
  : option (nat * nat) :=
  match range with
  | None => Some (0%nat, length coords)
  | Some (lo, hi) =>
      nmin ← nearest_node coords lo;
      nmax ← nearest_node coords hi;
      Some (nmin, S nmax)
  end.

(** [a[:,ya:yb,xa:xb]] and [a[ya:yb,xa:xb]] *)
Definition extract_field (ya yb xa xb : nat) (f : field) : field :=
  match f with
  | F3 a => F3 ((fun slab => slice xa xb <$> slice ya yb slab) <$> a)
  | F2 a => F2 (slice xa xb <$> slice ya yb a)
  end.

Definition extract (self : ecmwf) (latRange lonRange : option (R * R))
  : option ecmwf :=
  '(ya, yb) ← axis_range (lats self) latRange;
  '(xa, xb) ← axis_range (lons self) lonRange;
  let lats' := slice ya yb (lats self) in
  let lons' := slice xa xb (lons self) in
  Some (Ecmwf lats' lons' (length lats') (length lons') (nlev self)
          ((fun kv => (kv.1, extract_field ya yb xa xb kv.2)) <$> var self)).

(** [getxy]: the value of a three-dimensional variable at the node
    nearest to [(x, y)] on the level [lev]. *)
Definition getxy (self : ecmwf) (name : K) (lev : Z) (y x : R) : option R :=
  jy ← nearest_node (lats self) y;
  ix ← nearest_node (lons self) x;
  f ← lookup_var self name;
  match f with
  | F3 a => slab ← aget a lev; row ← slab !! jy; row !! ix
  | F2 _ => None
  end.
End Pure.

(** *** Shapes *)

(** A slab of [nlat] rows of [nlon] entries. *)
Definition shaped (nlat nlon : nat) (slab : list (list R)) : Prop :=
  length slab = nlat /\ Forall (fun row => length row = nlon) slab.

Definition field_shaped (nlat nlon : nat) (f : field) : Prop :=
  match f with
  | F2 a => shaped nlat nlon a
  | F3 a => Forall (shaped nlat nlon) a
  end.

(** The object is consistent: its axes and its fields have the
    dimensions it records. *)
Definition well_shaped {K} (self : @ecmwf K) : Prop :=
  length (lats self) = nlat self /\ length (lons self) = nlon self
  /\ Forall (fun kv => field_shaped (nlat self) (nlon self) kv.2) (var self).

(** The entry [a[lev, j, k]], the three positions counted from 0. *)
Definition entry3 (a : list (list (list R))) (lev j k : nat) : option R :=
  slab ← a !! lev; row ← slab !! j; row !! k.

(** The coordinates grow along the axis. *)
Definition increasing (l : list R) : Prop :=
  forall (i j : nat) a b, (i < j)%nat -> l !! i = Some a -> l !! j = Some b -> (a < b)%R.

(** *** The weights of the interpolation in time *)

(** What the prologue of [interpol_time] comes to: [return -1] when the
    date is outside the two dates, a division by zero, or the two
    weights [cf1], [cf2]. *)
Inductive weights :=
| Rejected
| ZeroDivision
| Weights (cf1 cf2 : R).

(** [d.total_seconds()], the dates being counted in microseconds. *)
Definition total_seconds (d : Z) : R := (IZR d / 1000000)%R.

Definition interpol_weights (self_date other_date date : Z) : weights :=
  if (if self_date <? other_date
      then (other_date <? date) || (date <? self_date)
      else (date <? other_date) || (self_date <? date))
  then Rejected
  else
    let dt := total_seconds (other_date - self_date) in
    let dt1 := total_seconds (date - self_date) in
    let dt2 := total_seconds (other_date - date) in
    if other_date - self_date =? 0 then ZeroDivision
    else Weights (dt2 / dt) (dt1 / dt).

(** *** The profile of the potential temperature *)

(** [np.min] over a slab; [ValueError] when the slab is empty. *)
Definition np_min (l : list R) : option R :=
  match l with
  | [] => None
  | v :: t => Some (fold_left Rmin t v)
  end.

(** [ddd = PT[:-1,:,:] - PT[1:,:,:]] *)
Definition level_drop (PT : list (list (list R))) : list (list (list R)) :=
  zip_with (zip_with (zip_with Rminus)) (take (length PT - 1) PT) (drop 1 PT).

(** What [_checkThetProfile] comes to: [return lev], the end of the loop
    (the function returns [None]), or the [ValueError] of the minimum of an
    empty slab. *)
Inductive profile :=
| Inversion (lev : nat)
| NoInversion
| EmptySlab.

Fixpoint scan_from (lev : nat) (ddd : list (list (list R))) : profile :=
  match ddd with
  | [] => NoInversion
  | slab :: t =>
      match np_min (mjoin slab) with
      | None => EmptySlab
      | Some m => if Rlt_dec m 0 then Inversion lev else scan_from (S lev) t
      end
  end.

Definition checkThetProfile (PT : list (list (list R))) : profile :=
  scan_from 0 (level_drop PT).

(** *** [read_ECMWF]: the geometry of the grid *)

(** [(coords[-1] - coords[0]) / (n-1)]; the quotient by zero of a grid of
    one node (inf or nan in floats) is outside the model. *)
Definition grid_step (coords : list R) (n : Z) : option R :=
  hi ← aget coords (-1);
  lo ← aget coords 0;
  Some ((hi - lo) / IZR (n - 1))%R.

(** [if Lo1 > Lo2: Lo1 = Lo1 - 360.] *)
Definition west_edge (Lo1 Lo2 : R) : R :=
  if Rgt_dec Lo1 Lo2 then (Lo1 - 360)%R else Lo1.

End Fields.

(** ** A small run

    Two parcels on a one-cell grid, the second already terminated; one
    slice in which the first parcel stays in its cell, where the
    detrainment rate is 1 per second. *)

Module Scenario.
Import Parcels.

Definition flag0 : list Z := [0; I_DEAD].

Definition table0 : prod := init 0 flag0 1 1 0.

Definition launch0 : launch :=
  Launch [0; 0]%R [0; 0]%R [20000; 20000]%R [250; 250]%R [0; 0].

Definition slice0 : slice :=
  Slice (-3600) [0]%R [0]%R [20000]%R [250]%R [0] [0]%R [0]%R [0].

Definition grid0 : grid :=
  Grid (fun _ _ _ => 1%R) 0 0 1 1 0 0 (fun _ _ => 0).

Definition nhits0 : list Z := [0; 0; 0; 0; 0; 0].

(** The table when the first parcel has crossed the first rung. *)
Definition hit_table : prod := set_flag table0 [I_HIT; I_DEAD].

(** A snapshot holding the first parcel, 4 000 000 seconds after its
    launch. *)
Definition snap0 : snapshot :=
  Snapshot [1]%R [2]%R [20000]%R [250]%R [0] (-4000000).

(** The table when the first parcel has been eroded down to 1/20. *)
Definition eroded : prod := set_chi table0 [1 / 20; 1]%R.

(** One parcel, live in both snapshots, which has overshot the eastern
    edge of the box at [ta]; one slice of one hour. *)
Definition cfg0 : TimeSlices.config :=
  TimeSlices.Config
    (Snapshot [170]%R [20]%R [20000]%R [250]%R [0] 0)
    (Snapshot [165]%R [21]%R [20100]%R [251]%R [0] (-3600))
    [true] [true] 0 3600000000 3600000000.

(** No parcel live. *)
Definition cfg_empty : TimeSlices.config :=
  TimeSlices.Config
    (Snapshot [170]%R [20]%R [20000]%R [250]%R [0] 0)
    (Snapshot [165]%R [21]%R [20100]%R [251]%R [0] (-3600))
    [false] [false] 0 7200000000 3600000000.

(** Two successive snapshots that share the parcel 1, and a table of
    flags in which the parcel 2 is DEAD. *)
Definition snap_a : snapshot :=
  Snapshot [1; 2]%R [3; 4]%R [20000; 20100]%R [250; 251]%R [0; 1] 0.

Definition snap_p : snapshot :=
  Snapshot [5; 6]%R [7; 8]%R [20200; 20300]%R [252; 253]%R [1; 2] (-3600).

Definition flag3 : list Z := [0; 0; I_DEAD].

(** A grid of three latitudes and two longitudes with one variable on
    one level, the variables being named by numbers. *)
Definition obj : @Fields.ecmwf nat :=
  Fields.Ecmwf [0; 1; 2]%R [10; 11]%R 3 2 1
    [(0%nat, Fields.F3 [[[1; 2]; [3; 4]; [5; 6]]]%R)].

End Scenario.

(** * Properties *)

Lemma wrap64_small (z : Z) : in_int64 z -> wrap64 z = z.
Proof.
  unfold in_int64, wrap64. intros H.
  rewrite Z.mod_small; lia.
Qed.

Module RasterizerFacts.
Import Rasterizer.

Example line_5_5 : line 5 5 5 5 = Some [(5, 5)].
Proof. reflexivity. Qed.

Example line_0_0_3_1 : line 0 0 3 1 = Some [(0, 0); (1, 0); (2, 1); (3, 1)].
Proof. reflexivity. Qed.

Example line_3_1_0_0 : line 3 1 0 0 = Some [(3, 1); (2, 1); (1, 0); (0, 0)].
Proof. reflexivity. Qed.

Example line_0_0_1_3 : line 0 0 1 3 = Some [(0, 0); (0, 1); (1, 2); (1, 3)].
Proof. reflexivity. Qed.

Example line_diag : line 2 2 (-1) 5 = Some [(2, 2); (1, 3); (0, 4); (-1, 5)].
Proof. reflexivity. Qed.

Example line_39 : length <$> line 0 0 39 7 = Some 40%nat.
Proof. reflexivity. Qed.

Example line_40 : line 0 0 40 7 = None.
Proof. reflexivity. Qed.

Lemma connected8_cons p l :
  connected8 l -> (forall q, head l = Some q -> adjacent p q) -> connected8 (p :: l).
Proof.
  intros Hl Hq. destruct l as [|q t]; simpl; [exact I|].
  split; [apply Hq; reflexivity | exact Hl].
Qed.

Lemma connected8_lookup l :
  connected8 l ->
  forall (i : nat) p q, l !! i = Some p -> l !! S i = Some q -> adjacent p q.
Proof.
  induction l as [|a t IH]; intros Hc i p q Hp Hq; [discriminate|].
  destruct t as [|b t']; [destruct i; discriminate|].
  destruct Hc as [Hab Hc].
  destruct i as [|i].
  - simpl in Hp, Hq. injection Hp as <-. injection Hq as <-. exact Hab.
  - exact (IH Hc i p q Hp Hq).
Qed.

Lemma adjacent_swap p q : adjacent p q -> adjacent (swap p) (swap q).
Proof. unfold adjacent, swap; simpl; tauto. Qed.

Lemma connected8_swap l : connected8 l -> connected8 (swap <$> l).
Proof.
  induction l as [|a t IH]; [trivial|].
  destruct t as [|b t']; [trivial|].
  intros [Hab Hc]. split; [by apply adjacent_swap | by apply IH].
Qed.

Lemma walk_y_swap rows : forall x1 y1 dx2 dy2 sx sy x y err,
  walk_y rows x1 y1 dx2 dy2 sx sy x y err
  = fmap (M:=list) swap <$> walk_x rows y1 x1 dy2 dx2 sy sx y x err.
Proof.
  induction rows as [|rows IH]; intros; simpl; [reflexivity|].
  destruct (y =? y1); [reflexivity|].
  rewrite IH.
  destruct (walk_x rows _ _ _ _ _ _ _ _ _); reflexivity.
Qed.

Section Walk.
Variables x1 y1 dx dy sx sy : Z.
Hypothesis Hsx : sx = 1 \/ sx = -1.
Hypothesis Hsy : sy = 1 \/ sy = -1.
Hypothesis Hdy : 0 <= dy <= dx.
Hypothesis Hdx : 0 < dx <= 2 ^ 61.
Hypothesis Hx1 : in_int64 x1.
Hypothesis Hy1 : in_int64 y1.

(** With [n] steps left on the major axis and [r] on the minor one, the
    error term is [dx + 2 dy n - 2 dx r] and stays in [[0, 2 dx)]. *)
Lemma walk_x_path (n : nat) : forall (rows : nat) x y err r,
  (n < rows)%nat ->
  x1 = x + sx * Z.of_nat n -> y1 = y + sy * r -> 0 <= r ->
  err = dx + 2 * dy * Z.of_nat n - 2 * dx * r -> 0 <= err < 2 * dx ->
  in_int64 x -> in_int64 y ->
  exists l, walk_x rows x1 y1 (2 * dx) (2 * dy) sx sy x y err = Some l
    /\ length l = S n /\ head l = Some (x, y) /\ last l = Some (x1, y1)
    /\ connected8 l.
Proof using Hsx Hsy Hdy Hdx Hx1 Hy1.
  unfold in_int64 in *.
  induction n as [|n IH]; intros rows x y err r Hrows Hx Hy Hr Herr Hrange Hxr Hyr;
    (destruct rows as [|rows]; [lia|]); simpl.
  - assert (r = 0) by nia. subst r.
    assert (x = x1) as -> by lia. assert (y = y1) as -> by lia.
    rewrite Z.eqb_refl. exists [(x1, y1)]. repeat split; reflexivity.
  - assert (x <> x1) by (destruct Hsx as [-> | ->]; lia).
    destruct (Z.eqb_spec x x1) as [|_]; [contradiction|].
    rewrite (wrap64_small (err - 2 * dy)) by (unfold in_int64; lia).
    rewrite (wrap64_small (x + sx)) by (unfold in_int64; destruct Hsx as [-> | ->]; lia).
    destruct (Z.ltb_spec (err - 2 * dy) 0) as [Hneg | Hpos].
    + assert (1 <= r) by nia.
      rewrite (wrap64_small (y + sy)) by (unfold in_int64; destruct Hsy as [-> | ->]; lia).
      rewrite (wrap64_small (err - 2 * dy + 2 * dx)) by (unfold in_int64; lia).
      destruct (IH rows (x + sx) (y + sy) (err - 2 * dy + 2 * dx) (r - 1))
        as (l & -> & Hlen & Hhd & Hlast & Hconn);
        [ lia | destruct Hsx as [-> | ->]; lia | destruct Hsy as [-> | ->]; lia
        | lia | nia | lia | destruct Hsx as [-> | ->]; lia
        | destruct Hsy as [-> | ->]; lia | ].
      exists ((x, y) :: l). simpl. repeat split; try reflexivity.
      * by rewrite Hlen.
      * destruct l; [discriminate|]. by rewrite last_cons_cons.
      * apply connected8_cons; [exact Hconn|]. intros q Hq.
        rewrite Hhd in Hq. injection Hq as <-. unfold adjacent; simpl.
        destruct Hsx as [-> | ->], Hsy as [-> | ->]; lia.
    + destruct (IH rows (x + sx) y (err - 2 * dy) r)
        as (l & -> & Hlen & Hhd & Hlast & Hconn);
        [ lia | destruct Hsx as [-> | ->]; lia | lia | lia | nia | lia
        | destruct Hsx as [-> | ->]; lia | lia | ].
      exists ((x, y) :: l). simpl. repeat split; try reflexivity.
      * by rewrite Hlen.
      * destruct l; [discriminate|]. by rewrite last_cons_cons.
      * apply connected8_cons; [exact Hconn|]. intros q Hq.
        rewrite Hhd in Hq. injection Hq as <-. unfold adjacent; simpl.
        destruct Hsx as [-> | ->]; lia.
Qed.

(** The loop cannot finish before [x] has reached [x1]: when that takes
    at least as many turns as there are rows, a write leaves the buffer. *)
Lemma walk_x_overflow (rows : nat) : forall (n : nat) dx2 dy2 x y err,
  (rows <= n)%nat -> x1 = x + sx * Z.of_nat n -> in_int64 x ->
  walk_x rows x1 y1 dx2 dy2 sx sy x y err = None.
Proof using Hsx Hx1.
  unfold in_int64 in *.
  induction rows as [|rows IH]; intros n dx2 dy2 x y err Hn Hx Hxr; simpl;
    [reflexivity|].
  destruct (Z.eqb_spec x x1) as [Heq|_].
  { exfalso. destruct Hsx as [Hs | Hs]; rewrite Hs in Hx; lia. }
  rewrite (wrap64_small (x + sx)) by (unfold in_int64; destruct Hsx as [-> | ->]; lia).
  rewrite (IH (n - 1)%nat); [reflexivity | lia | | ].
  - destruct Hsx as [-> | ->]; lia.
  - destruct Hsx as [-> | ->]; lia.
Qed.
End Walk.

(** [line] away from the wrap-around: the branch taken and the arguments of
    the loops, written with exact integers. *)
Lemma line_far x0 y0 x1 y1 :
  in_int64 x0 -> in_int64 y0 -> in_int64 x1 -> in_int64 y1 ->
  separation x0 y0 x1 y1 <= 2 ^ 61 ->
  (x0 =? x1) && (y0 =? y1) = false ->
  let dx := Z.abs (x1 - x0) in
  let dy := Z.abs (y1 - y0) in
  let sx := if x0 <? x1 then 1 else -1 in
  let sy := if y0 <? y1 then 1 else -1 in
  line x0 y0 x1 y1 =
    if dy <? dx
    then walk_x buffer_rows x1 y1 (2 * dx) (2 * dy) sx sy x0 y0 dx
    else walk_y buffer_rows x1 y1 (2 * dx) (2 * dy) sx sy x0 y0 dy.
Proof.
  unfold in_int64, separation, line. intros Hx0 Hy0 Hx1 Hy1 Hsep ->. cbv zeta.
  rewrite (wrap64_small (x1 - x0)) by (unfold in_int64; lia).
  rewrite (wrap64_small (y1 - y0)) by (unfold in_int64; lia).
  rewrite (wrap64_small (Z.abs (x1 - x0))) by (unfold in_int64; lia).
  rewrite (wrap64_small (Z.abs (y1 - y0))) by (unfold in_int64; lia).
  rewrite (wrap64_small (2 * Z.abs (x1 - x0))) by (unfold in_int64; lia).
  rewrite (wrap64_small (2 * Z.abs (y1 - y0))) by (unfold in_int64; lia).
  reflexivity.
Qed.

Lemma line_some x0 y0 x1 y1 :
  in_int64 x0 -> in_int64 y0 -> in_int64 x1 -> in_int64 y1 ->
  separation x0 y0 x1 y1 <= 39 ->
  exists l, line x0 y0 x1 y1 = Some l
    /\ Z.of_nat (length l) = separation x0 y0 x1 y1 + 1
    /\ head l = Some (x0, y0) /\ last l = Some (x1, y1) /\ connected8 l.
Proof.
  intros Hx0 Hy0 Hx1 Hy1 Hsep.
  destruct ((x0 =? x1) && (y0 =? y1)) eqn:Heq.
  { unfold line. rewrite Heq. apply andb_true_iff in Heq as [Hx Hy].
    apply Z.eqb_eq in Hx, Hy. subst x1 y1.
    exists [(x0, y0)]. unfold separation.
    split; [reflexivity|]. split; [|by repeat split].
    change (length [(x0, y0)]) with 1%nat. lia. }
  rewrite line_far by (trivial; lia). unfold separation in *.
  assert (x0 <> x1 \/ y0 <> y1) as Hne.
  { apply andb_false_iff in Heq as [H | H]; apply Z.eqb_neq in H; tauto. }
  assert ((if x0 <? x1 then 1 else -1) = 1 \/ (if x0 <? x1 then 1 else -1) = -1) as Hsx
    by (destruct (x0 <? x1); tauto).
  assert ((if y0 <? y1 then 1 else -1) = 1 \/ (if y0 <? y1 then 1 else -1) = -1) as Hsy
    by (destruct (y0 <? y1); tauto).
  assert (x1 = x0 + (if x0 <? x1 then 1 else -1) * Z.of_nat (Z.to_nat (Z.abs (x1 - x0)))) as Hxs
    by (destruct (Z.ltb_spec x0 x1); lia).
  assert (y1 = y0 + (if y0 <? y1 then 1 else -1) * Z.of_nat (Z.to_nat (Z.abs (y1 - y0)))) as Hys
    by (destruct (Z.ltb_spec y0 y1); lia).
  assert (x1 = x0 + (if x0 <? x1 then 1 else -1) * Z.abs (x1 - x0)) as Hxa
    by (destruct (Z.ltb_spec x0 x1); lia).
  assert (y1 = y0 + (if y0 <? y1 then 1 else -1) * Z.abs (y1 - y0)) as Hya
    by (destruct (Z.ltb_spec y0 y1); lia).
  assert (forall d, 0 <= d <= 39 -> (Z.to_nat d < buffer_rows)%nat) as Hrows
    by (intros d Hd; unfold buffer_rows; lia).
  destruct (Z.ltb_spec (Z.abs (y1 - y0)) (Z.abs (x1 - x0))) as [Hlt | Hge].
  - destruct (walk_x_path x1 y1 (Z.abs (x1 - x0)) (Z.abs (y1 - y0)) _ _
                Hsx Hsy ltac:(lia) ltac:(lia) Hx1 Hy1
                (Z.to_nat (Z.abs (x1 - x0))) buffer_rows x0 y0
                (Z.abs (x1 - x0)) (Z.abs (y1 - y0))
                ltac:(apply Hrows; lia) Hxs Hya ltac:(lia) ltac:(lia) ltac:(lia) Hx0 Hy0)
      as (l & Hl & Hlen & Hhd & Hlast & Hconn).
    exists l. rewrite Hl, Hlen.
    split; [reflexivity|]. split; [lia|]. by repeat split.
  - rewrite walk_y_swap.
    destruct (walk_x_path y1 x1 (Z.abs (y1 - y0)) (Z.abs (x1 - x0)) _ _
                Hsy Hsx ltac:(lia) ltac:(lia) Hy1 Hx1
                (Z.to_nat (Z.abs (y1 - y0))) buffer_rows y0 x0
                (Z.abs (y1 - y0)) (Z.abs (x1 - x0))
                ltac:(apply Hrows; lia) Hys Hxa ltac:(lia) ltac:(lia) ltac:(lia) Hy0 Hx0)
      as (l & Hl & Hlen & Hhd & Hlast & Hconn).
    exists (swap <$> l). rewrite Hl.
    change (fmap swap <$> Some l) with (Some (swap <$> l)).
    rewrite length_fmap, Hlen, fmap_last, Hlast.
    split; [reflexivity|]. split; [lia|].
    split; [|split; [reflexivity | by apply connected8_swap]].
    clear Hl. destruct l; [discriminate|]. simpl in Hhd |- *. by injection Hhd as ->.
Qed.

Lemma line_none x0 y0 x1 y1 :
  in_int64 x0 -> in_int64 y0 -> in_int64 x1 -> in_int64 y1 ->
  40 <= separation x0 y0 x1 y1 <= 2 ^ 61 ->
  line x0 y0 x1 y1 = None.
Proof.
  intros Hx0 Hy0 Hx1 Hy1 Hsep. unfold separation in Hsep.
  assert ((x0 =? x1) && (y0 =? y1) = false) as Heq.
  { apply andb_false_iff.
    destruct (Z.eqb_spec x0 x1), (Z.eqb_spec y0 y1); auto. lia. }
  rewrite line_far by (trivial; unfold separation; lia).
  destruct (Z.ltb_spec (Z.abs (y1 - y0)) (Z.abs (x1 - x0))) as [Hlt | Hge].
  - apply walk_x_overflow with (n := Z.to_nat (Z.abs (x1 - x0))); trivial.
    + destruct (x0 <? x1); tauto.
    + unfold buffer_rows. lia.
    + destruct (Z.ltb_spec x0 x1); lia.
  - rewrite walk_y_swap.
    rewrite walk_x_overflow with (n := Z.to_nat (Z.abs (y1 - y0))); trivial.
    + destruct (y0 <? y1); tauto.
    + unfold buffer_rows. lia.
    + destruct (Z.ltb_spec y0 y1); lia.
Qed.

End RasterizerFacts.

(** ** Arrays *)

Section Arrays.
Context {A : Type}.
Implicit Types (a : list A) (m : list (list A)).

Lemma resolve_lt n i k : resolve n i = Some k -> (k < n)%nat.
Proof.
  unfold resolve. intros H.
  destruct (Z.leb_spec 0 i), (Z.ltb_spec i (Z.of_nat n)); simpl in H;
    try (injection H as <-; lia);
    destruct (Z.leb_spec (- Z.of_nat n) i), (Z.ltb_spec i 0); simpl in H;
    try discriminate; injection H as <-; lia.
Qed.

Lemma resolve_nonneg n i :
  0 <= i < Z.of_nat n -> resolve n i = Some (Z.to_nat i).
Proof.
  intros [H0 Hn]. unfold resolve.
  destruct (Z.leb_spec 0 i), (Z.ltb_spec i (Z.of_nat n)); try lia. reflexivity.
Qed.

Lemma aget_lookup a i v :
  aget a i = Some v <-> exists k, resolve (length a) i = Some k /\ a !! k = Some v.
Proof. unfold aget. apply bind_Some. Qed.

Lemma aget_resolved a i k : resolve (length a) i = Some k -> aget a i = a !! k.
Proof. unfold aget. by intros ->. Qed.

Lemma aget_total a i k :
  resolve (length a) i = Some k -> exists v, aget a i = Some v /\ a !! k = Some v.
Proof.
  intros Hk. destruct (lookup_lt_is_Some_2 a k (resolve_lt _ _ _ Hk)) as [v Hv].
  exists v. by rewrite (aget_resolved _ _ _ Hk).
Qed.

Lemma aset_insert a i v a' :
  aset a i v = Some a' <->
  exists k, resolve (length a) i = Some k /\ a' = <[k := v]> a.
Proof.
  unfold aset. rewrite bind_Some. split; intros (k & Hk & H); exists k;
    (split; [exact Hk|]); congruence.
Qed.

Lemma aset_resolved a i v k :
  resolve (length a) i = Some k -> aset a i v = Some (<[k := v]> a).
Proof. unfold aset. by intros ->. Qed.

Lemma aset_length a i v a' : aset a i v = Some a' -> length a' = length a.
Proof. intros (k & _ & ->)%aset_insert. apply length_insert. Qed.

Lemma aget_aset a i v a' : aset a i v = Some a' -> aget a' i = Some v.
Proof.
  intros (k & Hk & ->)%aset_insert. apply aget_lookup. exists k.
  rewrite length_insert. split; [exact Hk|].
  apply list_lookup_insert_eq. by eapply resolve_lt.
Qed.

Lemma aset2_insert m r i v m' :
  aset2 m r i v = Some m' <->
  exists row k, m !! r = Some row /\ resolve (length row) i = Some k
                /\ m' = <[r := <[k := v]> row]> m.
Proof.
  unfold aset2. rewrite bind_Some. split.
  - intros (row & Hrow & H). apply bind_Some in H as (row' & H1 & H2).
    apply aset_insert in H1 as (k & Hk & ->). exists row, k.
    repeat split; trivial. congruence.
  - intros (row & k & Hrow & Hk & ->). exists row. split; [exact Hrow|].
    by rewrite (aset_resolved _ _ _ _ Hk).
Qed.

Lemma aget2_aset2 m r i v m' : aset2 m r i v = Some m' -> aget2 m' r i = Some v.
Proof.
  intros (row & k & Hrow & Hk & ->)%aset2_insert. unfold aget2.
  rewrite list_lookup_insert_eq by (by eapply lookup_lt_Some). simpl.
  apply aget_aset with (a := row). by apply aset_resolved.
Qed.

Lemma aget2_aset2_ne m r i v m' r' i' :
  aset2 m r i v = Some m' -> r' <> r -> aget2 m' r' i' = aget2 m r' i'.
Proof.
  intros (row & k & Hrow & Hk & ->)%aset2_insert Hne. unfold aget2.
  by rewrite list_lookup_insert_ne.
Qed.

End Arrays.

Section Shapes.
Import Parcels.

Lemma column_lookup {A} (m : list (list A)) k r :
  column m k !! r = (fun row => row !! k) <$> m !! r.
Proof. unfold column. apply list_lookup_fmap. Qed.

Lemma column_insert_ne {A} (m : list (list A)) r row row' k k' v :
  m !! r = Some row -> row' = <[k := v]> row -> k' <> k ->
  column (<[r := row']> m) k' = column m k'.
Proof.
  intros Hrow -> Hne. unfold column. rewrite list_fmap_insert.
  rewrite list_lookup_insert_ne by done.
  apply list_insert_id. by rewrite list_lookup_fmap, Hrow.
Qed.

Lemma array_ok_aset2 n (a : list (list R)) r i v a' :
  array_ok n a -> aset2 a r i v = Some a' ->
  array_ok n a' /\
  exists k, resolve n i = Some k /\ (r < 6)%nat
            /\ (forall k', k' <> k -> column a' k' = column a k')
            /\ (forall r', r' <> r -> column a' k !! r' = column a k !! r')
            /\ column a' k !! r = Some (Some v).
Proof.
  intros [Hlen Hrows] (row & k & Hrow & Hk & ->)%aset2_insert.
  assert (length row = n) as Hn.
  { rewrite Forall_forall in Hrows. apply Hrows. by eapply list_elem_of_lookup_2. }
  rewrite Hn in Hk. split.
  - split; [by rewrite length_insert|].
    apply Forall_insert; [exact Hrows|]. by rewrite length_insert.
  - exists k. split; [exact Hk|]. split.
    { rewrite <- Hlen. by eapply lookup_lt_Some. }
    split; [|split].
    + intros k' Hne. by eapply column_insert_ne.
    + intros r' Hne. rewrite !column_lookup. by rewrite list_lookup_insert_ne.
    + rewrite column_lookup.
      rewrite list_lookup_insert_eq by (by eapply lookup_lt_Some). simpl.
      rewrite list_lookup_insert_eq; [done|]. rewrite Hn. by eapply resolve_lt.
Qed.

Lemma aset2_total n (a : list (list R)) r i v k :
  array_ok n a -> (r < 6)%nat -> resolve n i = Some k ->
  exists a', aset2 a r i v = Some a'.
Proof.
  intros [Hlen Hrows] Hr Hk.
  destruct (lookup_lt_is_Some_2 a r) as [row Hrow]; [lia|].
  assert (length row = n) as Hn.
  { rewrite Forall_forall in Hrows. apply Hrows. by eapply list_elem_of_lookup_2. }
  exists (<[r := <[k := v]> row]> a). apply aset2_insert.
  exists row, k. by rewrite Hn.
Qed.
End Shapes.

(** ** Archiving a milestone *)

Section Archive.
Import Parcels.

Lemma entry_column a r k : entry a r k = default None (column a k !! r).
Proof.
  unfold entry. rewrite column_lookup. by destruct (a !! r).
Qed.

Lemma entry_aset2 n a r i v a' :
  array_ok n a -> aset2 a r i v = Some a' ->
  array_ok n a' /\
  exists k, resolve n i = Some k /\ (r < 6)%nat
    /\ (forall k', k' <> k -> column a' k' = column a k')
    /\ (forall r', r' <> r -> entry a' r' k = entry a r' k)
    /\ entry a' r k = Some v.
Proof.
  intros Hok Hset.
  destruct (array_ok_aset2 _ _ _ _ _ _ Hok Hset)
    as (Hok' & k & Hk & Hr & Hcol & Hrow & Hv).
  split; [exact Hok'|]. exists k. repeat split; trivial.
  - intros r' Hne. by rewrite !entry_column, Hrow.
  - by rewrite entry_column, Hv.
Qed.

Lemma archive_effect n r i0 vx vy vp vt va m m' :
  src_ok n m -> archive r i0 vx vy vp vt va m = Some m' ->
  src_ok n m' /\
  exists k, resolve n i0 = Some k /\ (r < 6)%nat
    /\ (forall k', k' <> k -> slots m' k' = slots m k')
    /\ (forall r', r' <> r -> milestone m' r' k = milestone m r' k)
    /\ milestone m' r k = Some (vx, vy, vp, vt, va).
Proof.
  intros (Hx & Hy & Hp & Ht & Ha) H. unfold archive in H.
  apply bind_Some in H as (ax & Hax & H). apply bind_Some in H as (ay & Hay & H).
  apply bind_Some in H as (ap & Hap & H). apply bind_Some in H as (at_ & Hat & H).
  apply bind_Some in H as (aa & Haa & H). injection H as <-.
  destruct (entry_aset2 _ _ _ _ _ _ Hx Hax) as (Hx' & k & Hk & Hr & Hxc & Hxr & Hxv).
  destruct (entry_aset2 _ _ _ _ _ _ Hy Hay) as (Hy' & k2 & Hk2 & _ & Hyc & Hyr & Hyv).
  destruct (entry_aset2 _ _ _ _ _ _ Hp Hap) as (Hp' & k3 & Hk3 & _ & Hpc & Hpr & Hpv).
  destruct (entry_aset2 _ _ _ _ _ _ Ht Hat) as (Ht' & k4 & Hk4 & _ & Htc & Htr & Htv).
  destruct (entry_aset2 _ _ _ _ _ _ Ha Haa) as (Ha' & k5 & Hk5 & _ & Hac & Har & Hav).
  assert (k2 = k) as -> by congruence. assert (k3 = k) as -> by congruence.
  assert (k4 = k) as -> by congruence. assert (k5 = k) as -> by congruence.
  split; [exact (conj Hx' (conj Hy' (conj Hp' (conj Ht' Ha'))))|].
  exists k. split; [exact Hk|]. split; [exact Hr|]. split; [|split].
  - intros k' Hne. unfold slots; simpl.
    by rewrite Hxc, Hyc, Hpc, Htc, Hac.
  - intros r' Hne. unfold milestone; simpl.
    by rewrite Hxr, Hyr, Hpr, Htr, Har.
  - unfold milestone; simpl. by rewrite Hxv, Hyv, Hpv, Htv, Hav.
Qed.

Lemma archive_total n r i0 vx vy vp vt va m k :
  src_ok n m -> (r < 6)%nat -> resolve n i0 = Some k ->
  exists m', archive r i0 vx vy vp vt va m = Some m'.
Proof.
  intros (Hx & Hy & Hp & Ht & Ha) Hr Hk. unfold archive.
  destruct (aset2_total n _ r i0 vx k Hx Hr Hk) as [ax ->].
  destruct (aset2_total n _ r i0 vy k Hy Hr Hk) as [ay ->].
  destruct (aset2_total n _ r i0 vp k Hp Hr Hk) as [ap ->].
  destruct (aset2_total n _ r i0 vt k Ht Hr Hk) as [at_ ->].
  destruct (aset2_total n _ r i0 va k Ha Hr Hk) as [aa ->].
  simpl. eauto.
Qed.

(** [flag[i0] |= bits] on a table of [n] parcels. *)
Lemma or_flag_effect n i0 bits (flag flag' : list Z) :
  length flag = n -> or_flag i0 bits flag = Some flag' ->
  exists k f, resolve n i0 = Some k /\ flag !! k = Some f
              /\ flag' = <[k := Z.lor f bits]> flag.
Proof.
  intros Hn H. unfold or_flag in H. apply bind_Some in H as (f & Hf & H).
  apply aget_lookup in Hf as (k & Hk & Hf).
  apply aset_insert in H as (k' & Hk' & ->).
  assert (k' = k) as -> by congruence. rewrite Hn in Hk. by exists k, f.
Qed.

Lemma or_flag_total n i0 bits (flag : list Z) k :
  length flag = n -> resolve n i0 = Some k ->
  exists f, flag !! k = Some f
            /\ or_flag i0 bits flag = Some (<[k := Z.lor f bits]> flag).
Proof.
  intros Hn Hk. rewrite <- Hn in Hk.
  destruct (aget_total _ _ _ Hk) as (f & Hget & Hf).
  exists f. split; [exact Hf|]. unfold or_flag. rewrite Hget. simpl.
  by apply aset_resolved.
Qed.
End Archive.

(** ** Loops *)

Section Loops.
Context {S : Type}.

(** A reflexive and transitive relation kept by every turn is kept by
    the loop. *)
Lemma for_each_rel (Rel : S -> S -> Prop) (body : nat -> S -> option S) :
  (forall s, Rel s s) -> (forall a b c, Rel a b -> Rel b c -> Rel a c) ->
  forall l,
  (forall i s s', i ∈ l -> body i s = Some s' -> Rel s s') ->
  forall s s', for_each body l s = Some s' -> Rel s s'.
Proof.
  intros Hrefl Htrans l. induction l as [|i l IH]; intros Hbody s s' H.
  - injection H as <-. apply Hrefl.
  - simpl in H. apply bind_Some in H as (s1 & H1 & H2).
    apply Htrans with s1.
    + apply (Hbody i); [left | exact H1].
    + apply IH; [|exact H2]. intros j t t' Hj. apply Hbody. by right.
Qed.

(** An invariant kept by every turn holds after the loop. *)
Lemma for_each_inv (Inv : S -> Prop) (body : nat -> S -> option S) l :
  (forall i s s', i ∈ l -> Inv s -> body i s = Some s' -> Inv s') ->
  forall s s', Inv s -> for_each body l s = Some s' -> Inv s'.
Proof.
  induction l as [|i l IH]; intros Hbody s s' Hs H.
  - by injection H as <-.
  - simpl in H. apply bind_Some in H as (s1 & H1 & H2).
    apply (IH (fun j t t' Hj => Hbody j t t' (list_elem_of_further _ _ _ Hj)) s1);
      [|exact H2].
    apply (Hbody i s); [left | exact Hs | exact H1].
Qed.

(** A loop whose turns succeed on states satisfying an invariant that
    they keep runs to its end. *)
Lemma for_each_total (Inv : S -> Prop) (body : nat -> S -> option S) l :
  (forall i s, i ∈ l -> Inv s -> exists s', body i s = Some s' /\ Inv s') ->
  forall s, Inv s -> exists s', for_each body l s = Some s' /\ Inv s'.
Proof.
  induction l as [|i l IH]; intros Hbody s Hs.
  - by exists s.
  - destruct (Hbody i s) as (s1 & H1 & Hs1); [left | exact Hs |].
    destruct (IH (fun j t Hj => Hbody j t (list_elem_of_further _ _ _ Hj)) s1 Hs1)
      as (s' & H2 & Hs').
    exists s'. split; [|exact Hs']. simpl. by rewrite H1.
Qed.
End Loops.

(** ** One parcel at a time *)

Section Evolution.
Import Parcels.

Lemma flag_le_refl f : flag_le f f.
Proof. apply Z.land_diag. Qed.

Lemma flag_le_trans f g h : flag_le f g -> flag_le g h -> flag_le f h.
Proof.
  unfold flag_le. intros Hfg Hgh.
  rewrite <- Hfg at 1. rewrite <- Z.land_assoc, Hgh. exact Hfg.
Qed.

Lemma flag_le_lor f bits : flag_le f (Z.lor f bits).
Proof.
  unfold flag_le. apply Z.bits_inj'. intros n _.
  rewrite Z.land_spec, Z.lor_spec. by destruct (Z.testbit f n).
Qed.

Lemma flag_le_testbit f f' :
  flag_le f f' <-> forall n, Z.testbit f n = true -> Z.testbit f' n = true.
Proof.
  unfold flag_le. split.
  - intros H n Hn. rewrite <- H in Hn. rewrite Z.land_spec in Hn.
    by apply andb_true_iff in Hn as [_ ?].
  - intros H. apply Z.bits_inj'. intros n _. rewrite Z.land_spec.
    destruct (Z.testbit f n) eqn:E; [|reflexivity]. by rewrite (H n E).
Qed.

Lemma evolves_refl q : evolves q q.
Proof.
  unfold evolves, flag_evolves, chi_evolves, passed_evolves.
  destruct q as [[f|] [c|] [a|] sl]; simpl; (split; [|split]);
    constructor; try apply flag_le_refl; intros; (split; [assumption | lra || lia]).
Qed.

Lemma evolves_trans q1 q2 q3 : evolves q1 q2 -> evolves q2 q3 -> evolves q1 q3.
Proof.
  unfold evolves, flag_evolves, chi_evolves, passed_evolves.
  intros (Hf & Hc & Ha) (Hf' & Hc' & Ha'). repeat split.
  - destruct Hf; inversion Hf'; subst; constructor.
    by eapply flag_le_trans.
  - destruct Hc as [v v' H1|]; inversion Hc' as [? v'' H2|]; subst;
      constructor. intros Hv. destruct (H1 Hv) as [Hv' ?].
    destruct (H2 Hv'). split; [assumption | lra].
  - destruct Ha as [v v' H1|]; inversion Ha' as [? v'' H2|]; subst;
      constructor. intros Hv. destruct (H1 Hv) as [Hv' ?].
    destruct (H2 Hv'). split; [assumption | lia].
Qed.

Lemma frozen_refl st : frozen st st.
Proof. by intros k f _ _. Qed.

Lemma frozen_trans st1 st2 st3 : frozen st1 st2 -> frozen st2 st3 -> frozen st1 st3.
Proof.
  intros H12 H23 k f Hf Hd. rewrite <- (H12 k f Hf Hd).
  apply (H23 k f); [|exact Hd].
  pose proof (H12 k f Hf Hd) as E. unfold parcel_at in E.
  injection E as E _ _ _. by rewrite E.
Qed.

(** A change confined to a parcel that is not DEAD leaves the DEAD
    parcels as they were. *)
Lemma only_at_frozen k f st st' :
  only_at k st st' -> flag_source st !! k = Some f -> ~ dead f -> frozen st st'.
Proof.
  intros Hother Hf Hlive k' f' Hf' Hd. apply Hother. intros ->.
  rewrite Hf in Hf'. injection Hf' as <-. contradiction.
Qed.

(** A change confined to one parcel, which evolves, makes every parcel
    evolve. *)
Lemma only_at_evolves k st st' :
  only_at k st st' -> evolves (parcel_at st k) (parcel_at st' k) ->
  forall k', evolves (parcel_at st k') (parcel_at st' k').
Proof.
  intros Hother Hk k'. destruct (decide (k' = k)) as [-> | Hne]; [exact Hk|].
  rewrite (Hother k' Hne). apply evolves_refl.
Qed.

(** Writing the flag and the milestones of parcel [k] only. *)
Lemma set_flag_src_only_at k st m v :
  (forall k', k' <> k -> slots m k' = slots (src st) k') ->
  only_at k st (set_flag (set_src st m) (<[k := v]> (flag_source st))).
Proof.
  intros Hm k' Hne. unfold parcel_at; simpl.
  rewrite list_lookup_insert_ne by done. by rewrite (Hm k' Hne).
Qed.

Lemma set_flag_src_ok n k st m v :
  table_ok n st -> src_ok n m ->
  table_ok n (set_flag (set_src st m) (<[k := v]> (flag_source st))).
Proof.
  intros [Hf Hc Hp Hs] Hm. split; simpl; trivial. by rewrite length_insert.
Qed.
End Evolution.

Section Tame.
Import Parcels.

Lemma conserves_refl st : conserves st st.
Proof. by split. Qed.

Lemma conserves_trans st1 st2 st3 :
  conserves st1 st2 -> conserves st2 st3 -> conserves st1 st3.
Proof. intros [H1 H2] [H3 H4]. split; lra. Qed.

Lemma tame_refl n st : tame n st st.
Proof.
  intros Hok. split; [exact Hok|]. split; [|apply conserves_refl].
  intros k. apply evolves_refl.
Qed.

Lemma tame_trans n st1 st2 st3 : tame n st1 st2 -> tame n st2 st3 -> tame n st1 st3.
Proof.
  intros H12 H23 Hok. destruct (H12 Hok) as (Hok2 & He & Hc).
  destruct (H23 Hok2) as (Hok3 & He' & Hc').
  split; [exact Hok3|]. split; [|by eapply conserves_trans].
  intros k. by eapply evolves_trans.
Qed.

Lemma spares_dead_refl n st : spares_dead n st st.
Proof. intros Hok. split; [exact Hok | apply frozen_refl]. Qed.

Lemma spares_dead_trans n st1 st2 st3 :
  spares_dead n st1 st2 -> spares_dead n st2 st3 -> spares_dead n st1 st3.
Proof.
  intros H12 H23 Hok. destruct (H12 Hok) as (Hok2 & Hf).
  destruct (H23 Hok2) as (Hok3 & Hf').
  split; [exact Hok3 | by eapply frozen_trans].
Qed.

(** Adding bits to the flag of one parcel and archiving a milestone for
    it: the shape of the exit, ground-contact, age and deadborne
    bookkeeping. *)
Lemma flag_src_update_tame n k f bits st m :
  flag_source st !! k = Some f ->
  src_ok n m -> (forall k', k' <> k -> slots m k' = slots (src st) k') ->
  tame n st (set_flag (set_src st m) (<[k := Z.lor f bits]> (flag_source st))).
Proof.
  intros Hf Hm Hslots Hok. split; [by apply set_flag_src_ok|].
  split; [|by split].
  apply only_at_evolves with k; [by apply set_flag_src_only_at|].
  unfold evolves, parcel_at; simpl.
  rewrite list_lookup_insert_eq by (by eapply lookup_lt_Some). rewrite Hf.
  split; [constructor; apply flag_le_lor|].
  split.
  - destruct (chi st !! k); constructor. intros; split; [assumption | lra].
  - destruct (passed st !! k); constructor. intros; split; [assumption | lia].
Qed.

Lemma flag_src_update_spares n k f bits st m :
  flag_source st !! k = Some f -> ~ dead f ->
  src_ok n m -> (forall k', k' <> k -> slots m k' = slots (src st) k') ->
  spares_dead n st (set_flag (set_src st m) (<[k := Z.lor f bits]> (flag_source st))).
Proof.
  intros Hf Hlive Hm Hslots Hok. split; [by apply set_flag_src_ok|].
  apply only_at_frozen with k f; trivial. by apply set_flag_src_only_at.
Qed.
End Tame.

(** ** The termination handlers *)

Section Terminate.
Import Parcels.
Variable IDX_ORGN : Z.

Lemma land_eqb_live f : (Z.land f I_DEAD =? 0) = true <-> ~ dead f.
Proof.
  unfold dead. rewrite Z.eqb_eq. split; [tauto|].
  intros H. destruct (decide (Z.land f I_DEAD = 0)); tauto.
Qed.

Lemma terminate_body_effect code n itime x y p t idx irs i st c st' c' :
  table_ok n st ->
  terminate_body IDX_ORGN code itime x y p t idx irs i (st, c) = Some (st', c') ->
  (st' = st /\ c' = c) \/
  exists ib k f xi yi pi ti start m,
    idx !! i = Some ib /\ resolve n (ib - IDX_ORGN) = Some k
    /\ flag_source st !! k = Some f /\ ~ dead f
    /\ x !! i = Some xi /\ y !! i = Some yi /\ p !! i = Some pi /\ t !! i = Some ti
    /\ aget irs (ib - IDX_ORGN) = Some start
    /\ src_ok n m /\ (forall k', k' <> k -> slots m k' = slots (src st) k')
    /\ (forall r, r <> 0%nat -> milestone m r k = milestone (src st) r k)
    /\ milestone m 0 k = Some (xi, yi, pi, ti, IZR (start - itime))
    /\ st' = set_flag (set_src st m)
               (<[k := Z.lor f (Z.shiftl (code xi yi pi) 13 + I_DEAD + I_CROSSED)]>
                  (flag_source st))
    /\ c' = c + 1.
Proof.
  intros Hok H. unfold terminate_body in H.
  apply bind_Some in H as (ib & Hib & H).
  apply bind_Some in H as (f & Hf & H).
  destruct (Z.land f I_DEAD =? 0) eqn:Hlive.
  2:{ left. injection H as <- <-. by split. }
  right. apply land_eqb_live in Hlive.
  apply bind_Some in H as (xi & Hxi & H). apply bind_Some in H as (yi & Hyi & H).
  apply bind_Some in H as (ti & Hti & H). apply bind_Some in H as (pi & Hpi & H).
  apply bind_Some in H as (start & Hstart & H).
  apply bind_Some in H as (m & Hm & H). apply bind_Some in H as (fl & Hfl & H).
  injection H as <- <-.
  destruct (archive_effect n _ _ _ _ _ _ _ _ _ (ok_src _ _ Hok) Hm)
    as (Hm' & k & Hk & _ & Hslots & Hrest & Hslot).
  destruct (or_flag_effect n _ _ _ _ (ok_flag _ _ Hok) Hfl)
    as (k' & f' & Hk' & Hf' & ->).
  assert (k' = k) as -> by congruence.
  apply aget_lookup in Hf as (k'' & Hk'' & Hf).
  rewrite (ok_flag _ _ Hok) in Hk''. assert (k'' = k) as -> by congruence.
  assert (f' = f) as -> by congruence.
  exists ib, k, f, xi, yi, pi, ti, start, m.
  repeat (split; [assumption || reflexivity|]). reflexivity.
Qed.

Lemma terminate_body_tame code n itime x y p t idx irs i s s' :
  terminate_body IDX_ORGN code itime x y p t idx irs i s = Some s' ->
  tame n s.1 s'.1 /\ spares_dead n s.1 s'.1.
Proof.
  destruct s as [st c], s' as [st' c']. intros H. simpl.
  split; intros Hok;
    (destruct (terminate_body_effect _ _ _ _ _ _ _ _ _ _ _ _ _ _ Hok H)
      as [[-> ->] | (ib & k & f & xi & yi & pi & ti & start & m & Hib & Hk & Hf
                     & Hlive & _ & _ & _ & _ & _ & Hm & Hslots & _ & _ & -> & _)]).
  - by apply tame_refl.
  - by apply flag_src_update_tame.
  - by apply spares_dead_refl.
  - by apply flag_src_update_spares.
Qed.

Lemma terminate_loop_tame code n itime x y p t idx irs l s s' :
  for_each (terminate_body IDX_ORGN code itime x y p t idx irs) l s = Some s' ->
  tame n s.1 s'.1 /\ spares_dead n s.1 s'.1.
Proof.
  intros H. split.
  - revert s s' H. apply for_each_rel.
    + intros s. apply tame_refl.
    + intros a b c. apply tame_trans.
    + intros i s s' _ Hb. by eapply terminate_body_tame.
  - revert s s' H. apply for_each_rel.
    + intros s. apply spares_dead_refl.
    + intros a b c. apply spares_dead_trans.
    + intros i s s' _ Hb. by eapply terminate_body_tame.
Qed.

Lemma exiter_tame n itime x y p t idx st irs rr st' c :
  exiter IDX_ORGN itime x y p t idx st irs rr = Some (st', c) ->
  tame n st st' /\ spares_dead n st st'.
Proof. intros H. by apply (terminate_loop_tame _ n) in H. Qed.

Lemma radada_tame n itime x y p t idx st irs st' c :
  radada IDX_ORGN itime x y p t idx st irs = Some (st', c) ->
  tame n st st' /\ spares_dead n st st'.
Proof. intros H. by apply (terminate_loop_tame _ n) in H. Qed.
Lemma terminate_loop_keeps code n itime x y p t idx irs l s s' :
  table_ok n s.1 ->
  for_each (terminate_body IDX_ORGN code itime x y p t idx irs) l s = Some s' ->
  keeps_accounts s.1 s'.1.
Proof.
  intros Hok H.
  assert (table_ok n s'.1 /\ keeps_accounts s.1 s'.1) as [_ ?]; [|assumption].
  revert H. apply (for_each_inv (fun a => table_ok n a.1 /\ keeps_accounts s.1 a.1));
    [|by split].
  intros i [st c] [st' c'] _ [Hok1 Hk] Hb. simpl in Hok1, Hk |- *.
  split; [by destruct (proj1 (terminate_body_tame _ n _ _ _ _ _ _ _ _ _ _ Hb) Hok1)|].
  destruct (terminate_body_effect _ _ _ _ _ _ _ _ _ _ _ _ _ _ Hok1 Hb)
    as [[-> ->] | (? & ? & ? & ? & ? & ? & ? & ? & ? & _ & _ & _ & _ & _ & _ & _ & _ & _
                   & _ & _ & _ & _ & -> & _)]; exact Hk.
Qed.
End Terminate.

(** ** The hourly sweeps *)

Section Sweeps.
Import Parcels.
Variable IDX_ORGN : Z.

Lemma sweeping_start n bits st : table_ok n st -> sweeping n bits st st.
Proof.
  intros Hok. split; [exact Hok|]. do 4 (split; [reflexivity|]).
  intros k f0 Hf. by left.
Qed.

Lemma sweeping_tame n bits st0 st : sweeping n bits st0 st -> tame n st0 st.
Proof.
  intros (Hok & Hchi & Hpassed & Hsource & Hpl & Hflag) Hok0.
  split; [exact Hok|]. split.
  - intros k. unfold evolves, parcel_at; simpl. rewrite Hchi, Hpassed.
    split; [|split].
    + destruct (flag_source st0 !! k) as [f0|] eqn:Hf0.
      * destruct (Hflag k f0 Hf0) as [-> | ->]; constructor;
          [apply flag_le_refl | apply flag_le_lor].
      * apply lookup_ge_None in Hf0. rewrite (ok_flag _ _ Hok0) in Hf0.
        rewrite <- (ok_flag _ _ Hok) in Hf0. apply lookup_ge_None in Hf0.
        rewrite Hf0. constructor.
    + destruct (chi st0 !! k); constructor. intros; split; [assumption | lra].
    + destruct (passed st0 !! k); constructor. intros; split; [assumption | lia].
  - unfold conserves. by rewrite Hchi, Hsource, Hpl.
Qed.

(** One assignment of a sweep: the flag of parcel [k] becomes its value
    before the sweep with [bits] added, and a milestone is archived. *)
Lemma sweeping_write n bits st0 st i0 f0 fl m r vx vy vp vt va :
  table_ok n st0 -> sweeping n bits st0 st ->
  aget (flag_source st0) i0 = Some f0 ->
  aset (flag_source st) i0 (Z.lor f0 bits) = Some fl ->
  archive r i0 vx vy vp vt va (src st) = Some m ->
  sweeping n bits st0 (set_flag (set_src st m) fl)
  /\ exists k, resolve n i0 = Some k /\ flag_source st0 !! k = Some f0
       /\ fl = <[k := Z.lor f0 bits]> (flag_source st)
       /\ (forall k', k' <> k -> slots m k' = slots (src st) k')
       /\ (forall r', r' <> r -> milestone m r' k = milestone (src st) r' k)
       /\ milestone m r k = Some (vx, vy, vp, vt, va).
Proof.
  intros Hok0 (Hok & Hchi & Hpassed & Hsource & Hpl & Hflag) Hf0 Hfl Hm.
  apply aget_lookup in Hf0 as (k & Hk & Hf0). rewrite (ok_flag _ _ Hok0) in Hk.
  apply aset_insert in Hfl as (k' & Hk' & ->). rewrite (ok_flag _ _ Hok) in Hk'.
  assert (k' = k) as -> by congruence.
  destruct (archive_effect n _ _ _ _ _ _ _ _ _ (ok_src _ _ Hok) Hm)
    as (Hm' & k' & Hk'' & _ & Hslots & Hrest & Hslot).
  assert (k' = k) as -> by congruence.
  split.
  - split; [by apply set_flag_src_ok|]. simpl. repeat (split; [assumption|]).
    intros j g Hg. destruct (decide (j = k)) as [-> | Hne].
    + right. rewrite list_lookup_insert_eq.
      * congruence.
      * rewrite (ok_flag _ _ Hok). by eapply resolve_lt.
    + rewrite list_lookup_insert_ne by done. by apply Hflag.
  - exists k. by repeat (split; [assumption || reflexivity|]).
Qed.

Lemma age_sweep_body_sweeping n pa irs st0 j st st' :
  table_ok n st0 -> sweeping n (I_DEAD + I_OLD) st0 st ->
  age_sweep_body IDX_ORGN pa irs st0 j st = Some st' ->
  sweeping n (I_DEAD + I_OLD) st0 st'.
Proof.
  intros Hok0 Hsw H. unfold age_sweep_body in H.
  apply bind_Some in H as (ib & Hib & H). apply bind_Some in H as (f0 & Hf0 & H).
  apply bind_Some in H as (fl & Hfl & H).
  apply bind_Some in H as (vx & Hvx & H). apply bind_Some in H as (vy & Hvy & H).
  apply bind_Some in H as (vp & Hvp & H). apply bind_Some in H as (vt & Hvt & H).
  apply bind_Some in H as (start & Hstart & H). apply bind_Some in H as (m & Hm & H).
  injection H as <-.
  by destruct (sweeping_write _ _ _ _ _ _ _ _ _ _ _ _ _ _ Hok0 Hsw Hf0 Hfl Hm).
Qed.

Lemma age_sweep_tame n age_bound pa irs st st' c :
  age_sweep IDX_ORGN age_bound pa irs st = Some (st', c) -> tame n st st'.
Proof.
  intros H Hok. unfold age_sweep in H.
  apply bind_Some in H as (sel & _ & H). apply bind_Some in H as (st1 & Hloop & H).
  injection H as -> _.
  apply (sweeping_tame n (I_DEAD + I_OLD)); [|exact Hok].
  revert Hloop. apply for_each_inv; [|by apply sweeping_start].
  intros j s s' _ Hs Hb. by eapply age_sweep_body_sweeping.
Qed.

Lemma deadborne_body_sweeping n p0 idx st0 j st st' :
  table_ok n st0 -> sweeping n (I_DEAD + I_DBORNE) st0 st ->
  deadborne_body IDX_ORGN p0 st0 idx j st = Some st' ->
  sweeping n (I_DEAD + I_DBORNE) st0 st'.
Proof.
  intros Hok0 Hsw H. unfold deadborne_body in H.
  apply bind_Some in H as (ib & Hib & H). apply bind_Some in H as (f0 & Hf0 & H).
  apply bind_Some in H as (fl & Hfl & H).
  apply bind_Some in H as (vx & Hvx & H). apply bind_Some in H as (vy & Hvy & H).
  apply bind_Some in H as (vp & Hvp & H). apply bind_Some in H as (vt & Hvt & H).
  apply bind_Some in H as (m & Hm & H).
  injection H as <-.
  by destruct (sweeping_write _ _ _ _ _ _ _ _ _ _ _ _ _ _ Hok0 Hsw Hf0 Hfl Hm).
Qed.

Lemma deadborne_tame n p0 idx1 numpart_s idx_act st st' c :
  deadborne IDX_ORGN p0 idx1 numpart_s idx_act st = Some (st', c) -> tame n st st'.
Proof.
  intros H Hok. unfold deadborne in H.
  apply bind_Some in H as (st1 & Hloop & H). injection H as -> _.
  apply (sweeping_tame n (I_DEAD + I_DBORNE)); [|exact Hok].
  revert Hloop. apply for_each_inv; [|by apply sweeping_start].
  intros j s s' _ Hs Hb. by eapply deadborne_body_sweeping.
Qed.
Lemma sweeping_keeps n bits st0 st : sweeping n bits st0 st -> keeps_accounts st0 st.
Proof. intros (_ & Hc & _ & Hs & Hp & _). by split. Qed.

Lemma age_sweep_keeps n age_bound pa irs st st' c :
  table_ok n st ->
  age_sweep IDX_ORGN age_bound pa irs st = Some (st', c) -> keeps_accounts st st'.
Proof.
  intros Hok H. unfold age_sweep in H.
  apply bind_Some in H as (sel & _ & H). apply bind_Some in H as (st1 & Hloop & H).
  injection H as -> _.
  apply (sweeping_keeps n (I_DEAD + I_OLD)).
  revert Hloop. apply for_each_inv; [|by apply sweeping_start].
  intros j s s' _ Hs Hb. by eapply age_sweep_body_sweeping.
Qed.

Lemma deadborne_keeps n p0 idx1 numpart_s idx_act st st' c :
  table_ok n st ->
  deadborne IDX_ORGN p0 idx1 numpart_s idx_act st = Some (st', c) ->
  keeps_accounts st st'.
Proof.
  intros Hok H. unfold deadborne in H.
  apply bind_Some in H as (st1 & Hloop & H). injection H as -> _.
  apply (sweeping_keeps n (I_DEAD + I_DBORNE)).
  revert Hloop. apply for_each_inv; [|by apply sweeping_start].
  intros j s s' _ Hs Hb. by eapply deadborne_body_sweeping.
Qed.
End Sweeps.

(** ** The ratchet *)

Section Ratchet.
Import Parcels.
Variable IDX_ORGN : Z.

Lemma live_lor_hit f : ~ dead f -> ~ dead (Z.lor f I_HIT).
Proof.
  unfold dead. intros H. rewrite Z.land_lor_distr_l.
  destruct (decide (Z.land f I_DEAD = 0)) as [-> | ?]; [|contradiction].
  by vm_compute.
Qed.

Lemma dead_lor_hit f : dead (Z.lor f I_HIT) <-> dead f.
Proof.
  split; [|unfold dead; rewrite Z.land_lor_distr_l;
           change (Z.land I_HIT I_DEAD) with 0; by rewrite Z.lor_0_r].
  intros H Hn. apply (live_lor_hit f); [|exact H]. intros Hd. by apply Hd.
Qed.

Lemma rung_effect n r from to thr hit sl irs i i0 st nh st' nh' :
  table_ok n st ->
  rung r from to thr hit sl irs i i0 (st, nh) = Some (st', nh') ->
  exists k ps c f,
    resolve n i0 = Some k /\ passed st !! k = Some ps /\ chi st !! k = Some c
    /\ flag_source st !! k = Some f
    /\ table_ok n st' /\ chi st' = chi st /\ source st' = source st /\ pl st' = pl st
    /\ only_at k st st'
    /\ passed st' !! k = Some (if fires from thr ps c then to else ps)
    /\ flag_source st' !! k
       = Some (if fires from thr ps c && hit then Z.lor f I_HIT else f)
    /\ (forall r', r' <> r -> milestone (src st') r' k = milestone (src st) r' k)
    /\ (forall r', r' <> r -> nh' !! r' = nh !! r')
    /\ length nh' = length nh
    /\ if fires from thr ps c
       then exists vx vy vp vt start h,
         sl_xi sl !! i = Some vx /\ sl_yi sl !! i = Some vy
         /\ sl_pi sl !! i = Some vp /\ sl_ti sl !! i = Some vt
         /\ aget irs i0 = Some start
         /\ milestone (src st') r k
            = Some (vx, vy, vp, vt, IZR (start - sl_itime sl))
         /\ nh !! r = Some h /\ nh' !! r = Some (h + 1)
       else st' = st /\ nh' = nh.
Proof.
  intros Hok H. unfold rung in H.
  apply bind_Some in H as (ps & Hps & H).
  apply aget_lookup in Hps as (k & Hk & Hps). rewrite (ok_passed _ _ Hok) in Hk.
  pose proof (resolve_lt _ _ _ Hk) as Hlt.
  destruct (lookup_lt_is_Some_2 (chi st) k) as [c Hc];
    [by rewrite (ok_chi _ _ Hok)|].
  destruct (lookup_lt_is_Some_2 (flag_source st) k) as [f Hf];
    [by rewrite (ok_flag _ _ Hok)|].
  exists k, ps, c, f. do 4 (split; [assumption|]).
  assert (forall st0, only_at k st0 st0) as Hsame by (by intros ? ? ?).
  unfold fires. destruct (ps =? from) eqn:Hfrom; simpl.
  2:{ injection H as <- <-. by repeat (split; [done|]). }
  apply bind_Some in H as (c' & Hc' & H).
  rewrite (aget_resolved (chi st) i0 k) in Hc' by (by rewrite (ok_chi _ _ Hok)).
  assert (c' = c) as -> by congruence.
  destruct (Rlt_dec c thr) as [Hlt' | Hge].
  2:{ injection H as <- <-. by repeat (split; [done|]). }
  apply bind_Some in H as (vx & Hvx & H). apply bind_Some in H as (vy & Hvy & H).
  apply bind_Some in H as (vp & Hvp & H). apply bind_Some in H as (vt & Hvt & H).
  apply bind_Some in H as (start & Hstart & H).
  apply bind_Some in H as (m & Hm & H). apply bind_Some in H as (fl & Hfl & H).
  apply bind_Some in H as (pa & Hpa & H). apply bind_Some in H as (h & Hh & H).
  injection H as <- <-.
  destruct (archive_effect n _ _ _ _ _ _ _ _ _ (ok_src _ _ Hok) Hm)
    as (Hm' & k' & Hk' & _ & Hslots & Hrest & Hslot).
  assert (k' = k) as -> by congruence.
  apply aset_insert in Hpa as (k2 & Hk2 & ->). rewrite (ok_passed _ _ Hok) in Hk2.
  assert (k2 = k) as -> by congruence.
  assert (fl = if hit then <[k := Z.lor f I_HIT]> (flag_source st) else flag_source st)
    as Hfl'.
  { destruct hit; [|congruence].
    destruct (or_flag_effect n _ _ _ _ (ok_flag _ _ Hok) Hfl) as (k3 & f' & Hk3 & Hf' & ->).
    congruence. }
  assert (length fl = n) as Hfln.
  { rewrite Hfl'. destruct hit; [rewrite length_insert|]; apply (ok_flag _ _ Hok). }
  split.
  { destruct Hok as [? ? ? ?]. split; simpl; trivial. by rewrite length_insert. }
  do 3 (split; [reflexivity|]). split.
  { intros k' Hne. unfold parcel_at; simpl.
    rewrite list_lookup_insert_ne, (Hslots k' Hne) by done.
    rewrite Hfl'. destruct hit; [by rewrite list_lookup_insert_ne|done]. }
  simpl. split.
  { apply list_lookup_insert_eq. by rewrite (ok_passed _ _ Hok). }
  split.
  { rewrite Hfl'. destruct hit; [|done].
    apply list_lookup_insert_eq. by rewrite (ok_flag _ _ Hok). }
  split; [exact Hrest|]. split.
  { intros r' Hne. by rewrite list_lookup_insert_ne. }
  split; [apply length_insert|].
  exists vx, vy, vp, vt, start, h. repeat (split; [assumption|]).
  apply list_lookup_insert_eq. by eapply lookup_lt_Some.
Qed.

Lemma rung_total n r from to thr hit sl irs i i0 st nh k vx vy vp vt start :
  table_ok n st -> resolve n i0 = Some k -> (r < 6)%nat -> length nh = 6%nat ->
  sl_xi sl !! i = Some vx -> sl_yi sl !! i = Some vy ->
  sl_pi sl !! i = Some vp -> sl_ti sl !! i = Some vt ->
  aget irs i0 = Some start ->
  exists acc', rung r from to thr hit sl irs i i0 (st, nh) = Some acc'.
Proof.
  intros Hok Hk Hr Hnh Hvx Hvy Hvp Hvt Hstart. unfold rung.
  pose proof Hk as Hkp. rewrite <- (ok_passed _ _ Hok) in Hkp.
  destruct (aget_total _ _ _ Hkp) as (ps & -> & _). simpl.
  destruct (ps =? from); [|eauto].
  pose proof Hk as Hkc. rewrite <- (ok_chi _ _ Hok) in Hkc.
  destruct (aget_total _ _ _ Hkc) as (c & -> & _). simpl.
  destruct (Rlt_dec c thr); [|eauto].
  rewrite Hvx, Hvy, Hvp, Hvt, Hstart. simpl.
  destruct (archive_total n r i0 vx vy vp vt (IZR (start - sl_itime sl)) _ k
              (ok_src _ _ Hok) Hr Hk) as [m ->]. simpl.
  assert (exists fl, (if hit then or_flag i0 I_HIT (flag_source st)
                      else Some (flag_source st)) = Some fl) as [fl ->].
  { destruct hit; [|eauto].
    destruct (or_flag_total n i0 I_HIT _ k (ok_flag _ _ Hok) Hk) as (f & _ & ->). eauto. }
  simpl. rewrite (aset_resolved _ _ _ _ Hkp). simpl.
  destruct (lookup_lt_is_Some_2 nh r) as [h ->]; [lia|]. simpl. eauto.
Qed.
(** The five rungs in sequence. *)
Lemma ratchet_effect n sl irs i i0 st nh st' nh' :
  table_ok n st ->
  ratchet sl irs i i0 (st, nh) = Some (st', nh') ->
  exists k ps c f,
    resolve n i0 = Some k /\ passed st !! k = Some ps /\ chi st !! k = Some c
    /\ flag_source st !! k = Some f
    /\ table_ok n st' /\ chi st' = chi st /\ source st' = source st /\ pl st' = pl st
    /\ only_at k st st' /\ length nh' = length nh
    /\ let p1 := stage 10 9 (9 / 10) c ps in
       let p2 := stage 9 7 (7 / 10) c p1 in
       let p3 := stage 7 5 (5 / 10) c p2 in
       let p4 := stage 5 3 (3 / 10) c p3 in
       let p5 := stage 3 1 (1 / 10) c p4 in
       passed st' !! k = Some p5
       /\ flag_source st' !! k
          = Some (if fires 10 (9 / 10) ps c then Z.lor f I_HIT else f)
       /\ rung_outcome sl irs i i0 st nh st' nh' k 1 (fires 10 (9 / 10) ps c)
       /\ rung_outcome sl irs i i0 st nh st' nh' k 2 (fires 9 (7 / 10) p1 c)
       /\ rung_outcome sl irs i i0 st nh st' nh' k 3 (fires 7 (5 / 10) p2 c)
       /\ rung_outcome sl irs i i0 st nh st' nh' k 4 (fires 5 (3 / 10) p3 c)
       /\ rung_outcome sl irs i i0 st nh st' nh' k 5 (fires 3 (1 / 10) p4 c).
Proof.
  intros Hok H. unfold ratchet in H.
  apply bind_Some in H as ([st1 nh1] & H1 & H).
  apply bind_Some in H as ([st2 nh2] & H2 & H).
  apply bind_Some in H as ([st3 nh3] & H3 & H).
  apply bind_Some in H as ([st4 nh4] & H4 & H5).
  destruct (rung_effect n _ _ _ _ _ _ _ _ _ _ _ _ _ Hok H1)
    as (k & ps & c & f & Hk & Hps & Hc & Hf & Hok1 & Hchi1 & Hso1 & Hpl1 & Hat1
        & Hps1 & Hf1 & Hm1 & Hn1 & Hl1 & Hout1).
  destruct (rung_effect n _ _ _ _ _ _ _ _ _ _ _ _ _ Hok1 H2)
    as (k2 & ps1 & c1 & f1 & Hk2 & Hps1' & Hc1 & Hf1' & Hok2 & Hchi2 & Hso2 & Hpl2 & Hat2
        & Hps2 & Hf2 & Hm2 & Hn2 & Hl2 & Hout2).
  assert (k2 = k) as -> by congruence.
  rewrite Hchi1 in Hc1. rewrite Hps1 in Hps1'. rewrite Hf1 in Hf1'.
  assert (c1 = c) as -> by congruence. injection Hps1' as <-. injection Hf1' as <-.
  destruct (rung_effect n _ _ _ _ _ _ _ _ _ _ _ _ _ Hok2 H3)
    as (k3 & ps2 & c2 & f2 & Hk3 & Hps2' & Hc2 & Hf2' & Hok3 & Hchi3 & Hso3 & Hpl3 & Hat3
        & Hps3 & Hf3 & Hm3 & Hn3 & Hl3 & Hout3).
  assert (k3 = k) as -> by congruence.
  rewrite Hchi2, Hchi1 in Hc2. rewrite Hps2 in Hps2'. rewrite Hf2 in Hf2'.
  assert (c2 = c) as -> by congruence. injection Hps2' as <-. injection Hf2' as <-.
  destruct (rung_effect n _ _ _ _ _ _ _ _ _ _ _ _ _ Hok3 H4)
    as (k4 & ps3 & c3 & f3 & Hk4 & Hps3' & Hc3 & Hf3' & Hok4 & Hchi4 & Hso4 & Hpl4 & Hat4
        & Hps4 & Hf4 & Hm4 & Hn4 & Hl4 & Hout4).
  assert (k4 = k) as -> by congruence.
  rewrite Hchi3, Hchi2, Hchi1 in Hc3. rewrite Hps3 in Hps3'. rewrite Hf3 in Hf3'.
  assert (c3 = c) as -> by congruence. injection Hps3' as <-. injection Hf3' as <-.
  destruct (rung_effect n _ _ _ _ _ _ _ _ _ _ _ _ _ Hok4 H5)
    as (k5 & ps4 & c4 & f4 & Hk5 & Hps4' & Hc4 & Hf4' & Hok5 & Hchi5 & Hso5 & Hpl5 & Hat5
        & Hps5 & Hf5 & Hm5 & Hn5 & Hl5 & Hout5).
  assert (k5 = k) as -> by congruence.
  rewrite Hchi4, Hchi3, Hchi2, Hchi1 in Hc4. rewrite Hps4 in Hps4'. rewrite Hf4 in Hf4'.
  assert (c4 = c) as -> by congruence. injection Hps4' as <-. injection Hf4' as <-.
  rewrite !andb_false_r in *. rewrite andb_true_r in *.
  exists k, ps, c, f. do 4 (split; [assumption|]).
  split; [exact Hok5|]. split; [congruence|]. split; [congruence|]. split; [congruence|].
  split.
  { intros k' Hne. by rewrite (Hat5 k' Hne), (Hat4 k' Hne), (Hat3 k' Hne),
      (Hat2 k' Hne), (Hat1 k' Hne). }
  split; [congruence|]. cbv zeta. unfold stage.
  split; [exact Hps5|]. split; [exact Hf5|].
  unfold rung_outcome.
  repeat split.
  - destruct (fires 10 (9 / 10) ps c).
    + destruct Hout1 as (vx & vy & vp & vt & start & h & ? & ? & ? & ? & ? & Hm & ? & Hh).
      exists vx, vy, vp, vt, start, h. repeat (split; [assumption|]).
      split; [|split; [assumption|]].
      * by rewrite Hm5, Hm4, Hm3, Hm2 by lia.
      * by rewrite Hn5, Hn4, Hn3, Hn2 by lia.
    + destruct Hout1 as [-> ->].
      split; [by rewrite Hm5, Hm4, Hm3, Hm2 by lia | by rewrite Hn5, Hn4, Hn3, Hn2 by lia].
  - destruct (fires 9 (7 / 10) _ c).
    + destruct Hout2 as (vx & vy & vp & vt & start & h & ? & ? & ? & ? & ? & Hm & Hh0 & Hh).
      exists vx, vy, vp, vt, start, h. repeat (split; [assumption|]). split; [|split].
      * by rewrite Hm5, Hm4, Hm3 by lia.
      * by rewrite <- Hn1 by lia.
      * by rewrite Hn5, Hn4, Hn3 by lia.
    + destruct Hout2 as [-> ->].
      split; [by rewrite Hm5, Hm4, Hm3, Hm1 by lia | by rewrite Hn5, Hn4, Hn3, Hn1 by lia].
  - destruct (fires 7 (5 / 10) _ c).
    + destruct Hout3 as (vx & vy & vp & vt & start & h & ? & ? & ? & ? & ? & Hm & Hh0 & Hh).
      exists vx, vy, vp, vt, start, h. repeat (split; [assumption|]). split; [|split].
      * by rewrite Hm5, Hm4 by lia.
      * by rewrite <- Hn1, <- Hn2 by lia.
      * by rewrite Hn5, Hn4 by lia.
    + destruct Hout3 as [-> ->].
      split; [by rewrite Hm5, Hm4, Hm2, Hm1 by lia | by rewrite Hn5, Hn4, Hn2, Hn1 by lia].
  - destruct (fires 5 (3 / 10) _ c).
    + destruct Hout4 as (vx & vy & vp & vt & start & h & ? & ? & ? & ? & ? & Hm & Hh0 & Hh).
      exists vx, vy, vp, vt, start, h. repeat (split; [assumption|]). split; [|split].
      * by rewrite Hm5 by lia.
      * by rewrite <- Hn1, <- Hn2, <- Hn3 by lia.
      * by rewrite Hn5 by lia.
    + destruct Hout4 as [-> ->].
      split; [by rewrite Hm5, Hm3, Hm2, Hm1 by lia | by rewrite Hn5, Hn3, Hn2, Hn1 by lia].
  - destruct (fires 3 (1 / 10) _ c).
    + destruct Hout5 as (vx & vy & vp & vt & start & h & ? & ? & ? & ? & ? & Hm & Hh0 & Hh).
      exists vx, vy, vp, vt, start, h. repeat (split; [assumption|]).
      split; [|exact Hh].
      by rewrite <- Hn1, <- Hn2, <- Hn3, <- Hn4 by lia.
    + destruct Hout5 as [-> ->].
      split; [by rewrite Hm4, Hm3, Hm2, Hm1 by lia | by rewrite Hn4, Hn3, Hn2, Hn1 by lia].
Qed.
Lemma ratchet_total n sl irs i i0 st nh k vx vy vp vt start :
  table_ok n st -> resolve n i0 = Some k -> length nh = 6%nat ->
  sl_xi sl !! i = Some vx -> sl_yi sl !! i = Some vy ->
  sl_pi sl !! i = Some vp -> sl_ti sl !! i = Some vt ->
  aget irs i0 = Some start ->
  exists acc', ratchet sl irs i i0 (st, nh) = Some acc'.
Proof.
  intros Hok Hk Hnh Hvx Hvy Hvp Hvt Hstart. unfold ratchet.
  destruct (rung_total n 1 10 9 (9 / 10) true sl irs i i0 st nh k vx vy vp vt start)
    as [[st1 nh1] H1]; trivial; [lia|].
  destruct (rung_effect n _ _ _ _ _ _ _ _ _ _ _ _ _ Hok H1)
    as (? & ? & ? & ? & _ & _ & _ & _ & Hok1 & _ & _ & _ & _ & _ & _ & _ & _ & Hl1 & _).
  destruct (rung_total n 2 9 7 (7 / 10) false sl irs i i0 st1 nh1 k vx vy vp vt start)
    as [[st2 nh2] H2]; trivial; [lia | congruence |].
  destruct (rung_effect n _ _ _ _ _ _ _ _ _ _ _ _ _ Hok1 H2)
    as (? & ? & ? & ? & _ & _ & _ & _ & Hok2 & _ & _ & _ & _ & _ & _ & _ & _ & Hl2 & _).
  destruct (rung_total n 3 7 5 (5 / 10) false sl irs i i0 st2 nh2 k vx vy vp vt start)
    as [[st3 nh3] H3]; trivial; [lia | congruence |].
  destruct (rung_effect n _ _ _ _ _ _ _ _ _ _ _ _ _ Hok2 H3)
    as (? & ? & ? & ? & _ & _ & _ & _ & Hok3 & _ & _ & _ & _ & _ & _ & _ & _ & Hl3 & _).
  destruct (rung_total n 4 5 3 (3 / 10) false sl irs i i0 st3 nh3 k vx vy vp vt start)
    as [[st4 nh4] H4]; trivial; [lia | congruence |].
  destruct (rung_effect n _ _ _ _ _ _ _ _ _ _ _ _ _ Hok3 H4)
    as (? & ? & ? & ? & _ & _ & _ & _ & Hok4 & _ & _ & _ & _ & _ & _ & _ & _ & Hl4 & _).
  destruct (rung_total n 5 3 1 (1 / 10) false sl irs i i0 st4 nh4 k vx vy vp vt start)
    as [acc' H5]; trivial; [lia | congruence |].
  exists acc'.
  apply bind_Some. exists (st1, nh1). split; [exact H1|].
  apply bind_Some. exists (st2, nh2). split; [exact H2|].
  apply bind_Some. exists (st3, nh3). split; [exact H3|].
  apply bind_Some. exists (st4, nh4). split; [exact H4|]. exact H5.
Qed.

(** The cascade on the ratchet state alone: which rungs fire between the
    state [ps] before and the state after. *)
Lemma cascade_facts ps c :
  ratchet_value ps ->
  let p1 := stage 10 9 (9 / 10) c ps in
  let p2 := stage 9 7 (7 / 10) c p1 in
  let p3 := stage 7 5 (5 / 10) c p2 in
  let p4 := stage 5 3 (3 / 10) c p3 in
  let p5 := stage 3 1 (1 / 10) c p4 in
  ratchet_value p5 /\ p5 <= ps
  /\ (fires 10 (9 / 10) ps c = true <-> 10 <= ps /\ p5 <= 9)
  /\ (fires 9 (7 / 10) p1 c = true <-> 9 <= ps /\ p5 <= 7)
  /\ (fires 7 (5 / 10) p2 c = true <-> 7 <= ps /\ p5 <= 5)
  /\ (fires 5 (3 / 10) p3 c = true <-> 5 <= ps /\ p5 <= 3)
  /\ (fires 3 (1 / 10) p4 c = true <-> 3 <= ps /\ p5 <= 1)
  /\ (p5 < ps -> (c < IZR p5 / 10)%R)
  /\ (1 < p5 -> (IZR (p5 - (if p5 =? 10 then 1 else 2)) / 10 <= c)%R).
Proof.
  unfold ratchet_value, stage, fires. intros Hps. cbv zeta.
  destruct (Rlt_dec c (9 / 10)); destruct (Rlt_dec c (7 / 10));
    destruct (Rlt_dec c (5 / 10)); destruct (Rlt_dec c (3 / 10));
    destruct (Rlt_dec c (1 / 10)); try (exfalso; lra);
    destruct Hps as [-> | [-> | [-> | [-> | [-> | ->]]]]]; simpl;
    (split; [tauto|]); (split; [lia|]);
    repeat (split; [split; [intros; try lia; discriminate
                           | intros [? ?]; try reflexivity; lia]|]);
    split; intros; try lia;
    repeat match goal with
           | |- context [IZR (?a - ?b)] =>
               let v := eval vm_compute in (a - b) in change (a - b) with v
           end; lra.
Qed.
End Ratchet.

(** ** The accumulators *)

Section Accumulators.
Import Parcels.

Lemma rsum_insert (a : list R) k old v :
  a !! k = Some old -> rsum (<[k := v]> a) = (rsum a - old + v)%R.
Proof.
  revert k. induction a as [|u a IH]; intros [|k] H; try discriminate; simpl in *.
  - injection H as ->. lra.
  - rewrite (IH k H). lra.
Qed.

Lemma add1_effect a i v a' :
  add1 a i v = Some a' ->
  exists k old, resolve (length a) i = Some k /\ a !! k = Some old
    /\ a' = <[k := (old + v)%R]> a /\ rsum a' = (rsum a + v)%R.
Proof.
  unfold add1. intros H. apply bind_Some in H as (old & Hold & H).
  apply aget_lookup in Hold as (k & Hk & Hold).
  apply aset_insert in H as (k' & Hk' & ->). assert (k' = k) as -> by congruence.
  exists k, old. repeat split; trivial. rewrite (rsum_insert _ _ _ _ Hold). lra.
Qed.

Lemma add2_effect a ym xm v a' :
  add2 a ym xm v = Some a' ->
  exists r row k old, resolve (length a) ym = Some r /\ a !! r = Some row
    /\ resolve (length row) xm = Some k /\ row !! k = Some old
    /\ a' = <[r := <[k := (old + v)%R]> row]> a /\ rsum2 a' = (rsum2 a + v)%R.
Proof.
  unfold add2. intros H. apply bind_Some in H as (r & Hr & H).
  apply bind_Some in H as (row & Hrow & H). apply bind_Some in H as (old & Hold & H).
  apply bind_Some in H as (row' & Hrow' & H). injection H as <-.
  apply aget_lookup in Hold as (k & Hk & Hold).
  apply aset_insert in Hrow' as (k' & Hk' & ->). assert (k' = k) as -> by congruence.
  exists r, row, k, old. repeat split; trivial.
  unfold rsum2. rewrite list_fmap_insert.
  rewrite (rsum_insert _ r (rsum row)) by (by rewrite list_lookup_fmap, Hrow).
  rewrite (rsum_insert _ _ _ _ Hold). lra.
Qed.

Lemma add1_total a i v k :
  resolve (length a) i = Some k -> exists a', add1 a i v = Some a'.
Proof.
  intros Hk. unfold add1. destruct (aget_total _ _ _ Hk) as (old & -> & _). simpl.
  rewrite (aset_resolved _ _ _ _ Hk). eauto.
Qed.

Lemma add2_total (a : list (list R)) ym xm v r row k :
  resolve (length a) ym = Some r -> a !! r = Some row ->
  resolve (length row) xm = Some k -> exists a', add2 a ym xm v = Some a'.
Proof.
  intros Hr Hrow Hk. unfold add2. rewrite Hr. simpl. rewrite Hrow. simpl.
  destruct (aget_total _ _ _ Hk) as (old & -> & _). simpl.
  rewrite (aset_resolved _ _ _ _ Hk). simpl. eauto.
Qed.
End Accumulators.

(** ** The detrainment engine *)

Section Detrainer.
Import Parcels.
Variable IDX_ORGN : Z.

(** One turn of the detrainer's loop, case by case. *)
Lemma detrainer_body_effect n sl g irs off nlat nlon i st nh st' nh' :
  table_ok n st ->
  detrainer_body IDX_ORGN sl g irs off nlat nlon i (st, nh) = Some (st', nh') ->
  exists ib k f,
    sl_idx_back sl !! i = Some ib /\ resolve n (ib - IDX_ORGN) = Some k
    /\ flag_source st !! k = Some f
    /\ if Z.land f I_DEAD =? 0 then
         exists xig yig xfg yfg ll h,
           grid_cells sl g i = Some (xig, yig, xfg, yfg)
           /\ Rasterizer.line xig yig xfg yfg = Some ll
           /\ sl_hyb sl !! i = Some h
           /\ if Rge_dec (path_mean (udr g) h ll) off then
                exists c so pl' ps,
                  let newchi := (c * exp (- 3600 * path_mean (udr g) h ll))%R in
                  let xm := mid_cell nlon xig xfg (xshift g) in
                  let ym := mid_cell nlat yig yfg (yshift g) in
                  let st1 := set_chi (set_pl (set_source st so) pl')
                               (<[k := newchi]> (chi st)) in
                  chi st !! k = Some c
                  /\ add2 (source st) ym xm (c - newchi) = Some so
                  /\ add1 (pl st) (mask g ym xm) (c - newchi) = Some pl'
                  /\ passed st !! k = Some ps
                  /\ if 1 <? ps
                     then ratchet sl irs i (ib - IDX_ORGN) (st1, nh) = Some (st', nh')
                     else st' = st1 /\ nh' = nh
              else st' = st /\ nh' = nh
       else st' = st /\ nh' = nh.
Proof.
  intros Hok H. unfold detrainer_body in H.
  apply bind_Some in H as (ib & Hib & H). apply bind_Some in H as (f & Hf & H).
  apply aget_lookup in Hf as (k & Hk & Hf). rewrite (ok_flag _ _ Hok) in Hk.
  exists ib, k, f. do 3 (split; [assumption|]).
  destruct (Z.land f I_DEAD =? 0); [|by injection H as <- <-].
  apply bind_Some in H as ([[[xig yig] xfg] yfg] & Hcells & H).
  apply bind_Some in H as (ll & Hll & H). apply bind_Some in H as (h & Hh & H).
  exists xig, yig, xfg, yfg, ll, h. do 3 (split; [assumption|]).
  destruct (Rge_dec (path_mean (udr g) h ll) off); [|by injection H as <- <-].
  apply bind_Some in H as (c & Hc & H). apply bind_Some in H as (so & Hso & H).
  apply bind_Some in H as (pl' & Hpl & H). apply bind_Some in H as (ch & Hch & H).
  apply bind_Some in H as (ps & Hps & H).
  apply aget_lookup in Hc as (k' & Hk' & Hc). rewrite (ok_chi _ _ Hok) in Hk'.
  assert (k' = k) as -> by congruence.
  apply aset_insert in Hch as (k' & Hk'' & ->). rewrite (ok_chi _ _ Hok) in Hk''.
  assert (k' = k) as -> by congruence.
  simpl in Hps. apply aget_lookup in Hps as (k' & Hk3 & Hps).
  rewrite (ok_passed _ _ Hok) in Hk3. assert (k' = k) as -> by congruence.
  exists c, so, pl', ps. cbv zeta. do 4 (split; [assumption|]).
  destruct (1 <? ps); [exact H | by injection H as <- <-].
Qed.
(** The factor [exp(-3600*detr)] of an erosion. *)
Lemma erosion_factor (d : R) : (0 <= d -> 0 < exp (- 3600 * d) <= 1)%R.
Proof.
  intros Hd. split; [apply exp_pos|].
  destruct (Req_dec d 0) as [-> | Hne].
  - replace (- 3600 * 0)%R with 0%R by lra. rewrite exp_0. lra.
  - rewrite <- exp_0. left. apply exp_increasing. lra.
Qed.

Lemma erosion_factor_strict (d : R) : (0 < d -> 0 < exp (- 3600 * d) < 1)%R.
Proof.
  intros Hd. split; [apply exp_pos|].
  rewrite <- exp_0. apply exp_increasing. lra.
Qed.

(** The erosion of one live parcel: its survival fraction is multiplied by
    [e], what it loses goes to one cell of the grid and one regional
    entry. *)
Lemma erode_tame n st k c f e so pl' ym xm reg :
  chi st !! k = Some c -> flag_source st !! k = Some f -> (0 < e <= 1)%R ->
  add2 (source st) ym xm (c - c * e) = Some so ->
  add1 (pl st) reg (c - c * e) = Some pl' ->
  let st1 := set_chi (set_pl (set_source st so) pl') (<[k := (c * e)%R]> (chi st)) in
  only_at k st st1 /\ tame n st st1.
Proof.
  intros Hc Hf He Hso Hpl st1.
  assert (only_at k st st1) as Hat.
  { intros k' Hne. unfold parcel_at, st1; simpl. by rewrite list_lookup_insert_ne. }
  split; [exact Hat|]. intros Hok. split; [|split].
  - destruct Hok as [? ? ? ?]. split; simpl; trivial. by rewrite length_insert.
  - apply only_at_evolves with k; [exact Hat|].
    unfold evolves, parcel_at, st1; simpl.
    rewrite list_lookup_insert_eq by (by eapply lookup_lt_Some). rewrite Hc, Hf.
    split; [constructor; apply flag_le_refl|]. split.
    + constructor. intros Hpos. split; nra.
    + destruct (passed st !! k); constructor. intros; split; [assumption | lia].
  - destruct (add2_effect _ _ _ _ _ Hso) as (? & ? & ? & ? & _ & _ & _ & _ & _ & Hs).
    destruct (add1_effect _ _ _ _ Hpl) as (? & ? & _ & _ & _ & Hp).
    unfold conserves, st1; simpl. rewrite Hs, Hp, (rsum_insert _ _ _ _ Hc).
    split; lra.
Qed.

(** The ratchet on a parcel that is not DEAD. *)
Lemma ratchet_tame n sl irs i i0 st nh st' nh' k :
  table_ok n st -> resolve n i0 = Some k ->
  ratchet sl irs i i0 (st, nh) = Some (st', nh') ->
  only_at k st st' /\ tame n st st'
  /\ forall f, flag_source st !! k = Some f -> ~ dead f ->
       exists f', flag_source st' !! k = Some f' /\ ~ dead f'.
Proof.
  intros Hok Hk H.
  destruct (ratchet_effect n _ _ _ _ _ _ _ _ Hok H)
    as (k' & ps & c & f & Hk' & Hps & Hc & Hf & Hok' & Hchi & Hso & Hpl & Hat & _
        & Hps' & Hf' & _).
  assert (k' = k) as -> by congruence.
  split; [exact Hat|]. split.
  - intros _. split; [exact Hok'|]. split.
    + apply only_at_evolves with k; [exact Hat|].
      unfold evolves, parcel_at; simpl. rewrite Hps', Hf', Hchi, Hps, Hc, Hf.
      split; [|split]; constructor.
      * destruct (fires 10 (9 / 10) ps c); [apply flag_le_lor | apply flag_le_refl].
      * intros; split; [assumption | lra].
      * intros Hv. destruct (cascade_facts ps c Hv) as (? & ? & _). by split.
    + unfold conserves. by rewrite Hchi, Hso, Hpl.
  - intros f0 Hf0 Hlive. rewrite Hf in Hf0. injection Hf0 as ->.
    eexists. split; [exact Hf'|].
    destruct (fires 10 (9 / 10) ps c); [by apply live_lor_hit | exact Hlive].
Qed.

Lemma detrainer_body_tame n sl g irs off nlat nlon i s s' :
  (0 <= off)%R ->
  detrainer_body IDX_ORGN sl g irs off nlat nlon i s = Some s' ->
  tame n s.1 s'.1 /\ spares_dead n s.1 s'.1.
Proof.
  destruct s as [st nh], s' as [st' nh']. intros Hoff H. simpl.
  assert (table_ok n st -> tame n st st' /\ spares_dead n st st') as Hmain.
  2:{ split; intros Hok; by apply Hmain. }
  intros Hok.
  destruct (detrainer_body_effect n _ _ _ _ _ _ _ _ _ _ _ Hok H)
    as (ib & k & f & Hib & Hk & Hf & Hcase).
  destruct (Z.land f I_DEAD =? 0) eqn:Hlive.
  2:{ destruct Hcase as [-> ->]. split; [apply tame_refl | apply spares_dead_refl]. }
  apply land_eqb_live in Hlive.
  destruct Hcase as (xig & yig & xfg & yfg & ll & h & _ & _ & _ & Hcase).
  destruct (Rge_dec (path_mean (udr g) h ll) off) as [Hge | _].
  2:{ destruct Hcase as [-> ->]. split; [apply tame_refl | apply spares_dead_refl]. }
  destruct Hcase as (c & so & pl' & ps & Hc & Hso & Hpl & Hps & Hcase).
  cbv zeta in Hcase.
  assert (0 <= path_mean (udr g) h ll)%R as Hnn by lra.
  destruct (erode_tame n st k c f _ so pl' _ _ _ Hc Hf
              (erosion_factor _ Hnn) Hso Hpl) as [Hat1 Ht1].
  destruct (Ht1 Hok) as (Hok1 & _ & _).
  destruct (1 <? ps).
  - destruct (ratchet_tame n _ _ _ _ _ _ _ _ k Hok1 Hk Hcase) as (Hat2 & Ht2 & _).
    split; [by eapply tame_trans|].
    intros _. split; [by destruct (Ht2 Hok1)|].
    apply only_at_frozen with k f; trivial.
    intros k' Hne. by rewrite (Hat2 k' Hne), (Hat1 k' Hne).
  - destruct Hcase as [-> ->]. split; [exact Ht1|].
    intros _. split; [exact Hok1|]. by apply only_at_frozen with k f.
Qed.

Lemma detrainer_tame n sl g irs off st st' nh :
  (0 <= off)%R ->
  detrainer IDX_ORGN sl g irs off st = Some (st', nh) ->
  tame n st st' /\ spares_dead n st st'.
Proof.
  intros Hoff H. unfold detrainer in H. apply bind_Some in H as (row0 & _ & H).
  unfold for_range in H. split.
  - refine (for_each_rel (fun a b : prod * list Z => tame n a.1 b.1) _ _ _ _ _ _ _ H).
    + intros s. apply tame_refl.
    + intros a b c. apply tame_trans.
    + intros i s s' _ Hb. by eapply detrainer_body_tame.
  - refine (for_each_rel (fun a b : prod * list Z => spares_dead n a.1 b.1)
              _ _ _ _ _ _ _ H).
    + intros s. apply spares_dead_refl.
    + intros a b c. apply spares_dead_trans.
    + intros i s s' _ Hb. by eapply detrainer_body_tame.
Qed.
Lemma mid_cell_range n ig fg shift :
  0 < n -> 0 <= mid_cell n ig fg shift < n.
Proof. unfold mid_cell. lia. Qed.

(** On a well-shaped call the turn of a live parcel with a path in the
    buffer runs to its end. *)
Lemma detrainer_body_total n nlat nlon nreg sl g irs off i st nh
    ib k xig yig xfg yfg ll h vp vt start :
  table_ok n st -> deposit_ok nlat nlon nreg g st -> length nh = 6%nat ->
  sl_idx_back sl !! i = Some ib -> resolve n (ib - IDX_ORGN) = Some k ->
  grid_cells sl g i = Some (xig, yig, xfg, yfg) ->
  Rasterizer.line xig yig xfg yfg = Some ll -> sl_hyb sl !! i = Some h ->
  sl_pi sl !! i = Some vp -> sl_ti sl !! i = Some vt ->
  aget irs (ib - IDX_ORGN) = Some start ->
  exists acc', detrainer_body IDX_ORGN sl g irs off (Z.of_nat nlat) (Z.of_nat nlon)
                 i (st, nh) = Some acc'.
Proof.
  intros Hok ([Hrows Hcols Hpl] & Hlat & Hlon & Hmask) Hnh Hib Hk Hcells Hll Hh
    Hvp Hvt Hstart.
  unfold detrainer_body. rewrite Hib. simpl.
  pose proof Hk as Hkf. rewrite <- (ok_flag _ _ Hok) in Hkf.
  destruct (aget_total _ _ _ Hkf) as (f & -> & _). simpl.
  destruct (Z.land f I_DEAD =? 0); [|eauto].
  rewrite Hcells. simpl. rewrite Hll. simpl. rewrite Hh. simpl.
  destruct (Rge_dec (path_mean (udr g) h ll) off); [|eauto].
  pose proof Hk as Hkc. rewrite <- (ok_chi _ _ Hok) in Hkc.
  destruct (aget_total _ _ _ Hkc) as (c & -> & Hc). simpl.
  set (newchi := (c * exp (- 3600 * path_mean (udr g) h ll))%R).
  set (ym := mid_cell (Z.of_nat nlat) yig yfg (yshift g)).
  set (xm := mid_cell (Z.of_nat nlon) xig xfg (xshift g)).
  assert (0 <= ym < Z.of_nat nlat) as Hym by (apply mid_cell_range; lia).
  assert (0 <= xm < Z.of_nat nlon) as Hxm by (apply mid_cell_range; lia).
  destruct (lookup_lt_is_Some_2 (source st) (Z.to_nat ym)) as [row Hrow]; [lia|].
  assert (length row = nlon) as Hrl.
  { rewrite Forall_forall in Hcols. apply Hcols. by eapply list_elem_of_lookup_2. }
  destruct (add2_total (source st) ym xm (c - newchi) (Z.to_nat ym) row (Z.to_nat xm))
    as [so ->]; trivial.
  { apply resolve_nonneg. lia. }
  { apply resolve_nonneg. lia. }
  simpl.
  destruct (add1_total (pl st) (mask g ym xm) (c - newchi) (Z.to_nat (mask g ym xm)))
    as [pl' ->].
  { apply resolve_nonneg. rewrite Hpl. by apply Hmask. }
  simpl. rewrite (aset_resolved _ _ _ _ Hkc). simpl.
  set (st1 := set_chi (set_pl (set_source st so) pl') (<[k := newchi]> (chi st))).
  assert (table_ok n st1) as Hok1.
  { destruct Hok as [? ? ? ?]. split; simpl; trivial. by rewrite length_insert. }
  pose proof Hk as Hkp. rewrite <- (ok_passed _ _ Hok) in Hkp.
  destruct (aget_total _ _ _ Hkp) as (ps & -> & _). simpl.
  destruct (1 <? ps); [|eauto].
  apply bind_Some in Hcells as (vx & Hvx & Hcells).
  apply bind_Some in Hcells as (vy & Hvy & _).
  by apply (ratchet_total n sl irs i _ st1 nh k vx vy vp vt start).
Qed.
End Detrainer.

(** ** The run *)

Section RunFacts.
Import Parcels.
Variable IDX_ORGN : Z.
Variable p0 : launch.

Lemma main_detr_offset_pos : (0 < main_detr_offset)%R.
Proof. unfold main_detr_offset. apply Rdiv_lt_0_compat; lra. Qed.

Lemma step_tame n st st' : step IDX_ORGN p0 st st' -> tame n st st'.
Proof.
  intros [idx1 nps act s s' c H | itime x y p t idx rr s s' c H
         | itime x y p t idx s s' c H | sl g s s' nh H | pa s s' c H].
  - by eapply deadborne_tame.
  - by eapply exiter_tame.
  - by eapply radada_tame.
  - eapply detrainer_tame; [|exact H]. pose proof main_detr_offset_pos. lra.
  - by eapply age_sweep_tame.
Qed.

Lemma run_tame n st st' : run IDX_ORGN p0 st st' -> tame n st st'.
Proof.
  induction 1 as [st | st st1 st' Hs _ IH].
  - apply tame_refl.
  - eapply tame_trans; [by apply step_tame | exact IH].
Qed.

Lemma init_ok nan flag0 nlat nlon nreg :
  table_ok (length flag0) (init nan flag0 nlat nlon nreg).
Proof.
  assert (array_ok (length flag0) (replicate nsrc (replicate (length flag0) nan))) as Ha.
  { split; [by rewrite length_replicate|].
    apply Forall_replicate. by rewrite length_replicate. }
  split; simpl; [reflexivity | by rewrite length_replicate
                 | by rewrite length_replicate |].
  exact (conj Ha (conj Ha (conj Ha (conj Ha Ha)))).
Qed.

Lemma rsum_replicate n v : rsum (replicate n v) = (INR n * v)%R.
Proof.
  induction n as [|n IH]; [simpl; lra|].
  change (replicate (S n) v) with (v :: replicate n v).
  change (rsum (v :: replicate n v)) with (v + rsum (replicate n v))%R.
  rewrite IH, S_INR. lra.
Qed.

Lemma rsum_loss (l : list R) :
  rsum ((fun c => 1 - c)%R <$> l) = (INR (length l) - rsum l)%R.
Proof.
  induction l as [|c l IH]; [simpl; lra|].
  change (rsum ((fun c => 1 - c)%R <$> c :: l))
    with (1 - c + rsum ((fun c => 1 - c)%R <$> l))%R.
  change (rsum (c :: l)) with (c + rsum l)%R.
  change (length (c :: l)) with (S (length l)).
  rewrite IH, S_INR. lra.
Qed.

Lemma init_balance nan flag0 nlat nlon nreg :
  let st := init nan flag0 nlat nlon nreg in
  rsum2 (source st) = 0%R /\ rsum (pl st) = 0%R
  /\ rsum (chi st) = INR (length flag0).
Proof.
  simpl. unfold rsum2. rewrite fmap_replicate, !rsum_replicate. repeat split; lra.
Qed.

(** What [tame] says about one parcel, spelled out. *)
Lemma tame_parcel n st st' k :
  table_ok n st -> tame n st st' ->
  (forall f f', flag_source st !! k = Some f -> flag_source st' !! k = Some f' ->
     flag_le f f')
  /\ (forall c c', chi st !! k = Some c -> chi st' !! k = Some c' ->
        (0 < c -> 0 < c' /\ c' <= c)%R)
  /\ (forall a a', passed st !! k = Some a -> passed st' !! k = Some a' ->
        ratchet_value a -> ratchet_value a' /\ a' <= a)
  /\ (forall c, chi st !! k = Some c -> exists c', chi st' !! k = Some c')
  /\ (forall a, passed st !! k = Some a -> exists a', passed st' !! k = Some a').
Proof.
  intros Hok Ht. destruct (Ht Hok) as (Hok' & He & _).
  destruct (He k) as (Hf & Hc & Ha). unfold parcel_at in *. simpl in *.
  split; [|split; [|split; [|split]]].
  - intros f f' E E'. rewrite E, E' in Hf. by inversion Hf.
  - intros c c' E E'. rewrite E, E' in Hc. by inversion Hc.
  - intros a a' E E'. rewrite E, E' in Ha. by inversion Ha.
  - intros c E. rewrite E in Hc. inversion Hc. eauto.
  - intros a E. rewrite E in Ha. inversion Ha. eauto.
Qed.
End RunFacts.

(** * The properties of the specification *)

Section ScenarioFacts.
Import Parcels Scenario.

Lemma nearest_origin : nearest 0 0 1 = 0.
Proof. unfold nearest. apply Zfloor_eq. simpl. lra. Qed.

Lemma scenario_cells : grid_cells slice0 grid0 0 = Some (0, 0, 0, 0).
Proof. unfold grid_cells. simpl. by rewrite nearest_origin. Qed.

Lemma scenario_line : Rasterizer.line 0 0 0 0 = Some [(0, 0)].
Proof. reflexivity. Qed.

Lemma scenario_detr : path_mean (udr grid0) 0 [(0, 0)] = 1%R.
Proof. unfold path_mean. simpl. lra. Qed.

Lemma scenario_table_ok : table_ok 2 table0.
Proof. exact (init_ok 0 flag0 1 1 0). Qed.

Lemma scenario_deposit_ok : deposit_ok 1 1 1 grid0 table0.
Proof.
  split; [|split; [lia | split; [lia|]]].
  - split; simpl; trivial. by repeat constructor.
  - intros y x _ _. simpl. lia.
Qed.

Lemma scenario_offset : (1 >= main_detr_offset)%R.
Proof.
  unfold main_detr_offset. apply Rle_ge.
  apply (Rmult_le_reg_r (100 * 3600)); [lra|].
  unfold Rdiv. rewrite Rmult_assoc, Rinv_l by lra. lra.
Qed.
End ScenarioFacts.

(** C1: for a live parcel processed in a slice, when the mean detrainment
    rate over the cells of its rasterized path, at its hybrid level, is at
    least [detr_offset], the turn of the detrainer replaces its survival
    fraction [c] by [c * exp(-3600 * detr)], the exponent using the fixed
    3600 seconds; when the mean rate is below [detr_offset] the table, the
    accumulators and the hit counters are left as they were. *)
Theorem detrainer_erosion IDX_ORGN n nlat nlon nreg sl g irs off i st nh
    ib k f c xig yig xfg yfg ll h vp vt start :
  Parcels.table_ok n st -> Parcels.deposit_ok nlat nlon nreg g st ->
  length nh = 6%nat ->
  Parcels.sl_idx_back sl !! i = Some ib -> resolve n (ib - IDX_ORGN) = Some k ->
  Parcels.flag_source st !! k = Some f -> Z.land f Parcels.I_DEAD = 0 ->
  Parcels.chi st !! k = Some c ->
  Parcels.grid_cells sl g i = Some (xig, yig, xfg, yfg) ->
  Rasterizer.line xig yig xfg yfg = Some ll -> Parcels.sl_hyb sl !! i = Some h ->
  Parcels.sl_pi sl !! i = Some vp -> Parcels.sl_ti sl !! i = Some vt ->
  aget irs (ib - IDX_ORGN) = Some start ->
  let detr := Parcels.path_mean (Parcels.udr g) h ll in
  exists st' nh',
    Parcels.detrainer_body IDX_ORGN sl g irs off (Z.of_nat nlat) (Z.of_nat nlon)
      i (st, nh) = Some (st', nh')
    /\ ((detr >= off)%R ->
        Parcels.chi st' !! k = Some (c * exp (- 3600 * detr))%R)
    /\ ((detr < off)%R -> st' = st /\ nh' = nh).
Proof.
  intros Hok Hdep Hnh Hib Hk Hf Hlive Hc Hcells Hll Hh Hvp Hvt Hstart detr.
  destruct (detrainer_body_total IDX_ORGN n nlat nlon nreg sl g irs off i st nh
              ib k xig yig xfg yfg ll h vp vt start) as [[st' nh'] Hbody]; trivial.
  exists st', nh'. split; [exact Hbody|].
  destruct (detrainer_body_effect IDX_ORGN n _ _ _ _ _ _ _ _ _ _ _ Hok Hbody)
    as (ib' & k' & f' & Hib' & Hk' & Hf' & Hcase).
  assert (ib' = ib) as -> by congruence. assert (k' = k) as -> by congruence.
  assert (f' = f) as -> by congruence.
  rewrite Hlive in Hcase. simpl in Hcase.
  destruct Hcase as (xig' & yig' & xfg' & yfg' & ll' & h' & Hcells' & Hll' & Hh' & Hcase).
  assert (xig' = xig /\ yig' = yig /\ xfg' = xfg /\ yfg' = yfg) as (-> & -> & -> & ->).
  { rewrite Hcells in Hcells'. by injection Hcells' as -> -> -> ->. }
  assert (ll' = ll) as -> by congruence. assert (h' = h) as -> by congruence.
  fold detr in Hcase. destruct (Rge_dec detr off) as [Hge | Hlt].
  - split; [intros _ | intros Hlt; exfalso; lra].
    destruct Hcase as (c' & so & pl' & ps & Hc' & _ & _ & _ & Hcase).
    assert (c' = c) as -> by congruence. cbv zeta in Hcase.
    assert (<[k := (c * exp (- 3600 * detr))%R]> (Parcels.chi st) !! k
            = Some (c * exp (- 3600 * detr))%R) as Hnew.
    { apply list_lookup_insert_eq. by eapply lookup_lt_Some. }
    destruct (1 <? ps).
    + match type of Hcase with
      | Parcels.ratchet _ _ _ _ (?st1, _) = _ =>
          assert (Parcels.table_ok n st1) as Hok1
      end.
      { destruct Hok as [? ? ? ?]. split; simpl; trivial. by rewrite length_insert. }
      destruct (ratchet_effect n _ _ _ _ _ _ _ _ Hok1 Hcase)
        as (? & ? & ? & ? & _ & _ & _ & _ & _ & Hchi & _).
      rewrite Hchi. exact Hnew.
    + destruct Hcase as [-> _]. exact Hnew.
  - split; [intros Hge; contradiction | intros _; exact Hcase].
Qed.

Lemma detrainer_erosion_witness :
  exists st' nh',
    Parcels.detrainer_body 0 Scenario.slice0 Scenario.grid0 [0; 0]
      Parcels.main_detr_offset 1 1 0 (Scenario.table0, Scenario.nhits0)
    = Some (st', nh')
    /\ ((1 >= Parcels.main_detr_offset)%R ->
        Parcels.chi st' !! 0%nat = Some (1 * exp (- 3600 * 1))%R)
    /\ ((1 < Parcels.main_detr_offset)%R ->
        st' = Scenario.table0 /\ nh' = Scenario.nhits0).
Proof.
  pose proof (detrainer_erosion 0 2 1 1 1 Scenario.slice0 Scenario.grid0 [0; 0]
           Parcels.main_detr_offset 0 Scenario.table0 Scenario.nhits0
           0 0%nat 0 1%R 0 0 0 0 [(0, 0)] 0 20000%R 250%R 0
           scenario_table_ok scenario_deposit_ok eq_refl eq_refl eq_refl eq_refl
           eq_refl eq_refl scenario_cells eq_refl eq_refl eq_refl eq_refl eq_refl)
    as H.
  cbv zeta in H. rewrite scenario_detr in H. exact H.
Defined.

(** The scenario as a run: one call of the detrainer erodes the first
    parcel. *)
Lemma scenario_run :
  exists st,
    Parcels.run 0 Scenario.launch0 Scenario.table0 st
    /\ Parcels.chi st !! 0%nat = Some (1 * exp (- 3600 * 1))%R.
Proof.
  destruct (detrainer_body_total 0 2 1 1 1 Scenario.slice0 Scenario.grid0
              (Parcels.ir_start Scenario.launch0) Parcels.main_detr_offset 0%nat
              Scenario.table0 Scenario.nhits0 0 0%nat 0 0 0 0 [(0, 0)] 0
              20000%R 250%R 0 scenario_table_ok scenario_deposit_ok eq_refl
              eq_refl eq_refl scenario_cells scenario_line eq_refl eq_refl eq_refl
              eq_refl) as ([st' nh'] & Hbody).
  exists st'. split.
  { apply rtc_once.
    apply (Parcels.step_detrainer 0 Scenario.launch0 Scenario.slice0 Scenario.grid0
             Scenario.table0 st' nh').
    unfold Parcels.detrainer, for_range.
    change (Parcels.source Scenario.table0 !! 0%nat) with (Some [0%R]).
    change (seq 0 (length (Parcels.sl_xi Scenario.slice0))) with [0%nat].
    apply bind_Some. exists [0%R]. split; [reflexivity|].
    apply bind_Some. exists (st', nh'). split; [exact Hbody | reflexivity]. }
  destruct (detrainer_body_effect _ _ _ _ _ _ _ _ _ _ _ _ _ scenario_table_ok Hbody)
    as (ib & k & f & Hib & Hk & Hf & Heff).
  injection Hib as <-. injection Hk as <-. injection Hf as <-.
  change (Z.land 0 Parcels.I_DEAD =? 0) with true in Heff.
  destruct Heff as (xig & yig & xfg & yfg & ll & h & Hcells & Hline & Hh & Heff).
  rewrite scenario_cells in Hcells. injection Hcells as <- <- <- <-.
  rewrite scenario_line in Hline. injection Hline as <-. injection Hh as <-.
  rewrite scenario_detr in Heff.
  destruct (Rge_dec 1 Parcels.main_detr_offset) as [_ | Hn];
    [|destruct Hn; apply scenario_offset].
  destruct Heff as (c & so & pl' & ps & Hc & Hso & Hpl & Hps & Heff).
  injection Hc as <-. injection Hps as <-.
  change (1 <? 10) with true in Heff. cbv beta iota zeta in Heff.
  match type of Heff with
  | Parcels.ratchet _ _ _ _ (?s, _) = _ => set (st1 := s) in *
  end.
  assert (Parcels.table_ok 2 st1) as Hok1.
  { split; [reflexivity | reflexivity | reflexivity | apply scenario_table_ok]. }
  destruct (ratchet_effect _ _ _ _ _ _ _ _ _ Hok1 Heff)
    as (? & ? & ? & ? & _ & _ & _ & _ & _ & Hchi & _).
  rewrite Hchi. reflexivity.
Qed.



(** C3: the flag of a parcel at one point of the run is a bitwise subset of
    its flag at any later point; and a call of the exit handler, of the
    ground-contact handler or of the detrainment engine leaves the flag,
    the survival fraction, the ratchet and the milestone slots of every
    parcel whose DEAD bit is set as they were. *)
Theorem flag_monotone_dead_frozen IDX_ORGN p0 nan flag0 nlat nlon nreg st :
  Parcels.run IDX_ORGN p0 (Parcels.init nan flag0 nlat nlon nreg) st ->
  (forall st' k f f',
     Parcels.run IDX_ORGN p0 st st' ->
     Parcels.flag_source st !! k = Some f -> Parcels.flag_source st' !! k = Some f' ->
     Z.land f f' = f /\ forall b, Z.testbit f b = true -> Z.testbit f' b = true)
  /\ (forall itime x y p t idx_back rr st' c,
        Parcels.exiter IDX_ORGN itime x y p t idx_back st (Parcels.ir_start p0) rr
        = Some (st', c) ->
        Parcels.frozen st st')
  /\ (forall itime x y p t idx_back st' c,
        Parcels.radada IDX_ORGN itime x y p t idx_back st (Parcels.ir_start p0)
        = Some (st', c) ->
        Parcels.frozen st st')
  /\ (forall sl g st' nhits,
        Parcels.detrainer IDX_ORGN sl g (Parcels.ir_start p0)
          Parcels.main_detr_offset st = Some (st', nhits) ->
        Parcels.frozen st st').
Proof.
  intros Hrun.
  pose proof (init_ok nan flag0 nlat nlon nreg) as Hok0.
  destruct (run_tame _ _ (length flag0) _ _ Hrun Hok0) as (Hok & _ & _).
  split; [|split; [|split]].
  - intros st' k f f' Hrun' Hf Hf'.
    destruct (tame_parcel _ _ _ k Hok (run_tame _ _ (length flag0) _ _ Hrun'))
      as (Hflag & _).
    pose proof (Hflag f f' Hf Hf') as Hle. split; [exact Hle|].
    by apply flag_le_testbit.
  - intros itime x y p t idx rr st' c H.
    by destruct (proj2 (exiter_tame IDX_ORGN (length flag0) _ _ _ _ _ _ _ _ _ _ _ H) Hok).
  - intros itime x y p t idx st' c H.
    by destruct (proj2 (radada_tame IDX_ORGN (length flag0) _ _ _ _ _ _ _ _ _ _ H) Hok).
  - intros sl g st' nh H.
    assert (0 <= Parcels.main_detr_offset)%R as Hoff
      by (pose proof main_detr_offset_pos; lra).
    by destruct (proj2 (detrainer_tame IDX_ORGN (length flag0) _ _ _ _ _ _ _ Hoff H) Hok).
Qed.

Lemma flag_monotone_dead_frozen_witness :
  exists st,
    Parcels.run 0 Scenario.launch0 Scenario.table0 st
    /\ (forall f', Parcels.flag_source st !! 1%nat = Some f' ->
          Z.land Parcels.I_DEAD f' = Parcels.I_DEAD).
Proof.
  destruct scenario_run as (st & Hrun & _).
  exists st. split; [exact Hrun|]. intros f' Hf'.
  exact (proj1 (proj1 (flag_monotone_dead_frozen 0 Scenario.launch0 0 Scenario.flag0
                         1 1 0 Scenario.table0 (rtc_refl _ _))
                  st 1%nat Parcels.I_DEAD f' Hrun eq_refl Hf')).
Defined.

(** What a turn of the detrainer that erodes a parcel does to the
    accounts: the loss goes to the midpoint cell and to its region. *)
Lemma detrainer_body_deposit IDX_ORGN n sl g irs off nlat nlon i st nh st' nh'
    ib k f xig yig xfg yfg ll h :
  Parcels.table_ok n st ->
  Parcels.detrainer_body IDX_ORGN sl g irs off nlat nlon i (st, nh) = Some (st', nh') ->
  Parcels.sl_idx_back sl !! i = Some ib -> resolve n (ib - IDX_ORGN) = Some k ->
  Parcels.flag_source st !! k = Some f -> Z.land f Parcels.I_DEAD = 0 ->
  Parcels.grid_cells sl g i = Some (xig, yig, xfg, yfg) ->
  Rasterizer.line xig yig xfg yfg = Some ll -> Parcels.sl_hyb sl !! i = Some h ->
  (Parcels.path_mean (Parcels.udr g) h ll >= off)%R ->
  exists c c',
    Parcels.chi st !! k = Some c /\ Parcels.chi st' = <[k := c']> (Parcels.chi st)
    /\ c' = (c * exp (- 3600 * Parcels.path_mean (Parcels.udr g) h ll))%R
    /\ let ym := Parcels.mid_cell nlat yig yfg (Parcels.yshift g) in
       let xm := Parcels.mid_cell nlon xig xfg (Parcels.xshift g) in
       Parcels.add2 (Parcels.source st) ym xm (c - c') = Some (Parcels.source st')
       /\ Parcels.add1 (Parcels.pl st) (Parcels.mask g ym xm) (c - c')
          = Some (Parcels.pl st').
Proof.
  intros Hok Hbody Hib Hk Hf Hlive Hcells Hll Hh Hge.
  destruct (detrainer_body_effect IDX_ORGN n _ _ _ _ _ _ _ _ _ _ _ Hok Hbody)
    as (ib' & k' & f' & Hib' & Hk' & Hf' & Hcase).
  assert (ib' = ib) as -> by congruence. assert (k' = k) as -> by congruence.
  assert (f' = f) as -> by congruence.
  rewrite Hlive in Hcase. simpl in Hcase.
  destruct Hcase as (xig' & yig' & xfg' & yfg' & ll' & h' & Hcells' & Hll' & Hh' & Hcase).
  assert (xig' = xig /\ yig' = yig /\ xfg' = xfg /\ yfg' = yfg) as (-> & -> & -> & ->).
  { rewrite Hcells in Hcells'. by injection Hcells' as -> -> -> ->. }
  assert (ll' = ll) as -> by congruence. assert (h' = h) as -> by congruence.
  destruct (Rge_dec _ off) as [_ | Hlt]; [|contradiction].
  destruct Hcase as (c & so & pl' & ps & Hc & Hso & Hpl & _ & Hcase).
  exists c, (c * exp (- 3600 * Parcels.path_mean (Parcels.udr g) h ll))%R.
  split; [exact Hc|]. cbv zeta in Hcase |- *.
  assert (Parcels.chi st' = <[k := (c * exp (- 3600 * Parcels.path_mean (Parcels.udr g) h ll))%R]>
                              (Parcels.chi st)
          /\ Parcels.source st' = so /\ Parcels.pl st' = pl') as (-> & -> & ->).
  { destruct (1 <? ps).
    - match type of Hcase with
      | Parcels.ratchet _ _ _ _ (?st1, _) = _ =>
          assert (Parcels.table_ok n st1) as Hok1
      end.
      { destruct Hok as [? ? ? ?]. split; simpl; trivial. by rewrite length_insert. }
      destruct (ratchet_effect n _ _ _ _ _ _ _ _ Hok1 Hcase)
        as (? & ? & ? & ? & _ & _ & _ & _ & _ & Hchi & Hs & Hp & _).
      by rewrite Hchi, Hs, Hp.
    - by destruct Hcase as [-> _]. }
  by repeat split.
Qed.

(** C4: at every point of the run the total of the spatial accumulator, and
    likewise the total of the regional vector, is the sum over the parcels
    of (1 - chi), 1 being the initial survival fraction; a turn of the
    detrainer that erodes a parcel adds the decrement of its chi to one cell
    of [source], the clamped and shifted midpoint of the end cells of its
    path, and to the regional entry given by the mask for that cell, and
    changes no other chi; the other handlers leave chi and both
    accumulators as they are. *)
Theorem deposits_balance IDX_ORGN p0 nan flag0 nlat nlon nreg st :
  Parcels.run IDX_ORGN p0 (Parcels.init nan flag0 nlat nlon nreg) st ->
  (rsum2 (Parcels.source st) = rsum ((fun c => 1 - c)%R <$> Parcels.chi st)
   /\ rsum (Parcels.pl st) = rsum ((fun c => 1 - c)%R <$> Parcels.chi st))
  /\ (forall sl g irs off nla nlo i nh st' nh' ib k f xig yig xfg yfg ll h,
        Parcels.detrainer_body IDX_ORGN sl g irs off nla nlo i (st, nh)
        = Some (st', nh') ->
        Parcels.sl_idx_back sl !! i = Some ib ->
        resolve (length flag0) (ib - IDX_ORGN) = Some k ->
        Parcels.flag_source st !! k = Some f -> Z.land f Parcels.I_DEAD = 0 ->
        Parcels.grid_cells sl g i = Some (xig, yig, xfg, yfg) ->
        Rasterizer.line xig yig xfg yfg = Some ll ->
        Parcels.sl_hyb sl !! i = Some h ->
        (Parcels.path_mean (Parcels.udr g) h ll >= off)%R ->
        exists c c',
          Parcels.chi st !! k = Some c
          /\ Parcels.chi st' = <[k := c']> (Parcels.chi st)
          /\ let ym := Parcels.mid_cell nla yig yfg (Parcels.yshift g) in
             let xm := Parcels.mid_cell nlo xig xfg (Parcels.xshift g) in
             Parcels.add2 (Parcels.source st) ym xm (c - c')
             = Some (Parcels.source st')
             /\ Parcels.add1 (Parcels.pl st) (Parcels.mask g ym xm) (c - c')
                = Some (Parcels.pl st'))
  /\ (forall itime x y p t idx_back rr st' c,
        Parcels.exiter IDX_ORGN itime x y p t idx_back st (Parcels.ir_start p0) rr
        = Some (st', c) -> Parcels.keeps_accounts st st')
  /\ (forall itime x y p t idx_back st' c,
        Parcels.radada IDX_ORGN itime x y p t idx_back st (Parcels.ir_start p0)
        = Some (st', c) -> Parcels.keeps_accounts st st')
  /\ (forall age_bound pa st' c,
        Parcels.age_sweep IDX_ORGN age_bound pa (Parcels.ir_start p0) st
        = Some (st', c) -> Parcels.keeps_accounts st st')
  /\ (forall idx1 numpart_s idx_act st' c,
        Parcels.deadborne IDX_ORGN p0 idx1 numpart_s idx_act st = Some (st', c) ->
        Parcels.keeps_accounts st st').
Proof.
  intros Hrun.
  pose proof (init_ok nan flag0 nlat nlon nreg) as Hok0.
  destruct (run_tame _ _ (length flag0) _ _ Hrun Hok0) as (Hok & _ & Hs & Hp).
  destruct (init_balance nan flag0 nlat nlon nreg) as (Hs0 & Hp0 & Hc0).
  cbv zeta in Hs0, Hp0, Hc0.
  split; [|split; [|split; [|split; [|split]]]].
  - rewrite rsum_loss, (Parcels.ok_chi _ _ Hok). split; lra.
  - intros sl g irs off nla nlo i nh st' nh' ib k f xig yig xfg yfg ll h
      Hbody Hib Hk Hf Hlive Hcells Hll Hh Hge.
    destruct (detrainer_body_deposit IDX_ORGN _ _ _ _ _ _ _ _ _ _ _ _ _ _ _ _ _ _ _ _ _
                Hok Hbody Hib Hk Hf Hlive Hcells Hll Hh Hge)
      as (c & c' & Hc & Hc' & _ & Hdep).
    by exists c, c'.
  - intros itime x y p t idx rr st' c H.
    by apply (terminate_loop_keeps IDX_ORGN _ (length flag0)) in H.
  - intros itime x y p t idx st' c H.
    by apply (terminate_loop_keeps IDX_ORGN _ (length flag0)) in H.
  - intros age_bound pa st' c H. by eapply age_sweep_keeps.
  - intros idx1 nps act st' c H. by eapply deadborne_keeps.
Qed.

Lemma deposits_balance_witness :
  exists st,
    Parcels.run 0 Scenario.launch0 Scenario.table0 st
    /\ Parcels.chi st !! 0%nat = Some (1 * exp (- 3600 * 1))%R
    /\ rsum2 (Parcels.source st) = rsum ((fun c => 1 - c)%R <$> Parcels.chi st)
    /\ rsum (Parcels.pl st) = rsum ((fun c => 1 - c)%R <$> Parcels.chi st).
Proof.
  destruct scenario_run as (st & Hrun & Hchi).
  exists st. split; [exact Hrun|]. split; [exact Hchi|].
  exact (proj1 (deposits_balance 0 Scenario.launch0 0 Scenario.flag0 1 1 0 st Hrun)).
Defined.

Section Cascade.
Import Parcels.

Lemma fires_true from thr ps c :
  fires from thr ps c = true -> ps = from /\ (c < thr)%R.
Proof.
  unfold fires. intros H. apply andb_true_iff in H as [H1 H2].
  apply Z.eqb_eq in H1. by destruct (Rlt_dec c thr).
Qed.

(** The outcome of one rung, read from the ratchet states before and after
    the cascade. *)
Lemma rung_outcome_read sl irs i i0 st nh st' nh' k r b from to thr ps ps' c
    vx vy vp vt start :
  rung_outcome sl irs i i0 st nh st' nh' k r b ->
  (b = true <-> from <= ps /\ ps' <= to) -> (b = true -> (c < thr)%R) ->
  sl_xi sl !! i = Some vx -> sl_yi sl !! i = Some vy ->
  sl_pi sl !! i = Some vp -> sl_ti sl !! i = Some vt ->
  aget irs i0 = Some start ->
  (from <= ps /\ ps' <= to ->
     (c < thr)%R
     /\ milestone (src st') r k = Some (vx, vy, vp, vt, IZR (start - sl_itime sl))
     /\ exists h, nh !! r = Some h /\ nh' !! r = Some (h + 1))
  /\ (~ (from <= ps /\ ps' <= to) ->
        milestone (src st') r k = milestone (src st) r k /\ nh' !! r = nh !! r).
Proof.
  intros Hout Hiff Hthr Hvx Hvy Hvp Hvt Hstart. unfold rung_outcome in Hout.
  destruct b.
  - destruct Hout as (vx' & vy' & vp' & vt' & start' & h & Hx & Hy & Hp & Ht & Hs
                      & Hm & Hh & Hh').
    assert (vx' = vx) as -> by congruence. assert (vy' = vy) as -> by congruence.
    assert (vp' = vp) as -> by congruence. assert (vt' = vt) as -> by congruence.
    assert (start' = start) as -> by congruence.
    split; [|intros Hn; exfalso; apply Hn; by apply Hiff].
    intros _. split; [by apply Hthr|]. split; [exact Hm|]. by exists h.
  - split; [|by intros _].
    intros Hf. apply Hiff in Hf. discriminate.
Qed.
End Cascade.

(** C5: at every point of the run the ratchet of every parcel is one of
    10, 9, 7, 5, 3, 1 and it does not grow from one point of the run to a
    later one.  One call of the ratchet on a parcel takes its state [ps] to
    a state [ps'] not above it; the rungs that fire are exactly those
    between the two states, from the top down; a rung fires only when chi
    is below its threshold, it then archives the position, pressure,
    temperature and age into its milestone slot (1 to 5) and adds one to its
    hit counter, a rung that does not fire leaves both alone; the cascade
    stops at a rung whose threshold chi has not passed; the HIT bit is added
    to the flag exactly when the first rung (10 to 9) fires, and adding it
    does not change the DEAD bit. *)
Theorem ratchet_cascade :
  (forall IDX_ORGN p0 nan flag0 nlat nlon nreg st,
     Parcels.run IDX_ORGN p0 (Parcels.init nan flag0 nlat nlon nreg) st ->
     (forall k ps, Parcels.passed st !! k = Some ps -> Parcels.ratchet_value ps)
     /\ (forall st' k ps ps',
           Parcels.run IDX_ORGN p0 st st' ->
           Parcels.passed st !! k = Some ps -> Parcels.passed st' !! k = Some ps' ->
           ps' <= ps))
  /\ (forall n sl irs i i0 st nh k ps c f vx vy vp vt start,
        Parcels.table_ok n st -> length nh = 6%nat -> resolve n i0 = Some k ->
        Parcels.passed st !! k = Some ps -> Parcels.ratchet_value ps ->
        Parcels.chi st !! k = Some c -> Parcels.flag_source st !! k = Some f ->
        Parcels.sl_xi sl !! i = Some vx -> Parcels.sl_yi sl !! i = Some vy ->
        Parcels.sl_pi sl !! i = Some vp -> Parcels.sl_ti sl !! i = Some vt ->
        aget irs i0 = Some start ->
        exists st' nh' ps' f',
          Parcels.ratchet sl irs i i0 (st, nh) = Some (st', nh')
          /\ Parcels.passed st' !! k = Some ps' /\ Parcels.ratchet_value ps'
          /\ ps' <= ps
          /\ (forall r from to thr, (r, from, to, thr) ∈ Parcels.rungs ->
                (from <= ps /\ ps' <= to ->
                   (c < thr)%R
                   /\ Parcels.milestone (Parcels.src st') r k
                      = Some (vx, vy, vp, vt, IZR (start - Parcels.sl_itime sl))
                   /\ exists h, nh !! r = Some h /\ nh' !! r = Some (h + 1))
                /\ (~ (from <= ps /\ ps' <= to) ->
                      Parcels.milestone (Parcels.src st') r k
                      = Parcels.milestone (Parcels.src st) r k
                      /\ nh' !! r = nh !! r)
                /\ (ps' = from -> (thr <= c)%R))
          /\ Parcels.flag_source st' !! k = Some f'
          /\ (10 <= ps /\ ps' <= 9 -> f' = Z.lor f Parcels.I_HIT)
          /\ (~ (10 <= ps /\ ps' <= 9) -> f' = f)
          /\ Z.land (Z.lor f Parcels.I_HIT) Parcels.I_DEAD = Z.land f Parcels.I_DEAD).
Proof.
  split.
  - intros IDX_ORGN p0 nan flag0 nlat nlon nreg st Hrun.
    pose proof (init_ok nan flag0 nlat nlon nreg) as Hok0.
    pose proof (run_tame _ _ (length flag0) _ _ Hrun) as Ht.
    destruct (Ht Hok0) as (Hok & _ & _).
    assert (forall k ps, Parcels.passed st !! k = Some ps -> Parcels.ratchet_value ps)
      as Hval.
    { intros k ps Hps.
      assert (k < length flag0)%nat as Hk.
      { rewrite <- (Parcels.ok_passed _ _ Hok). by eapply lookup_lt_Some. }
      destruct (tame_parcel _ _ _ k Hok0 Ht) as (_ & _ & Hpa & _).
      destruct (Hpa 10 ps) as [? ?]; trivial.
      - simpl. by apply lookup_replicate_2.
      - by left. }
    split; [exact Hval|].
    intros st' k ps ps' Hrun' Hps Hps'.
    destruct (tame_parcel _ _ _ k Hok (run_tame _ _ (length flag0) _ _ Hrun'))
      as (_ & _ & Hpa & _).
    by destruct (Hpa ps ps' Hps Hps' (Hval k ps Hps)).
  - intros n sl irs i i0 st nh k ps c f vx vy vp vt start
      Hok Hnh Hk Hps Hval Hc Hf Hvx Hvy Hvp Hvt Hstart.
    destruct (ratchet_total n sl irs i i0 st nh k vx vy vp vt start)
      as [[st' nh'] Hr]; trivial.
    destruct (ratchet_effect n _ _ _ _ _ _ _ _ Hok Hr)
      as (k' & ps0 & c0 & f0 & Hk' & Hps0 & Hc0 & Hf0 & _ & _ & _ & _ & _ & _
          & Hps' & Hf' & Ho1 & Ho2 & Ho3 & Ho4 & Ho5).
    assert (k' = k) as -> by congruence. assert (ps0 = ps) as -> by congruence.
    assert (c0 = c) as -> by congruence. assert (f0 = f) as -> by congruence.
    destruct (cascade_facts ps c Hval)
      as (Hval' & Hle & Hi1 & Hi2 & Hi3 & Hi4 & Hi5 & _ & Hmax).
    cbv zeta in *.
    set (p1 := Parcels.stage 10 9 (9 / 10) c ps) in *.
    set (p2 := Parcels.stage 9 7 (7 / 10) c p1) in *.
    set (p3 := Parcels.stage 7 5 (5 / 10) c p2) in *.
    set (p4 := Parcels.stage 5 3 (3 / 10) c p3) in *.
    set (p5 := Parcels.stage 3 1 (1 / 10) c p4) in *.
    clearbody p5. clearbody p4. clearbody p3. clearbody p2. clearbody p1.
    exists st', nh', p5, (if Parcels.fires 10 (9 / 10) ps c
                          then Z.lor f Parcels.I_HIT else f).
    split; [exact Hr|]. split; [exact Hps'|]. split; [exact Hval'|].
    split; [exact Hle|]. split; [|split; [exact Hf'|split; [|split]]].
    + intros r from to thr Hin. unfold Parcels.rungs in Hin.
      repeat (apply elem_of_cons in Hin as [Hin | Hin];
              [injection Hin as -> -> -> ->|]);
        [| | | | |by apply elem_of_nil in Hin].
      * destruct (rung_outcome_read _ _ _ _ _ _ _ _ _ _ _ _ _ _ ps p5 c _ _ _ _ _
                    Ho1 Hi1 (fun H => proj2 (fires_true _ _ _ _ H))
                    Hvx Hvy Hvp Hvt Hstart) as [Hyes Hno].
        split; [exact Hyes|]. split; [exact Hno|].
        intros E. assert (1 < p5) as H1 by lia. apply Hmax in H1.
        rewrite E in H1. simpl Z.eqb in H1. cbv iota in H1.
        by match type of H1 with
           | context [IZR (?a - ?b)] =>
               let v := eval vm_compute in (a - b) in change (a - b) with v in H1
           end.
      * destruct (rung_outcome_read _ _ _ _ _ _ _ _ _ _ _ _ _ _ ps p5 c _ _ _ _ _
                    Ho2 Hi2 (fun H => proj2 (fires_true _ _ _ _ H))
                    Hvx Hvy Hvp Hvt Hstart) as [Hyes Hno].
        split; [exact Hyes|]. split; [exact Hno|].
        intros E. assert (1 < p5) as H1 by lia. apply Hmax in H1.
        rewrite E in H1. simpl Z.eqb in H1. cbv iota in H1.
        by match type of H1 with
           | context [IZR (?a - ?b)] =>
               let v := eval vm_compute in (a - b) in change (a - b) with v in H1
           end.
      * destruct (rung_outcome_read _ _ _ _ _ _ _ _ _ _ _ _ _ _ ps p5 c _ _ _ _ _
                    Ho3 Hi3 (fun H => proj2 (fires_true _ _ _ _ H))
                    Hvx Hvy Hvp Hvt Hstart) as [Hyes Hno].
        split; [exact Hyes|]. split; [exact Hno|].
        intros E. assert (1 < p5) as H1 by lia. apply Hmax in H1.
        rewrite E in H1. simpl Z.eqb in H1. cbv iota in H1.
        by match type of H1 with
           | context [IZR (?a - ?b)] =>
               let v := eval vm_compute in (a - b) in change (a - b) with v in H1
           end.
      * destruct (rung_outcome_read _ _ _ _ _ _ _ _ _ _ _ _ _ _ ps p5 c _ _ _ _ _
                    Ho4 Hi4 (fun H => proj2 (fires_true _ _ _ _ H))
                    Hvx Hvy Hvp Hvt Hstart) as [Hyes Hno].
        split; [exact Hyes|]. split; [exact Hno|].
        intros E. assert (1 < p5) as H1 by lia. apply Hmax in H1.
        rewrite E in H1. simpl Z.eqb in H1. cbv iota in H1.
        by match type of H1 with
           | context [IZR (?a - ?b)] =>
               let v := eval vm_compute in (a - b) in change (a - b) with v in H1
           end.
      * destruct (rung_outcome_read _ _ _ _ _ _ _ _ _ _ _ _ _ _ ps p5 c _ _ _ _ _
                    Ho5 Hi5 (fun H => proj2 (fires_true _ _ _ _ H))
                    Hvx Hvy Hvp Hvt Hstart) as [Hyes Hno].
        split; [exact Hyes|]. split; [exact Hno|].
        intros E. assert (1 < p5) as H1 by lia. apply Hmax in H1.
        rewrite E in H1. simpl Z.eqb in H1. cbv iota in H1.
        by match type of H1 with
           | context [IZR (?a - ?b)] =>
               let v := eval vm_compute in (a - b) in change (a - b) with v in H1
           end.
    + intros Hfired. apply Hi1 in Hfired. by rewrite Hfired.
    + intros Hno. destruct (Parcels.fires 10 (9 / 10) ps c) eqn:E; [|reflexivity].
      exfalso. apply Hno. by apply Hi1.
    + rewrite Z.land_lor_distr_l.
      change (Z.land Parcels.I_HIT Parcels.I_DEAD) with 0. apply Z.lor_0_r.
Qed.

Lemma scenario_eroded_ok : Parcels.table_ok 2 Scenario.eroded.
Proof. destruct scenario_table_ok as [? ? ? ?]. by split. Qed.

Lemma ratchet_cascade_witness :
  exists st' nh',
    Parcels.ratchet Scenario.slice0 [0; 0] 0 0 (Scenario.eroded, Scenario.nhits0)
    = Some (st', nh')
    /\ Parcels.passed st' !! 0%nat = Some 1
    /\ Parcels.flag_source st' !! 0%nat = Some Parcels.I_HIT.
Proof.
  destruct (proj2 ratchet_cascade 2%nat Scenario.slice0 [0; 0] 0%nat 0
              Scenario.eroded Scenario.nhits0 0%nat 10 (1 / 20)%R 0
              0%R 0%R 20000%R 250%R 0
              scenario_eroded_ok eq_refl eq_refl eq_refl (or_introl eq_refl)
              eq_refl eq_refl eq_refl eq_refl eq_refl eq_refl eq_refl)
    as (st' & nh' & ps' & f' & Hr & Hps & Hval & Hle & Hrungs & Hf & Hhit & _).
  exists st', nh'. split; [exact Hr|].
  assert (ps' = 1) as ->.
  { destruct Hval as [E | [E | [E | [E | [E | E]]]]]; [| | | | |exact E]; exfalso.
    - destruct (Hrungs 1%nat 10 9 (9 / 10)%R) as (_ & _ & Hmax);
        [repeat constructor | apply Hmax in E; lra].
    - destruct (Hrungs 2%nat 9 7 (7 / 10)%R) as (_ & _ & Hmax);
        [repeat constructor | apply Hmax in E; lra].
    - destruct (Hrungs 3%nat 7 5 (5 / 10)%R) as (_ & _ & Hmax);
        [repeat constructor | apply Hmax in E; lra].
    - destruct (Hrungs 4%nat 5 3 (3 / 10)%R) as (_ & _ & Hmax);
        [repeat constructor | apply Hmax in E; lra].
    - destruct (Hrungs 5%nat 3 1 (1 / 10)%R) as (_ & _ & Hmax);
        [repeat constructor | apply Hmax in E; lra]. }
  split; [exact Hps|]. rewrite Hf. f_equal. apply Hhit. lia.
Defined.

(** ** The age-limit sweep on one parcel *)

Section AgeSweep.
Import Parcels.
Variable IDX_ORGN : Z.

Lemma np_where_spec (m : list bool) j : j ∈ np_where m <-> m !! j = Some true.
Proof.
  unfold np_where. rewrite list_elem_of_filter, elem_of_seq. split; [tauto|].
  intros H. split; [exact H|]. apply lookup_lt_Some in H. lia.
Qed.

Lemma slots_milestone m m' k r :
  slots m k = slots m' k -> milestone m r k = milestone m' r k.
Proof.
  unfold slots. intros H. injection H as Hx Hy Hp Ht Ha.
  unfold milestone. by rewrite !entry_column, Hx, Hy, Hp, Ht, Ha.
Qed.

Section OneSweep.
Variables (n : nat) (pa : snapshot) (irs : list Z) (st0 : prod).
Hypothesis Hok0 : table_ok n st0.
Hypothesis Hirs : length irs = n.
Hypothesis Hpa : snapshot_ok IDX_ORGN n pa.

Lemma age_sweep_body_total j st :
  sweeping n (I_DEAD + I_OLD) st0 st -> (j < length (snap_idx_back pa))%nat ->
  exists st', age_sweep_body IDX_ORGN pa irs st0 j st = Some st'
              /\ sweeping n (I_DEAD + I_OLD) st0 st'.
Proof using Hok0 Hirs Hpa.
  intros Hsw Hj. destruct Hpa as (Hx & Hy & Hp & Ht & Hres & _).
  assert (exists st', age_sweep_body IDX_ORGN pa irs st0 j st = Some st') as [st' H].
  2:{ exists st'. split; [exact H|]. by eapply age_sweep_body_sweeping. }
  unfold age_sweep_body.
  destruct (lookup_lt_is_Some_2 (snap_idx_back pa) j Hj) as [ib Hib]. rewrite Hib. simpl.
  destruct (Hres ib (list_elem_of_lookup_2 _ _ _ Hib)) as [k Hk].
  pose proof Hk as Hk0. rewrite <- (ok_flag _ _ Hok0) in Hk0.
  destruct (aget_total _ _ _ Hk0) as (f0 & -> & _). simpl.
  destruct Hsw as (Hok & _).
  pose proof Hk as Hk1. rewrite <- (ok_flag _ _ Hok) in Hk1.
  rewrite (aset_resolved _ _ _ _ Hk1). simpl.
  destruct (lookup_lt_is_Some_2 (snap_x pa) j) as [vx ->]; [lia|].
  destruct (lookup_lt_is_Some_2 (snap_y pa) j) as [vy ->]; [lia|].
  destruct (lookup_lt_is_Some_2 (snap_p pa) j) as [vp ->]; [lia|].
  destruct (lookup_lt_is_Some_2 (snap_t pa) j) as [vt ->]; [lia|]. simpl.
  pose proof Hk as Hk2. rewrite <- Hirs in Hk2.
  destruct (aget_total _ _ _ Hk2) as (start & -> & _). simpl.
  destruct (archive_total n 0 (ib - IDX_ORGN) vx vy vp vt
              (IZR (start - snap_itime pa) / 86400)%R (src st) k
              (ok_src _ _ Hok) ltac:(lia) Hk) as [m ->].
  simpl. eauto.
Qed.

(** What the loop over the selected positions leaves for the parcel at
    position [j] of the snapshot. *)
Lemma age_sweep_loop_at j ib k f start vx vy vp vt :
  snap_idx_back pa !! j = Some ib -> resolve n (ib - IDX_ORGN) = Some k ->
  flag_source st0 !! k = Some f -> irs !! k = Some start ->
  snap_x pa !! j = Some vx -> snap_y pa !! j = Some vy ->
  snap_p pa !! j = Some vp -> snap_t pa !! j = Some vt ->
  forall l st st',
    sweeping n (I_DEAD + I_OLD) st0 st ->
    for_each (age_sweep_body IDX_ORGN pa irs st0) l st = Some st' ->
    (j ∈ l ->
       flag_source st' !! k = Some (Z.lor f (I_DEAD + I_OLD))
       /\ milestone (src st') 0 k
          = Some (vx, vy, vp, vt, (IZR (start - snap_itime pa) / 86400)%R))
    /\ (j ∉ l ->
          flag_source st' !! k = flag_source st !! k
          /\ milestone (src st') 0 k = milestone (src st) 0 k).
Proof using Hok0 Hirs Hpa.
  intros Hib Hk Hf Hstart Hvx Hvy Hvp Hvt.
  destruct Hpa as (_ & _ & _ & _ & _ & Hinj).
  induction l as [|j' l IH]; intros st st' Hsw H.
  { injection H as <-. split; [by intros ?%elem_of_nil | done]. }
  simpl in H. apply bind_Some in H as (st1 & Hb & H).
  pose proof (age_sweep_body_sweeping _ _ _ _ _ _ _ _ Hok0 Hsw Hb) as Hsw1.
  destruct (IH st1 st' Hsw1 H) as [IHin IHout].
  unfold age_sweep_body in Hb.
  apply bind_Some in Hb as (ib' & Hib' & Hb). apply bind_Some in Hb as (f0 & Hf0 & Hb).
  apply bind_Some in Hb as (fl & Hfl & Hb).
  apply bind_Some in Hb as (vx' & Hvx' & Hb). apply bind_Some in Hb as (vy' & Hvy' & Hb).
  apply bind_Some in Hb as (vp' & Hvp' & Hb). apply bind_Some in Hb as (vt' & Hvt' & Hb).
  apply bind_Some in Hb as (start' & Hstart' & Hb). apply bind_Some in Hb as (m & Hm & Hb).
  injection Hb as <-.
  destruct (sweeping_write _ _ _ _ _ _ _ _ _ _ _ _ _ _ Hok0 Hsw Hf0 Hfl Hm)
    as (_ & k' & Hk' & Hf0' & -> & Hslots & _ & Hslot).
  destruct (decide (j' = j)) as [-> | Hne].
  - assert (ib' = ib) as -> by congruence. assert (k' = k) as -> by congruence.
    assert (f0 = f) as -> by congruence.
    assert (vx' = vx) as -> by congruence. assert (vy' = vy) as -> by congruence.
    assert (vp' = vp) as -> by congruence. assert (vt' = vt) as -> by congruence.
    assert (start' = start) as ->.
    { apply aget_lookup in Hstart' as (k2 & Hk2 & Hs2). rewrite Hirs in Hk2. congruence. }
    assert (k < length (flag_source st))%nat as Hlt.
    { destruct Hsw as (Hok & _). rewrite (ok_flag _ _ Hok). by eapply resolve_lt. }
    split; [|intros Hn; exfalso; apply Hn; left].
    intros _. destruct (decide (j ∈ l)) as [Hin | Hnin]; [by apply IHin|].
    destruct (IHout Hnin) as [-> ->]. simpl.
    split; [by apply list_lookup_insert_eq | exact Hslot].
  - assert (k' <> k) as Hkne.
    { intros ->. apply Hne. apply (Hinj j' j ib' ib); trivial. congruence. }
    assert (flag_source (set_flag (set_src st m)
              (<[k' := Z.lor f0 (I_DEAD + I_OLD)]> (flag_source st))) !! k
            = flag_source st !! k
            /\ milestone (src (set_flag (set_src st m)
                 (<[k' := Z.lor f0 (I_DEAD + I_OLD)]> (flag_source st)))) 0 k
               = milestone (src st) 0 k) as [E1 E2].
    { simpl. split; [by apply list_lookup_insert_ne|].
      apply slots_milestone. apply Hslots. congruence. }
    split.
    + intros Hin. apply elem_of_cons in Hin as [-> | Hin]; [done|]. by apply IHin.
    + intros Hnin. apply not_elem_of_cons in Hnin as [_ Hnin].
      destruct (IHout Hnin) as [-> ->]. by split.
Qed.
End OneSweep.
End AgeSweep.

(** The sweep on a parcel it selects. *)
Lemma age_sweep_selected IDX_ORGN n age_bound pa irs st
    j ib k f start vx vy vp vt :
  Parcels.table_ok n st -> length irs = n -> Parcels.snapshot_ok IDX_ORGN n pa ->
  Parcels.snap_idx_back pa !! j = Some ib -> resolve n (ib - IDX_ORGN) = Some k ->
  Parcels.flag_source st !! k = Some f -> Z.land f Parcels.I_STOP = 0 ->
  irs !! k = Some start ->
  (IZR (start - Parcels.snap_itime pa) > (age_bound - 25 / 100) * 86400)%R ->
  Parcels.snap_x pa !! j = Some vx -> Parcels.snap_y pa !! j = Some vy ->
  Parcels.snap_p pa !! j = Some vp -> Parcels.snap_t pa !! j = Some vt ->
  exists st' c,
    Parcels.age_sweep IDX_ORGN age_bound pa irs st = Some (st', c)
    /\ Parcels.flag_source st' !! k
       = Some (Z.lor f (Parcels.I_DEAD + Parcels.I_OLD))
    /\ Parcels.milestone (Parcels.src st') 0 k
       = Some (vx, vy, vp, vt, (IZR (start - Parcels.snap_itime pa) / 86400)%R).
Proof.
  intros Hok Hirs Hpa Hib Hk Hf Hstop Hstart Hage Hvx Hvy Hvp Hvt.
  assert (Parcels.old_test IDX_ORGN age_bound pa irs st ib = Some true) as Hsel.
  { unfold Parcels.old_test.
    rewrite (aget_resolved irs _ k) by (by rewrite Hirs). rewrite Hstart. simpl.
    rewrite (aget_resolved (Parcels.flag_source st) _ k)
      by (by rewrite (Parcels.ok_flag _ _ Hok)).
    rewrite Hf. simpl. rewrite Hstop. simpl.
    by destruct (Rgt_dec _ _). }
  assert (is_Some (mapM (Parcels.old_test IDX_ORGN age_bound pa irs st)
                     (Parcels.snap_idx_back pa))) as [sel Hmap].
  { apply mapM_is_Some. apply Forall_forall. intros ib' Hin.
    destruct Hpa as (_ & _ & _ & _ & Hres & _). destruct (Hres ib' Hin) as [k' Hk'].
    unfold compose, Parcels.old_test.
    pose proof Hk' as Hk1. rewrite <- Hirs in Hk1.
    destruct (aget_total _ _ _ Hk1) as (s' & -> & _). simpl.
    pose proof Hk' as Hk2. rewrite <- (Parcels.ok_flag _ _ Hok) in Hk2.
    destruct (aget_total _ _ _ Hk2) as (f' & -> & _). simpl. eauto. }
  pose proof (mapM_Some_1 _ _ _ Hmap) as Hall.
  assert (j ∈ Parcels.np_where sel) as Hjin.
  { apply np_where_spec.
    destruct (Forall2_lookup_l _ _ _ _ _ Hall Hib) as (b & Hb & Hb').
    rewrite Hb. congruence. }
  destruct (for_each_total (Parcels.sweeping n (Parcels.I_DEAD + Parcels.I_OLD) st)
              (Parcels.age_sweep_body IDX_ORGN pa irs st) (Parcels.np_where sel))
    with (s := st) as (st' & Hloop & _).
  { intros j' s Hj' Hs. apply age_sweep_body_total; trivial.
    apply np_where_spec in Hj'. apply lookup_lt_Some in Hj'.
    by rewrite (Forall2_length _ _ _ Hall). }
  { by apply sweeping_start. }
  exists st', (length (Parcels.np_where sel)). split.
  { unfold Parcels.age_sweep. rewrite Hmap. simpl. by rewrite Hloop. }
  destruct (age_sweep_loop_at IDX_ORGN n pa irs st Hok Hirs Hpa j ib k f start
              vx vy vp vt Hib Hk Hf Hstart Hvx Hvy Hvp Hvt
              (Parcels.np_where sel) st st' (sweeping_start _ _ _ Hok) Hloop)
    as [Hin _].
  exact (Hin Hjin).
Qed.

(** C6, as the code has it: the age-limit sweep terminates every parcel of
    the older snapshot whose flag has neither the DEAD nor the HIT bit set
    (the test is against [I_STOP = I_HIT + I_DEAD]) and whose age exceeds
    [(age_bound - 0.25)] days, hence any such parcel older than
    [age_bound]: it adds DEAD and OLD to the flag and archives the
    position, pressure and temperature of the parcel in that snapshot, and
    its age counted in days, into milestone slot 0. *)
Theorem age_sweep_terminates IDX_ORGN n age_bound pa irs st
    j ib k f start vx vy vp vt :
  Parcels.table_ok n st -> length irs = n -> Parcels.snapshot_ok IDX_ORGN n pa ->
  Parcels.snap_idx_back pa !! j = Some ib -> resolve n (ib - IDX_ORGN) = Some k ->
  Parcels.flag_source st !! k = Some f -> Z.land f Parcels.I_STOP = 0 ->
  irs !! k = Some start ->
  (IZR (start - Parcels.snap_itime pa) > (age_bound - 25 / 100) * 86400)%R ->
  Parcels.snap_x pa !! j = Some vx -> Parcels.snap_y pa !! j = Some vy ->
  Parcels.snap_p pa !! j = Some vp -> Parcels.snap_t pa !! j = Some vt ->
  exists st' c,
    Parcels.age_sweep IDX_ORGN age_bound pa irs st = Some (st', c)
    /\ Parcels.flag_source st' !! k
       = Some (Z.lor f (Parcels.I_DEAD + Parcels.I_OLD))
    /\ Parcels.milestone (Parcels.src st') 0 k
       = Some (vx, vy, vp, vt, (IZR (start - Parcels.snap_itime pa) / 86400)%R).
Proof.
  intros Hok Hirs Hpa Hib Hk Hf Hstop Hstart Hage Hvx Hvy Hvp Hvt.
  by eapply age_sweep_selected.
Qed.

Lemma scenario_snapshot_ok : Parcels.snapshot_ok 0 2 Scenario.snap0.
Proof.
  repeat (split; [reflexivity|]). split.
  - intros ib Hin. apply list_elem_of_singleton in Hin as ->. by eexists.
  - intros [|j1] [|j2] ib1 ib2 H1 H2 _; try reflexivity; discriminate.
Qed.

Lemma scenario_age : (IZR (0 - Parcels.snap_itime Scenario.snap0)
                      > (Parcels.main_age_bound - 25 / 100) * 86400)%R.
Proof.
  unfold Parcels.main_age_bound.
  change (0 - Parcels.snap_itime Scenario.snap0) with 4000000. lra.
Qed.

Lemma age_sweep_terminates_witness :
  exists st' c,
    Parcels.age_sweep 0 Parcels.main_age_bound Scenario.snap0 [0; 0] Scenario.table0
    = Some (st', c)
    /\ Parcels.flag_source st' !! 0%nat
       = Some (Z.lor 0 (Parcels.I_DEAD + Parcels.I_OLD))
    /\ Parcels.milestone (Parcels.src st') 0 0
       = Some (1, 2, 20000, 250,
               IZR (0 - Parcels.snap_itime Scenario.snap0) / 86400)%R.
Proof.
  exact (age_sweep_terminates 0 2 Parcels.main_age_bound Scenario.snap0 [0; 0]
           Scenario.table0 0%nat 0 0%nat 0 0 1%R 2%R 20000%R 250%R
           scenario_table_ok eq_refl scenario_snapshot_ok eq_refl eq_refl eq_refl
           eq_refl eq_refl scenario_age eq_refl eq_refl eq_refl eq_refl).
Defined.

(** C6, as stated, fails: a parcel of the older snapshot whose DEAD bit is
    clear and whose age (4 000 000 s) exceeds the bound of 44 days, but
    whose HIT bit is set, is left as it is by the sweep. *)
Lemma age_sweep_skips_hit_parcel :
  Z.land Parcels.I_HIT Parcels.I_DEAD = 0
  /\ (IZR (0 - Parcels.snap_itime Scenario.snap0)
      > Parcels.main_age_bound * 86400)%R
  /\ Parcels.flag_source Scenario.hit_table !! 0%nat = Some Parcels.I_HIT
  /\ Parcels.age_sweep 0 Parcels.main_age_bound Scenario.snap0 [0; 0]
       Scenario.hit_table
     = Some (Scenario.hit_table, 0%nat).
Proof.
  split; [reflexivity|]. split.
  { unfold Parcels.main_age_bound.
    change (0 - Parcels.snap_itime Scenario.snap0) with 4000000. lra. }
  split; [reflexivity|].
  unfold Parcels.age_sweep.
  assert (mapM (Parcels.old_test 0 Parcels.main_age_bound Scenario.snap0 [0; 0]
                  Scenario.hit_table)
            (Parcels.snap_idx_back Scenario.snap0) = Some [false]) as ->.
  { apply mapM_Some_2. repeat constructor.
    unfold Parcels.old_test.
    change (aget [0; 0] (0 - 0)) with (Some 0).
    change (aget (Parcels.flag_source Scenario.hit_table) (0 - 0))
      with (Some Parcels.I_HIT).
    simpl. by rewrite andb_false_r. }
  reflexivity.
Qed.

Section Units.
Import Parcels.
Variable IDX_ORGN : Z.

Lemma terminate_body_total code n itime x y p t idx irs i st c ib k vx vy vp vt :
  table_ok n st -> length irs = n ->
  idx !! i = Some ib -> resolve n (ib - IDX_ORGN) = Some k ->
  x !! i = Some vx -> y !! i = Some vy -> p !! i = Some vp -> t !! i = Some vt ->
  exists acc', terminate_body IDX_ORGN code itime x y p t idx irs i (st, c) = Some acc'.
Proof.
  intros Hok Hirs Hib Hk Hvx Hvy Hvp Hvt. unfold terminate_body.
  rewrite Hib. simpl.
  pose proof Hk as Hkf. rewrite <- (ok_flag _ _ Hok) in Hkf.
  destruct (aget_total _ _ _ Hkf) as (f & -> & _). simpl.
  destruct (Z.land f I_DEAD =? 0); [|eauto].
  rewrite Hvx, Hvy, Hvt, Hvp. simpl.
  pose proof Hk as Hki. rewrite <- Hirs in Hki.
  destruct (aget_total _ _ _ Hki) as (start & -> & _). simpl.
  destruct (archive_total n 0 (ib - IDX_ORGN) vx vy vp vt (IZR (start - itime))
              (src st) k (ok_src _ _ Hok) ltac:(lia) Hk) as [m ->]. simpl.
  destruct (or_flag_total n (ib - IDX_ORGN)
              (Z.shiftl (code vx vy vp) 13 + I_DEAD + I_CROSSED) _ k
              (ok_flag _ _ Hok) Hk) as (f' & _ & ->).
  simpl. eauto.
Qed.

(** A termination handler on a parcel that is not DEAD: the age it
    archives is the difference of the two times, in seconds. *)
Lemma terminate_body_age code n itime x y p t idx irs i st c ib k f start vx vy vp vt :
  table_ok n st -> length irs = n ->
  idx !! i = Some ib -> resolve n (ib - IDX_ORGN) = Some k ->
  flag_source st !! k = Some f -> Z.land f I_DEAD = 0 -> irs !! k = Some start ->
  x !! i = Some vx -> y !! i = Some vy -> p !! i = Some vp -> t !! i = Some vt ->
  exists st' c',
    terminate_body IDX_ORGN code itime x y p t idx irs i (st, c) = Some (st', c')
    /\ milestone (src st') 0 k = Some (vx, vy, vp, vt, IZR (start - itime)).
Proof.
  intros Hok Hirs Hib Hk Hf Hlive Hstart Hvx Hvy Hvp Hvt.
  destruct (terminate_body_total code n itime x y p t idx irs i st c ib k vx vy vp vt)
    as [[st' c'] Hb]; trivial.
  exists st', c'. split; [exact Hb|].
  destruct (terminate_body_effect _ _ _ _ _ _ _ _ _ _ _ _ _ _ _ Hok Hb)
    as [[-> ->] | (ib' & k' & f' & vx' & vy' & vp' & vt' & start' & m & Hib' & Hk'
                   & Hf' & Hlive' & Hx' & Hy' & Hp' & Ht' & Hstart' & _ & _ & _ & Hm
                   & -> & _)].
  - exfalso. unfold terminate_body in Hb. rewrite Hib in Hb. simpl in Hb.
    rewrite (aget_resolved (flag_source st) _ k) in Hb
      by (by rewrite (ok_flag _ _ Hok)).
    rewrite Hf in Hb. simpl in Hb. rewrite Hlive in Hb. simpl in Hb.
    rewrite Hvx, Hvy, Hvt, Hvp in Hb. simpl in Hb.
    rewrite (aget_resolved irs _ k) in Hb by (by rewrite Hirs).
    rewrite Hstart in Hb. simpl in Hb.
    apply bind_Some in Hb as (m & _ & Hb). apply bind_Some in Hb as (fl & _ & Hb).
    injection Hb as _ Hc. lia.
  - assert (ib' = ib) as -> by congruence. assert (k' = k) as -> by congruence.
    assert (start' = start) as ->.
    { apply aget_lookup in Hstart' as (k2 & Hk2 & Hs2). rewrite Hirs in Hk2. congruence. }
    simpl. rewrite Hm. congruence.
Qed.

(** A rung that fires archives the age in seconds as well. *)
Lemma rung_age n r from to thr hit sl irs i i0 st nh k c start vx vy vp vt :
  table_ok n st -> length irs = n -> (r < 6)%nat -> length nh = 6%nat ->
  resolve n i0 = Some k ->
  passed st !! k = Some from -> chi st !! k = Some c -> (c < thr)%R ->
  irs !! k = Some start ->
  sl_xi sl !! i = Some vx -> sl_yi sl !! i = Some vy ->
  sl_pi sl !! i = Some vp -> sl_ti sl !! i = Some vt ->
  exists st' nh',
    rung r from to thr hit sl irs i i0 (st, nh) = Some (st', nh')
    /\ milestone (src st') r k = Some (vx, vy, vp, vt, IZR (start - sl_itime sl)).
Proof.
  intros Hok Hirs Hr Hnh Hk Hps Hc Hlt Hstart Hvx Hvy Hvp Hvt.
  assert (aget irs i0 = Some start) as Hst.
  { by rewrite (aget_resolved irs _ k) by (by rewrite Hirs). }
  destruct (rung_total n r from to thr hit sl irs i i0 st nh k vx vy vp vt start)
    as [[st' nh'] Hb]; trivial.
  exists st', nh'. split; [exact Hb|].
  destruct (rung_effect n _ _ _ _ _ _ _ _ _ _ _ _ _ Hok Hb)
    as (k' & ps & c' & f & Hk' & Hps' & Hc' & _ & _ & _ & _ & _ & _ & _ & _ & _ & _ & _
        & Hfire).
  assert (k' = k) as -> by congruence. assert (ps = from) as -> by congruence.
  assert (c' = c) as -> by congruence.
  assert (fires from thr from c = true) as E.
  { unfold fires. rewrite Z.eqb_refl. simpl. by destruct (Rlt_dec c thr). }
  rewrite E in Hfire.
  destruct Hfire as (vx' & vy' & vp' & vt' & start' & h & ? & ? & ? & ? & ? & Hm & _).
  rewrite Hm. congruence.
Qed.
End Units.

(** C10: the age archived in milestone slot 0 is [ir_start - itime], in
    seconds, when the exit handler or the ground-contact handler
    terminates the parcel, and [(ir_start - itime)/86400], in days, when
    the age-limit sweep does; the threshold crossings archive their age in
    slots 1 to 5 in seconds.  For the same launch time and the same time
    the two values of slot 0 differ, unless the age is zero. *)
Theorem slot0_age_units :
  (forall IDX_ORGN n itime x y p t idx_back irs rr i st c ib k f start vx vy vp vt,
     Parcels.table_ok n st -> length irs = n ->
     idx_back !! i = Some ib -> resolve n (ib - IDX_ORGN) = Some k ->
     Parcels.flag_source st !! k = Some f -> Z.land f Parcels.I_DEAD = 0 ->
     irs !! k = Some start ->
     x !! i = Some vx -> y !! i = Some vy -> p !! i = Some vp -> t !! i = Some vt ->
     (exists st' c',
        Parcels.exiter_body IDX_ORGN itime x y p t idx_back irs rr i (st, c)
        = Some (st', c')
        /\ Parcels.milestone (Parcels.src st') 0 k
           = Some (vx, vy, vp, vt, IZR (start - itime)))
     /\ (exists st' c',
           Parcels.radada_body IDX_ORGN itime x y p t idx_back irs i (st, c)
           = Some (st', c')
           /\ Parcels.milestone (Parcels.src st') 0 k
              = Some (vx, vy, vp, vt, IZR (start - itime))))
  /\ (forall IDX_ORGN n age_bound pa irs st j ib k f start vx vy vp vt,
        Parcels.table_ok n st -> length irs = n ->
        Parcels.snapshot_ok IDX_ORGN n pa ->
        Parcels.snap_idx_back pa !! j = Some ib ->
        resolve n (ib - IDX_ORGN) = Some k ->
        Parcels.flag_source st !! k = Some f -> Z.land f Parcels.I_STOP = 0 ->
        irs !! k = Some start ->
        (IZR (start - Parcels.snap_itime pa) > (age_bound - 25 / 100) * 86400)%R ->
        Parcels.snap_x pa !! j = Some vx -> Parcels.snap_y pa !! j = Some vy ->
        Parcels.snap_p pa !! j = Some vp -> Parcels.snap_t pa !! j = Some vt ->
        exists st' c,
          Parcels.age_sweep IDX_ORGN age_bound pa irs st = Some (st', c)
          /\ Parcels.milestone (Parcels.src st') 0 k
             = Some (vx, vy, vp, vt,
                     (IZR (start - Parcels.snap_itime pa) / 86400)%R))
  /\ (forall n r from to thr hit sl irs i i0 st nh k c start vx vy vp vt,
        Parcels.table_ok n st -> length irs = n -> (r < 6)%nat ->
        length nh = 6%nat -> resolve n i0 = Some k ->
        Parcels.passed st !! k = Some from -> Parcels.chi st !! k = Some c ->
        (c < thr)%R -> irs !! k = Some start ->
        Parcels.sl_xi sl !! i = Some vx -> Parcels.sl_yi sl !! i = Some vy ->
        Parcels.sl_pi sl !! i = Some vp -> Parcels.sl_ti sl !! i = Some vt ->
        exists st' nh',
          Parcels.rung r from to thr hit sl irs i i0 (st, nh) = Some (st', nh')
          /\ Parcels.milestone (Parcels.src st') r k
             = Some (vx, vy, vp, vt, IZR (start - Parcels.sl_itime sl)))
  /\ (forall d : Z, d <> 0 -> (IZR d / 86400)%R <> IZR d).
Proof.
  split; [|split; [|split]].
  - intros IDX_ORGN n itime x y p t idx irs rr i st c ib k f start vx vy vp vt
      Hok Hirs Hib Hk Hf Hlive Hstart Hvx Hvy Hvp Hvt.
    split.
    + exact (terminate_body_age IDX_ORGN (Parcels.excode rr) n itime x y p t idx irs
               i st c ib k f start vx vy vp vt
               Hok Hirs Hib Hk Hf Hlive Hstart Hvx Hvy Hvp Hvt).
    + exact (terminate_body_age IDX_ORGN (fun _ _ _ => 8) n itime x y p t idx irs
               i st c ib k f start vx vy vp vt
               Hok Hirs Hib Hk Hf Hlive Hstart Hvx Hvy Hvp Hvt).
  - intros IDX_ORGN n age_bound pa irs st j ib k f start vx vy vp vt
      Hok Hirs Hpa Hib Hk Hf Hstop Hstart Hage Hvx Hvy Hvp Hvt.
    destruct (age_sweep_selected IDX_ORGN n age_bound pa irs st j ib k f start
                vx vy vp vt) as (st' & c & H1 & _ & H2); trivial.
    by exists st', c.
  - intros n r from to thr hit sl irs i i0 st nh k c start vx vy vp vt
      Hok Hirs Hr Hnh Hk Hps Hc Hlt Hstart Hvx Hvy Hvp Hvt.
    exact (rung_age n r from to thr hit sl irs i i0 st nh k c start vx vy vp vt
             Hok Hirs Hr Hnh Hk Hps Hc Hlt Hstart Hvx Hvy Hvp Hvt).
  - intros d Hd E. apply Hd. apply eq_IZR. simpl. lra.
Qed.

(** The first parcel of the scenario, 4 000 000 seconds after its launch:
    what the exit handler archives as its age, and what the age-limit sweep
    archives for the same parcel at the same time. *)
Lemma slot0_age_units_witness :
  (exists st' c',
     Parcels.exiter_body 0 (-4000000) [1]%R [2]%R [20000]%R [250]%R [0] [0; 0]
       (Parcels.Box (-10) 160 0 50) 0 (Scenario.table0, 0) = Some (st', c')
     /\ Parcels.milestone (Parcels.src st') 0 0
        = Some (1, 2, 20000, 250, IZR (0 - -4000000))%R)
  /\ (exists st' c,
        Parcels.age_sweep 0 Parcels.main_age_bound Scenario.snap0 [0; 0]
          Scenario.table0 = Some (st', c)
        /\ Parcels.milestone (Parcels.src st') 0 0
           = Some (1, 2, 20000, 250,
                   IZR (0 - Parcels.snap_itime Scenario.snap0) / 86400)%R).
Proof.
  destruct slot0_age_units as (Hexit & Hsweep & _ & _). split.
  - exact (proj1 (Hexit 0 2%nat (-4000000) [1]%R [2]%R [20000]%R [250]%R [0] [0; 0]
                    (Parcels.Box (-10) 160 0 50) 0%nat Scenario.table0 0 0 0%nat 0 0
                    1%R 2%R 20000%R 250%R
                    scenario_table_ok eq_refl eq_refl eq_refl eq_refl eq_refl eq_refl
                    eq_refl eq_refl eq_refl eq_refl)).
  - exact (Hsweep 0 2%nat Parcels.main_age_bound Scenario.snap0 [0; 0]
             Scenario.table0 0%nat 0 0%nat 0 0 1%R 2%R 20000%R 250%R
             scenario_table_ok eq_refl scenario_snapshot_ok eq_refl eq_refl eq_refl
             eq_refl eq_refl scenario_age eq_refl eq_refl eq_refl eq_refl).
Defined.

(** C7, as the code has it: for end points whose path fits the 40-row
    buffer, [max(|x1-x0|,|y1-y0|)+1 <= 40], [line] returns the path from
    [(x0,y0)] to [(x1,y1)]: it starts at the first, ends at the second, has
    [max(|x1-x0|,|y1-y0|)+1] cells, consecutive cells differ by at most 1
    in each axis, and it is the single cell [(x0,y0)] when the end points
    coincide. *)
Theorem line_path x0 y0 x1 y1 :
  in_int64 x0 -> in_int64 y0 -> in_int64 x1 -> in_int64 y1 ->
  Rasterizer.separation x0 y0 x1 y1 + 1 <= 40 ->
  exists l,
    Rasterizer.line x0 y0 x1 y1 = Some l
    /\ head l = Some (x0, y0) /\ last l = Some (x1, y1)
    /\ Z.of_nat (length l) = Rasterizer.separation x0 y0 x1 y1 + 1
    /\ (forall (i : nat) p q,
          l !! i = Some p -> l !! S i = Some q -> Rasterizer.adjacent p q)
    /\ (x0 = x1 -> y0 = y1 -> l = [(x0, y0)]).
Proof.
  intros Hx0 Hy0 Hx1 Hy1 Hsep.
  destruct (RasterizerFacts.line_some x0 y0 x1 y1) as (l & Hl & Hlen & Hhd & Hlast & Hc);
    trivial; [lia|].
  exists l. split; [exact Hl|]. split; [exact Hhd|]. split; [exact Hlast|].
  split; [exact Hlen|]. split; [by apply RasterizerFacts.connected8_lookup|].
  intros -> ->. unfold Rasterizer.line in Hl. rewrite !Z.eqb_refl in Hl.
  simpl in Hl. congruence.
Qed.

Lemma line_path_witness :
  exists l,
    Rasterizer.line 2 2 (-1) 5 = Some l
    /\ head l = Some (2, 2) /\ last l = Some (-1, 5)
    /\ Z.of_nat (length l) = Rasterizer.separation 2 2 (-1) 5 + 1
    /\ (forall (i : nat) p q,
          l !! i = Some p -> l !! S i = Some q -> Rasterizer.adjacent p q)
    /\ (2 = -1 -> 2 = 5 -> l = [(2, 2)]).
Proof.
  apply (line_path 2 2 (-1) 5); unfold in_int64, Rasterizer.separation; lia.
Defined.

(** C7, as stated, fails: the end points (0,0) and (40,0) are 41 cells
    apart and [line] returns no path for them, the 41st write falling
    outside the buffer. *)
Lemma line_far_apart_no_path :
  ~ exists l,
      Rasterizer.line 0 0 40 0 = Some l
      /\ Z.of_nat (length l) = Rasterizer.separation 0 0 40 0 + 1.
Proof.
  intros (l & Hl & _). vm_compute in Hl. discriminate.
Qed.

(** C8, as the code has it: [line] stays inside its 40-row buffer and
    returns the whole path exactly when [max(|x1-x0|,|y1-y0|)+1 <= 40];
    for end points further apart a write leaves the buffer. *)
Theorem line_buffer x0 y0 x1 y1 :
  in_int64 x0 -> in_int64 y0 -> in_int64 x1 -> in_int64 y1 ->
  Rasterizer.separation x0 y0 x1 y1 <= 2 ^ 61 ->
  (Rasterizer.separation x0 y0 x1 y1 + 1 <= 40 ->
     exists l, Rasterizer.line x0 y0 x1 y1 = Some l
               /\ Z.of_nat (length l) = Rasterizer.separation x0 y0 x1 y1 + 1)
  /\ (40 < Rasterizer.separation x0 y0 x1 y1 + 1 ->
        Rasterizer.line x0 y0 x1 y1 = None).
Proof.
  intros Hx0 Hy0 Hx1 Hy1 Hsep. split.
  - intros Hfit.
    destruct (RasterizerFacts.line_some x0 y0 x1 y1) as (l & Hl & Hlen & _);
      trivial; [lia|].
    by exists l.
  - intros Hfar. apply RasterizerFacts.line_none; trivial. lia.
Qed.

Lemma line_buffer_witness :
  (Rasterizer.separation 0 0 39 7 + 1 <= 40 ->
     exists l, Rasterizer.line 0 0 39 7 = Some l
               /\ Z.of_nat (length l) = Rasterizer.separation 0 0 39 7 + 1)
  /\ (40 < Rasterizer.separation 0 0 39 7 + 1 -> Rasterizer.line 0 0 39 7 = None).
Proof.
  apply (line_buffer 0 0 39 7); unfold in_int64, Rasterizer.separation; lia.
Defined.

(** C8, as stated, fails: the cells (0,0) and (680,200) lie in a domain of
    681 by 201 cells, and [line] writes outside its buffer on them. *)
Lemma line_across_domain_overflows :
  0 <= 0 < 681 /\ 0 <= 680 < 681 /\ 0 <= 0 < 201 /\ 0 <= 200 < 201
  /\ Rasterizer.line 0 0 680 200 = None.
Proof.
  repeat (split; [lia|]).
  apply RasterizerFacts.line_none;
    unfold in_int64, Rasterizer.separation; lia.
Qed.

(** ** The time-slice generator *)

Section Slices.
Import Parcels TimeSlices.

Lemma pick_length {A} (m : list bool) (a : list A) :
  length a = length m -> length (pick m a) = np_count m.
Proof.
  unfold np_count. revert a. induction m as [|b m IH]; intros [|v a] H;
    try discriminate; [reflexivity|].
  simpl in H. injection H as H. destruct b.
  - change (pick (true :: m) (v :: a)) with (v :: pick m a).
    rewrite filter_cons_True by done. simpl. by rewrite IH.
  - change (pick (false :: m) (v :: a)) with (pick m a).
    rewrite filter_cons_False by done. by apply IH.
Qed.

Lemma np_select_ok {A} (m : list bool) (a : list A) :
  length a = length m -> np_select m a = Some (pick m a).
Proof. intros H. unfold np_select. by rewrite decide_True. Qed.

Lemma lincomb_ok ca cp (a p : list R) :
  length a = length p ->
  lincomb ca cp a p = Some (zip_with (fun u v => ca * u + cp * v)%R a p).
Proof. intros H. unfold lincomb, broadcast2. by rewrite decide_True. Qed.

Lemma tdiv_ok a b : b <> 0 -> tdiv a b = Some (IZR a / IZR b)%R.
Proof. intros H. unfold tdiv. by destruct (Z.eqb_spec b 0). Qed.

Lemma zip_with_left (ca cp : R) (a p : list R) :
  ca = 1%R -> cp = 0%R -> length a = length p ->
  zip_with (fun u v => ca * u + cp * v)%R a p = a.
Proof.
  intros -> ->. revert p. induction a as [|u a IH]; intros [|v p] H;
    try discriminate; [reflexivity|].
  simpl. rewrite IH by (by injection H). f_equal. lra.
Qed.

Lemma zip_with_right (ca cp : R) (a p : list R) :
  ca = 0%R -> cp = 1%R -> length a = length p ->
  zip_with (fun u v => ca * u + cp * v)%R a p = p.
Proof.
  intros -> ->. revert p. induction a as [|u a IH]; intros [|v p] H;
    try discriminate; [reflexivity|].
  simpl. rewrite IH by (by injection H). f_equal. lra.
Qed.

Section Shaped.
Variables (c : config) (n : nat).
Hypothesis Hc : config_ok c n.

Lemma dstep_pos : 0 < dstep c.
Proof using Hc. destruct Hc. nia. Qed.

Lemma coef_sum t : (coef_a c t + coef_p c t = 1)%R.
Proof using Hc.
  unfold coef_a, coef_p, ta, tp. pose proof dstep_pos as Hd.
  apply IZR_lt in Hd. rewrite !minus_IZR, plus_IZR. field. lra.
Qed.

Lemma coef_at_ta : coef_a c (ta c) = 1%R /\ coef_p c (ta c) = 0%R.
Proof using Hc.
  unfold coef_a, coef_p, ta, tp. pose proof dstep_pos as Hd. apply IZR_lt in Hd.
  rewrite !minus_IZR, !plus_IZR. split; field; lra.
Qed.

Lemma coef_at_tp : coef_a c (tp c) = 0%R /\ coef_p c (tp c) = 1%R.
Proof using Hc.
  unfold coef_a, coef_p, ta, tp. pose proof dstep_pos as Hd. apply IZR_lt in Hd.
  rewrite !minus_IZR, !plus_IZR. split; field; lra.
Qed.

Lemma sel_lengths (f : snapshot -> list R) :
  length (f (part_a c)) = length (live_a c) ->
  length (f (part_p c)) = length (live_p c) ->
  length (sel_a c f) = length (sel_p c f).
Proof using Hc.
  intros Ha Hp. unfold sel_a, sel_p. rewrite !pick_length by done. apply Hc.
Qed.

Lemma interp_at_ta (f : snapshot -> list R) :
  length (f (part_a c)) = length (live_a c) ->
  length (f (part_p c)) = length (live_p c) ->
  interp_at c (ta c) f = sel_a c f.
Proof using Hc.
  intros Ha Hp. unfold interp_at. destruct coef_at_ta.
  apply zip_with_left; trivial. by apply sel_lengths.
Qed.

Lemma interp_at_tp (f : snapshot -> list R) :
  length (f (part_a c)) = length (live_a c) ->
  length (f (part_p c)) = length (live_p c) ->
  interp_at c (tp c) f = sel_p c f.
Proof using Hc.
  intros Ha Hp. unfold interp_at. destruct coef_at_tp.
  apply zip_with_right; trivial. by apply sel_lengths.
Qed.

Lemma interpolate_ok t :
  interpolate c (coef_a c t) (coef_p c t)
  = Some (np_clip (interp_at c t snap_x) (-10) 160,
          np_clip (interp_at c t snap_y) 0 50,
          interp_at c t snap_p, interp_at c t snap_t).
Proof using Hc.
  unfold interpolate. destruct Hc.
  rewrite !np_select_ok by done. simpl.
  rewrite !lincomb_ok by (apply sel_lengths; done). reflexivity.
Qed.

Lemma nb_slices_ok : nb_slices c = Some n.
Proof using Hc.
  unfold nb_slices. pose proof dstep_pos as Hd. destruct Hc.
  rewrite tdiv_ok by lia. simpl. f_equal.
  assert (IZR (dstep c) / IZR (slice_width c) = IZR (Z.of_nat n))%R as ->.
  { rewrite ok_dstep0, mult_IZR. field. apply IZR_lt in ok_width0. lra. }
  unfold trunc. destruct (Rle_dec 0 _) as [_ | Hn].
  - rewrite (Zfloor_eq (Z.of_nat n)); [apply Nat2Z.id | lra].
  - exfalso. apply Hn. pose proof (IZR_le 0 (Z.of_nat n) ltac:(lia)). lra.
Qed.
Lemma slice_times j :
  slice_tf c j - slice_width c = slice_ti c j
  /\ slice_tf c (S j) = slice_ti c j
  /\ snap_itime (part_p c) - Z.of_nat j * seconds (slice_width c)
     - seconds (slice_width c)
     = snap_itime (part_p c) - (Z.of_nat j + 1) * seconds (slice_width c)
  /\ snap_itime (part_p c) - Z.of_nat (S j) * seconds (slice_width c)
     = snap_itime (part_p c) - (Z.of_nat j + 1) * seconds (slice_width c)
  /\ slice_tf c 0 = ta c
  /\ (S j = n -> slice_ti c j = tp c).
Proof using Hc.
  unfold slice_tf, slice_ti, ta, tp. destruct Hc.
  repeat split; try (rewrite ?Nat2Z.inj_succ; ring).
  intros <-. rewrite ok_dstep0, Nat2Z.inj_succ. ring.
Qed.

(** One turn of the loop takes the generator from one window to the
    next. *)
Lemma slice_body_spec j :
  (j < n)%nat -> empty_live c = false ->
  slice_body c n (gen_at c j) = Some (gen_at c (S j)).
Proof using Hc.
  intros Hj Hlive.
  destruct (slice_times j) as (E1 & E2 & E3 & E4 & E5 & E6).
  pose proof dstep_pos as Hd.
  unfold slice_body, gen_at. cbn [g_i g_tf g_itime g_dat].
  rewrite E1, E2, E3, E4, Hlive.
  rewrite !tdiv_ok by lia.
  change (IZR (slice_ti c j - tp c) / IZR (dstep c))%R with (coef_a c (slice_ti c j)).
  change (IZR (ta c - slice_ti c j) / IZR (dstep c))%R with (coef_p c (slice_ti c j)).
  cbn [mbind option_bind].
  destruct j as [|j'].
  - cbn [Nat.eqb]. pose proof Hc as [].
    rewrite !np_select_ok by done. cbn [mbind option_bind].
    rewrite interpolate_ok. cbn [mbind option_bind].
    unfold spec_window. rewrite E5.
    rewrite !interp_at_ta by done. reflexivity.
  - cbn [Nat.eqb].
    assert (slice_ti c j' = slice_tf c (S j')) as E7
      by (by destruct (slice_times j') as (_ & -> & _)).
    destruct (Z.eqb_spec (Z.of_nat (S j')) (Z.of_nat n - 1)) as [Hlast | _].
    + assert (S (S j') = n) as Hn by lia.
      cbn [w_xi w_yi w_pi w_tempi w_idx_back spec_window mbind option_bind].
      pose proof Hc as [].
      rewrite !np_select_ok by done. cbn [mbind option_bind].
      unfold spec_window. rewrite (E6 Hn), E7.
      rewrite !interp_at_tp by done. reflexivity.
    + cbn [w_xi w_yi w_pi w_tempi w_idx_back spec_window mbind option_bind].
      rewrite interpolate_ok. cbn [mbind option_bind].
      unfold spec_window. rewrite E7. reflexivity.
Qed.

(** The windows still to come when [j] have been handed out. *)
Lemma drain_spec (k : nat) : forall j : nat,
  (j + k = n)%nat -> empty_live c = false ->
  drain c n (S k) (gen_at c j) = Some (spec_window c <$> seq j k).
Proof using Hc.
  induction k as [|k IH]; intros j Hjk Hlive.
  - simpl. unfold next. cbn [g_i gen_at].
    destruct (Nat.ltb_spec j n); [lia | reflexivity].
  - change (drain c n (S (S k)) (gen_at c j))
      with (match next c n (gen_at c j) with
            | Yield w g' => cons w <$> drain c n (S k) g'
            | StopIteration => Some []
            | Raise => None
            end).
    unfold next. cbn [g_i gen_at].
    destruct (Nat.ltb_spec j n); [|lia].
    fold (gen_at c j). rewrite (slice_body_spec j) by (trivial; lia).
    rewrite (IH (S j)) by (trivial; lia). reflexivity.
Qed.

Lemma get_slice_part_spec :
  empty_live c = false ->
  get_slice_part c = Some (spec_window c <$> seq 0 n).
Proof using Hc.
  intros Hlive. unfold get_slice_part. rewrite nb_slices_ok.
  cbn [mbind option_bind].
  assert (start c = gen_at c 0) as ->.
  { unfold start, gen_at, slice_tf. f_equal; lia. }
  exact (drain_spec n 0%nat eq_refl Hlive).
Qed.
End Shaped.

(** With no live parcel every window is the sentinel, whatever the shapes
    of the snapshots. *)
Lemma drain_empty c n :
  dstep c <> 0 -> empty_live c = true ->
  forall (k : nat) g, (g_i g + k = n)%nat ->
  exists ws, drain c n (S k) g = Some ws /\ length ws = k
             /\ Forall (fun w => w_ti w = None /\ w_tf w = None) ws.
Proof.
  intros Hd He. induction k as [|k IH]; intros g Hg.
  - exists []. simpl. unfold next.
    destruct (Nat.ltb_spec (g_i g) n); [lia | by repeat split].
  - change (drain c n (S (S k)) g)
      with (match next c n g with
            | Yield w g' => cons w <$> drain c n (S k) g'
            | StopIteration => Some []
            | Raise => None
            end).
    unfold next. destruct (Nat.ltb_spec (g_i g) n); [|lia].
    unfold slice_body. rewrite !tdiv_ok, He by done. cbn [mbind option_bind].
    match goal with
    | |- context [drain c n (S k) ?g'] => destruct (IH g') as (ws & -> & Hlen & Hall)
    end.
    { simpl. lia. }
    eexists. split; [reflexivity|]. simpl. split; [by rewrite Hlen|].
    constructor; [by split | exact Hall].
Qed.
End Slices.

Section SliceWindows.
Import Parcels TimeSlices.

Lemma get_slice_part_windows c n :
  config_ok c n -> empty_live c = false ->
  exists ws, get_slice_part c = Some ws /\ length ws = n
             /\ forall j w, ws !! j = Some w -> (j < n)%nat /\ w = spec_window c j.
Proof.
  intros Hc Hlive. exists (spec_window c <$> seq 0 n).
  split; [by apply get_slice_part_spec|].
  split; [by rewrite length_fmap, length_seq|].
  intros j w Hw. rewrite list_lookup_fmap in Hw.
  destruct (seq 0 n !! j) as [j'|] eqn:E; [|discriminate].
  apply lookup_seq in E as [-> ?]. injection Hw as <-. by split.
Qed.

Lemma get_slice_part_empty c n :
  config_ok c n -> empty_live c = true ->
  exists ws, get_slice_part c = Some ws /\ length ws = n
             /\ forall w, w ∈ ws -> w_ti w = None /\ w_tf w = None.
Proof.
  intros Hc He. unfold get_slice_part. rewrite (nb_slices_ok c n Hc).
  cbn [mbind option_bind].
  destruct (drain_empty c n) with (k := n) (g := start c) as (ws & Hd & Hlen & Hall);
    trivial.
  { pose proof (dstep_pos c n Hc). lia. }
  exists ws. split; [exact Hd|]. split; [exact Hlen|].
  by apply Forall_forall.
Qed.

Lemma clip_above : clip (-10) 160 170 = 160%R.
Proof.
  unfold clip. rewrite Rmax_left by lra. apply Rmin_right. lra.
Qed.

Lemma scenario_config_ok : config_ok Scenario.cfg0 1.
Proof. split; simpl; try reflexivity; lia. Qed.

Lemma scenario_empty_ok : config_ok Scenario.cfg_empty 2.
Proof. split; simpl; try reflexivity; lia. Qed.
End SliceWindows.

(** C9, as the code has it: for an interval of [n] slices ([dstep = n *
    slice_width]) the generator hands out exactly [n] windows, latest
    first: window [j] ends at [ta - j * slice_width] and starts one slice
    earlier, so the first ends at [ta] and the last starts at [tp].  The end
    point of the first window is the snapshot at [ta] without
    interpolation: pressure and temperature as they are, x and y clamped
    to the box [-10,160] x [0,50]; the start point of the last window is the
    snapshot at [tp], in the same way.  Every start point is the linear
    interpolation of the two snapshots at its time, with weights
    [(ti-tp)/dstep] and [(ta-ti)/dstep] that sum to 1, x and y clamped;
    the end point of a window is the start point of the window before it.
    When no parcel is live the [n] windows handed out have both time bounds
    [None]. *)
Theorem time_slices c n :
  TimeSlices.config_ok c n ->
  (TimeSlices.empty_live c = false ->
   exists ws,
     TimeSlices.get_slice_part c = Some ws /\ length ws = n
     /\ (forall (j : nat) w, ws !! j = Some w ->
           TimeSlices.w_tf w
           = Some (TimeSlices.ta c - Z.of_nat j * TimeSlices.slice_width c)
           /\ TimeSlices.w_ti w
              = Some (TimeSlices.ta c - (Z.of_nat j + 1) * TimeSlices.slice_width c)
           /\ let ti := TimeSlices.slice_ti c j in
              TimeSlices.w_xi w
              = Some (TimeSlices.np_clip
                        (TimeSlices.interp_at c ti Parcels.snap_x) (-10) 160)
              /\ TimeSlices.w_yi w
                 = Some (TimeSlices.np_clip
                           (TimeSlices.interp_at c ti Parcels.snap_y) 0 50)
              /\ TimeSlices.w_pi w = Some (TimeSlices.interp_at c ti Parcels.snap_p)
              /\ TimeSlices.w_tempi w
                 = Some (TimeSlices.interp_at c ti Parcels.snap_t))
     /\ (forall w, ws !! 0%nat = Some w ->
           TimeSlices.w_tf w = Some (TimeSlices.ta c)
           /\ TimeSlices.w_xf w
              = Some (TimeSlices.np_clip (TimeSlices.sel_a c Parcels.snap_x) (-10) 160)
           /\ TimeSlices.w_yf w
              = Some (TimeSlices.np_clip (TimeSlices.sel_a c Parcels.snap_y) 0 50)
           /\ TimeSlices.w_pf w = Some (TimeSlices.sel_a c Parcels.snap_p)
           /\ TimeSlices.w_tempf w = Some (TimeSlices.sel_a c Parcels.snap_t))
     /\ (forall w, ws !! (n - 1)%nat = Some w ->
           TimeSlices.w_ti w = Some (TimeSlices.tp c)
           /\ TimeSlices.w_xi w
              = Some (TimeSlices.np_clip (TimeSlices.sel_p c Parcels.snap_x) (-10) 160)
           /\ TimeSlices.w_yi w
              = Some (TimeSlices.np_clip (TimeSlices.sel_p c Parcels.snap_y) 0 50)
           /\ TimeSlices.w_pi w = Some (TimeSlices.sel_p c Parcels.snap_p)
           /\ TimeSlices.w_tempi w = Some (TimeSlices.sel_p c Parcels.snap_t))
     /\ (forall (j : nat) w w', ws !! j = Some w -> ws !! S j = Some w' ->
           TimeSlices.w_tf w' = TimeSlices.w_ti w
           /\ TimeSlices.w_xf w' = TimeSlices.w_xi w
           /\ TimeSlices.w_yf w' = TimeSlices.w_yi w
           /\ TimeSlices.w_pf w' = TimeSlices.w_pi w
           /\ TimeSlices.w_tempf w' = TimeSlices.w_tempi w))
  /\ (forall t, (TimeSlices.coef_a c t + TimeSlices.coef_p c t = 1)%R)
  /\ (TimeSlices.empty_live c = true ->
      exists ws,
        TimeSlices.get_slice_part c = Some ws /\ length ws = n
        /\ forall w, w ∈ ws -> TimeSlices.w_ti w = None /\ TimeSlices.w_tf w = None).
Proof.
  intros Hc.
  split; [|split; [exact (coef_sum c n Hc) | exact (get_slice_part_empty c n Hc)]].
  intros Hlive.
  destruct (get_slice_part_windows c n Hc Hlive) as (ws & Hws & Hlen & Hat).
  exists ws. split; [exact Hws|]. split; [exact Hlen|].
  pose proof Hc as [].
  split; [|split; [|split]].
  - intros j w Hw. destruct (Hat j w Hw) as [_ ->]. by repeat split.
  - intros w Hw. destruct (Hat _ w Hw) as [_ ->].
    destruct (slice_times c n Hc 0) as (_ & _ & _ & _ & E5 & _).
    unfold TimeSlices.spec_window; simpl. rewrite E5.
    rewrite !(interp_at_ta c n Hc) by done. by repeat split.
  - intros w Hw. destruct (Hat _ w Hw) as [Hlt ->].
    destruct (slice_times c n Hc (n - 1)) as (_ & _ & _ & _ & _ & E6).
    unfold TimeSlices.spec_window; simpl. rewrite E6 by lia.
    rewrite !(interp_at_tp c n Hc) by done. by repeat split.
  - intros j w w' Hw Hw'. destruct (Hat j w Hw) as [_ ->].
    destruct (Hat (S j) w' Hw') as [_ ->].
    destruct (slice_times c n Hc j) as (_ & E2 & _).
    unfold TimeSlices.spec_window; simpl. rewrite E2. by repeat split.
Qed.

Lemma time_slices_witness :
  (exists ws,
     TimeSlices.get_slice_part Scenario.cfg0 = Some ws /\ length ws = 1%nat)
  /\ (exists ws,
        TimeSlices.get_slice_part Scenario.cfg_empty = Some ws /\ length ws = 2%nat
        /\ forall w, w ∈ ws -> TimeSlices.w_ti w = None /\ TimeSlices.w_tf w = None).
Proof.
  split.
  - destruct (proj1 (time_slices Scenario.cfg0 1 scenario_config_ok) eq_refl)
      as (ws & Hws & Hlen & _).
    by exists ws.
  - exact (proj2 (proj2 (time_slices Scenario.cfg_empty 2 scenario_empty_ok)) eq_refl).
Defined.

(** C9, as stated, fails: the only live parcel is at x = 170 in the
    snapshot at [ta], and the end point of the first window has
    x = 160. *)
Lemma first_window_is_clamped :
  TimeSlices.sel_a Scenario.cfg0 Parcels.snap_x = [170%R]
  /\ exists w ws,
       TimeSlices.get_slice_part Scenario.cfg0 = Some (w :: ws)
       /\ TimeSlices.w_xf w = Some [160%R]
       /\ TimeSlices.w_xf w <> Some (TimeSlices.sel_a Scenario.cfg0 Parcels.snap_x).
Proof.
  split; [reflexivity|].
  exists (TimeSlices.spec_window Scenario.cfg0 0), [].
  split; [exact (get_slice_part_spec Scenario.cfg0 1 scenario_config_ok eq_refl)|].
  assert (TimeSlices.w_xf (TimeSlices.spec_window Scenario.cfg0 0) = Some [160%R]) as E.
  { unfold TimeSlices.spec_window; cbn [TimeSlices.w_xf].
    destruct (slice_times Scenario.cfg0 1 scenario_config_ok 0)
      as (_ & _ & _ & _ & -> & _).
    rewrite (interp_at_ta Scenario.cfg0 1 scenario_config_ok) by reflexivity.
    change (TimeSlices.sel_a Scenario.cfg0 Parcels.snap_x) with [170%R].
    unfold TimeSlices.np_clip. simpl. by rewrite clip_above. }
  split; [exact E|]. rewrite E.
  change (TimeSlices.sel_a Scenario.cfg0 Parcels.snap_x) with [170%R].
  intros H. injection H as H. lra.
Qed.

(** ** The account of one parcel through the run *)

Section Accounts.
Import Parcels.
Variable IDX_ORGN : Z.
Variable p0 : launch.

Lemma account_Some st k f c ps :
  account st k = Some (f, c, ps) <->
  flag_source st !! k = Some f /\ chi st !! k = Some c /\ passed st !! k = Some ps.
Proof.
  unfold account, parcel_at; simpl. split.
  - intros H. apply bind_Some in H as (f' & Hf & H).
    apply bind_Some in H as (c' & Hc & H). apply bind_Some in H as (ps' & Hp & H).
    by injection H as -> -> ->.
  - by intros (-> & -> & ->).
Qed.

Lemma account_parcel st st' k :
  parcel_at st' k = parcel_at st k -> account st' k = account st k.
Proof. unfold account. by intros ->. Qed.

Lemma follows_refl n st : follows n st st.
Proof. intros Hok. split; [exact Hok|]. intros k q Hq. by exists q. Qed.

Lemma follows_trans n a b c : follows n a b -> follows n b c -> follows n a c.
Proof.
  intros Hab Hbc Hok. destruct (Hab Hok) as [Hokb Hb].
  destruct (Hbc Hokb) as [Hokc Hc]. split; [exact Hokc|].
  intros k q Hq. destruct (Hb k q Hq) as (q1 & Hq1 & H1).
  destruct (Hc k q1 Hq1) as (q2 & Hq2 & H2).
  exists q2. split; [exact Hq2|]. by etrans.
Qed.

(** Only parcel [k] changed, by turns of the handlers. *)
Lemma only_at_follows n k st st' :
  table_ok n st' -> only_at k st st' ->
  (forall q, account st k = Some q ->
     exists q', account st' k = Some q' /\ rtc move q q') ->
  follows n st st'.
Proof.
  intros Hok' Hother Hk _. split; [exact Hok'|].
  intros k' q Hq. destruct (decide (k' = k)) as [-> | Hne]; [by apply Hk|].
  exists q. split; [|done]. by rewrite (account_parcel _ _ _ (Hother k' Hne)).
Qed.

(** Marking the flag of one parcel and archiving a milestone for it. *)
Lemma mark_follows n k f bits st m :
  flag_source st !! k = Some f -> src_ok n m ->
  (forall c ps, move (f, c, ps) (Z.lor f bits, c, ps)) ->
  follows n st (set_flag (set_src st m) (<[k := Z.lor f bits]> (flag_source st))).
Proof.
  intros Hf Hm Hmove Hok. split; [by apply set_flag_src_ok|].
  intros k' [[f' c] ps] Hq. apply account_Some in Hq as (Hf' & Hc & Hp).
  destruct (decide (k' = k)) as [-> | Hne].
  - exists (Z.lor f bits, c, ps). split.
    + apply account_Some; simpl.
      by rewrite list_lookup_insert_eq by (by eapply lookup_lt_Some).
    + assert (f' = f) as -> by congruence. apply rtc_once, Hmove.
  - exists (f', c, ps). split; [|done].
    apply account_Some; simpl. by rewrite list_lookup_insert_ne.
Qed.

Lemma excode_range rr x y p : 1 <= excode rr x y p <= 7.
Proof.
  unfold excode.
  repeat match goal with |- context [if ?d then _ else _] => destruct d end; lia.
Qed.

Lemma terminate_body_follows code n itime x y p t idx irs i s s' :
  (forall vx vy vp, 1 <= code vx vy vp <= 8) ->
  terminate_body IDX_ORGN code itime x y p t idx irs i s = Some s' ->
  follows n s.1 s'.1.
Proof.
  destruct s as [st c], s' as [st' c']. intros Hcode H Hok. simpl in Hok |- *.
  destruct (terminate_body_effect _ _ _ _ _ _ _ _ _ _ _ _ _ _ _ Hok H)
    as [[-> ->] | (ib & k & f & xi & yi & pi & ti & start & m & Hib & Hk & Hf
                   & Hlive & _ & _ & _ & _ & _ & Hm & _ & _ & _ & -> & _)].
  - by apply follows_refl.
  - apply mark_follows; trivial. intros. by apply move_exit.
Qed.

Lemma terminate_loop_follows code n itime x y p t idx irs l s s' :
  (forall vx vy vp, 1 <= code vx vy vp <= 8) ->
  for_each (terminate_body IDX_ORGN code itime x y p t idx irs) l s = Some s' ->
  follows n s.1 s'.1.
Proof.
  intros Hcode. revert s s'. apply for_each_rel.
  - intros s. apply follows_refl.
  - intros a b c. apply follows_trans.
  - intros i s s' _ Hb. by eapply terminate_body_follows.
Qed.

(** A sweep that marks, with [bits], parcels whose flag satisfies [sel]. *)
Lemma marking_follows n bits (sel : Z -> Prop) st0 st :
  (forall f c ps, sel f -> move (f, c, ps) (Z.lor f bits, c, ps)) ->
  sweeping n bits st0 st ->
  (forall k f0, flag_source st0 !! k = Some f0 ->
     flag_source st !! k = Some f0
     \/ (flag_source st !! k = Some (Z.lor f0 bits) /\ sel f0)) ->
  follows n st0 st.
Proof.
  intros Hmove (Hok & Hchi & Hpassed & _ & _ & _) Hflag _. split; [exact Hok|].
  intros k [[f c] ps] Hq. apply account_Some in Hq as (Hf & Hc & Hp).
  destruct (Hflag k f Hf) as [Hf' | [Hf' Hsel]].
  - exists (f, c, ps). split; [|done]. apply account_Some.
    by rewrite Hf', Hchi, Hpassed.
  - exists (Z.lor f bits, c, ps). split; [|by apply rtc_once, Hmove].
    apply account_Some. by rewrite Hf', Hchi, Hpassed.
Qed.

Lemma deadborne_follows n idx1 numpart_s idx_act st st' c :
  deadborne IDX_ORGN p0 idx1 numpart_s idx_act st = Some (st', c) ->
  follows n st st'.
Proof.
  intros H Hok. unfold deadborne in H.
  apply bind_Some in H as (st1 & Hloop & H). injection H as -> _.
  assert (sweeping n (I_DEAD + I_DBORNE) st st') as Hsw.
  { revert Hloop. apply for_each_inv; [|by apply sweeping_start].
    intros j s s' _ Hs Hb. by eapply deadborne_body_sweeping. }
  apply (marking_follows n (I_DEAD + I_DBORNE) (fun _ => True) st st');
    [intros; apply move_dborne | exact Hsw | | exact Hok].
  destruct Hsw as (_ & _ & _ & _ & _ & Hflag).
  intros k f0 Hf0. destruct (Hflag k f0 Hf0); auto.
Qed.

(** The positions the age sweep selects hold parcels with neither DEAD
    nor HIT. *)
Lemma old_test_selected age_bound pa irs st sel j ib :
  mapM (old_test IDX_ORGN age_bound pa irs st) (snap_idx_back pa) = Some sel ->
  j ∈ np_where sel -> snap_idx_back pa !! j = Some ib ->
  exists f, aget (flag_source st) (ib - IDX_ORGN) = Some f /\ Z.land f I_STOP = 0.
Proof.
  intros Hsel Hj Hib. apply mapM_Some in Hsel.
  unfold np_where in Hj. apply list_elem_of_filter in Hj as [Hj _].
  destruct (Forall2_lookup_r _ _ _ _ _ Hsel Hj) as (ib' & Hib' & Ht).
  assert (ib' = ib) as -> by congruence.
  unfold old_test in Ht. apply bind_Some in Ht as (start & _ & Ht).
  apply bind_Some in Ht as (f & Hf & Ht). exists f. split; [exact Hf|].
  injection Ht as Ht. apply andb_true_iff in Ht as [_ Ht]. by apply Z.eqb_eq.
Qed.

Lemma age_sweep_follows n age_bound pa irs st st' c :
  age_sweep IDX_ORGN age_bound pa irs st = Some (st', c) -> follows n st st'.
Proof.
  intros H Hok. unfold age_sweep in H.
  apply bind_Some in H as (sel & Hsel & H). apply bind_Some in H as (st1 & Hloop & H).
  injection H as -> _.
  assert (sweeping n (I_DEAD + I_OLD) st st'
          /\ forall k f0, flag_source st !! k = Some f0 ->
               flag_source st' !! k = Some f0
               \/ (flag_source st' !! k = Some (Z.lor f0 (I_DEAD + I_OLD))
                   /\ Z.land f0 I_STOP = 0)) as [Hsw Hflag].
  { revert Hloop.
    apply (for_each_inv (fun s =>
             sweeping n (I_DEAD + I_OLD) st s
             /\ forall k f0, flag_source st !! k = Some f0 ->
                  flag_source s !! k = Some f0
                  \/ (flag_source s !! k = Some (Z.lor f0 (I_DEAD + I_OLD))
                      /\ Z.land f0 I_STOP = 0))).
    2:{ split; [by apply sweeping_start|]. intros k f0 Hf0. by left. }
    intros j s s' Hj [Hs Hfl] Hb. unfold age_sweep_body in Hb.
    apply bind_Some in Hb as (ib & Hib & Hb). apply bind_Some in Hb as (f0 & Hf0 & Hb).
    apply bind_Some in Hb as (fl & Hset & Hb).
    apply bind_Some in Hb as (vx & Hvx & Hb). apply bind_Some in Hb as (vy & Hvy & Hb).
    apply bind_Some in Hb as (vp & Hvp & Hb). apply bind_Some in Hb as (vt & Hvt & Hb).
    apply bind_Some in Hb as (start & Hstart & Hb).
    apply bind_Some in Hb as (m & Hm & Hb). injection Hb as <-.
    destruct (sweeping_write _ _ _ _ _ _ _ _ _ _ _ _ _ _ Hok Hs Hf0 Hset Hm)
      as (Hs' & k & Hk & Hk0 & -> & _).
    split; [exact Hs'|]. simpl.
    destruct (old_test_selected _ _ _ _ _ _ _ Hsel Hj Hib) as (f & Hf & Hstop).
    assert (f = f0) as -> by congruence.
    intros k' g Hg. destruct (decide (k' = k)) as [-> | Hne].
    - right. assert (g = f0) as -> by congruence. split; [|exact Hstop].
      apply list_lookup_insert_eq. destruct Hs as (Hoks & _).
      rewrite (ok_flag _ _ Hoks). by eapply resolve_lt.
    - rewrite list_lookup_insert_ne by done. by apply Hfl. }
  apply (marking_follows n (I_DEAD + I_OLD) (fun f => Z.land f I_STOP = 0) st st');
    [intros; by apply move_old | exact Hsw | exact Hflag | exact Hok].
Qed.

Lemma detrainer_body_follows n sl g irs off nlat nlon i s s' :
  (0 < off)%R ->
  detrainer_body IDX_ORGN sl g irs off nlat nlon i s = Some s' ->
  follows n s.1 s'.1.
Proof.
  destruct s as [st nh], s' as [st' nh']. intros Hoff H Hok. simpl in Hok |- *.
  pose proof (proj1 (detrainer_body_tame IDX_ORGN n _ _ _ _ _ _ _ _ _
                       (Rlt_le _ _ Hoff) H) Hok) as (Hok' & _).
  simpl in Hok'.
  destruct (detrainer_body_effect _ _ _ _ _ _ _ _ _ _ _ _ _ Hok H)
    as (ib & k & f & Hib & Hk & Hf & Heff).
  destruct (Z.land f I_DEAD =? 0) eqn:Hlive.
  2:{ destruct Heff as [-> ->]. by apply follows_refl. }
  apply land_eqb_live in Hlive.
  destruct Heff as (xig & yig & xfg & yfg & ll & h & _ & _ & _ & Heff).
  destruct (Rge_dec _ _) as [Hge | _].
  2:{ destruct Heff as [-> ->]. by apply follows_refl. }
  destruct Heff as (c & so & pl' & ps & Hc & Hso & Hpl & Hps & Heff).
  cbv zeta in Heff.
  set (e := exp (- 3600 * path_mean (udr g) h ll)) in *.
  assert (0 < e < 1)%R as He by (apply erosion_factor_strict; lra).
  set (st1 := set_chi (set_pl (set_source st so) pl') (<[k := (c * e)%R]> (chi st)))
    in *.
  assert (table_ok n st1) as Hok1.
  { destruct Hok as [? ? ? ?]. split; simpl; trivial. by rewrite length_insert. }
  assert (only_at k st st1) as Hother1.
  { intros k' Hne. unfold parcel_at; simpl. by rewrite list_lookup_insert_ne. }
  assert (chi st1 !! k = Some (c * e)%R) as Hc1.
  { simpl. apply list_lookup_insert_eq. by eapply lookup_lt_Some. }
  destruct (Z.ltb_spec 1 ps) as [Hgt | Hle].
  - destruct (ratchet_effect _ _ _ _ _ _ _ _ _ Hok1 Heff)
      as (k2 & ps2 & c2 & f2 & Hk2 & Hps2 & Hc2 & Hf2 & _ & Hchi & _ & _ & Hother
          & _ & Hp5 & Hfl & _).
    assert (k2 = k) as -> by congruence.
    assert (ps2 = ps) as -> by (simpl in Hps2; congruence).
    assert (c2 = (c * e)%R) as -> by congruence.
    assert (f2 = f) as -> by (simpl in Hf2; congruence).
    apply (only_at_follows n k); [exact Hok' | | | exact Hok].
    + intros k' Hne. by rewrite (Hother k' Hne), (Hother1 k' Hne).
    + intros [[f' c'] ps'] Hq. apply account_Some in Hq as (Hf' & Hc' & Hp').
      assert (f' = f) as -> by congruence. assert (c' = c) as -> by congruence.
      assert (ps' = ps) as -> by congruence.
      eexists. split; [|apply rtc_once, (move_erode f c ps e Hlive He)].
      apply account_Some. apply Z.ltb_lt in Hgt. rewrite Hgt. simpl andb.
      rewrite Hfl, Hchi, Hc1. split; [reflexivity|]. split; [reflexivity|].
      exact Hp5.
  - destruct Heff as [-> ->].
    apply (only_at_follows n k); [exact Hok1 | exact Hother1 | | exact Hok].
    intros [[f' c'] ps'] Hq. apply account_Some in Hq as (Hf' & Hc' & Hp').
    assert (f' = f) as -> by congruence. assert (c' = c) as -> by congruence.
    assert (ps' = ps) as -> by congruence.
    eexists. split; [|apply rtc_once, (move_erode f c ps e Hlive He)].
    apply account_Some. apply Z.ltb_ge in Hle. rewrite Hle. simpl andb.
    by rewrite Hc1.
Qed.

Lemma detrainer_follows n sl g irs off st st' nh :
  (0 < off)%R ->
  detrainer IDX_ORGN sl g irs off st = Some (st', nh) -> follows n st st'.
Proof.
  intros Hoff H. unfold detrainer in H. apply bind_Some in H as (row0 & _ & H).
  refine (for_each_rel (fun a b => follows n a.1 b.1) _ _ _ _ _ _ _ H).
  - intros s. apply follows_refl.
  - intros a b c. apply follows_trans.
  - intros i s s' _ Hb. by eapply detrainer_body_follows.
Qed.

Lemma step_follows n st st' : step IDX_ORGN p0 st st' -> follows n st st'.
Proof.
  intros [idx1 numpart_s idx_act s s' c H | itime x y p t idx rr s s' c H
         | itime x y p t idx s s' c H | sl g s s' nh H | pa s s' c H].
  - by eapply deadborne_follows.
  - apply (terminate_loop_follows _ n) in H; [exact H|].
    intros. pose proof (excode_range rr vx vy vp). lia.
  - apply (terminate_loop_follows _ n) in H; [exact H|]. intros. lia.
  - eapply detrainer_follows; [|exact H]. apply main_detr_offset_pos.
  - by eapply age_sweep_follows.
Qed.

Lemma run_follows n st st' : run IDX_ORGN p0 st st' -> follows n st st'.
Proof.
  induction 1 as [|a b c Hab _ IH]; [apply follows_refl|].
  eapply follows_trans; [by apply step_follows | exact IH].
Qed.

Lemma rtc_move_inv (P : Z * R * Z -> Prop) :
  (forall q q', P q -> move q q' -> P q') ->
  forall q q', rtc move q q' -> P q -> P q'.
Proof. intros Hstep q q' H. induction H; eauto. Qed.

(** A property of the accounts that the table at the start of the run has
    and that every turn keeps holds at every point of the run. *)
Lemma run_account_inv (P : Z * R * Z -> Prop) nan flag0 nlat nlon nreg st :
  (forall q q', P q -> move q q' -> P q') ->
  (forall f, f ∈ flag0 -> P (f, 1%R, 10)) ->
  run IDX_ORGN p0 (init nan flag0 nlat nlon nreg) st ->
  forall k q, account st k = Some q -> P q.
Proof.
  intros Hstep Hinit Hrun k [[f c] ps] Hq.
  pose proof (init_ok nan flag0 nlat nlon nreg) as Hok0.
  destruct (run_follows _ _ _ Hrun Hok0) as [Hok Hacc].
  apply account_Some in Hq as Hq'. destruct Hq' as (Hf & _ & _).
  apply lookup_lt_Some in Hf. rewrite (ok_flag _ _ Hok) in Hf.
  destruct (lookup_lt_is_Some_2 flag0 k Hf) as [f0 Hf0].
  assert (account (init nan flag0 nlat nlon nreg) k = Some (f0, 1%R, 10)) as H0.
  { apply account_Some; simpl. split; [exact Hf0|].
    split; by apply lookup_replicate_2. }
  destruct (Hacc k _ H0) as (q' & Hq' & Hmoves).
  assert (q' = (f, c, ps)) as -> by congruence.
  apply (rtc_move_inv P Hstep _ _ Hmoves). apply Hinit.
  by eapply list_elem_of_lookup_2.
Qed.
End Accounts.

(** ** Flag bits *)

Section Bits.
Import Parcels.

Lemma land_pow2 f b :
  0 <= b -> Z.land f (2 ^ b) = if Z.testbit f b then 2 ^ b else 0.
Proof.
  intros Hb. apply Z.bits_inj'. intros n Hn. rewrite Z.land_spec.
  destruct (Z.testbit f b) eqn:E.
  - rewrite Z.pow2_bits_eqb by done. destruct (Z.eqb_spec b n) as [<- | _].
    + by rewrite E.
    + apply andb_false_r.
  - rewrite Z.bits_0, Z.pow2_bits_eqb by done.
    destruct (Z.eqb_spec b n) as [<- | _]; [by rewrite E | apply andb_false_r].
Qed.

Lemma marked_bit f b : 0 <= b -> marked (2 ^ b) f <-> Z.testbit f b = true.
Proof.
  intros Hb. unfold marked. rewrite land_pow2 by done.
  pose proof (Z.pow_pos_nonneg 2 b). destruct (Z.testbit f b); split; try done; lia.
Qed.

Lemma dead_bit f : dead f <-> Z.testbit f 21 = true.
Proof. exact (marked_bit f 21 ltac:(lia)). Qed.

Lemma hit_bit f : marked I_HIT f <-> Z.testbit f 22 = true.
Proof. exact (marked_bit f 22 ltac:(lia)). Qed.

Lemma old_bit f : marked I_OLD f <-> Z.testbit f 23 = true.
Proof. exact (marked_bit f 23 ltac:(lia)). Qed.

Lemma dborne_bit f : marked I_DBORNE f <-> Z.testbit f 24 = true.
Proof. exact (marked_bit f 24 ltac:(lia)). Qed.

Lemma crossed_bit f : marked I_CROSSED f <-> Z.testbit f 25 = true.
Proof. exact (marked_bit f 25 ltac:(lia)). Qed.

Lemma land_zero_bit f m b :
  Z.land f m = 0 -> Z.testbit m b = true -> Z.testbit f b = false.
Proof.
  intros H Hm. pose proof (Z.land_spec f m b) as E.
  rewrite H, Z.bits_0, Hm, andb_true_r in E. by symmetry.
Qed.

Lemma exit_code_lor a b : exit_code (Z.lor a b) = Z.lor (exit_code a) (exit_code b).
Proof. unfold exit_code. by rewrite Z.shiftr_lor, Z.land_lor_distr_l. Qed.

(** A flag with none of the reason-code bits set has reason code 0. *)
Lemma exit_code_clean f : Z.land f (Z.shiftl 15 13) = 0 -> exit_code f = 0.
Proof.
  intros H. unfold exit_code. apply Z.bits_inj'. intros n Hn.
  rewrite Z.land_spec, Z.shiftr_spec, Z.bits_0 by done.
  change 15 with (Z.ones 4). rewrite Z.testbit_ones_nonneg by lia.
  destruct (Z.ltb_spec n 4) as [Hlt | _]; [|apply andb_false_r].
  rewrite andb_true_r. apply (land_zero_bit _ _ _ H).
  assert (n = 0 \/ n = 1 \/ n = 2 \/ n = 3) as [-> | [-> | [-> | ->]]] by lia;
    reflexivity.
Qed.

Lemma land_sub f m m' : Z.land f m = 0 -> Z.land m' m = m' -> Z.land f m' = 0.
Proof. intros H <-. by rewrite (Z.land_comm m' m), Z.land_assoc, H. Qed.

(** The mark of an exit with reason [code]. *)
Lemma exit_mark code :
  1 <= code <= 8 ->
  let b := Z.shiftl code 13 + I_DEAD + I_CROSSED in
  Z.testbit b 21 = true /\ Z.testbit b 22 = false /\ Z.testbit b 23 = false
  /\ Z.testbit b 24 = false /\ Z.testbit b 25 = true /\ exit_code b = code.
Proof.
  intros H.
  assert (code = 1 \/ code = 2 \/ code = 3 \/ code = 4 \/ code = 5 \/ code = 6
          \/ code = 7 \/ code = 8)
    as [-> | [-> | [-> | [-> | [-> | [-> | [-> | ->]]]]]]] by lia;
    by vm_compute.
Qed.
End Bits.

Section Invariants.
Import Parcels.

Lemma account_exists n st k c ps :
  table_ok n st -> chi st !! k = Some c -> passed st !! k = Some ps ->
  exists f, account st k = Some (f, c, ps).
Proof.
  intros Hok Hc Hp. apply lookup_lt_Some in Hc as Hlt. rewrite (ok_chi _ _ Hok) in Hlt.
  rewrite <- (ok_flag _ _ Hok) in Hlt.
  destruct (lookup_lt_is_Some_2 _ _ Hlt) as [f Hf]. exists f. by apply account_Some.
Qed.

Lemma account_flag n st k f :
  table_ok n st -> flag_source st !! k = Some f ->
  exists c ps, account st k = Some (f, c, ps).
Proof.
  intros Hok Hf. apply lookup_lt_Some in Hf as Hlt. rewrite (ok_flag _ _ Hok) in Hlt.
  destruct (lookup_lt_is_Some_2 (chi st) k) as [c Hc]; [by rewrite (ok_chi _ _ Hok)|].
  destruct (lookup_lt_is_Some_2 (passed st) k) as [ps Hp];
    [by rewrite (ok_passed _ _ Hok)|].
  exists c, ps. by apply account_Some.
Qed.

Lemma band_value ps c : chi_band ps c -> ratchet_value ps.
Proof. unfold chi_band, ratchet_value. tauto. Qed.

(** Eroding the survival fraction and letting the ratchet follow keeps
    the ratchet in step with the fraction. *)
Lemma erode_band ps c e :
  (0 < c)%R -> chi_band ps c -> (0 < e < 1)%R ->
  (0 < c * e)%R /\ chi_band (if 1 <? ps then cascade (c * e) ps else ps) (c * e).
Proof.
  intros Hc Hband He.
  assert (0 < c * e < c)%R as Hce by nra.
  split; [lra|].
  destruct (Z.ltb_spec 1 ps) as [Hgt | Hle].
  - pose proof (cascade_facts ps (c * e)%R (band_value _ _ Hband)) as Hf.
    cbv zeta in Hf. fold (cascade (c * e) ps) in Hf.
    destruct Hf as (Hv & Hle & _ & _ & _ & _ & _ & Hup & Hlow).
    remember (cascade (c * e) ps) as p5 eqn:E. clear E.
    assert (p5 < ps -> (c * e < IZR p5 / 10)%R) as Hup' by exact Hup.
    assert (p5 = ps -> ps < 10 -> (c * e < IZR p5 / 10)%R) as Hsame.
    { intros -> Hlt. unfold chi_band in Hband.
      destruct Hband as [[-> ?] | [[-> ?] | [[-> ?] | [[-> ?] | [[-> ?] | [-> ?]]]]]];
        try lia; simpl; lra. }
    assert (p5 < 10 -> (c * e < IZR p5 / 10)%R) as Hupper.
    { intros Hlt. destruct (decide (p5 = ps)) as [Heq | Hne].
      - apply Hsame; [exact Heq | lia].
      - apply Hup'. lia. }
    unfold chi_band.
    destruct Hv as [-> | [-> | [-> | [-> | [-> | ->]]]]].
    + left. split; [reflexivity|]. specialize (Hlow ltac:(lia)). simpl in Hlow.
      rewrite minus_IZR in Hlow. lra.
    + right; left. split; [reflexivity|].
      specialize (Hlow ltac:(lia)). specialize (Hupper ltac:(lia)).
      simpl in Hlow, Hupper. rewrite minus_IZR in Hlow. lra.
    + do 2 right; left. split; [reflexivity|].
      specialize (Hlow ltac:(lia)). specialize (Hupper ltac:(lia)).
      simpl in Hlow, Hupper. rewrite minus_IZR in Hlow. lra.
    + do 3 right; left. split; [reflexivity|].
      specialize (Hlow ltac:(lia)). specialize (Hupper ltac:(lia)).
      simpl in Hlow, Hupper. rewrite minus_IZR in Hlow. lra.
    + do 4 right; left. split; [reflexivity|].
      specialize (Hlow ltac:(lia)). specialize (Hupper ltac:(lia)).
      simpl in Hlow, Hupper. rewrite minus_IZR in Hlow. lra.
    + do 5 right. split; [reflexivity|]. specialize (Hupper ltac:(lia)).
      simpl in Hupper. lra.
  - unfold chi_band in *.
    destruct Hband as [[-> ?] | [[-> ?] | [[-> ?] | [[-> ?] | [[-> ?] | [-> ?]]]]]];
      try lia.
    do 5 right. split; [reflexivity | lra].
Qed.

Lemma move_band q q' :
  (0 < q.1.2)%R /\ chi_band q.2 q.1.2 -> move q q' ->
  (0 < q'.1.2)%R /\ chi_band q'.2 q'.1.2.
Proof.
  intros [Hc Hb] Hm. destruct Hm as [f c ps code _ _ | f c ps _ | f c ps | f c ps e _ He];
    simpl in *; try (by split).
  by apply erode_band.
Qed.
End Invariants.

Section FlagInvariants.
Import Parcels.

Lemma move_hit q q' :
  ratchet_value q.2 /\ (Z.testbit q.1.1 22 = true <-> q.2 < 10) -> move q q' ->
  ratchet_value q'.2 /\ (Z.testbit q'.1.1 22 = true <-> q'.2 < 10).
Proof.
  intros [Hv Hh] Hm.
  destruct Hm as [f c ps code _ Hcode | f c ps _ | f c ps | f c ps e _ He];
    cbn [fst snd] in *.
  - split; [exact Hv|]. rewrite Z.lor_spec.
    destruct (exit_mark code Hcode) as (_ & -> & _). by rewrite orb_false_r.
  - split; [exact Hv|]. rewrite Z.lor_spec.
    change (Z.testbit (I_DEAD + I_OLD) 22) with false. by rewrite orb_false_r.
  - split; [exact Hv|]. rewrite Z.lor_spec.
    change (Z.testbit (I_DEAD + I_DBORNE) 22) with false. by rewrite orb_false_r.
  - pose proof (cascade_facts ps (c * e)%R Hv) as Hf.
    cbv zeta in Hf. fold (cascade (c * e) ps) in Hf.
    destruct Hf as (Hv' & Hle & Hfire & _).
    destruct (Z.ltb_spec 1 ps) as [Hgt | Hle1]; simpl andb; [|by split].
    split; [exact Hv'|]. destruct (fires 10 (9 / 10) ps (c * e)) eqn:E.
    + rewrite Z.lor_spec. change (Z.testbit I_HIT 22) with true.
      rewrite orb_true_r. destruct (proj1 Hfire eq_refl). split; [lia | done].
    + assert (~ (10 <= ps /\ cascade (c * e) ps <= 9)) as Hno
        by (rewrite <- Hfire; congruence).
      rewrite Hh. unfold ratchet_value in Hv, Hv'. lia.
Qed.

Lemma well_marked_bits f :
  well_marked f <->
  (Z.testbit f 25 = true \/ Z.testbit f 23 = true \/ Z.testbit f 24 = true ->
     Z.testbit f 21 = true)
  /\ ~ (Z.testbit f 25 = true /\ Z.testbit f 23 = true)
  /\ (Z.testbit f 23 = true -> ~ Z.testbit f 22 = true)
  /\ (Z.testbit f 25 = true -> 1 <= exit_code f <= 8)
  /\ (~ Z.testbit f 25 = true -> exit_code f = 0).
Proof.
  unfold well_marked.
  by rewrite crossed_bit, old_bit, dborne_bit, hit_bit, dead_bit.
Qed.

Lemma clean_well_marked f : Z.land f mark_bits = 0 -> well_marked f.
Proof.
  intros H. apply well_marked_bits.
  rewrite (land_zero_bit f mark_bits 25 H eq_refl).
  rewrite (land_zero_bit f mark_bits 23 H eq_refl).
  rewrite (land_zero_bit f mark_bits 24 H eq_refl).
  repeat split; try (intros; intuition discriminate).
  intros _. apply exit_code_clean. by apply (land_sub f mark_bits).
Qed.

Lemma move_marks q q' :
  well_marked q.1.1 -> move q q' -> well_marked q'.1.1.
Proof.
  rewrite !well_marked_bits. intros (Ha & Hb & Hc & Hd & He) Hm.
  destruct Hm as [f c ps code Hlive Hcode | f c ps Hstop | f c ps | f c ps e Hlive _];
    cbn [fst snd] in *.
  - apply (not_iff_compat (dead_bit f)) in Hlive.
    destruct (exit_mark code Hcode) as (H21 & H22 & H23 & H24 & H25 & Hx).
    rewrite !Z.lor_spec, exit_code_lor, H21, H22, H23, H24, H25, Hx.
    destruct (Z.testbit f 21); [done|].
    destruct (Z.testbit f 23); [exfalso; auto|].
    destruct (Z.testbit f 25); [exfalso; auto|].
    rewrite He by done. rewrite Z.lor_0_l.
    repeat split; try done; try lia; try (by intros [? ?]).
  - assert (Z.testbit f 21 = false) as H21 by exact (land_zero_bit f I_STOP 21 Hstop eq_refl).
    assert (Z.testbit f 22 = false) as H22 by exact (land_zero_bit f I_STOP 22 Hstop eq_refl).
    rewrite !Z.lor_spec, exit_code_lor, H21, H22 in *.
    change (Z.testbit (I_DEAD + I_OLD) 21) with true.
    change (Z.testbit (I_DEAD + I_OLD) 22) with false.
    change (Z.testbit (I_DEAD + I_OLD) 23) with true.
    change (Z.testbit (I_DEAD + I_OLD) 24) with false.
    change (Z.testbit (I_DEAD + I_OLD) 25) with false.
    change (exit_code (I_DEAD + I_OLD)) with 0. rewrite Z.lor_0_r.
    destruct (Z.testbit f 25); [exfalso; auto; discriminate (Ha (or_introl eq_refl))|].
    repeat split; try done; try (by intros [? ?]).
  - rewrite !Z.lor_spec, exit_code_lor.
    change (Z.testbit (I_DEAD + I_DBORNE) 21) with true.
    change (Z.testbit (I_DEAD + I_DBORNE) 22) with false.
    change (Z.testbit (I_DEAD + I_DBORNE) 23) with false.
    change (Z.testbit (I_DEAD + I_DBORNE) 24) with true.
    change (Z.testbit (I_DEAD + I_DBORNE) 25) with false.
    change (exit_code (I_DEAD + I_DBORNE)) with 0.
    rewrite Z.lor_0_r, !orb_false_r, !orb_true_r. tauto.
  - apply (not_iff_compat (dead_bit f)) in Hlive.
    destruct ((1 <? ps) && fires 10 (9 / 10) ps (c * e)); [|tauto].
    rewrite !Z.lor_spec, exit_code_lor.
    change (Z.testbit I_HIT 21) with false. change (Z.testbit I_HIT 22) with true.
    change (Z.testbit I_HIT 23) with false. change (Z.testbit I_HIT 24) with false.
    change (Z.testbit I_HIT 25) with false. change (exit_code I_HIT) with 0.
    rewrite Z.lor_0_r, !orb_false_r, !orb_true_r.
    assert (Z.testbit f 23 <> true) by tauto. tauto.
Qed.
End FlagInvariants.

Section ScenarioRuns.
Import Parcels Scenario.

Lemma exp_3600 : (1 * exp (- 3600 * 1) < 1 / 10)%R.
Proof.
  replace (- 3600 * 1)%R with (Ropp 3600) by lra. rewrite exp_Ropp, Rmult_1_l.
  pose proof (exp_ineq1 3600 ltac:(lra)) as H.
  apply Rlt_trans with (/ 3601)%R; [|lra].
  apply Rinv_lt_contravar; [|lra]. apply Rmult_lt_0_compat; lra.
Qed.

Lemma cascade_bottom c :
  (c < 1 / 10)%R -> cascade c 10 = 1 /\ fires 10 (9 / 10) 10 c = true.
Proof.
  intros Hc. unfold cascade, stage, fires.
  destruct (Rlt_dec c (9 / 10)); [|lra]. simpl.
  destruct (Rlt_dec c (7 / 10)); [|lra]. simpl.
  destruct (Rlt_dec c (5 / 10)); [|lra]. simpl.
  destruct (Rlt_dec c (3 / 10)); [|lra]. simpl.
  destruct (Rlt_dec c (1 / 10)); [|lra]. by simpl.
Qed.

(** One call of the detrainer on the scenario: the first parcel is eroded
    below every threshold. *)
Lemma scenario_hit_run :
  exists st,
    run 0 launch0 table0 st
    /\ account st 0 = Some (I_HIT, (1 * exp (- 3600 * 1))%R, 1).
Proof.
  destruct (detrainer_body_total 0 2 1 1 1 slice0 grid0 (ir_start launch0)
              main_detr_offset 0%nat table0 nhits0 0 0%nat 0 0 0 0 [(0, 0)] 0
              20000%R 250%R 0 scenario_table_ok scenario_deposit_ok eq_refl
              eq_refl eq_refl scenario_cells scenario_line eq_refl eq_refl eq_refl
              eq_refl) as ([st' nh'] & Hbody).
  exists st'. split.
  { apply rtc_once. apply (step_detrainer 0 launch0 slice0 grid0 table0 st' nh').
    unfold detrainer, for_range.
    change (source table0 !! 0%nat) with (Some [0%R]).
    change (seq 0 (length (sl_xi slice0))) with [0%nat].
    apply bind_Some. exists [0%R]. split; [reflexivity|].
    apply bind_Some. exists (st', nh'). split; [exact Hbody | reflexivity]. }
  destruct (detrainer_body_effect _ _ _ _ _ _ _ _ _ _ _ _ _ scenario_table_ok Hbody)
    as (ib & k & f & Hib & Hk & Hf & Heff).
  injection Hib as <-. injection Hk as <-. injection Hf as <-.
  change (Z.land 0 I_DEAD =? 0) with true in Heff.
  destruct Heff as (xig & yig & xfg & yfg & ll & h & Hcells & Hline & Hh & Heff).
  rewrite scenario_cells in Hcells. injection Hcells as <- <- <- <-.
  rewrite scenario_line in Hline. injection Hline as <-. injection Hh as <-.
  rewrite scenario_detr in Heff.
  destruct (Rge_dec 1 main_detr_offset) as [_ | Hn];
    [|destruct Hn; apply scenario_offset].
  destruct Heff as (c & so & pl' & ps & Hc & Hso & Hpl & Hps & Heff).
  injection Hc as <-. injection Hps as <-.
  change (1 <? 10) with true in Heff. cbv beta iota zeta in Heff.
  match type of Heff with ratchet _ _ _ _ (?s, _) = _ => set (st1 := s) in * end.
  assert (table_ok 2 st1) as Hok1.
  { split; [reflexivity | reflexivity | reflexivity | apply scenario_table_ok]. }
  destruct (ratchet_effect _ _ _ _ _ _ _ _ _ Hok1 Heff)
    as (k2 & ps2 & c2 & f2 & Hk2 & Hps2 & Hc2 & Hf2 & _ & Hchi & _ & _ & _
        & _ & Hp5 & Hfl & _).
  injection Hk2 as <-. injection Hps2 as <-. injection Hc2 as <-.
  injection Hf2 as <-.
  destruct (cascade_bottom _ exp_3600) as [Hcas Hfire].
  change (Z.to_nat (0 - 0)) with 0%nat in *.
  apply account_Some. rewrite Hfl, Hchi, Hp5. fold (cascade (1 * exp (- 3600 * 1)) 10).
  by rewrite Hfire, Hcas.
Qed.

(** One call of the exit handler on the scenario: the first parcel has
    left through the southern edge of the box. *)
Lemma scenario_exit_run :
  exists st,
    run 0 launch0 table0 st
    /\ flag_source st !! 0%nat
       = Some (Z.lor 0 (Z.shiftl 6 13 + I_DEAD + I_CROSSED)).
Proof.
  set (rr := Box (-10) 160 0 50).
  destruct (terminate_body_total 0 (excode rr) 2 (-4000000) [1]%R [2]%R [20000]%R
              [250]%R [0] [0; 0] 0%nat table0 0 0 0%nat 1%R 2%R 20000%R 250%R
              scenario_table_ok eq_refl eq_refl eq_refl eq_refl eq_refl eq_refl
              eq_refl) as ([st' c'] & Hbody).
  exists st'. split.
  { apply rtc_once.
    apply (step_exiter 0 launch0 (-4000000) [1]%R [2]%R [20000]%R [250]%R [0] rr
             table0 st' c').
    unfold exiter, for_range, exiter_body.
    change (seq 0 (length [1%R])) with [0%nat].
    apply bind_Some. exists (st', c'). split; [exact Hbody | reflexivity]. }
  destruct (terminate_body_effect _ _ _ _ _ _ _ _ _ _ _ _ _ _ _ scenario_table_ok Hbody)
    as [[-> ->] | (ib & k & f & xi & yi & pi & ti & start & m & Hib & Hk & Hf
                   & Hlive & Hx & Hy & Hp & Ht & _ & _ & _ & _ & _ & -> & _)].
  - exfalso. unfold terminate_body in Hbody. simpl in Hbody. discriminate.
  - injection Hib as <-. injection Hk as <-. injection Hf as <-.
    injection Hx as <-. injection Hy as <-. injection Hp as <-.
    simpl. f_equal. f_equal. unfold excode, rr; simpl.
    destruct (Rlt_dec 2 (0 + 4)); [reflexivity | lra].
Qed.
End ScenarioRuns.

(** X1: At every point of the run the ratchet of a parcel is in step with
    its survival fraction: it is 10 while the fraction is at least 0.9, 9
    from 0.9 down to 0.7, 7 down to 0.5, 5 down to 0.3, 3 down to 0.1,
    and 1 below 0.1. *)
Theorem ratchet_tracks_chi IDX_ORGN p0 nan flag0 nlat nlon nreg st k c ps :
  Parcels.run IDX_ORGN p0 (Parcels.init nan flag0 nlat nlon nreg) st ->
  Parcels.chi st !! k = Some c -> Parcels.passed st !! k = Some ps ->
  (ps = 10 /\ (9 / 10 <= c)%R) \/ (ps = 9 /\ (7 / 10 <= c < 9 / 10)%R)
  \/ (ps = 7 /\ (5 / 10 <= c < 7 / 10)%R) \/ (ps = 5 /\ (3 / 10 <= c < 5 / 10)%R)
  \/ (ps = 3 /\ (1 / 10 <= c < 3 / 10)%R) \/ (ps = 1 /\ (c < 1 / 10)%R).
Proof.
  intros Hrun Hc Hp.
  pose proof (init_ok nan flag0 nlat nlon nreg) as Hok0.
  destruct (run_tame IDX_ORGN p0 _ _ _ Hrun Hok0) as (Hok & _).
  destruct (account_exists _ _ _ _ _ Hok Hc Hp) as [f Hq].
  apply (run_account_inv IDX_ORGN p0
           (fun q => (0 < q.1.2)%R /\ Parcels.chi_band q.2 q.1.2)
           nan flag0 nlat nlon nreg st move_band) in Hq; [exact (proj2 Hq) | | exact Hrun].
  intros f0 _. simpl. split; [lra|]. left. split; [reflexivity | lra].
Qed.

Lemma ratchet_tracks_chi_witness :
  exists st c,
    Parcels.run 0 Scenario.launch0 Scenario.table0 st
    /\ Parcels.chi st !! 0%nat = Some c /\ Parcels.passed st !! 0%nat = Some 1
    /\ (c < 1 / 10)%R.
Proof.
  destruct scenario_hit_run as (st & Hrun & Hq).
  apply account_Some in Hq as (_ & Hc & Hp).
  exists st, (1 * exp (- 3600 * 1))%R.
  split; [exact Hrun|]. split; [exact Hc|]. split; [exact Hp|].
  destruct (ratchet_tracks_chi 0 Scenario.launch0 0 Scenario.flag0 1 1 0 st 0%nat
              _ 1 Hrun Hc Hp)
    as [[E _] | [[E _] | [[E _] | [[E _] | [[E _] | [_ H]]]]]];
    try discriminate E. exact H.
Defined.

(** X2: At every point of a run that starts with no HIT bit set, the HIT bit
    of a parcel is set exactly when its ratchet has left 10. *)
Theorem hit_iff_ratchet IDX_ORGN p0 nan flag0 nlat nlon nreg st k f ps :
  Forall (fun f0 => ~ Parcels.marked Parcels.I_HIT f0) flag0 ->
  Parcels.run IDX_ORGN p0 (Parcels.init nan flag0 nlat nlon nreg) st ->
  Parcels.flag_source st !! k = Some f -> Parcels.passed st !! k = Some ps ->
  Parcels.marked Parcels.I_HIT f <-> ps < 10.
Proof.
  intros Hclean Hrun Hf Hp.
  pose proof (init_ok nan flag0 nlat nlon nreg) as Hok0.
  destruct (run_tame IDX_ORGN p0 _ _ _ Hrun Hok0) as (Hok & _).
  destruct (account_flag _ _ _ _ Hok Hf) as (c & ps' & Hq).
  apply account_Some in Hq as Hq'. destruct Hq' as (_ & _ & Hp').
  assert (ps' = ps) as -> by congruence.
  apply (run_account_inv IDX_ORGN p0
           (fun q => Parcels.ratchet_value q.2
                     /\ (Z.testbit q.1.1 22 = true <-> q.2 < 10))
           nan flag0 nlat nlon nreg st move_hit) in Hq; [| | exact Hrun].
  - rewrite hit_bit. exact (proj2 Hq).
  - intros f0 Hf0. simpl. split; [by left|].
    rewrite Forall_forall in Hclean. specialize (Hclean f0 Hf0).
    rewrite hit_bit in Hclean. split; [done | lia].
Qed.

Lemma hit_iff_ratchet_witness :
  exists st,
    Parcels.run 0 Scenario.launch0 Scenario.table0 st
    /\ Parcels.passed st !! 0%nat = Some 1
    /\ Parcels.flag_source st !! 0%nat = Some Parcels.I_HIT
    /\ (Parcels.marked Parcels.I_HIT Parcels.I_HIT <-> 1 < 10).
Proof.
  destruct scenario_hit_run as (st & Hrun & Hq).
  apply account_Some in Hq as (Hf & _ & Hp).
  exists st. split; [exact Hrun|]. split; [exact Hp|]. split; [exact Hf|].
  apply (hit_iff_ratchet 0 Scenario.launch0 0 Scenario.flag0 1 1 0 st 0%nat
           Parcels.I_HIT 1); trivial.
  repeat constructor; by vm_compute.
Defined.

(** X3: At every point of a run that starts with none of the marks CROSSED,
    OLD, DBORNE and no reason code set: a parcel marked CROSSED, OLD or
    DBORNE is DEAD; no parcel is both CROSSED and OLD; an OLD parcel has no
    HIT; the reason code [(flag >> 13) & 15] of a CROSSED parcel is between
    1 and 8, that of any other parcel is 0. *)
Theorem termination_marks IDX_ORGN p0 nan flag0 nlat nlon nreg st k f :
  Forall (fun f0 => Z.land f0 Parcels.mark_bits = 0) flag0 ->
  Parcels.run IDX_ORGN p0 (Parcels.init nan flag0 nlat nlon nreg) st ->
  Parcels.flag_source st !! k = Some f ->
  (Parcels.marked Parcels.I_CROSSED f \/ Parcels.marked Parcels.I_OLD f
   \/ Parcels.marked Parcels.I_DBORNE f -> Parcels.dead f)
  /\ ~ (Parcels.marked Parcels.I_CROSSED f /\ Parcels.marked Parcels.I_OLD f)
  /\ (Parcels.marked Parcels.I_OLD f -> ~ Parcels.marked Parcels.I_HIT f)
  /\ (Parcels.marked Parcels.I_CROSSED f -> 1 <= Parcels.exit_code f <= 8)
  /\ (~ Parcels.marked Parcels.I_CROSSED f -> Parcels.exit_code f = 0).
Proof.
  intros Hclean Hrun Hf.
  pose proof (init_ok nan flag0 nlat nlon nreg) as Hok0.
  destruct (run_tame IDX_ORGN p0 _ _ _ Hrun Hok0) as (Hok & _).
  destruct (account_flag _ _ _ _ Hok Hf) as (c & ps & Hq).
  apply (run_account_inv IDX_ORGN p0 (fun q => Parcels.well_marked q.1.1)
           nan flag0 nlat nlon nreg st move_marks) in Hq; [exact Hq | | exact Hrun].
  intros f0 Hf0. simpl. apply clean_well_marked.
  rewrite Forall_forall in Hclean. by apply Hclean.
Qed.

Lemma termination_marks_witness :
  exists st f,
    Parcels.run 0 Scenario.launch0 Scenario.table0 st
    /\ Parcels.flag_source st !! 0%nat = Some f
    /\ Parcels.marked Parcels.I_CROSSED f /\ Parcels.dead f
    /\ 1 <= Parcels.exit_code f <= 8.
Proof.
  destruct scenario_exit_run as (st & Hrun & Hf).
  exists st, (Z.lor 0 (Z.shiftl 6 13 + Parcels.I_DEAD + Parcels.I_CROSSED)).
  split; [exact Hrun|]. split; [exact Hf|].
  assert (Parcels.marked Parcels.I_CROSSED
            (Z.lor 0 (Z.shiftl 6 13 + Parcels.I_DEAD + Parcels.I_CROSSED))) as Hc
    by (by vm_compute).
  split; [exact Hc|].
  destruct (termination_marks 0 Scenario.launch0 0 Scenario.flag0 1 1 0 st 0%nat _
              ltac:(repeat constructor) Hrun Hf) as (Hdead & _ & _ & Hcode & _).
  split; [apply Hdead; by left | by apply Hcode].
Defined.

(** ** The cells of a rasterized path *)

Section WalkCells.
Import Rasterizer.
Variables x1 y1 dx dy sx sy : Z.
Hypothesis Hsx : sx = 1 \/ sx = -1.
Hypothesis Hsy : sy = 1 \/ sy = -1.
Hypothesis Hdy : 0 <= dy <= dx.
Hypothesis Hdx : 0 < dx <= 2 ^ 61.
Hypothesis Hx1 : in_int64 x1.
Hypothesis Hy1 : in_int64 y1.

(** Cell [i] of the walk is [i] steps along the major axis; with [r']
    steps left on the minor axis, [2 dx r'] differs from [2 dy] times the
    steps left on the major axis by at most [dx]. *)
Lemma walk_x_cells (n : nat) : forall (rows : nat) x y err r l,
  x1 = x + sx * Z.of_nat n -> y1 = y + sy * r -> 0 <= r ->
  err = dx + 2 * dy * Z.of_nat n - 2 * dx * r -> 0 <= err < 2 * dx ->
  in_int64 x -> in_int64 y ->
  walk_x rows x1 y1 (2 * dx) (2 * dy) sx sy x y err = Some l ->
  forall (i : nat) u v, l !! i = Some (u, v) ->
    u = x + sx * Z.of_nat i /\ (i <= n)%nat
    /\ exists r', v = y1 - sy * r' /\ 0 <= r' <= r
         /\ - dx < 2 * dx * r' - 2 * dy * (Z.of_nat n - Z.of_nat i) <= dx.
Proof using Hsx Hsy Hdy Hdx Hx1 Hy1.
  unfold in_int64 in *.
  induction n as [|n IH]; intros rows x y err r l Hx Hy Hr Herr Hrange Hxr Hyr Hl i u v Hi;
    (destruct rows as [|rows]; [discriminate|]); simpl in Hl.
  - assert (r = 0) by nia. subst r.
    assert (x = x1) as -> by lia. assert (y = y1) as -> by lia.
    rewrite Z.eqb_refl in Hl. injection Hl as <-.
    destruct i as [|i]; [|discriminate]. injection Hi as <- <-.
    split; [lia|]. split; [lia|]. exists 0. lia.
  - assert (x <> x1) by (destruct Hsx as [-> | ->]; lia).
    destruct (Z.eqb_spec x x1) as [|_]; [contradiction|].
    rewrite (wrap64_small (err - 2 * dy)) in Hl by (unfold in_int64; lia).
    rewrite (wrap64_small (x + sx)) in Hl
      by (unfold in_int64; destruct Hsx as [-> | ->]; lia).
    destruct (Z.ltb_spec (err - 2 * dy) 0) as [Hneg | Hpos].
    + assert (1 <= r) by nia.
      rewrite (wrap64_small (y + sy)) in Hl
        by (unfold in_int64; destruct Hsy as [-> | ->]; lia).
      rewrite (wrap64_small (err - 2 * dy + 2 * dx)) in Hl by (unfold in_int64; lia).
      destruct (walk_x rows _ _ _ _ _ _ _ _ _) as [l'|] eqn:Hl'; [|discriminate].
      injection Hl as <-. destruct i as [|i].
      * injection Hi as <- <-. split; [lia|]. split; [lia|]. exists r. nia.
      * destruct (IH rows (x + sx) (y + sy) (err - 2 * dy + 2 * dx) (r - 1) l')
          with (i := i) (u := u) (v := v) as (Hu & Hin & r' & Hv & Hr' & Hacc);
          [ destruct Hsx as [-> | ->]; lia | destruct Hsy as [-> | ->]; lia
          | lia | nia | lia | destruct Hsx as [-> | ->]; lia
          | destruct Hsy as [-> | ->]; lia | exact Hl' | exact Hi | ].
        split; [lia|]. split; [lia|]. exists r'. split; [exact Hv|]. lia.
    + destruct (walk_x rows _ _ _ _ _ _ _ _ _) as [l'|] eqn:Hl'; [|discriminate].
      injection Hl as <-. destruct i as [|i].
      * injection Hi as <- <-. split; [lia|]. split; [lia|]. exists r. nia.
      * destruct (IH rows (x + sx) y (err - 2 * dy) r l')
          with (i := i) (u := u) (v := v) as (Hu & Hin & r' & Hv & Hr' & Hacc);
          [ destruct Hsx as [-> | ->]; lia | lia | lia | nia | lia
          | destruct Hsx as [-> | ->]; lia | lia | exact Hl' | exact Hi | ].
        split; [lia|]. split; [lia|]. exists r'. split; [exact Hv|]. lia.
Qed.
End WalkCells.

Section LineCells.
Import Rasterizer RasterizerFacts.

(** Where cell [i] of a path lies, counted in steps left to the end point
    along each axis. *)
Lemma line_cells x0 y0 x1 y1 l (i : nat) u v :
  in_int64 x0 -> in_int64 y0 -> in_int64 x1 -> in_int64 y1 ->
  separation x0 y0 x1 y1 <= 39 ->
  line x0 y0 x1 y1 = Some l -> l !! i = Some (u, v) ->
  let dx := Z.abs (x1 - x0) in
  let dy := Z.abs (y1 - y0) in
  let sx := if x0 <? x1 then 1 else -1 in
  let sy := if y0 <? y1 then 1 else -1 in
  exists a b,
    u = x1 - sx * a /\ v = y1 - sy * b /\ 0 <= a <= dx /\ 0 <= b <= dy
    /\ (dy < dx -> a = dx - Z.of_nat i) /\ (dx <= dy -> b = dy - Z.of_nat i)
    /\ Z.abs (2 * (dx * b - dy * a)) <= Z.max dx dy.
Proof.
  intros Hx0 Hy0 Hx1 Hy1 Hsep Hl Hi. cbv zeta.
  destruct ((x0 =? x1) && (y0 =? y1)) eqn:Heq.
  { unfold line in Hl. rewrite Heq in Hl. injection Hl as <-.
    apply andb_true_iff in Heq as [Hx Hy]. apply Z.eqb_eq in Hx, Hy. subst x1 y1.
    destruct i as [|i]; [|discriminate]. injection Hi as <- <-.
    exists 0, 0. rewrite !Z.sub_diag. simpl. lia. }
  rewrite line_far in Hl by (trivial; lia). unfold separation in Hsep.
  assert ((if x0 <? x1 then 1 else -1) = 1 \/ (if x0 <? x1 then 1 else -1) = -1) as Hsx
    by (destruct (x0 <? x1); tauto).
  assert ((if y0 <? y1 then 1 else -1) = 1 \/ (if y0 <? y1 then 1 else -1) = -1) as Hsy
    by (destruct (y0 <? y1); tauto).
  assert (x1 = x0 + (if x0 <? x1 then 1 else -1) * Z.of_nat (Z.to_nat (Z.abs (x1 - x0)))) as Hxs
    by (destruct (Z.ltb_spec x0 x1); lia).
  assert (y1 = y0 + (if y0 <? y1 then 1 else -1) * Z.of_nat (Z.to_nat (Z.abs (y1 - y0)))) as Hys
    by (destruct (Z.ltb_spec y0 y1); lia).
  assert (x1 = x0 + (if x0 <? x1 then 1 else -1) * Z.abs (x1 - x0)) as Hxa
    by (destruct (Z.ltb_spec x0 x1); lia).
  assert (y1 = y0 + (if y0 <? y1 then 1 else -1) * Z.abs (y1 - y0)) as Hya
    by (destruct (Z.ltb_spec y0 y1); lia).
  set (sx := if x0 <? x1 then 1 else -1) in *.
  set (sy := if y0 <? y1 then 1 else -1) in *.
  set (dx := Z.abs (x1 - x0)) in *. set (dy := Z.abs (y1 - y0)) in *.
  destruct (Z.ltb_spec dy dx) as [Hlt | Hge].
  - destruct (walk_x_cells x1 y1 dx dy sx sy Hsx Hsy ltac:(lia) ltac:(lia) Hx1 Hy1
                (Z.to_nat dx) buffer_rows x0 y0 dx dy l
                Hxs Hya ltac:(lia) ltac:(lia) ltac:(lia) Hx0 Hy0 Hl i u v Hi)
      as (Hu & Hin & r' & Hv & Hr' & Hacc).
    exists (dx - Z.of_nat i), r'.
    split; [destruct Hsx as [E | E]; rewrite E in *; lia|].
    split; [exact Hv|]. split; [lia|]. split; [lia|].
    split; [done|]. split; [lia|]. lia.
  - rewrite walk_y_swap in Hl.
    destruct (walk_x buffer_rows _ _ _ _ _ _ _ _ _) as [l'|] eqn:Hl'; [|discriminate].
    injection Hl as <-. rewrite list_lookup_fmap in Hi.
    destruct (l' !! i) as [[v' u']|] eqn:Hi'; [|discriminate].
    injection Hi as <- <-.
    destruct (walk_x_cells y1 x1 dy dx sy sx Hsy Hsx ltac:(lia) ltac:(lia) Hy1 Hx1
                (Z.to_nat dy) buffer_rows y0 x0 dy dx l'
                Hys Hxa ltac:(lia) ltac:(lia) ltac:(lia) Hy0 Hx0 Hl' i v' u' Hi')
      as (Hv & Hin & r' & Hu & Hr' & Hacc).
    exists r', (dy - Z.of_nat i).
    split; [exact Hu|].
    split; [destruct Hsy as [E | E]; rewrite E in *; lia|].
    split; [lia|]. split; [lia|]. split; [lia|]. split; [done|]. lia.
Qed.
End LineCells.

(** X4: The cells of a path of [line] lie in the rectangle spanned by its end
    points: a path between two cells of the grid does not leave the
    grid. *)
Theorem line_in_box x0 y0 x1 y1 l u v :
  in_int64 x0 -> in_int64 y0 -> in_int64 x1 -> in_int64 y1 ->
  Rasterizer.separation x0 y0 x1 y1 + 1 <= 40 ->
  Rasterizer.line x0 y0 x1 y1 = Some l -> (u, v) ∈ l ->
  Z.min x0 x1 <= u <= Z.max x0 x1 /\ Z.min y0 y1 <= v <= Z.max y0 y1.
Proof.
  intros Hx0 Hy0 Hx1 Hy1 Hsep Hl Hin.
  apply list_elem_of_lookup_1 in Hin as [i Hi].
  destruct (line_cells x0 y0 x1 y1 l i u v Hx0 Hy0 Hx1 Hy1 ltac:(lia) Hl Hi)
    as (a & b & -> & -> & Ha & Hb & _).
  destruct (Z.ltb_spec x0 x1), (Z.ltb_spec y0 y1); lia.
Qed.

Lemma line_in_box_witness :
  Rasterizer.line 0 0 3 1 = Some [(0, 0); (1, 0); (2, 1); (3, 1)]
  /\ Z.min 0 3 <= 2 <= Z.max 0 3 /\ Z.min 0 1 <= 1 <= Z.max 0 1.
Proof.
  split; [reflexivity|].
  apply (line_in_box 0 0 3 1 [(0, 0); (1, 0); (2, 1); (3, 1)] 2 1);
    try (unfold in_int64; lia); try reflexivity.
  - unfold Rasterizer.separation. lia.
  - do 2 right. left.
Defined.

(** X5: [line] follows the straight segment between its end points: cell [i]
    of the path is [i] steps from the start along the longer axis, and its
    distance from the segment along the other axis is at most half a
    cell, that is [2 |(x1-x0)(y1-v) - (y1-y0)(x1-u)|] is at most
    [max(|x1-x0|,|y1-y0|)]. *)
Theorem line_follows_segment x0 y0 x1 y1 l (i : nat) u v :
  in_int64 x0 -> in_int64 y0 -> in_int64 x1 -> in_int64 y1 ->
  Rasterizer.separation x0 y0 x1 y1 + 1 <= 40 ->
  Rasterizer.line x0 y0 x1 y1 = Some l -> l !! i = Some (u, v) ->
  (Z.abs (y1 - y0) < Z.abs (x1 - x0) -> Z.abs (u - x0) = Z.of_nat i)
  /\ (Z.abs (x1 - x0) <= Z.abs (y1 - y0) -> Z.abs (v - y0) = Z.of_nat i)
  /\ Z.abs (2 * ((x1 - x0) * (y1 - v) - (y1 - y0) * (x1 - u)))
     <= Rasterizer.separation x0 y0 x1 y1.
Proof.
  intros Hx0 Hy0 Hx1 Hy1 Hsep Hl Hi.
  destruct (line_cells x0 y0 x1 y1 l i u v Hx0 Hy0 Hx1 Hy1 ltac:(lia) Hl Hi)
    as (a & b & -> & -> & Ha & Hb & Hmaj & Hmin & Hacc).
  unfold Rasterizer.separation.
  split; [|split].
  - intros Hlt. specialize (Hmaj Hlt). destruct (Z.ltb_spec x0 x1); lia.
  - intros Hle. specialize (Hmin Hle). destruct (Z.ltb_spec y0 y1); lia.
  - set (e := 2 * (Z.abs (x1 - x0) * b - Z.abs (y1 - y0) * a)) in *.
    destruct (Z.ltb_spec x0 x1), (Z.ltb_spec y0 y1).
    + replace (2 * _) with e; [exact Hacc|]. unfold e.
      rewrite !Z.abs_eq by lia. ring.
    + replace (2 * _) with (- e); [by rewrite Z.abs_opp|]. unfold e.
      rewrite (Z.abs_eq (x1 - x0)), (Z.abs_neq (y1 - y0)) by lia. ring.
    + replace (2 * _) with (- e); [by rewrite Z.abs_opp|]. unfold e.
      rewrite (Z.abs_neq (x1 - x0)), (Z.abs_eq (y1 - y0)) by lia. ring.
    + replace (2 * _) with e; [exact Hacc|]. unfold e.
      rewrite !Z.abs_neq by lia. ring.
Qed.

Lemma line_follows_segment_witness :
  Rasterizer.line 0 0 3 1 = Some [(0, 0); (1, 0); (2, 1); (3, 1)]
  /\ Z.abs (2 * ((3 - 0) * (1 - 0) - (1 - 0) * (3 - 1))) <= 3.
Proof.
  split; [reflexivity|].
  apply (line_follows_segment 0 0 3 1 [(0, 0); (1, 0); (2, 1); (3, 1)] 1 1 0);
    try (unfold in_int64; lia); try reflexivity.
  unfold Rasterizer.separation. lia.
Defined.

(** ** What the termination handlers count *)

Section Counting.
Import Parcels.
Variable IDX_ORGN : Z.

Lemma dead_le f f' : flag_le f f' -> dead f -> dead f'.
Proof.
  rewrite !dead_bit. intros Hle. by apply (proj1 (flag_le_testbit f f') Hle).
Qed.

Lemma dead_lor_mark f code :
  1 <= code <= 8 -> dead (Z.lor f (Z.shiftl code 13 + I_DEAD + I_CROSSED)).
Proof.
  intros Hcode. apply dead_bit. rewrite Z.lor_spec.
  destruct (exit_mark code Hcode) as (-> & _). apply orb_true_r.
Qed.

(** Marking one more parcel DEAD adds one to the count. *)
Lemma ndead_insert (l : list Z) k f f' :
  l !! k = Some f -> ~ dead f -> dead f' -> ndead (<[k := f']> l) = S (ndead l).
Proof.
  unfold ndead, dead. revert k. induction l as [|a l IH]; intros k Hk Hf Hf';
    [discriminate|].
  destruct k as [|k]; simpl in Hk |- *.
  - injection Hk as ->. rewrite filter_cons_True by done.
    by rewrite filter_cons_False by done.
  - destruct (decide (Z.land a I_DEAD <> 0)).
    + rewrite !filter_cons_True by done. simpl. by rewrite (IH k).
    + rewrite !filter_cons_False by done. by apply IH.
Qed.

(** A turn of a termination handler leaves its parcel DEAD. *)
Lemma terminate_body_dead code n itime x y p t idx irs i st c st' c' ib k :
  (forall vx vy vp, 1 <= code vx vy vp <= 8) ->
  table_ok n st ->
  terminate_body IDX_ORGN code itime x y p t idx irs i (st, c) = Some (st', c') ->
  idx !! i = Some ib -> resolve n (ib - IDX_ORGN) = Some k ->
  exists f', flag_source st' !! k = Some f' /\ dead f'.
Proof.
  intros Hcode Hok H Hib Hk.
  destruct (terminate_body_effect _ _ _ _ _ _ _ _ _ _ _ _ _ _ _ Hok H)
    as [[-> ->] | (ib' & k' & f & xi & yi & pi & ti & start & m & Hib' & Hk' & Hf
                   & Hlive & _ & _ & _ & _ & _ & _ & _ & _ & _ & -> & _)].
  - unfold terminate_body in H. rewrite Hib in H. simpl in H.
    apply bind_Some in H as (f & Hf & H).
    apply aget_lookup in Hf as (k' & Hk' & Hf). rewrite (ok_flag _ _ Hok) in Hk'.
    assert (k' = k) as -> by congruence. exists f. split; [exact Hf|].
    destruct (Z.land f I_DEAD =? 0) eqn:Hlive.
    + exfalso. repeat (apply bind_Some in H as (? & _ & H)).
      injection H as _ H. lia.
    + apply Z.eqb_neq in Hlive. exact Hlive.
  - assert (ib' = ib) as -> by congruence. assert (k' = k) as -> by congruence.
    eexists. split.
    + simpl. apply list_lookup_insert_eq. by eapply lookup_lt_Some.
    + by apply dead_lor_mark.
Qed.

Lemma terminate_loop_dead code n itime x y p t idx irs l : forall s s',
  (forall vx vy vp, 1 <= code vx vy vp <= 8) ->
  table_ok n s.1 ->
  for_each (terminate_body IDX_ORGN code itime x y p t idx irs) l s = Some s' ->
  forall i ib k, i ∈ l -> idx !! i = Some ib -> resolve n (ib - IDX_ORGN) = Some k ->
    exists f', flag_source s'.1 !! k = Some f' /\ dead f'.
Proof.
  induction l as [|j l IH]; intros s s' Hcode Hok H i ib k Hi Hib Hk.
  { by apply elem_of_nil in Hi. }
  simpl in H. apply bind_Some in H as (s1 & H1 & H2).
  destruct (terminate_body_tame IDX_ORGN _ n _ _ _ _ _ _ _ _ _ _ H1) as [Ht1 _].
  destruct (Ht1 Hok) as (Hok1 & _).
  apply elem_of_cons in Hi as [-> | Hi]; [|by eapply IH].
  destruct s as [st c], s1 as [st1 c1].
  destruct (terminate_body_dead _ _ _ _ _ _ _ _ _ _ _ _ _ _ _ _ Hcode Hok H1 Hib Hk)
    as (f1 & Hf1 & Hd1).
  destruct (terminate_loop_tame IDX_ORGN _ n _ _ _ _ _ _ _ _ _ _ H2) as [Ht _].
  destruct (Ht Hok1) as (Hok' & _).
  destruct (tame_parcel n st1 s'.1 k Hok1 Ht) as (Hfl & _).
  destruct (lookup_lt_is_Some_2 (flag_source s'.1) k) as [f' Hf'].
  { rewrite (ok_flag _ _ Hok'). by eapply resolve_lt. }
  exists f'. split; [exact Hf'|]. eapply dead_le; [|exact Hd1]. by eapply Hfl.
Qed.

Lemma terminate_loop_count code n itime x y p t idx irs l s s' :
  (forall vx vy vp, 1 <= code vx vy vp <= 8) ->
  table_ok n s.1 ->
  for_each (terminate_body IDX_ORGN code itime x y p t idx irs) l s = Some s' ->
  s'.2 - s.2
  = Z.of_nat (ndead (flag_source s'.1)) - Z.of_nat (ndead (flag_source s.1)).
Proof.
  intros Hcode Hok H.
  assert (table_ok n s'.1
          /\ s'.2 - s.2 = Z.of_nat (ndead (flag_source s'.1))
                          - Z.of_nat (ndead (flag_source s.1))) as [_ ?];
    [|assumption].
  revert H.
  apply (for_each_inv
           (fun a => table_ok n a.1
                     /\ a.2 - s.2 = Z.of_nat (ndead (flag_source a.1))
                                    - Z.of_nat (ndead (flag_source s.1))));
    [|split; [exact Hok | lia]].
  intros i [st c] [st' c'] _ [Hok1 Hc] Hb. cbn [fst snd] in Hok1, Hc |- *.
  destruct (terminate_body_effect _ _ _ _ _ _ _ _ _ _ _ _ _ _ _ Hok1 Hb)
    as [[-> ->] | (ib & k & f & xi & yi & pi & ti & start & m & _ & _ & Hf
                   & Hlive & _ & _ & _ & _ & _ & Hm & _ & _ & _ & -> & ->)].
  - by split.
  - split; [by apply set_flag_src_ok|]. simpl.
    rewrite (ndead_insert _ _ _ _ Hf Hlive (dead_lor_mark f _ (Hcode xi yi pi))).
    lia.
Qed.
End Counting.

(** X6: The count returned by the exit handler, and likewise by the
    ground-contact handler, is the number of parcels the call has turned
    DEAD; and every parcel listed in the call is DEAD when it returns. *)
Theorem exits_counted IDX_ORGN n itime x y p t idx_back irs rr st :
  Parcels.table_ok n st ->
  (forall st' c,
     Parcels.exiter IDX_ORGN itime x y p t idx_back st irs rr = Some (st', c) ->
     c = Z.of_nat (Parcels.ndead (Parcels.flag_source st'))
         - Z.of_nat (Parcels.ndead (Parcels.flag_source st))
     /\ forall (i : nat) ib k,
          (i < length x)%nat -> idx_back !! i = Some ib ->
          resolve n (ib - IDX_ORGN) = Some k ->
          exists f', Parcels.flag_source st' !! k = Some f' /\ Parcels.dead f')
  /\ (forall st' c,
        Parcels.radada IDX_ORGN itime x y p t idx_back st irs = Some (st', c) ->
        c = Z.of_nat (Parcels.ndead (Parcels.flag_source st'))
            - Z.of_nat (Parcels.ndead (Parcels.flag_source st))
        /\ forall (i : nat) ib k,
             (i < length x)%nat -> idx_back !! i = Some ib ->
             resolve n (ib - IDX_ORGN) = Some k ->
             exists f', Parcels.flag_source st' !! k = Some f' /\ Parcels.dead f').
Proof.
  intros Hok. split; intros st' c H.
  - assert (forall vx vy vp, 1 <= Parcels.excode rr vx vy vp <= 8) as Hcode
      by (intros; pose proof (excode_range rr vx vy vp); lia).
    split.
    + pose proof (terminate_loop_count IDX_ORGN _ n _ _ _ _ _ _ _ _ (st, 0) (st', c)
                    Hcode Hok H) as E. simpl in E. lia.
    + intros i ib k Hi.
      apply (terminate_loop_dead IDX_ORGN _ n _ _ _ _ _ _ _ _ (st, 0) (st', c)
               Hcode Hok H).
      apply elem_of_seq. lia.
  - assert (forall vx vy vp : R, 1 <= 8 <= 8) as Hcode by (intros; lia).
    split.
    + pose proof (terminate_loop_count IDX_ORGN _ n _ _ _ _ _ _ _ _ (st, 0) (st', c)
                    Hcode Hok H) as E. simpl in E. lia.
    + intros i ib k Hi.
      apply (terminate_loop_dead IDX_ORGN _ n _ _ _ _ _ _ _ _ (st, 0) (st', c)
               Hcode Hok H).
      apply elem_of_seq. lia.
Qed.

Section ExitScenario.
Import Parcels Scenario.

(** The exit handler on the scenario, with the first parcel in its list. *)
Lemma scenario_exiter :
  exists st' c,
    exiter 0 (-4000000) [1]%R [2]%R [20000]%R [250]%R [0] table0 [0; 0]
      (Box (-10) 160 0 50) = Some (st', c).
Proof.
  destruct (terminate_body_total 0 (excode (Box (-10) 160 0 50)) 2 (-4000000)
              [1]%R [2]%R [20000]%R
              [250]%R [0] [0; 0] 0%nat table0 0 0 0%nat 1%R 2%R 20000%R 250%R
              scenario_table_ok eq_refl eq_refl eq_refl eq_refl eq_refl eq_refl
              eq_refl) as ([st' c'] & Hbody).
  exists st', c'. unfold exiter, for_range, exiter_body.
  change (seq 0 (length [1%R])) with [0%nat].
  apply bind_Some. exists (st', c'). split; [exact Hbody | reflexivity].
Qed.

Lemma scenario_excode : excode (Box (-10) 160 0 50) 1 2 20000 = 6.
Proof. unfold excode; simpl. destruct (Rlt_dec 2 (0 + 4)); [reflexivity | lra]. Qed.
End ExitScenario.

Lemma exits_counted_witness :
  exists st' c,
    Parcels.exiter 0 (-4000000) [1]%R [2]%R [20000]%R [250]%R [0] Scenario.table0
      [0; 0] (Parcels.Box (-10) 160 0 50) = Some (st', c)
    /\ c = Z.of_nat (Parcels.ndead (Parcels.flag_source st'))
           - Z.of_nat (Parcels.ndead (Parcels.flag_source Scenario.table0))
    /\ exists f', Parcels.flag_source st' !! 0%nat = Some f' /\ Parcels.dead f'.
Proof.
  destruct scenario_exiter as (st' & c & H).
  exists st', c. split; [exact H|].
  destruct (proj1 (exits_counted 0 2 (-4000000) [1]%R [2]%R [20000]%R [250]%R [0]
                     [0; 0] (Parcels.Box (-10) 160 0 50) Scenario.table0
                     scenario_table_ok) st' c H) as [Hc Hdead].
  split; [exact Hc|].
  apply (Hdead 0%nat 0 0%nat); [simpl; lia | reflexivity | reflexivity].
Defined.

(** X7: The reason of a termination can be read back from the flag: when the
    exit handler terminates a parcel whose flag holds no reason code yet,
    [(flag >> 13) & 15] is afterwards the code computed from the position
    and the pressure, between 1 and 7; when the ground-contact handler
    does, it is 8.  Both leave the parcel CROSSED and DEAD. *)
Theorem exit_reason_recorded IDX_ORGN n itime x y p t idx_back irs rr i st c
    ib k f vx vy vp :
  Parcels.table_ok n st ->
  idx_back !! i = Some ib -> resolve n (ib - IDX_ORGN) = Some k ->
  Parcels.flag_source st !! k = Some f -> ~ Parcels.dead f ->
  Parcels.exit_code f = 0 ->
  x !! i = Some vx -> y !! i = Some vy -> p !! i = Some vp ->
  (forall st' c',
     Parcels.exiter_body IDX_ORGN itime x y p t idx_back irs rr i (st, c)
     = Some (st', c') ->
     exists f',
       Parcels.flag_source st' !! k = Some f'
       /\ Parcels.exit_code f' = Parcels.excode rr vx vy vp
       /\ 1 <= Parcels.exit_code f' <= 7
       /\ Parcels.marked Parcels.I_CROSSED f' /\ Parcels.dead f')
  /\ (forall st' c',
        Parcels.radada_body IDX_ORGN itime x y p t idx_back irs i (st, c)
        = Some (st', c') ->
        exists f',
          Parcels.flag_source st' !! k = Some f'
          /\ Parcels.exit_code f' = 8
          /\ Parcels.marked Parcels.I_CROSSED f' /\ Parcels.dead f').
Proof.
  intros Hok Hib Hk Hf Hlive Hcode0 Hx Hy Hp.
  assert (forall code st' c',
            (forall ux uy up, 1 <= code ux uy up <= 8) ->
            Parcels.terminate_body IDX_ORGN code itime x y p t idx_back irs i (st, c)
            = Some (st', c') ->
            exists f',
              Parcels.flag_source st' !! k = Some f'
              /\ Parcels.exit_code f' = code vx vy vp
              /\ Parcels.marked Parcels.I_CROSSED f' /\ Parcels.dead f') as Hgen.
  { intros code st' c' Hcode H.
    destruct (terminate_body_effect _ _ _ _ _ _ _ _ _ _ _ _ _ _ _ Hok H)
      as [[-> ->] | (ib' & k' & f0 & xi & yi & pi & ti & start & m & Hib' & Hk' & Hf0
                     & _ & Hxi & Hyi & Hpi & _ & _ & _ & _ & _ & _ & -> & _)].
    - exfalso.
      destruct (terminate_body_dead _ _ _ _ _ _ _ _ _ _ _ _ _ _ _ _ _ Hcode Hok H Hib Hk)
        as (f' & Hf' & Hd). rewrite Hf in Hf'. injection Hf' as <-. contradiction.
    - assert (ib' = ib) as -> by congruence. assert (k' = k) as -> by congruence.
      assert (f0 = f) as -> by congruence. assert (xi = vx) as -> by congruence.
      assert (yi = vy) as -> by congruence. assert (pi = vp) as -> by congruence.
      destruct (exit_mark _ (Hcode vx vy vp)) as (H21 & _ & _ & _ & H25 & Hx').
      eexists. split.
      { simpl. apply list_lookup_insert_eq. by eapply lookup_lt_Some. }
      split; [by rewrite exit_code_lor, Hcode0, Hx', Z.lor_0_l|].
      split.
      + apply crossed_bit. rewrite Z.lor_spec, H25. apply orb_true_r.
      + apply dead_bit. rewrite Z.lor_spec, H21. apply orb_true_r. }
  split; intros st' c' H.
  - destruct (Hgen (Parcels.excode rr) st' c') as (f' & Hf' & Hcode & Hc & Hd);
      [intros; pose proof (excode_range rr ux uy up); lia | exact H |].
    exists f'. split; [exact Hf'|]. split; [exact Hcode|].
    split; [rewrite Hcode; apply excode_range|]. by split.
  - destruct (Hgen (fun _ _ _ => 8) st' c') as (f' & Hf' & Hcode & Hc & Hd);
      [intros; lia | exact H |].
    by exists f'.
Qed.

Lemma exit_reason_recorded_witness :
  exists st' c' f',
    Parcels.exiter_body 0 (-4000000) [1]%R [2]%R [20000]%R [250]%R [0] [0; 0]
      (Parcels.Box (-10) 160 0 50) 0 (Scenario.table0, 0) = Some (st', c')
    /\ Parcels.flag_source st' !! 0%nat = Some f'
    /\ Parcels.exit_code f' = 6.
Proof.
  destruct (terminate_body_total 0 (Parcels.excode (Parcels.Box (-10) 160 0 50)) 2
              (-4000000) [1]%R [2]%R [20000]%R
              [250]%R [0] [0; 0] 0%nat Scenario.table0 0 0 0%nat 1%R 2%R 20000%R
              250%R scenario_table_ok eq_refl eq_refl eq_refl eq_refl eq_refl
              eq_refl eq_refl) as ([st' c'] & Hbody).
  destruct (proj1 (exit_reason_recorded 0 2 (-4000000) [1]%R [2]%R [20000]%R
                     [250]%R [0] [0; 0] (Parcels.Box (-10) 160 0 50) 0%nat
                     Scenario.table0 0 0 0%nat 0 1%R 2%R 20000%R
                     scenario_table_ok eq_refl eq_refl eq_refl
                     ltac:(by intros H; apply H) eq_refl eq_refl eq_refl eq_refl)
              st' c' Hbody) as (f' & Hf' & Hcode & _).
  exists st', c', f'. split; [exact Hbody|]. split; [exact Hf'|].
  rewrite Hcode. apply scenario_excode.
Defined.

(** ** The masks of [main] and the windows they give *)

Section Masks.
Import Parcels TimeSlices.

Lemma ascending_cons x t : ascending (x :: t) <-> Forall (Z.lt x) t /\ ascending t.
Proof.
  unfold ascending. split.
  - intros H. split.
    + apply Forall_forall. intros y Hy. apply list_elem_of_lookup_1 in Hy as [j Hj].
      apply (H 0%nat (S j) x y); [lia | done | done].
    + intros i j a b Hij Ha Hb. apply (H (S i) (S j)); [lia | done | done].
  - intros [Hx Ht] i j a b Hij Ha Hb. destruct j as [|j]; [lia|].
    simpl in Hb. destruct i as [|i].
    + injection Ha as <-. rewrite Forall_forall in Hx. apply Hx.
      by eapply list_elem_of_lookup_2.
    + simpl in Ha. apply (Ht i j); [lia | done | done].
Qed.

Lemma ascending_nil : ascending [].
Proof. intros i j a b _ H. discriminate. Qed.

Lemma ascending_filter (P : Z -> Prop) `{!forall v, Decision (P v)} l :
  ascending l -> ascending (filter P l).
Proof.
  induction l as [|x t IH]; intros Hl; [apply ascending_nil|].
  apply ascending_cons in Hl as [Hx Ht].
  destruct (decide (P x)).
  - rewrite filter_cons_True by done. apply ascending_cons. split; [|by apply IH].
    apply Forall_forall. intros y Hy. apply list_elem_of_filter in Hy as [_ Hy].
    rewrite Forall_forall in Hx. by apply Hx.
  - rewrite filter_cons_False by done. by apply IH.
Qed.

(** Two ascending lists with the same entries are equal. *)
Lemma ascending_ext l1 : forall l2,
  ascending l1 -> ascending l2 -> (forall x, x ∈ l1 <-> x ∈ l2) -> l1 = l2.
Proof.
  induction l1 as [|x t1 IH]; intros [|y t2] H1 H2 Hel; trivial.
  - exfalso. eapply not_elem_of_nil. apply Hel. left.
  - exfalso. eapply not_elem_of_nil. apply Hel. left.
  - apply ascending_cons in H1 as [Hx H1]. apply ascending_cons in H2 as [Hy H2].
    rewrite Forall_forall in Hx, Hy.
    assert (x = y) as ->.
    { assert (x ∈ y :: t2) as Hxy by (apply Hel; left).
      assert (y ∈ x :: t1) as Hyx by (apply Hel; left).
      apply elem_of_cons in Hxy as [? | Hxy]; [done|].
      apply elem_of_cons in Hyx as [? | Hyx]; [done|].
      specialize (Hx y Hyx). specialize (Hy x Hxy). lia. }
    f_equal. apply IH; trivial. intros z. split; intros Hz.
    + assert (z ∈ y :: t2) as H by (apply Hel; by right).
      apply elem_of_cons in H as [-> | ?]; [|done]. specialize (Hx y Hz). lia.
    + assert (z ∈ y :: t1) as H by (apply Hel; by right).
      apply elem_of_cons in H as [-> | ?]; [|done]. specialize (Hy y Hz). lia.
Qed.

Lemma pick_none {A} (m : list bool) (a : list A) : np_count m = 0%nat -> pick m a = [].
Proof.
  unfold np_count. revert a. induction m as [|b m IH]; intros [|v a] H; trivial.
  destruct b.
  - rewrite filter_cons_True in H by done. discriminate.
  - rewrite filter_cons_False in H by done. simpl. by apply IH.
Qed.

(** Selecting by a membership mask combined with a test read through the
    entries is filtering. *)
Lemma pick_and (P : Z -> Prop) `{!forall v, Decision (P v)} (g : Z -> option bool) a :
  forall la, mapM g a = Some la ->
  length la = length a
  /\ pick (zip_with andb ((fun v => bool_decide (P v)) <$> a) la) a
     = filter (fun v => P v /\ g v = Some true) a.
Proof.
  induction a as [|v a IH]; intros la Hm.
  - injection Hm as <-. by split.
  - simpl in Hm. apply bind_Some in Hm as (y & Hy & Hm).
    apply bind_Some in Hm as (k & Hk & Hm). injection Hm as <-.
    destruct (IH k Hk) as [Hlen E]. split; [simpl; by rewrite Hlen|].
    cbn [fmap list_fmap zip_with].
    destruct (decide (P v)) as [Hp | Hp].
    + rewrite bool_decide_true by done. destruct y.
      * rewrite filter_cons_True by done. cbn [andb pick]. by rewrite <- E.
      * rewrite filter_cons_False by (intros [_ ?]; congruence).
        cbn [andb pick]. exact E.
    + rewrite bool_decide_false by done.
      rewrite filter_cons_False by tauto. cbn [andb pick]. exact E.
Qed.

Lemma np_count_in1d_zero a b :
  np_count (in1d a b) = 0%nat -> forall v, v ∈ a -> v ∉ b.
Proof.
  unfold np_count, in1d. induction a as [|x a IH]; intros H v Hv.
  - by apply elem_of_nil in Hv.
  - cbn [fmap list_fmap] in H. destruct (decide (x ∈ b)) as [Hx | Hx].
    + rewrite bool_decide_true, filter_cons_True in H by done. discriminate.
    + rewrite bool_decide_false, filter_cons_False in H by done.
      apply elem_of_cons in Hv as [-> | Hv]; [done | by apply IH].
Qed.

Lemma alive_test IDX_ORGN flag v :
  (f ← aget flag (v - IDX_ORGN); Some (Z.land f I_DEAD =? 0)) = Some true
  <-> exists f, aget flag (v - IDX_ORGN) = Some f /\ Z.land f I_DEAD = 0.
Proof.
  rewrite bind_Some. split; intros (f & Hf & H); exists f; (split; [exact Hf|]).
  - injection H as H. by apply Z.eqb_eq.
  - f_equal. by apply Z.eqb_eq.
Qed.
End Masks.

(** X8: The two masks [main] computes select the same parcels, in the same
    order, in both snapshots, when the identifiers of each snapshot are
    ascending: exactly the parcels present in both whose DEAD bit is
    clear.  So the generator combines the two positions of the same
    parcel, and the two selections have the same number of entries. *)
Theorem live_masks_pair IDX_ORGN flag pa pp la lp :
  TimeSlices.ascending (Parcels.snap_idx_back pa) ->
  TimeSlices.ascending (Parcels.snap_idx_back pp) ->
  TimeSlices.live_masks IDX_ORGN flag pa pp = Some (la, lp) ->
  TimeSlices.pick la (Parcels.snap_idx_back pa)
  = TimeSlices.pick lp (Parcels.snap_idx_back pp)
  /\ TimeSlices.np_count la = TimeSlices.np_count lp
  /\ forall v,
       v ∈ TimeSlices.pick la (Parcels.snap_idx_back pa) <->
       v ∈ Parcels.snap_idx_back pa /\ v ∈ Parcels.snap_idx_back pp
       /\ exists f, aget flag (v - IDX_ORGN) = Some f /\ Z.land f Parcels.I_DEAD = 0.
Proof.
  intros Ha Hp H. unfold TimeSlices.live_masks in H. cbv zeta in H.
  set (a := Parcels.snap_idx_back pa) in *. set (b := Parcels.snap_idx_back pp) in *.
  destruct (Nat.eqb_spec (TimeSlices.np_count (Parcels.in1d b a)) 0) as [Hz | Hnz].
  - injection H as <- <-. rewrite !pick_none by done.
    split; [reflexivity|]. split; [reflexivity|].
    intros v. split; [by intros ?%elem_of_nil|].
    intros (Hva & Hvb & _). exfalso.
    by apply (np_count_in1d_zero b a Hz v).
  - apply bind_Some in H as (ma & Hma & H). apply bind_Some in H as (mb & Hmb & H).
    injection H as <- <-.
    set (g := fun ib : Z =>
                f ← aget flag (ib - IDX_ORGN);
                Some (Z.land f Parcels.I_DEAD =? 0)) in *.
    destruct (pick_and (fun v => v ∈ b) g a ma Hma) as [Hla Ea].
    destruct (pick_and (fun v => v ∈ a) g b mb Hmb) as [Hlb Eb].
    unfold Parcels.in1d. rewrite Ea, Eb.
    assert (forall v,
              v ∈ filter (fun v => v ∈ b /\ g v = Some true) a <->
              v ∈ a /\ v ∈ b
              /\ exists f, aget flag (v - IDX_ORGN) = Some f
                           /\ Z.land f Parcels.I_DEAD = 0) as Hin.
    { intros v. rewrite list_elem_of_filter. unfold g. rewrite alive_test. tauto. }
    assert (filter (fun v => v ∈ b /\ g v = Some true) a
            = filter (fun v => v ∈ a /\ g v = Some true) b) as E.
    { apply ascending_ext; [by apply ascending_filter | by apply ascending_filter|].
      intros v. rewrite !list_elem_of_filter. tauto. }
    split; [exact E|]. split; [|exact Hin].
    rewrite <- (pick_length _ a), <- (pick_length _ b).
    + by rewrite Ea, Eb, E.
    + by rewrite length_zip_with, length_fmap, Hlb, Nat.min_id.
    + by rewrite length_zip_with, length_fmap, Hla, Nat.min_id.
Qed.

Lemma live_masks_pair_witness :
  TimeSlices.live_masks 0 Scenario.flag3 Scenario.snap_a Scenario.snap_p
  = Some ([false; true], [true; false])
  /\ TimeSlices.pick [false; true] [0; 1] = TimeSlices.pick [true; false] [1; 2].
Proof.
  assert (TimeSlices.live_masks 0 Scenario.flag3 Scenario.snap_a Scenario.snap_p
          = Some ([false; true], [true; false])) as H by reflexivity.
  split; [exact H|].
  refine (proj1 (live_masks_pair 0 Scenario.flag3 Scenario.snap_a Scenario.snap_p
                   [false; true] [true; false] _ _ H)).
  - apply ascending_cons. split; [repeat constructor|].
    apply ascending_cons. split; [constructor | apply ascending_nil].
  - apply ascending_cons. split; [repeat constructor|].
    apply ascending_cons. split; [constructor | apply ascending_nil].
Defined.

Section Sentinels.
Import Parcels TimeSlices.

(** The number of slices of an interval of [n] slice widths. *)
Lemma nb_slices_exact c (n : nat) :
  0 < slice_width c -> dstep c = Z.of_nat n * slice_width c -> nb_slices c = Some n.
Proof.
  intros Hw Hd. unfold nb_slices. rewrite tdiv_ok by lia. simpl. f_equal.
  assert (IZR (dstep c) / IZR (slice_width c) = IZR (Z.of_nat n))%R as ->.
  { rewrite Hd, mult_IZR. field. apply IZR_lt in Hw. lra. }
  unfold trunc. destruct (Rle_dec 0 _) as [_ | Hn].
  - rewrite (Zfloor_eq (Z.of_nat n)); [apply Nat2Z.id | lra].
  - exfalso. apply Hn. pose proof (IZR_le 0 (Z.of_nat n) ltac:(lia)). lra.
Qed.

Lemma drain_sentinel c n :
  0 < slice_width c -> dstep c = Z.of_nat n * slice_width c ->
  empty_live c = true ->
  forall (k : nat) g, (g_i g + k = n)%nat ->
    g_itime g = snap_itime (part_p c) - Z.of_nat (g_i g) * seconds (slice_width c) ->
    w_tempi (g_dat g) = None -> w_tempf (g_dat g) = None ->
    drain c n (S k) g = Some (sentinel c <$> seq (g_i g) k).
Proof.
  intros Hw Hd He. induction k as [|k IH]; intros g Hg Hit Hti Htf.
  - simpl. unfold next. destruct (Nat.ltb_spec (g_i g) n); [lia | reflexivity].
  - change (drain c n (S (S k)) g)
      with (match next c n g with
            | Yield w g' => cons w <$> drain c n (S k) g'
            | StopIteration => Some []
            | Raise => None
            end).
    unfold next. destruct (Nat.ltb_spec (g_i g) n); [|lia].
    unfold slice_body. rewrite !tdiv_ok, He by nia. cbn [mbind option_bind].
    rewrite Hti, Htf.
    match goal with
    | |- context [drain c n (S k) ?g'] => rewrite (IH g')
    end; cbn [g_i g_itime g_dat w_tempi w_tempf]; trivial; [|lia|lia].
    cbn [seq fmap list_fmap]. unfold sentinel at 2. rewrite Hit.
    replace (snap_itime (part_p c) - Z.of_nat (g_i g) * seconds (slice_width c)
             - seconds (slice_width c))
      with (snap_itime (part_p c)
            - (Z.of_nat (g_i g) + 1) * seconds (slice_width c)) by ring.
    reflexivity.
Qed.

Lemma get_slice_part_sentinel c n :
  0 < slice_width c -> dstep c = Z.of_nat n * slice_width c ->
  empty_live c = true ->
  get_slice_part c = Some (sentinel c <$> seq 0 n).
Proof.
  intros Hw Hd He. unfold get_slice_part. rewrite (nb_slices_exact c n Hw Hd).
  cbn [mbind option_bind].
  apply (drain_sentinel c n Hw Hd He n (start c)); trivial.
  unfold start; simpl. lia.
Qed.
End Sentinels.

(** X9: When no parcel is live the generator hands out, for an interval of [n]
    slice widths, [n] windows that carry no data: both time bounds are
    [None], the identifiers, positions and pressures are empty arrays, the
    temperatures are absent, and [itime] still counts the slices down.
    The snapshots are not read, whatever their shapes. *)
Theorem sentinel_windows c (n : nat) :
  0 < TimeSlices.slice_width c ->
  TimeSlices.dstep c = Z.of_nat n * TimeSlices.slice_width c ->
  TimeSlices.np_count (TimeSlices.live_a c) = 0%nat ->
  exists ws,
    TimeSlices.get_slice_part c = Some ws /\ length ws = n
    /\ forall (j : nat) w, ws !! j = Some w ->
         TimeSlices.w_ti w = None /\ TimeSlices.w_tf w = None
         /\ TimeSlices.w_itime w
            = Some (Parcels.snap_itime (TimeSlices.part_p c)
                    - (Z.of_nat j + 1)
                      * TimeSlices.seconds (TimeSlices.slice_width c))
         /\ TimeSlices.w_idx_back w = Some []
         /\ TimeSlices.w_xi w = Some [] /\ TimeSlices.w_yi w = Some []
         /\ TimeSlices.w_pi w = Some [] /\ TimeSlices.w_xf w = Some []
         /\ TimeSlices.w_yf w = Some [] /\ TimeSlices.w_pf w = Some []
         /\ TimeSlices.w_tempi w = None /\ TimeSlices.w_tempf w = None.
Proof.
  intros Hw Hd He. exists (TimeSlices.sentinel c <$> seq 0 n).
  split.
  { apply get_slice_part_sentinel; trivial.
    unfold TimeSlices.empty_live. by rewrite He. }
  split; [by rewrite length_fmap, length_seq|].
  intros j w Hjw. rewrite list_lookup_fmap in Hjw.
  destruct (seq 0 n !! j) as [j'|] eqn:E; [|discriminate].
  apply lookup_seq in E as [-> _]. injection Hjw as <-.
  by repeat split.
Qed.

Lemma sentinel_windows_witness :
  exists ws,
    TimeSlices.get_slice_part Scenario.cfg_empty = Some ws /\ length ws = 2%nat
    /\ forall w, ws !! 1%nat = Some w ->
         TimeSlices.w_itime w = Some (-10800) /\ TimeSlices.w_xi w = Some []
         /\ TimeSlices.w_tempi w = None.
Proof.
  destruct (sentinel_windows Scenario.cfg_empty 2 ltac:(simpl; lia) eq_refl eq_refl)
    as (ws & Hws & Hlen & Hall).
  exists ws. split; [exact Hws|]. split; [exact Hlen|].
  intros w Hw. destruct (Hall 1%nat w Hw) as (_ & _ & Hit & _ & Hxi & _ & _ & _ & _ & _ & Hti & _).
  by repeat split.
Defined.

(** X10: The bookkeeping of the windows, for an interval of [n] slices with a
    live parcel: window [j] carries the identifiers of the live parcels
    of the newer snapshot, and the time [itime] of the older snapshot
    less [j + 1] times the seconds of the slice width. *)
Theorem slice_bookkeeping c n :
  TimeSlices.config_ok c n -> TimeSlices.empty_live c = false ->
  exists ws,
    TimeSlices.get_slice_part c = Some ws
    /\ forall (j : nat) w, ws !! j = Some w ->
         TimeSlices.w_itime w
         = Some (Parcels.snap_itime (TimeSlices.part_p c)
                 - (Z.of_nat j + 1) * TimeSlices.seconds (TimeSlices.slice_width c))
         /\ TimeSlices.w_idx_back w
            = Some (TimeSlices.pick (TimeSlices.live_a c)
                      (Parcels.snap_idx_back (TimeSlices.part_a c))).
Proof.
  intros Hc Hlive.
  destruct (get_slice_part_windows c n Hc Hlive) as (ws & Hws & _ & Hat).
  exists ws. split; [exact Hws|]. intros j w Hw.
  destruct (Hat j w Hw) as [_ ->]. by split.
Qed.

Lemma slice_bookkeeping_witness :
  exists ws,
    TimeSlices.get_slice_part Scenario.cfg0 = Some ws
    /\ forall w, ws !! 0%nat = Some w ->
         TimeSlices.w_itime w = Some (-7200)
         /\ TimeSlices.w_idx_back w = Some [0].
Proof.
  destruct (slice_bookkeeping Scenario.cfg0 1 scenario_config_ok eq_refl)
    as (ws & Hws & Hall).
  exists ws. split; [exact Hws|]. intros w Hw. exact (Hall 0%nat w Hw).
Defined.

(** ** The geometry of the grid *)

(** A position within half a spacing of node [k] is rounded to [k]. *)
Lemma nearest_within v origin d k :
  (0 < d)%R ->
  (origin + (IZR k - 1 / 2) * d <= v < origin + (IZR k + 1 / 2) * d)%R ->
  Parcels.nearest v origin d = k.
Proof.
  intros Hd [H1 H2]. unfold Parcels.nearest.
  set (q := ((v - origin) / d)%R).
  assert (v = origin + q * d)%R as Hv by (unfold q; field; lra).
  apply Zfloor_eq. rewrite Hv in H1, H2. nra.
Qed.



Section GridStep.
Import Fields.

Lemma resolve_last n : (0 < n)%nat -> resolve n (-1) = Some (n - 1)%nat.
Proof.
  intros Hn. unfold resolve.
  destruct (Z.leb_spec 0 (-1)); [lia|]. simpl.
  destruct (Z.leb_spec (- Z.of_nat n) (-1)); [|lia].
  destruct (Z.ltb_spec (-1) 0); [|lia]. simpl. f_equal. lia.
Qed.
End GridStep.

(** X12: On an axis of [n >= 2] evenly spaced nodes, [read_ECMWF] finds the
    spacing, and with the first node as origin the detrainer's rounding
    maps every node to its own index. *)
Theorem grid_nodes origin d (n : nat) :
  (0 < d)%R -> (2 <= n)%nat ->
  let coords := (fun k : nat => origin + IZR (Z.of_nat k) * d)%R <$> seq 0 n in
  Fields.grid_step coords (Z.of_nat n) = Some d
  /\ forall (k : nat) v, coords !! k = Some v ->
       Parcels.nearest v origin d = Z.of_nat k.
Proof.
  intros Hd Hn coords.
  assert (length coords = n) as Hlen by (unfold coords; by rewrite length_fmap, length_seq).
  split.
  - unfold Fields.grid_step, aget. rewrite Hlen.
    rewrite resolve_last by lia. rewrite resolve_nonneg by lia. cbn [mbind option_bind].
    unfold coords. rewrite !list_lookup_fmap.
    rewrite !lookup_seq_lt by lia. cbn [fmap option_fmap option_map mbind option_bind].
    f_equal. rewrite minus_IZR. replace (Z.of_nat (0 + (n - 1))) with (Z.of_nat n - 1) by lia.
    rewrite minus_IZR. simpl.
    assert (2 <= IZR (Z.of_nat n))%R by (apply (IZR_le 2); lia).
    change (Z.of_nat (Z.to_nat 0)) with 0. field. lra.
  - intros k v Hk. unfold coords in Hk. rewrite list_lookup_fmap in Hk.
    destruct (seq 0 n !! k) as [k'|] eqn:E; [|discriminate].
    apply lookup_seq in E as [-> _]. injection Hk as <-.
    apply nearest_within; [exact Hd|]. simpl. nra.
Qed.

Lemma grid_nodes_witness :
  Fields.grid_step [10 + 0 * (1 / 4); 10 + 1 * (1 / 4); 10 + 2 * (1 / 4)]%R 3
  = Some (1 / 4)%R
  /\ Parcels.nearest (10 + 2 * (1 / 4)) 10 (1 / 4) = 2.
Proof.
  pose proof (grid_nodes 10 (1 / 4) 3 ltac:(lra) ltac:(lia)) as [Hs Hk].
  split; [exact Hs|]. exact (Hk 2%nat _ eq_refl).
Defined.

(** X13: The cell that takes the deposit of a parcel is always a cell of the
    accumulator, whatever the end cells of the path; without a shift and
    for end cells inside the grid it lies between them. *)
Theorem deposit_cell n ig fg shift :
  0 < n ->
  0 <= Parcels.mid_cell n ig fg shift < n
  /\ (shift = 0 -> 0 <= ig < n -> 0 <= fg < n -> n <= 2 ^ 62 ->
      Z.min ig fg <= Parcels.mid_cell n ig fg shift <= Z.max ig fg).
Proof.
  intros Hn. split; [by apply mid_cell_range|].
  intros -> Hig Hfg Hmax. unfold Parcels.mid_cell.
  rewrite (wrap64_small (ig + fg)) by (unfold in_int64; lia).
  rewrite (Z.quot_div_nonneg (ig + fg) 2) by lia.
  pose proof (Z.div_le_upper_bound (ig + fg) 2 (Z.max ig fg) ltac:(lia) ltac:(lia)).
  pose proof (Z.div_le_lower_bound (ig + fg) 2 (Z.min ig fg) ltac:(lia) ltac:(lia)).
  rewrite Z.add_0_r, wrap64_small by (unfold in_int64; lia). lia.
Qed.

Lemma deposit_cell_witness :
  0 <= Parcels.mid_cell 681 700 702 0 < 681
  /\ Z.min 3 6 <= Parcels.mid_cell 681 3 6 0 <= Z.max 3 6.
Proof.
  split.
  - apply (deposit_cell 681 700 702 0). lia.
  - apply (deposit_cell 681 3 6 0); lia.
Defined.

(** ** The fields of the reanalysis *)

(** X14: [strictly_increasing], which compares each entry with the next one,
    holds exactly when every entry is below all the later ones; it holds
    for the empty list and for a single entry. *)
Theorem strictly_increasing_spec (L : list Z) :
  Fields.strictly_increasing L = true <->
  forall (i j : nat) a b, (i < j)%nat -> L !! i = Some a -> L !! j = Some b -> a < b.
Proof.
  change (Fields.strictly_increasing L = true <-> TimeSlices.ascending L).
  unfold Fields.strictly_increasing.
  induction L as [|x [|y t] IH].
  - split; [intros _; apply ascending_nil | reflexivity].
  - split; [|reflexivity]. intros _. apply ascending_cons.
    split; [constructor | apply ascending_nil].
  - change (zip (x :: y :: t) (drop 1 (x :: y :: t)))
      with ((x, y) :: zip (y :: t) (drop 1 (y :: t))).
    cbn [forallb fst snd]. rewrite andb_true_iff, IH, Z.ltb_lt.
    rewrite (ascending_cons x (y :: t)). split.
    + intros [Hxy Ht]. split; [|exact Ht].
      apply ascending_cons in Ht as [Hy _]. constructor; [exact Hxy|].
      eapply Forall_impl; [exact Hy|]. intros z Hz. simpl in Hz. lia.
    + intros [Hx Ht]. split; [|exact Ht]. by inversion Hx.
Qed.

(** X15: The weights of the interpolation in time.  The call is refused
    ([return -1]) exactly when the date is outside the two dates; when
    weights are computed they are a convex combination, they sum to 1,
    each is 1 at its own date, and they interpolate the date itself.  Two
    equal dates never give weights: the date is refused or the division
    by zero is raised. *)
Theorem interpol_weights_convex (s o d : Z) :
  (Fields.interpol_weights s o d = Fields.Rejected <->
   ~ (Z.min s o <= d <= Z.max s o))
  /\ (forall cf1 cf2,
        Fields.interpol_weights s o d = Fields.Weights cf1 cf2 ->
        (cf1 + cf2 = 1 /\ 0 <= cf1 <= 1 /\ 0 <= cf2 <= 1
         /\ cf1 * IZR s + cf2 * IZR o = IZR d)%R
        /\ (d = s -> cf1 = 1%R /\ cf2 = 0%R) /\ (d = o -> cf1 = 0%R /\ cf2 = 1%R))
  /\ (s = o -> forall cf1 cf2,
        Fields.interpol_weights s o d <> Fields.Weights cf1 cf2)
  /\ (s <> o -> Z.min s o <= d <= Z.max s o ->
      exists cf1 cf2, Fields.interpol_weights s o d = Fields.Weights cf1 cf2).
Proof.
  unfold Fields.interpol_weights, Fields.total_seconds.
  set (bad := if s <? o then (o <? d) || (d <? s) else (d <? o) || (s <? d)).
  assert (bad = true <-> ~ (Z.min s o <= d <= Z.max s o)) as Hbad.
  { unfold bad.
    destruct (Z.ltb_spec s o), (Z.ltb_spec o d), (Z.ltb_spec d s), (Z.ltb_spec d o),
      (Z.ltb_spec s d); cbn [orb]; split; intros; try discriminate; try reflexivity;
      lia. }
  split; [|split; [|split]].
  - destruct bad; [tauto|]. rewrite <- Hbad.
    destruct (o - s =? 0); split; intros; discriminate.
  - intros cf1 cf2 H. destruct bad eqn:Eb; [discriminate|].
    assert (Z.min s o <= d <= Z.max s o) as Hin
      by (destruct (decide (Z.min s o <= d <= Z.max s o)) as [|Hn];
          [assumption | apply Hbad in Hn; discriminate]).
    destruct (Z.eqb_spec (o - s) 0) as [|Hnz]; [discriminate|].
    injection H as <- <-.
    assert (IZR o - IZR s <> 0)%R as Hne.
    { intros E. apply Hnz. apply eq_IZR. rewrite minus_IZR. exact E. }
    rewrite !minus_IZR.
    set (S := IZR s) in *. set (O := IZR o) in *. set (D := IZR d) in *.
    set (cf1 := ((O - D) / 1000000 / ((O - S) / 1000000))%R).
    set (cf2 := ((D - S) / 1000000 / ((O - S) / 1000000))%R).
    assert (cf1 * (O - S) = O - D)%R as E1 by (unfold cf1; field; lra).
    assert (cf2 * (O - S) = D - S)%R as E2 by (unfold cf2; field; lra).
    assert (Rmin S O <= D <= Rmax S O)%R as HinR.
    { unfold S, O, D, Rmin, Rmax. destruct (Rle_dec (IZR s) (IZR o)) as [Hle | Hgt].
      - apply le_IZR in Hle. split; apply IZR_le; lia.
      - assert (o < s) by (apply lt_IZR; lra). split; apply IZR_le; lia. }
    assert (cf1 + cf2 = 1)%R as Hsum.
    { apply (Rmult_eq_reg_r (O - S)); [|exact Hne]. lra. }
    split; [split; [exact Hsum|]|].
    + unfold Rmin, Rmax in HinR. destruct (Rle_dec S O).
      * assert (0 < O - S)%R by lra. repeat split; nra.
      * assert (O - S < 0)%R by lra. repeat split; nra.
    + split.
      * intros Hd. assert (D = S) as HD by (unfold D, S; by rewrite Hd).
        assert (cf1 = 1)%R
          by (apply (Rmult_eq_reg_r (O - S)); [lra | exact Hne]).
        split; [assumption | lra].
      * intros Hd. assert (D = O) as HD by (unfold D, O; by rewrite Hd).
        assert (cf2 = 1)%R
          by (apply (Rmult_eq_reg_r (O - S)); [lra | exact Hne]).
        split; [lra | assumption].
  - intros -> cf1 cf2. destruct bad; [discriminate|].
    rewrite Z.sub_diag. discriminate.
  - intros Hne Hin. destruct bad eqn:Eb.
    + destruct (proj1 Hbad eq_refl Hin).
    + destruct (Z.eqb_spec (o - s) 0); [lia|]. by eexists _, _.
Qed.

(** ** The scan of the potential temperature *)

Section Profile.
Import Fields.

Lemma fold_min_spec (t : list R) : forall v,
  let m := fold_left Rmin t v in
  (m = v \/ m ∈ t) /\ (m <= v)%R /\ forall w, w ∈ t -> (m <= w)%R.
Proof.
  induction t as [|w t IH]; intros v; cbn [fold_left].
  - split; [by left|]. split; [lra|]. by intros w ?%elem_of_nil.
  - destruct (IH (Rmin v w)) as (Hin & Hle & Hall).
    pose proof (Rmin_l v w). pose proof (Rmin_r v w).
    split; [|split].
    + destruct Hin as [-> | Hin]; [|right; by right].
      unfold Rmin. destruct (Rle_dec v w); [by left | right; by left].
    + lra.
    + intros u [-> | Hu]%elem_of_cons; [lra | by apply Hall].
Qed.

Lemma np_min_spec l m :
  np_min l = Some m -> m ∈ l /\ forall w, w ∈ l -> (m <= w)%R.
Proof.
  destruct l as [|v t]; [discriminate|]. intros H. injection H as <-.
  destruct (fold_min_spec t v) as (Hin & Hle & Hall). split.
  - destruct Hin as [-> | Hin]; [left | by right].
  - intros w [-> | Hw]%elem_of_cons; [exact Hle | by apply Hall].
Qed.

Lemma np_min_None l : np_min l = None <-> l = [].
Proof. by destruct l. Qed.

Lemma scan_from_spec d : forall s,
  match scan_from s d with
  | Inversion lev =>
      exists (i : nat) slab v,
        lev = (s + i)%nat /\ d !! i = Some slab /\ v ∈ mjoin slab /\ (v < 0)%R
        /\ forall (i' : nat) slab' w,
             (i' < i)%nat -> d !! i' = Some slab' -> w ∈ mjoin slab' -> (0 <= w)%R
  | NoInversion =>
      forall (i : nat) slab w, d !! i = Some slab -> w ∈ mjoin slab -> (0 <= w)%R
  | EmptySlab => exists (i : nat) slab, d !! i = Some slab /\ mjoin slab = []
  end.
Proof.
  induction d as [|slab d IH]; intros s; cbn [scan_from].
  - intros i slab w H. discriminate.
  - destruct (np_min (mjoin slab)) as [m|] eqn:Hm.
    2:{ exists 0%nat, slab. split; [reflexivity | by apply np_min_None]. }
    destruct (np_min_spec _ _ Hm) as [Hin Hall].
    destruct (Rlt_dec m 0) as [Hneg | Hpos].
    + exists 0%nat, slab, m. split; [lia|]. split; [reflexivity|].
      split; [exact Hin|]. split; [exact Hneg|]. intros i'; lia.
    + specialize (IH (S s)). destruct (scan_from (S s) d) as [lev| |].
      * destruct IH as (i & slab0 & v & -> & Hi & Hv & Hneg & Hbefore).
        exists (S i), slab0, v. split; [lia|]. split; [exact Hi|].
        split; [exact Hv|]. split; [exact Hneg|].
        intros [|i'] slab' w Hlt Hs Hw.
        -- injection Hs as <-. specialize (Hall w Hw). lra.
        -- apply (Hbefore i' slab' w); [lia | exact Hs | exact Hw].
      * intros [|i] slab' w Hs Hw.
        -- injection Hs as <-. specialize (Hall w Hw). lra.
        -- by apply (IH i slab' w).
      * destruct IH as (i & slab0 & Hi & He). by exists (S i), slab0.
Qed.

Lemma level_drop_lookup PT (lev : nat) slab :
  level_drop PT !! lev = Some slab <->
  exists A B, PT !! lev = Some A /\ PT !! S lev = Some B
              /\ slab = zip_with (zip_with Rminus) A B.
Proof.
  unfold level_drop. rewrite lookup_zip_with_Some. split.
  - intros (A & B & -> & HA & HB). apply lookup_take_Some in HA as [HA _].
    rewrite lookup_drop in HB. by exists A, B.
  - intros (A & B & HA & HB & ->). exists A, B. split; [reflexivity|].
    split; [|by rewrite lookup_drop].
    apply lookup_take_Some. split; [exact HA|]. apply lookup_lt_Some in HB. lia.
Qed.

Lemma slab_drop_entries (A B : list (list R)) w :
  w ∈ mjoin (zip_with (zip_with Rminus) A B) <->
  exists (j k : nat) a b,
    (A !! j ≫= fun row => row !! k) = Some a
    /\ (B !! j ≫= fun row => row !! k) = Some b /\ w = (a - b)%R.
Proof.
  rewrite list_elem_of_join. split.
  - intros (row & Hw & Hrow). apply list_elem_of_lookup_1 in Hrow as [j Hj].
    apply lookup_zip_with_Some in Hj as (ra & rb & -> & Hra & Hrb).
    apply list_elem_of_lookup_1 in Hw as [k Hk].
    apply lookup_zip_with_Some in Hk as (a & b & -> & Ha & Hb).
    exists j, k, a, b. rewrite Hra, Hrb. by repeat split.
  - intros (j & k & a & b & Ha & Hb & ->).
    apply bind_Some in Ha as (ra & Hra & Ha). apply bind_Some in Hb as (rb & Hrb & Hb).
    exists (zip_with Rminus ra rb). split.
    + apply list_elem_of_lookup. exists k. apply lookup_zip_with_Some. by exists a, b.
    + apply list_elem_of_lookup. exists j. apply lookup_zip_with_Some. by exists ra, rb.
Qed.

Lemma entry3_split PT (lev j k : nat) slab :
  PT !! lev = Some slab ->
  entry3 PT lev j k = (slab !! j ≫= fun row => row !! k).
Proof. unfold entry3. by intros ->. Qed.

Lemma level_entries PT lev slab w :
  level_drop PT !! lev = Some slab ->
  w ∈ mjoin slab <->
  exists (j k : nat) a b,
    entry3 PT lev j k = Some a /\ entry3 PT (S lev) j k = Some b /\ w = (a - b)%R.
Proof.
  intros (A & B & HA & HB & ->)%level_drop_lookup.
  rewrite slab_drop_entries. setoid_rewrite (entry3_split PT lev _ _ A HA).
  by setoid_rewrite (entry3_split PT (S lev) _ _ B HB).
Qed.

Lemma level_entries_none PT lev j k a b :
  entry3 PT lev j k = Some a -> entry3 PT (S lev) j k = Some b ->
  exists slab, level_drop PT !! lev = Some slab /\ (a - b)%R ∈ mjoin slab.
Proof.
  intros Ha Hb. unfold entry3 in Ha, Hb.
  destruct (PT !! lev) as [A|] eqn:HA; [|discriminate].
  destruct (PT !! S lev) as [B|] eqn:HB; [|discriminate].
  exists (zip_with (zip_with Rminus) A B). split.
  - apply level_drop_lookup. by exists A, B.
  - apply slab_drop_entries. by exists j, k, a, b.
Qed.
End Profile.

(** X16: [_checkThetProfile] returns the first level at which the potential
    temperature is below that of the next level somewhere on the grid,
    every level before it being nowhere below the next; it runs to the
    end of its loop (and returns [None]) exactly when no level is
    anywhere below the next; the minimum of an empty slab is only asked
    for when two successive levels share no grid point, which does not
    happen on a grid with at least one row and one column. *)
Theorem theta_profile_scan PT :
  match Fields.checkThetProfile PT with
  | Fields.Inversion lev =>
      (exists (j k : nat) a b,
         Fields.entry3 PT lev j k = Some a /\ Fields.entry3 PT (S lev) j k = Some b
         /\ (a < b)%R)
      /\ forall (lev' j k : nat) a b,
           (lev' < lev)%nat -> Fields.entry3 PT lev' j k = Some a ->
           Fields.entry3 PT (S lev') j k = Some b -> (b <= a)%R
  | Fields.NoInversion =>
      forall (lev j k : nat) a b,
        Fields.entry3 PT lev j k = Some a -> Fields.entry3 PT (S lev) j k = Some b ->
        (b <= a)%R
  | Fields.EmptySlab =>
      (exists lev : nat,
         (S lev < length PT)%nat
         /\ forall j k : nat,
              Fields.entry3 PT lev j k = None \/ Fields.entry3 PT (S lev) j k = None)
      /\ forall nlat nlon,
           (0 < nlat)%nat -> (0 < nlon)%nat ->
           ~ Forall (Fields.shaped nlat nlon) PT
  end.
Proof.
  unfold Fields.checkThetProfile.
  pose proof (scan_from_spec (Fields.level_drop PT) 0) as H.
  destruct (Fields.scan_from 0 (Fields.level_drop PT)) as [lev| |].
  - destruct H as (i & slab & v & -> & Hi & Hv & Hneg & Hbefore). simpl. split.
    + apply (level_entries PT i slab v Hi) in Hv as (j & k & a & b & Ha & Hb & ->).
      exists j, k, a, b. repeat split; trivial. lra.
    + intros lev' j k a b Hlt Ha Hb.
      destruct (level_entries_none PT lev' j k a b Ha Hb) as (slab' & Hs & Hw).
      specialize (Hbefore lev' slab' _ Hlt Hs Hw). lra.
  - intros lev j k a b Ha Hb.
    destruct (level_entries_none PT lev j k a b Ha Hb) as (slab' & Hs & Hw).
    specialize (H lev slab' _ Hs Hw). lra.
  - destruct H as (i & slab & Hi & He).
    assert (forall j k : nat,
              Fields.entry3 PT i j k = None \/ Fields.entry3 PT (S i) j k = None)
      as Hnone.
    { intros j k.
      destruct (Fields.entry3 PT i j k) as [a|] eqn:Ha; [|by left].
      destruct (Fields.entry3 PT (S i) j k) as [b|] eqn:Hb; [|by right].
      exfalso. destruct (level_entries_none PT i j k a b Ha Hb) as (slab' & Hs & Hw).
      rewrite Hi in Hs. injection Hs as <-. rewrite He in Hw.
      by apply elem_of_nil in Hw. }
    apply level_drop_lookup in Hi as Hi'. destruct Hi' as (A & B & HA & HB & _).
    split.
    + exists i. split; [by eapply lookup_lt_Some | exact Hnone].
    + intros nlat nlon Hlat Hlon Hsh. rewrite Forall_forall in Hsh.
      destruct (Hsh A (list_elem_of_lookup_2 _ _ _ HA)) as [HlA HrA].
      destruct (Hsh B (list_elem_of_lookup_2 _ _ _ HB)) as [HlB HrB].
      destruct (lookup_lt_is_Some_2 A 0) as [ra Hra]; [lia|].
      destruct (lookup_lt_is_Some_2 B 0) as [rb Hrb]; [lia|].
      rewrite Forall_forall in HrA, HrB.
      destruct (lookup_lt_is_Some_2 ra 0) as [a Ha].
      { rewrite (HrA ra (list_elem_of_lookup_2 _ _ _ Hra)). lia. }
      destruct (lookup_lt_is_Some_2 rb 0) as [b Hb].
      { rewrite (HrB rb (list_elem_of_lookup_2 _ _ _ Hrb)). lia. }
      destruct (Hnone 0%nat 0%nat) as [E | E]; unfold Fields.entry3 in E.
      * rewrite HA in E. simpl in E. rewrite Hra in E. simpl in E. congruence.
      * rewrite HB in E. simpl in E. rewrite Hrb in E. simpl in E. congruence.
Qed.

(** ** The nearest node and the sub-grid *)

Section Nearest.
Import Fields.

Lemma argmin_from_spec (L : list R) : forall l pre best vbest,
  L = pre ++ l -> L !! best = Some vbest -> (best < length pre)%nat ->
  (forall (j : nat) w, (j < length pre)%nat -> L !! j = Some w -> (vbest <= w)%R) ->
  (forall (j : nat) w, (j < best)%nat -> L !! j = Some w -> (vbest < w)%R) ->
  exists v,
    L !! argmin_from best vbest (length pre) l = Some v
    /\ (forall (j : nat) w, L !! j = Some w -> (v <= w)%R)
    /\ (forall (j : nat) w,
          (j < argmin_from best vbest (length pre) l)%nat -> L !! j = Some w ->
          (v < w)%R).
Proof.
  induction l as [|v t IH]; intros pre best vbest HL Hbest Hlt Hall Hfirst;
    cbn [argmin_from].
  - exists vbest. split; [exact Hbest|]. split; [|exact Hfirst].
    intros j w Hj. apply (Hall j w); [|exact Hj].
    apply lookup_lt_Some in Hj. rewrite HL, app_nil_r in Hj. exact Hj.
  - assert (L = (pre ++ [v]) ++ t) as HL' by (by rewrite <- app_assoc).
    assert (length (pre ++ [v]) = S (length pre)) as Hlen
      by (rewrite length_app; simpl; lia).
    assert (L !! length pre = Some v) as Hv.
    { rewrite HL. rewrite lookup_app_r by lia. by rewrite Nat.sub_diag. }
    destruct (Rlt_dec v vbest) as [Hless | Hge].
    + specialize (IH (pre ++ [v]) (length pre) v HL' Hv). rewrite Hlen in IH.
      apply IH; [lia | |].
      * intros j w Hj Hw. destruct (decide (j = length pre)) as [-> | Hne].
        -- rewrite Hv in Hw. injection Hw as <-. lra.
        -- specialize (Hall j w ltac:(lia) Hw). lra.
      * intros j w Hj Hw. specialize (Hall j w Hj Hw). lra.
    + specialize (IH (pre ++ [v]) best vbest HL' Hbest). rewrite Hlen in IH.
      apply IH; [lia | | exact Hfirst].
      intros j w Hj Hw. destruct (decide (j = length pre)) as [-> | Hne].
      * rewrite Hv in Hw. injection Hw as <-. lra.
      * apply (Hall j w); [lia | exact Hw].
Qed.

(** [np.argmin]: the position of a least entry, the first one. *)
Lemma argmin_spec l (i : nat) :
  argmin l = Some i ->
  exists v, l !! i = Some v
    /\ (forall (j : nat) w, l !! j = Some w -> (v <= w)%R)
    /\ (forall (j : nat) w, (j < i)%nat -> l !! j = Some w -> (v < w)%R).
Proof.
  destruct l as [|v t]; [discriminate|]. intros H. injection H as <-.
  apply (argmin_from_spec (v :: t) t [v] 0%nat v); trivial; [simpl; lia | |].
  - intros [|j] w Hj Hw; [|simpl in Hj; lia]. injection Hw as <-. lra.
  - intros j w Hj. lia.
Qed.

Lemma argmin_is_Some l : l <> [] -> is_Some (argmin l).
Proof. destruct l; [done | by eexists]. Qed.

Lemma nearest_node_spec coords y (i : nat) :
  nearest_node coords y = Some i ->
  exists c, coords !! i = Some c
    /\ (forall (j : nat) c', coords !! j = Some c' -> (Rabs (c - y) <= Rabs (c' - y))%R)
    /\ (forall (j : nat) c', (j < i)%nat -> coords !! j = Some c' ->
          (Rabs (c - y) < Rabs (c' - y))%R).
Proof.
  intros H. apply argmin_spec in H as (v & Hv & Hall & Hfirst).
  rewrite list_lookup_fmap in Hv.
  destruct (coords !! i) as [c|] eqn:Hc; [|discriminate]. injection Hv as <-.
  exists c. split; [reflexivity|]. split.
  - intros j c' Hj. apply (Hall j). by rewrite list_lookup_fmap, Hj.
  - intros j c' Hlt Hj. apply (Hfirst j); [exact Hlt|].
    by rewrite list_lookup_fmap, Hj.
Qed.

(** Along a growing axis the nearest node moves with the target. *)
Lemma nearest_node_mono coords lo hi (a b : nat) :
  increasing coords -> (lo <= hi)%R ->
  nearest_node coords lo = Some a -> nearest_node coords hi = Some b ->
  (a <= b)%nat.
Proof.
  intros Hinc Hle Ha Hb.
  destruct (nearest_node_spec _ _ _ Ha) as (ca & Hca & _ & Hfa).
  destruct (nearest_node_spec _ _ _ Hb) as (cb & Hcb & Hallb & _).
  destruct (le_lt_dec a b) as [|Hlt]; [assumption|]. exfalso.
  pose proof (Hinc b a cb ca Hlt Hcb Hca) as Hord.
  pose proof (Hfa b cb Hlt Hcb) as H1. pose proof (Hallb a ca Hca) as H2.
  unfold Rabs in H1, H2.
  destruct (Rcase_abs (ca - lo)), (Rcase_abs (cb - lo)), (Rcase_abs (cb - hi)),
    (Rcase_abs (ca - hi)); lra.
Qed.
End Nearest.

(** X17: [getxy] gives the value of the variable at the node of the grid
    nearest to the point, in latitude and in longitude, the first such
    node in case of a tie. *)
Theorem getxy_nearest {K} `{EqDecision K} (self : @Fields.ecmwf K) name lev y x r :
  Fields.getxy self name lev y x = Some r ->
  exists (jy ix : nat) lat lon a slab row,
    Fields.lats self !! jy = Some lat /\ Fields.lons self !! ix = Some lon
    /\ (forall (j : nat) lat', Fields.lats self !! j = Some lat' ->
          (Rabs (lat - y) <= Rabs (lat' - y))%R
          /\ ((j < jy)%nat -> (Rabs (lat - y) < Rabs (lat' - y))%R))
    /\ (forall (i : nat) lon', Fields.lons self !! i = Some lon' ->
          (Rabs (lon - x) <= Rabs (lon' - x))%R
          /\ ((i < ix)%nat -> (Rabs (lon - x) < Rabs (lon' - x))%R))
    /\ Fields.lookup_var self name = Some (Fields.F3 a)
    /\ aget a lev = Some slab /\ slab !! jy = Some row /\ row !! ix = Some r.
Proof.
  intros H. unfold Fields.getxy in H.
  apply bind_Some in H as (jy & Hjy & H). apply bind_Some in H as (ix & Hix & H).
  apply bind_Some in H as (f & Hf & H). destruct f as [|a]; [discriminate|].
  apply bind_Some in H as (slab & Hslab & H). apply bind_Some in H as (row & Hrow & H).
  destruct (nearest_node_spec _ _ _ Hjy) as (lat & Hlat & Hlall & Hlfirst).
  destruct (nearest_node_spec _ _ _ Hix) as (lon & Hlon & Hoall & Hofirst).
  exists jy, ix, lat, lon, a, slab, row.
  split; [exact Hlat|]. split; [exact Hlon|].
  split; [intros j lat' Hj; split; [by eapply Hlall | intros; by eapply Hlfirst]|].
  split; [intros i lon' Hi; split; [by eapply Hoall | intros; by eapply Hofirst]|].
  by repeat split.
Qed.

Section NearestIntro.
Import Fields.

(** The first node nearest to the target is the one [nearest_node]
    finds. *)
Lemma nearest_node_intro coords y (i : nat) c :
  coords !! i = Some c ->
  (forall (j : nat) c', coords !! j = Some c' -> (Rabs (c - y) <= Rabs (c' - y))%R) ->
  (forall (j : nat) c', (j < i)%nat -> coords !! j = Some c' ->
     (Rabs (c - y) < Rabs (c' - y))%R) ->
  nearest_node coords y = Some i.
Proof.
  intros Hc Hall Hfirst.
  destruct (argmin_is_Some ((fun c => Rabs (c - y)) <$> coords)) as [i' Hi'].
  { destruct coords; [discriminate | done]. }
  unfold nearest_node. rewrite Hi'. f_equal.
  destruct (nearest_node_spec coords y i' Hi') as (c' & Hc' & Hall' & Hfirst').
  destruct (lt_eq_lt_dec i i') as [[Hlt | ->] | Hgt]; [exfalso | reflexivity | exfalso].
  - pose proof (Hfirst' i c Hlt Hc). pose proof (Hall i' c' Hc'). lra.
  - pose proof (Hfirst i' c' Hgt Hc'). pose proof (Hall' i c Hc). lra.
Qed.

Lemma scenario_lat : nearest_node [0; 1; 2]%R (12 / 10) = Some 1%nat.
Proof.
  apply (nearest_node_intro _ _ 1%nat 1%R); [reflexivity | |].
  - intros [|[|[|j]]] c' Hj; try discriminate; injection Hj as <-;
      unfold Rabs; repeat destruct (Rcase_abs _); lra.
  - intros [|j] c' Hlt Hj; [|lia]. injection Hj as <-.
    unfold Rabs; repeat destruct (Rcase_abs _); lra.
Qed.

Lemma scenario_lon : nearest_node [10; 11]%R (109 / 10) = Some 1%nat.
Proof.
  apply (nearest_node_intro _ _ 1%nat 11%R); [reflexivity | |].
  - intros [|[|j]] c' Hj; try discriminate; injection Hj as <-;
      unfold Rabs; repeat destruct (Rcase_abs _); lra.
  - intros [|j] c' Hlt Hj; [|lia]. injection Hj as <-.
    unfold Rabs; repeat destruct (Rcase_abs _); lra.
Qed.

Lemma scenario_getxy :
  getxy Scenario.obj 0%nat 0 (12 / 10) (109 / 10) = Some 4%R.
Proof.
  unfold getxy. change (lats Scenario.obj) with [0; 1; 2]%R.
  change (lons Scenario.obj) with [10; 11]%R.
  rewrite scenario_lat, scenario_lon. reflexivity.
Qed.
End NearestIntro.

Lemma getxy_nearest_witness :
  Fields.getxy Scenario.obj 0%nat 0 (12 / 10) (109 / 10) = Some 4%R
  /\ exists (jy ix : nat) lat lon,
       Fields.lats Scenario.obj !! jy = Some lat
       /\ Fields.lons Scenario.obj !! ix = Some lon
       /\ (Rabs (lat - 12 / 10) <= Rabs (2 - 12 / 10))%R.
Proof.
  split; [exact scenario_getxy|].
  destruct (getxy_nearest Scenario.obj 0%nat 0 (12 / 10)%R (109 / 10)%R 4%R
              scenario_getxy)
    as (jy & ix & lat & lon & a & slab & row & Hlat & Hlon & Hl & _).
  exists jy, ix, lat, lon. split; [exact Hlat|]. split; [exact Hlon|].
  exact (proj1 (Hl 2%nat 2%R eq_refl)).
Defined.

(** ** The extraction of a sub-grid *)

Section Extraction.
Import Fields.

Lemma slice_length {A} (a b : nat) (l : list A) :
  length (slice a b l) = Nat.min (b - a) (length l - a).
Proof. unfold slice. by rewrite length_take, length_drop. Qed.

Lemma slice_length_eq {A B} (a b : nat) (l : list A) (l' : list B) :
  length l = length l' -> length (slice a b l) = length (slice a b l').
Proof. intros H. by rewrite !slice_length, H. Qed.

Lemma slice_whole {A} (n : nat) (l : list A) : length l = n -> slice 0 n l = l.
Proof. intros <-. unfold slice. rewrite drop_0, Nat.sub_0_r. apply firstn_all. Qed.

Lemma slice_elem {A} (a b : nat) (l : list A) x : x ∈ slice a b l -> x ∈ l.
Proof.
  unfold slice. intros H. apply list_elem_of_lookup_1 in H as [i Hi].
  apply lookup_take_Some in Hi as [Hi _]. rewrite lookup_drop in Hi.
  by eapply list_elem_of_lookup_2.
Qed.

Lemma slice_parts {A} (a b : nat) (l : list A) :
  (a <= b)%nat -> l = take a l ++ slice a b l ++ drop b l.
Proof.
  intros Hab. unfold slice.
  rewrite <- (take_drop a l) at 1. f_equal.
  rewrite <- (take_drop (b - a) (drop a l)) at 1. f_equal.
  rewrite drop_drop. f_equal. lia.
Qed.

Lemma extract_field_shaped nlat nlon (lats lons : list R) ya yb xa xb f :
  length lats = nlat -> length lons = nlon -> field_shaped nlat nlon f ->
  field_shaped (length (slice ya yb lats)) (length (slice xa xb lons))
    (extract_field ya yb xa xb f).
Proof.
  intros Hlat Hlon.
  assert (forall slab, shaped nlat nlon slab ->
            shaped (length (slice ya yb lats)) (length (slice xa xb lons))
              (slice xa xb <$> slice ya yb slab)) as Hslab.
  { intros slab [Hl Hr]. split.
    - rewrite length_fmap. apply slice_length_eq. congruence.
    - apply Forall_fmap, Forall_forall. intros row Hrow. simpl.
      apply slice_length_eq. rewrite Forall_forall in Hr.
      rewrite (Hr row (slice_elem _ _ _ _ Hrow)). congruence. }
  destruct f as [a | a]; simpl.
  - apply Hslab.
  - intros Hall. apply Forall_fmap. eapply Forall_impl; [exact Hall|]. apply Hslab.
Qed.

Lemma extract_field_whole nlat nlon f :
  field_shaped nlat nlon f -> extract_field 0 nlat 0 nlon f = f.
Proof.
  assert (forall slab, shaped nlat nlon slab ->
            slice 0 nlon <$> slice 0 nlat slab = slab) as Hslab.
  { intros slab [Hl Hr]. rewrite (slice_whole _ _ Hl).
    rewrite <- (list_fmap_id slab) at 2. apply Forall_fmap_ext_1.
    eapply Forall_impl; [exact Hr|]. intros row Hrow. by apply slice_whole. }
  destruct f as [a | a]; simpl; intros H.
  - by rewrite Hslab.
  - f_equal. rewrite <- (list_fmap_id a) at 2. apply Forall_fmap_ext_1.
    eapply Forall_impl; [exact H|]. apply Hslab.
Qed.

(** The part of an axis kept for a range of two bounds. *)
Lemma axis_window coords lo hi (a b : nat) :
  increasing coords -> (lo <= hi)%R ->
  axis_range coords (Some (lo, hi)) = Some (a, b) ->
  exists first last_,
    head (slice a b coords) = Some first /\ last (slice a b coords) = Some last_
    /\ (forall c, c ∈ coords -> (Rabs (first - lo) <= Rabs (c - lo))%R)
    /\ (forall c, c ∈ coords -> (Rabs (last_ - hi) <= Rabs (c - hi))%R)
    /\ coords = take a coords ++ slice a b coords ++ drop b coords.
Proof.
  intros Hinc Hle H. unfold axis_range in H.
  apply bind_Some in H as (nmin & Hmin & H). apply bind_Some in H as (nmax & Hmax & H).
  injection H as <- <-.
  pose proof (nearest_node_mono _ _ _ _ _ Hinc Hle Hmin Hmax) as Hord.
  destruct (nearest_node_spec _ _ _ Hmin) as (first & Hfirst & Hfall & _).
  destruct (nearest_node_spec _ _ _ Hmax) as (last_ & Hlast & Hlall & _).
  exists first, last_.
  assert (length (slice nmin (S nmax) coords) = (S nmax - nmin)%nat) as Hlen.
  { rewrite slice_length. apply lookup_lt_Some in Hlast. lia. }
  split; [|split; [|split; [|split]]].
  - rewrite head_lookup. unfold slice. rewrite lookup_take_lt by lia.
    rewrite lookup_drop. by rewrite Nat.add_0_r.
  - rewrite last_lookup, Hlen. unfold slice. rewrite lookup_take_lt by lia.
    rewrite lookup_drop. rewrite <- Hlast. f_equal. lia.
  - intros c [j Hj]%list_elem_of_lookup_1. by eapply Hfall.
  - intros c [j Hj]%list_elem_of_lookup_1. by eapply Hlall.
  - apply slice_parts. lia.
Qed.
End Extraction.

(** X18: [extract] keeps the object consistent: the axes and the fields of the
    sub-grid have the dimensions it records, the levels and the names of
    the variables are those of the grid; and without a range in latitude
    or in longitude it gives the grid back. *)
Theorem extract_consistent {K} `{EqDecision K} (self : @Fields.ecmwf K)
    latRange lonRange :
  Fields.well_shaped self ->
  (forall new,
     Fields.extract self latRange lonRange = Some new ->
     Fields.well_shaped new /\ Fields.nlev new = Fields.nlev self
     /\ fst <$> Fields.var new = fst <$> Fields.var self
     /\ (Fields.nlat new <= Fields.nlat self)%nat
     /\ (Fields.nlon new <= Fields.nlon self)%nat)
  /\ Fields.extract self None None = Some self.
Proof.
  intros (Hlat & Hlon & Hvar). split.
  - intros new H. unfold Fields.extract in H.
    apply bind_Some in H as ([ya yb] & _ & H). simpl in H.
    apply bind_Some in H as ([xa xb] & _ & H). simpl in H. injection H as <-.
    split; [|split; [|split; [|split]]]; simpl.
    + split; [reflexivity|]. split; [reflexivity|]. simpl.
      apply Forall_fmap. eapply Forall_impl; [exact Hvar|].
      intros [name f] Hf. simpl in *.
      by apply (extract_field_shaped (Fields.nlat self) (Fields.nlon self)).
    + reflexivity.
    + rewrite <- list_fmap_compose. by apply list_fmap_ext.
    + rewrite slice_length. lia.
    + rewrite slice_length. lia.
  - unfold Fields.extract. simpl.
    destruct self as [lats lons nlat nlon nlev var]. simpl in *.
    rewrite Hlat, Hlon, !slice_whole by done. rewrite Hlat, Hlon. do 2 f_equal.
    rewrite <- (list_fmap_id var) at 2. apply Forall_fmap_ext_1.
    eapply Forall_impl; [exact Hvar|]. intros [name f] Hf. simpl in *.
    by rewrite extract_field_whole.
Qed.

Lemma scenario_obj_shaped : Fields.well_shaped Scenario.obj.
Proof.
  split; [reflexivity|]. split; [reflexivity|].
  repeat constructor.
Qed.

Lemma extract_consistent_witness :
  Fields.extract Scenario.obj None None = Some Scenario.obj.
Proof.
  exact (proj2 (extract_consistent Scenario.obj None None scenario_obj_shaped)).
Defined.

(** X19: With a range of two bounds on an axis whose coordinates grow,
    [extract] keeps a stretch of the axis that is not empty: it starts at
    the node nearest to the first bound and ends at the node nearest to
    the second. *)
Theorem extract_window {K} `{EqDecision K} (self : @Fields.ecmwf K) :
  (forall lo hi lonRange new,
     Fields.increasing (Fields.lats self) -> (lo <= hi)%R ->
     Fields.extract self (Some (lo, hi)) lonRange = Some new ->
     exists first last_ before after,
       head (Fields.lats new) = Some first /\ last (Fields.lats new) = Some last_
       /\ (forall c, c ∈ Fields.lats self -> (Rabs (first - lo) <= Rabs (c - lo))%R)
       /\ (forall c, c ∈ Fields.lats self -> (Rabs (last_ - hi) <= Rabs (c - hi))%R)
       /\ Fields.lats self = before ++ Fields.lats new ++ after)
  /\ (forall latRange lo hi new,
        Fields.increasing (Fields.lons self) -> (lo <= hi)%R ->
        Fields.extract self latRange (Some (lo, hi)) = Some new ->
        exists first last_ before after,
          head (Fields.lons new) = Some first /\ last (Fields.lons new) = Some last_
          /\ (forall c, c ∈ Fields.lons self -> (Rabs (first - lo) <= Rabs (c - lo))%R)
          /\ (forall c, c ∈ Fields.lons self -> (Rabs (last_ - hi) <= Rabs (c - hi))%R)
          /\ Fields.lons self = before ++ Fields.lons new ++ after).
Proof.
  split.
  - intros lo hi lonRange new Hinc Hle H. unfold Fields.extract in H.
    apply bind_Some in H as ([ya yb] & Hy & H). simpl in H.
    apply bind_Some in H as ([xa xb] & _ & H). simpl in H. injection H as <-.
    destruct (axis_window _ _ _ _ _ Hinc Hle Hy)
      as (first & last_ & Hh & Hl & Hf & Hla & Hparts).
    exists first, last_, (take ya (Fields.lats self)), (drop yb (Fields.lats self)).
    by repeat split.
  - intros latRange lo hi new Hinc Hle H. unfold Fields.extract in H.
    apply bind_Some in H as ([ya yb] & _ & H). simpl in H.
    apply bind_Some in H as ([xa xb] & Hx & H). simpl in H. injection H as <-.
    destruct (axis_window _ _ _ _ _ Hinc Hle Hx)
      as (first & last_ & Hh & Hl & Hf & Hla & Hparts).
    exists first, last_, (take xa (Fields.lons self)), (drop xb (Fields.lons self)).
    by repeat split.
Qed.

(** ** The pressure on the levels *)

Section Pressure.
Import Fields.

Lemma mapM_same {A} (f : A -> option A) (l : list A) :
  Forall (fun x => f x = Some x) l -> mapM f l = Some l.
Proof.
  induction 1 as [|x l Hx _ IH]; [reflexivity|]. simpl. by rewrite Hx, IH.
Qed.

Lemma broadcast_axis_same {A} (n : nat) (l : list A) :
  length l = n -> broadcast_axis n l = Some l.
Proof. intros H. unfold broadcast_axis. by rewrite decide_True. Qed.

(** On a surface pressure of the dimensions of the grid, the slab of a
    level is computed entry by entry. *)
Lemma level_pressure_shaped a b levs nlat nlon SP i slab :
  shaped nlat nlon SP ->
  level_pressure a b levs nlat nlon SP i = Some slab ->
  exists lev ca cb,
    levs !! i = Some lev /\ aget a (lev - 1) = Some ca /\ aget b (lev - 1) = Some cb
    /\ slab = (fun row : list R => (fun sp => ca + cb * sp)%R <$> row) <$> SP.
Proof.
  intros [Hl Hr] H. unfold level_pressure in H.
  apply bind_Some in H as (lev & Hlev & H). apply bind_Some in H as (ca & Hca & H).
  apply bind_Some in H as (cb & Hcb & H).
  rewrite broadcast_axis_same in H by (by rewrite length_fmap). simpl in H.
  rewrite mapM_same in H.
  - injection H as <-. by exists lev, ca, cb.
  - apply Forall_fmap. eapply Forall_impl; [exact Hr|]. intros row Hrow. simpl.
    apply broadcast_axis_same. by rewrite length_fmap.
Qed.

Lemma levels_lookup a b levs nlev nlat nlon SP P (i : nat) slab :
  mapM (level_pressure a b levs nlat nlon SP) (seq 0 nlev) = Some P ->
  P !! i = Some slab -> level_pressure a b levs nlat nlon SP i = Some slab.
Proof.
  intros H Hi. apply mapM_Some in H.
  destruct (Forall2_lookup_r _ _ _ _ _ H Hi) as (i' & Hi' & Hs).
  apply lookup_seq in Hi' as [-> _]. exact Hs.
Qed.

Lemma level_entry a b levs nlev nlat nlon SP P (i j k : nat) p :
  shaped nlat nlon SP ->
  mapM (level_pressure a b levs nlat nlon SP) (seq 0 nlev) = Some P ->
  entry3 P i j k = Some p ->
  exists lev ca cb sp,
    levs !! i = Some lev /\ aget a (lev - 1) = Some ca /\ aget b (lev - 1) = Some cb
    /\ (SP !! j ≫= fun row => row !! k) = Some sp /\ p = (ca + cb * sp)%R.
Proof.
  intros Hsh H Hp. unfold entry3 in Hp.
  apply bind_Some in Hp as (slab & Hslab & Hp).
  apply (levels_lookup _ _ _ _ _ _ _ _ _ _ H) in Hslab.
  destruct (level_pressure_shaped _ _ _ _ _ _ _ _ Hsh Hslab)
    as (lev & ca & cb & Hlev & Hca & Hcb & ->).
  apply bind_Some in Hp as (row & Hrow & Hp).
  rewrite list_lookup_fmap in Hrow.
  destruct (SP !! j) as [r|] eqn:Hr; [|discriminate]. injection Hrow as <-.
  rewrite list_lookup_fmap in Hp.
  destruct (r !! k) as [sp|] eqn:Hsp; [|discriminate]. injection Hp as <-.
  exists lev, ca, cb, sp. by repeat split.
Qed.

(** The coefficient of a full level is the mean of those of the two half
    levels around it. *)
Lemma mid_lookup (a : list R) lev c0 c1 :
  1 <= lev -> aget a (lev - 1) = Some c0 -> aget a lev = Some c1 ->
  aget (mid a) (lev - 1) = Some ((c1 + c0) / 2)%R.
Proof.
  intros Hlev H0 H1.
  apply aget_lookup in H0 as (k0 & Hk0 & H0). apply aget_lookup in H1 as (k1 & Hk1 & H1).
  apply lookup_lt_Some in H1 as Hlt.
  unfold resolve in Hk0, Hk1.
  destruct (Z.leb_spec 0 (lev - 1)); [|lia]. destruct (Z.leb_spec 0 lev); [|lia].
  destruct (Z.ltb_spec (lev - 1) (Z.of_nat (length a))); simpl in Hk0;
    [|destruct (Z.leb_spec (- Z.of_nat (length a)) (lev - 1)),
        (Z.ltb_spec (lev - 1) 0); simpl in Hk0; try discriminate; lia].
  destruct (Z.ltb_spec lev (Z.of_nat (length a))); simpl in Hk1;
    [|destruct (Z.leb_spec (- Z.of_nat (length a)) lev),
        (Z.ltb_spec lev 0); simpl in Hk1; try discriminate; lia].
  injection Hk0 as <-. injection Hk1 as <-.
  assert (length (mid a) = (length a - 1)%nat) as Hlen.
  { unfold mid. rewrite length_zip_with, length_drop, length_take. lia. }
  apply aget_lookup. exists (Z.to_nat (lev - 1)). split.
  - rewrite Hlen. apply resolve_nonneg. lia.
  - unfold mid. apply lookup_zip_with_Some. exists c1, c0.
    split; [reflexivity|]. split.
    + rewrite lookup_drop. rewrite <- H1. f_equal. lia.
    + rewrite lookup_take_lt by lia. exact H0.
Qed.
End Pressure.

(** X20: The pressure [_mkp] gives on a full level is, at every point of the
    grid, the mean of the pressures [_mkpz] gives on the two half levels
    around it: the one with the number of the level and the next one. *)
Theorem full_level_between_half_levels pv levs nlev nlat nlon SP P PZ
    (i i' j k : nat) lev p z z' :
  Fields.shaped nlat nlon SP ->
  Fields.mkp pv levs nlev nlat nlon SP = Some P ->
  Fields.mkpz pv levs nlev nlat nlon SP = Some PZ ->
  1 <= lev -> levs !! i = Some lev -> levs !! i' = Some (lev + 1) ->
  Fields.entry3 P i j k = Some p ->
  Fields.entry3 PZ i j k = Some z -> Fields.entry3 PZ i' j k = Some z' ->
  p = ((z + z') / 2)%R.
Proof.
  intros Hsh HP HPZ Hlev Hi Hi' Hp Hz Hz'.
  destruct (level_entry _ _ _ _ _ _ _ _ _ _ _ _ Hsh HP Hp)
    as (l & ca & cb & sp & Hl & Hca & Hcb & Hsp & ->).
  destruct (level_entry _ _ _ _ _ _ _ _ _ _ _ _ Hsh HPZ Hz)
    as (l0 & a0 & b0 & sp0 & Hl0 & Ha0 & Hb0 & Hsp0 & ->).
  destruct (level_entry _ _ _ _ _ _ _ _ _ _ _ _ Hsh HPZ Hz')
    as (l1 & a1 & b1 & sp1 & Hl1 & Ha1 & Hb1 & Hsp1 & ->).
  assert (l = lev) as -> by congruence. assert (l0 = lev) as -> by congruence.
  assert (l1 = lev + 1) as -> by congruence.
  assert (sp0 = sp) as -> by congruence. assert (sp1 = sp) as -> by congruence.
  replace (lev + 1 - 1) with lev in Ha1, Hb1 by lia.
  unfold Fields.am in Hca. unfold Fields.bm in Hcb.
  rewrite (mid_lookup _ _ _ _ Hlev Ha0 Ha1) in Hca.
  rewrite (mid_lookup _ _ _ _ Hlev Hb0 Hb1) in Hcb.
  injection Hca as <-. injection Hcb as <-. field.
Qed.

Lemma full_level_between_half_levels_witness :
  exists P PZ p z z',
    Fields.mkp [0; 10; 20; 1; 1 / 2; 0]%R [1; 2] 2 1 1 [[1000%R]] = Some P
    /\ Fields.mkpz [0; 10; 20; 1; 1 / 2; 0]%R [1; 2] 2 1 1 [[1000%R]] = Some PZ
    /\ Fields.entry3 P 0 0 0 = Some p
    /\ Fields.entry3 PZ 0 0 0 = Some z /\ Fields.entry3 PZ 1 0 0 = Some z'
    /\ p = ((z + z') / 2)%R.
Proof.
  do 5 eexists.
  split; [reflexivity|]. split; [reflexivity|].
  split; [reflexivity|]. split; [reflexivity|]. split; [reflexivity|].
  eapply (full_level_between_half_levels [0; 10; 20; 1; 1 / 2; 0]%R [1; 2] 2 1 1
            [[1000%R]] _ _ 0%nat 1%nat 0%nat 0%nat 1);
    try reflexivity; first [by repeat constructor | lia].
Defined.

(** ** Sweeping twice *)

Section SweepTwice.
Import Parcels.
Variable IDX_ORGN : Z.

(** A flag the age sweep has marked stays as marked to the end of the
    loop. *)
Lemma age_sweep_keeps_mark n pa irs st0 l s s' k f0 :
  table_ok n st0 -> sweeping n (I_DEAD + I_OLD) st0 s ->
  for_each (age_sweep_body IDX_ORGN pa irs st0) l s = Some s' ->
  flag_source st0 !! k = Some f0 ->
  flag_source s !! k = Some (Z.lor f0 (I_DEAD + I_OLD)) ->
  sweeping n (I_DEAD + I_OLD) st0 s'
  /\ flag_source s' !! k = Some (Z.lor f0 (I_DEAD + I_OLD)).
Proof.
  intros Hok0 Hsw Hloop Hf0 Hmark. revert Hloop.
  apply (for_each_inv (fun s => sweeping n (I_DEAD + I_OLD) st0 s
                                /\ flag_source s !! k
                                   = Some (Z.lor f0 (I_DEAD + I_OLD))));
    [|by split].
  intros j t t' _ [Ht Hk] Hb. unfold age_sweep_body in Hb.
  apply bind_Some in Hb as (ib & Hib & Hb). apply bind_Some in Hb as (g0 & Hg0 & Hb).
  apply bind_Some in Hb as (fl & Hset & Hb).
  apply bind_Some in Hb as (vx & Hvx & Hb). apply bind_Some in Hb as (vy & Hvy & Hb).
  apply bind_Some in Hb as (vp & Hvp & Hb). apply bind_Some in Hb as (vt & Hvt & Hb).
  apply bind_Some in Hb as (start & Hstart & Hb).
  apply bind_Some in Hb as (m & Hm & Hb). injection Hb as <-.
  destruct (sweeping_write _ _ _ _ _ _ _ _ _ _ _ _ _ _ Hok0 Ht Hg0 Hset Hm)
    as (Ht' & k' & Hk' & Hk0 & -> & _).
  split; [exact Ht'|]. simpl.
  destruct (decide (k = k')) as [<- | Hne].
  - assert (g0 = f0) as -> by congruence.
    apply list_lookup_insert_eq. by eapply lookup_lt_Some.
  - by rewrite list_lookup_insert_ne.
Qed.

(** After the loop, the parcel of every position in the list is
    marked. *)
Lemma age_sweep_marks n pa irs st0 l : forall s s',
  table_ok n st0 -> sweeping n (I_DEAD + I_OLD) st0 s ->
  for_each (age_sweep_body IDX_ORGN pa irs st0) l s = Some s' ->
  sweeping n (I_DEAD + I_OLD) st0 s'
  /\ forall j ib k f0,
       j ∈ l -> snap_idx_back pa !! j = Some ib ->
       resolve n (ib - IDX_ORGN) = Some k -> flag_source st0 !! k = Some f0 ->
       flag_source s' !! k = Some (Z.lor f0 (I_DEAD + I_OLD)).
Proof.
  induction l as [|j0 l IH]; intros s s' Hok0 Hsw Hloop.
  { injection Hloop as <-. split; [exact Hsw|]. by intros j ib k f0 ?%elem_of_nil. }
  simpl in Hloop. apply bind_Some in Hloop as (s1 & Hb & Hloop).
  assert (sweeping n (I_DEAD + I_OLD) st0 s1) as Hsw1
    by (by eapply age_sweep_body_sweeping).
  destruct (IH s1 s' Hok0 Hsw1 Hloop) as [Hsw' Hrest].
  split; [exact Hsw'|].
  intros j ib k f0 Hj Hib Hk Hf0.
  apply elem_of_cons in Hj as [-> | Hj]; [|by eapply Hrest].
  unfold age_sweep_body in Hb. rewrite Hib in Hb. simpl in Hb.
  apply bind_Some in Hb as (g0 & Hg0 & Hb). apply bind_Some in Hb as (fl & Hset & Hb).
  apply bind_Some in Hb as (vx & Hvx & Hb). apply bind_Some in Hb as (vy & Hvy & Hb).
  apply bind_Some in Hb as (vp & Hvp & Hb). apply bind_Some in Hb as (vt & Hvt & Hb).
  apply bind_Some in Hb as (start & Hstart & Hb).
  apply bind_Some in Hb as (m & Hm & Hb). injection Hb as <-.
  destruct (sweeping_write _ _ _ _ _ _ _ _ _ _ _ _ _ _ Hok0 Hsw Hg0 Hset Hm)
    as (_ & k' & Hk' & Hk0 & -> & _).
  assert (k' = k) as -> by congruence. assert (g0 = f0) as -> by congruence.
  refine (proj2 (age_sweep_keeps_mark n pa irs st0 l _ s' k f0 Hok0 Hsw1 Hloop Hf0 _)).
  simpl. apply list_lookup_insert_eq.
  destruct Hsw as (Hoks & _). rewrite (ok_flag _ _ Hoks). by eapply resolve_lt.
Qed.

Lemma stop_lor f bits : Z.land f I_STOP <> 0 -> Z.land (Z.lor f bits) I_STOP <> 0.
Proof.
  intros H E. apply H. apply Z.bits_inj'. intros b _.
  pose proof (f_equal (fun z => Z.testbit z b) E) as Eb. cbv beta in Eb.
  rewrite Z.land_spec, Z.lor_spec, Z.bits_0 in Eb.
  rewrite Z.land_spec, Z.bits_0.
  destruct (Z.testbit f b), (Z.testbit I_STOP b); cbn [andb orb] in *; congruence.
Qed.

Lemma stop_marked f : Z.land (Z.lor f (I_DEAD + I_OLD)) I_STOP <> 0.
Proof.
  intros E. pose proof (f_equal (fun z => Z.testbit z 21) E) as Eb. cbv beta in Eb.
  rewrite Z.land_spec, Z.lor_spec, Z.bits_0 in Eb.
  change (Z.testbit (I_DEAD + I_OLD) 21) with true in Eb.
  change (Z.testbit I_STOP 21) with true in Eb.
  rewrite orb_true_r in Eb. discriminate.
Qed.

Lemma np_where_none (m : list bool) : Forall (fun b => b = false) m -> np_where m = [].
Proof.
  intros H. unfold np_where. apply elem_of_nil_inv. intros j Hj.
  apply list_elem_of_filter in Hj as [Hj _]. rewrite Forall_forall in H.
  specialize (H true (list_elem_of_lookup_2 _ _ _ Hj)). discriminate.
Qed.
End SweepTwice.

(** X21: Sweeping twice changes nothing more: after the age-limit sweep, the
    same sweep on the same snapshot selects no parcel, leaves the table as
    it is and counts 0. *)
Theorem age_sweep_once IDX_ORGN n age_bound pa irs st st' c :
  Parcels.table_ok n st ->
  Parcels.age_sweep IDX_ORGN age_bound pa irs st = Some (st', c) ->
  Parcels.age_sweep IDX_ORGN age_bound pa irs st' = Some (st', 0%nat).
Proof.
  intros Hok H. unfold Parcels.age_sweep in H.
  apply bind_Some in H as (sel & Hsel & H). apply bind_Some in H as (st1 & Hloop & H).
  injection H as -> _.
  destruct (age_sweep_marks IDX_ORGN n pa irs st _ st st' Hok
              (sweeping_start n _ st Hok) Hloop) as [Hsw Hmarks].
  destruct Hsw as (Hok' & _ & _ & _ & _ & Hflag).
  assert (mapM (Parcels.old_test IDX_ORGN age_bound pa irs st')
               (Parcels.snap_idx_back pa)
          = Some ((fun _ => false) <$> Parcels.snap_idx_back pa)) as Hsel'.
  { apply mapM_Some. apply Forall2_fmap_r, Forall2_same_length_lookup.
    split; [reflexivity|]. intros j ib ib' Hib Hib'.
    assert (ib' = ib) as -> by congruence.
    apply mapM_Some in Hsel. destruct (Forall2_lookup_l _ _ _ _ _ Hsel Hib) as (v & Hv & Ht).
    unfold Parcels.old_test in Ht |- *.
    apply bind_Some in Ht as (start & Hstart & Ht).
    apply bind_Some in Ht as (f & Hf & Ht). injection Ht as Ht.
    rewrite Hstart. simpl.
    apply aget_lookup in Hf as (k & Hk & Hf). rewrite (Parcels.ok_flag _ _ Hok) in Hk.
    assert (forall f', Parcels.flag_source st' !! k = Some f' ->
              aget (Parcels.flag_source st') (ib - IDX_ORGN) = Some f') as Hget.
    { intros f' Hf'. apply aget_lookup. exists k.
      by rewrite (Parcels.ok_flag _ _ Hok'). }
    destruct (Rgt_dec _ _) as [Hage | Hage]; simpl in Ht.
    2:{ destruct (Hflag k f Hf) as [Hf' | Hf']; rewrite (Hget _ Hf'); reflexivity. }
    destruct (Z.eqb_spec (Z.land f Parcels.I_STOP) 0) as [Hstop | Hstop].
    - assert (j ∈ Parcels.np_where sel) as Hj.
      { apply np_where_spec. by rewrite Hv, <- Ht. }
      rewrite (Hget _ (Hmarks j ib k f Hj Hib Hk Hf)). simpl. f_equal.
      apply Z.eqb_neq, stop_marked.
    - destruct (Hflag k f Hf) as [Hf' | Hf']; rewrite (Hget _ Hf'); simpl; f_equal;
        apply Z.eqb_neq; [exact Hstop | by apply stop_lor]. }
  unfold Parcels.age_sweep. rewrite Hsel'. simpl.
  rewrite np_where_none by (apply Forall_fmap, Forall_forall; by intros). reflexivity.
Qed.

Lemma age_sweep_once_witness :
  exists st' c,
    Parcels.age_sweep 0 Parcels.main_age_bound Scenario.snap0 [0; 0] Scenario.table0
    = Some (st', c)
    /\ Parcels.age_sweep 0 Parcels.main_age_bound Scenario.snap0 [0; 0] st'
       = Some (st', 0%nat).
Proof.
  destruct (age_sweep_selected 0 2 Parcels.main_age_bound Scenario.snap0 [0; 0]
              Scenario.table0 0%nat 0 0%nat 0 0 1%R 2%R 20000%R 250%R
              scenario_table_ok eq_refl scenario_snapshot_ok eq_refl eq_refl eq_refl
              eq_refl eq_refl scenario_age eq_refl eq_refl eq_refl eq_refl)
    as (st' & c & H & _).
  exists st', c. split; [exact H|].
  exact (age_sweep_once 0 2 Parcels.main_age_bound Scenario.snap0 [0; 0]
           Scenario.table0 st' c scenario_table_ok H).
Defined.

(** ** The deadborne sweep *)

Section Deadborne.
Import Parcels.
Variable IDX_ORGN : Z.
Variables (n : nat) (p0 : launch) (st0 : prod) (ids : list Z).
Hypothesis Hok0 : table_ok n st0.
Hypothesis Hx : length (launch_x p0) = n.
Hypothesis Hy : length (launch_y p0) = n.
Hypothesis Hp : length (launch_p p0) = n.
Hypothesis Ht : length (launch_t p0) = n.
(** Every identifier of the list designates a parcel of the table. *)
Hypothesis Hids : forall v, v ∈ ids -> 0 <= v - IDX_ORGN < Z.of_nat n.


Lemma deadborne_body_effect j v st st' :
  sweeping n (I_DEAD + I_DBORNE) st0 st -> ids !! j = Some v ->
  deadborne_body IDX_ORGN p0 st0 ids j st = Some st' ->
  let k := Z.to_nat (v - IDX_ORGN) in
  sweeping n (I_DEAD + I_DBORNE) st0 st' /\ only_at k st st'
  /\ exists f0 vx vy vp vt,
       flag_source st0 !! k = Some f0
       /\ flag_source st' !! k = Some (Z.lor f0 (I_DEAD + I_DBORNE))
       /\ launch_x p0 !! k = Some vx /\ launch_y p0 !! k = Some vy
       /\ launch_p p0 !! k = Some vp /\ launch_t p0 !! k = Some vt
       /\ milestone (src st') 0 k = Some (vx, vy, vp, vt, 0%R).
Proof using Hok0 Hx Hy Hp Ht Hids.
  intros Hsw Hv Hb k. unfold deadborne_body in Hb. rewrite Hv in Hb. simpl in Hb.
  pose proof (Hids v (list_elem_of_lookup_2 _ _ _ Hv)) as Hrange.
  assert (resolve n (v - IDX_ORGN) = Some k) as Hk by (by apply resolve_nonneg).
  apply bind_Some in Hb as (f0 & Hf0 & Hb). apply bind_Some in Hb as (fl & Hset & Hb).
  apply bind_Some in Hb as (vx & Hvx & Hb). apply bind_Some in Hb as (vy & Hvy & Hb).
  apply bind_Some in Hb as (vp & Hvp & Hb). apply bind_Some in Hb as (vt & Hvt & Hb).
  apply bind_Some in Hb as (m & Hm & Hb). injection Hb as <-.
  destruct (sweeping_write _ _ _ _ _ _ _ _ _ _ _ _ _ _ Hok0 Hsw Hf0 Hset Hm)
    as (Hsw' & k' & Hk' & Hk0 & -> & Hslots & _ & Hslot).
  assert (k' = k) as -> by congruence.
  split; [exact Hsw'|]. split; [by apply set_flag_src_only_at|].
  exists f0, vx, vy, vp, vt. split; [exact Hk0|]. split.
  { simpl. apply list_lookup_insert_eq. destruct Hsw as (Hoks & _).
    rewrite (ok_flag _ _ Hoks). by eapply resolve_lt. }
  rewrite <- Hx in Hk at 1. rewrite (aget_resolved _ _ _ Hk) in Hvx.
  rewrite Hx, <- Hy in Hk. rewrite (aget_resolved _ _ _ Hk) in Hvy.
  rewrite Hy, <- Hp in Hk. rewrite (aget_resolved _ _ _ Hk) in Hvp.
  rewrite Hp, <- Ht in Hk. rewrite (aget_resolved _ _ _ Hk) in Hvt.
  by repeat split.
Qed.

Lemma deadborne_body_total j v st :
  sweeping n (I_DEAD + I_DBORNE) st0 st -> ids !! j = Some v ->
  exists st', deadborne_body IDX_ORGN p0 st0 ids j st = Some st'.
Proof using Hok0 Hx Hy Hp Ht Hids.
  intros Hsw Hv. unfold deadborne_body. rewrite Hv. simpl.
  pose proof (Hids v (list_elem_of_lookup_2 _ _ _ Hv)) as Hrange.
  assert (resolve n (v - IDX_ORGN) = Some (Z.to_nat (v - IDX_ORGN))) as Hk
    by (by apply resolve_nonneg).
  destruct Hsw as (Hoks & _).
  assert (forall (A : Type) (a : list A), length a = n ->
            exists w, aget a (v - IDX_ORGN) = Some w) as Hget.
  { intros A a Ha. rewrite <- Ha in Hk.
    destruct (aget_total _ _ _ Hk) as (w & Hw & _). by exists w. }
  destruct (Hget _ _ (ok_flag _ _ Hok0)) as [f0 ->]. simpl.
  rewrite <- (ok_flag _ _ Hoks) in Hk. rewrite (aset_resolved _ _ _ _ Hk). simpl.
  rewrite (ok_flag _ _ Hoks) in Hk.
  destruct (Hget _ _ Hx) as [vx ->]. destruct (Hget _ _ Hy) as [vy ->].
  destruct (Hget _ _ Hp) as [vp ->]. destruct (Hget _ _ Ht) as [vt ->]. simpl.
  destruct (archive_total n 0 (v - IDX_ORGN) vx vy vp vt 0%R (src st) _
              (ok_src _ _ Hoks) ltac:(lia) Hk) as [m ->].
  simpl. by eexists.
Qed.

(** The loop over a list of positions that hold distinct identifiers. *)
Lemma deadborne_loop l : forall st st',
  NoDup l ->
  (forall j1 j2 v, j1 ∈ l -> j2 ∈ l -> ids !! j1 = Some v -> ids !! j2 = Some v ->
     j1 = j2) ->
  sweeping n (I_DEAD + I_DBORNE) st0 st ->
  for_each (deadborne_body IDX_ORGN p0 st0 ids) l st = Some st' ->
  sweeping n (I_DEAD + I_DBORNE) st0 st'
  /\ (forall k, (forall j v, j ∈ l -> ids !! j = Some v -> Z.to_nat (v - IDX_ORGN) <> k) ->
        parcel_at st' k = parcel_at st k)
  /\ (forall j v, j ∈ l -> ids !! j = Some v ->
        let k := Z.to_nat (v - IDX_ORGN) in
        exists f0 vx vy vp vt,
          flag_source st0 !! k = Some f0
          /\ flag_source st' !! k = Some (Z.lor f0 (I_DEAD + I_DBORNE))
          /\ launch_x p0 !! k = Some vx /\ launch_y p0 !! k = Some vy
          /\ launch_p p0 !! k = Some vp /\ launch_t p0 !! k = Some vt
          /\ milestone (src st') 0 k = Some (vx, vy, vp, vt, 0%R)).
Proof using Hok0 Hx Hy Hp Ht Hids.
  induction l as [|j0 l IH]; intros st st' Hnd Hinj Hsw Hloop.
  { injection Hloop as <-. split; [exact Hsw|]. split; [done|].
    by intros j v ?%elem_of_nil. }
  simpl in Hloop. apply bind_Some in Hloop as (s1 & Hb & Hloop).
  apply NoDup_cons in Hnd as [Hj0 Hnd].
  assert (is_Some (ids !! j0)) as [v0 Hv0].
  { unfold deadborne_body in Hb. destruct (ids !! j0); [by eexists | discriminate]. }
  destruct (deadborne_body_effect j0 v0 st s1 Hsw Hv0 Hb) as (Hsw1 & Hother & Hmark).
  destruct (IH s1 st' Hnd) as (Hsw' & Huntouched & Hmarks); trivial.
  { intros j1 j2 v H1 H2. apply Hinj; by right. }
  split; [exact Hsw'|]. split.
  - intros k Hk. rewrite Huntouched.
    + apply Hother. intros ->. apply (Hk j0 v0); [by left | done | done].
    + intros j v Hj. apply Hk. by right.
  - intros j v Hj Hv k. apply elem_of_cons in Hj as [-> | Hj]; [|by apply (Hmarks j v)].
    assert (v = v0) as -> by congruence.
    destruct Hmark as (f0 & vx & vy & vp & vt & Hf0 & Hfl & Hvx & Hvy & Hvp & Hvt & Hm).
    assert (parcel_at st' k = parcel_at s1 k) as E.
    { apply Huntouched. intros j v Hj Hv' Heq.
      assert (v = v0) as ->.
      { pose proof (Hids v (list_elem_of_lookup_2 _ _ _ Hv')).
        pose proof (Hids v0 (list_elem_of_lookup_2 _ _ _ Hv0)).
        unfold k in Heq. lia. }
      assert (j = j0) as E0 by (apply (Hinj j j0 v0); first [done | by right | by left]).
      apply Hj0. by rewrite <- E0. }
    pose proof (f_equal p_flag E) as Ef. pose proof (f_equal p_slots E) as Es.
    cbn [parcel_at p_flag p_slots] in Ef, Es.
    exists f0, vx, vy, vp, vt. rewrite Ef.
    repeat (split; [assumption|]).
    by rewrite (slots_milestone _ _ _ _ Es).
Qed.
End Deadborne.

Section Arange.
Import Parcels.

Lemma elem_of_arange a b v : v ∈ arange a b <-> a <= v < b.
Proof.
  unfold arange. rewrite list_elem_of_fmap. split.
  - intros (k & -> & Hk). apply elem_of_seq in Hk. lia.
  - intros H. exists (Z.to_nat (v - a)). split; [lia|]. apply elem_of_seq. lia.
Qed.

Lemma NoDup_arange a b : NoDup (arange a b).
Proof.
  unfold arange. apply NoDup_fmap_2; [|apply NoDup_seq].
  intros x y H. lia.
Qed.
End Arange.

(** X22: The deadborne sweep of [main], for a range of identifiers that
    designate parcels of the table: it marks DEAD and DBORNE exactly the
    parcels of the range whose identifier is absent from the active ones,
    archives for each its launch position, pressure and temperature with
    the age 0 in milestone slot 0, and leaves every other parcel as it
    is; it counts the parcels it has marked. *)
Theorem deadborne_marks_missing IDX_ORGN n p0 idx1 numpart_s idx_act st :
  Parcels.table_ok n st ->
  length (Parcels.launch_x p0) = n -> length (Parcels.launch_y p0) = n ->
  length (Parcels.launch_p p0) = n -> length (Parcels.launch_t p0) = n ->
  IDX_ORGN <= idx1 -> numpart_s <= Z.of_nat n ->
  exists st',
    Parcels.deadborne IDX_ORGN p0 idx1 numpart_s idx_act st
    = Some (st', length (filter (fun v => v ∉ idx_act)
                           (Parcels.arange idx1 (numpart_s + IDX_ORGN))))
    /\ forall (k : nat) f,
         Parcels.flag_source st !! k = Some f ->
         let v := Z.of_nat k + IDX_ORGN in
         (idx1 <= v < numpart_s + IDX_ORGN /\ v ∉ idx_act ->
            Parcels.flag_source st' !! k
            = Some (Z.lor f (Parcels.I_DEAD + Parcels.I_DBORNE))
            /\ exists vx vy vp vt,
                 Parcels.launch_x p0 !! k = Some vx /\ Parcels.launch_y p0 !! k = Some vy
                 /\ Parcels.launch_p p0 !! k = Some vp
                 /\ Parcels.launch_t p0 !! k = Some vt
                 /\ Parcels.milestone (Parcels.src st') 0 k
                    = Some (vx, vy, vp, vt, 0%R))
         /\ (~ (idx1 <= v < numpart_s + IDX_ORGN /\ v ∉ idx_act) ->
               Parcels.parcel_at st' k = Parcels.parcel_at st k).
Proof.
  intros Hok Hx Hy Hp Ht Hlo Hhi.
  set (ids := filter (fun v => v ∉ idx_act)
                (Parcels.arange idx1 (numpart_s + IDX_ORGN))).
  assert (forall v, v ∈ ids <-> (idx1 <= v < numpart_s + IDX_ORGN) /\ v ∉ idx_act) as Hin.
  { intros v. unfold ids. rewrite list_elem_of_filter, elem_of_arange. tauto. }
  assert (forall v, v ∈ ids -> 0 <= v - IDX_ORGN < Z.of_nat n) as Hids.
  { intros v Hv. apply Hin in Hv. lia. }
  assert (NoDup ids) as Hnd by (apply NoDup_filter, NoDup_arange).
  destruct (for_each_total (Parcels.sweeping n (Parcels.I_DEAD + Parcels.I_DBORNE) st)
              (Parcels.deadborne_body IDX_ORGN p0 st ids) (seq 0 (length ids)))
    with (s := st) as (st' & Hloop & _).
  { intros j s Hj Hs. apply elem_of_seq in Hj.
    destruct (lookup_lt_is_Some_2 ids j) as [v Hv]; [lia|].
    destruct (deadborne_body_total IDX_ORGN n p0 st ids Hok Hx Hy Hp Ht Hids j v s Hs Hv)
      as [s' Hs'].
    exists s'. split; [exact Hs'|].
    by destruct (deadborne_body_effect IDX_ORGN n p0 st ids Hok Hx Hy Hp Ht Hids
                   j v s s' Hs Hv Hs'). }
  { by apply sweeping_start. }
  exists st'. split.
  { unfold Parcels.deadborne, for_range. fold ids. by rewrite Hloop. }
  destruct (deadborne_loop IDX_ORGN n p0 st ids Hok Hx Hy Hp Ht Hids
              (seq 0 (length ids)) st st') as (_ & Huntouched & Hmarks);
    [apply NoDup_seq | | by apply sweeping_start | exact Hloop |].
  { intros j1 j2 v _ _ H1 H2. by eapply NoDup_lookup. }
  intros k f Hf v. split.
  - intros Hv. apply Hin in Hv. apply list_elem_of_lookup_1 in Hv as [j Hj].
    destruct (Hmarks j v) as (f0 & vx & vy & vp & vt & Hf0 & Hfl & Hrest);
      [apply elem_of_seq; apply lookup_lt_Some in Hj; lia | exact Hj |].
    replace (Z.to_nat (v - IDX_ORGN)) with k in * by (unfold v; lia).
    assert (f0 = f) as -> by congruence.
    split; [exact Hfl|]. by exists vx, vy, vp, vt.
  - intros Hv. apply Huntouched. intros j w _ Hw Heq. apply Hv, Hin.
    pose proof (Hids w (list_elem_of_lookup_2 _ _ _ Hw)).
    replace v with w by (unfold v; lia). by eapply list_elem_of_lookup_2.
Qed.

Lemma deadborne_marks_missing_witness :
  exists st',
    Parcels.deadborne 0 Scenario.launch0 0 2 [1] Scenario.table0 = Some (st', 1%nat)
    /\ Parcels.flag_source st' !! 0%nat
       = Some (Z.lor 0 (Parcels.I_DEAD + Parcels.I_DBORNE))
    /\ Parcels.parcel_at st' 1 = Parcels.parcel_at Scenario.table0 1.
Proof.
  destruct (deadborne_marks_missing 0 2 Scenario.launch0 0 2 [1] Scenario.table0
              scenario_table_ok eq_refl eq_refl eq_refl eq_refl ltac:(lia) ltac:(lia))
    as (st' & H & Hall).
  exists st'. split; [exact H|]. split.
  - apply (Hall 0%nat 0 eq_refl). split; [simpl; lia|].
    intros Hin. apply list_elem_of_singleton in Hin. discriminate.
  - apply (Hall 1%nat Parcels.I_DEAD eq_refl). intros [_ Hn]. apply Hn.
    by apply list_elem_of_singleton.
Defined.
